(** * myOwnRedis: a shallow embedding of the data plane

    The development follows the repository's C++ sources:

    - [str_hash] (hashtable.h): 64-bit FNV-1a over a byte span;
    - the intrusive chained hash table with progressive rehashing
      (hashtable.cpp), in its two variants: the [migrate_pos] variant that
      the key-value server links, and the earlier [resizing_pos] variant;
    - the command dispatcher of the TLV server (server.cpp);
    - the order-statistic AVL tree (avl.h, avl.cpp), on an explicit heap of
      nodes with parent, left and right pointers;
    - the ordered set (zset.cpp) that pairs the tree with a hash index.

    Modelling conventions.  A [uint64_t], [uint32_t] or [size_t] is a [Z]
    whose wrap-around is written out where the code can reach it.  A
    [std::string] is a [string]; a [std::vector<uint8_t>] is a [list byte].
    A hash chain (a singly linked list threaded through [HNode::next]) is the
    list of the node pointers on it, head first; a slot array is a list of
    chains.  AVL nodes live in a heap [gmap positive AVLNode]; a null pointer
    is [None], and dereferencing a null or dangling pointer makes the
    operation return [None]. *)

From Stdlib Require Import ZArith Lia List String Ascii.
From Stdlib.Strings Require Import Byte.
From stdpp Require Import base option list sorting gmap.

Local Open Scope Z_scope.

(** * Part I: the code *)

(** ** hashtable.h: [str_hash] *)

Module Fnv.

Definition FNV_OFFSET : Z := 1469598103934665603.
Definition FNV_PRIME : Z := 1099511628211.

(** Arithmetic on [uint64_t] is modulo [2^64]. *)
Definition u64 (x : Z) : Z := x mod 2 ^ 64.

(** [p[i]] for a span given as a list of bytes; the loop only reads inside
    the span, the default is never used there. *)
Definition byte_at (p : list byte) (i : nat) : Z :=
  Z.of_N (Byte.to_N (nth i p x00)).

(** The loop [for (size_t i = 0; i < n; ++i) { h ^= p[i]; h *= FNV_PRIME; }]
    with [todo = n - i] iterations left. *)
Fixpoint str_hash_loop (p : list byte) (i : nat) (todo : nat) (h : Z) : Z :=
  match todo with
  | O => h
  | S todo' =>
      let h1 := Z.lxor h (byte_at p i) in
      let h2 := u64 (h1 * FNV_PRIME) in
      str_hash_loop p (S i) todo' h2
  end.

Definition str_hash (p : list byte) : Z :=
  str_hash_loop p 0 (length p) FNV_OFFSET.

(** The reference definition of 64-bit FNV-1a, as the specification words
    it: start from the offset basis; for each byte, XOR it into the
    accumulator, then multiply by the prime (modulo [2^64]). *)
Definition fnv1a_step (h : Z) (b : byte) : Z :=
  (Z.lxor h (Z.of_N (Byte.to_N b)) * 1099511628211) mod 18446744073709551616.

Definition fnv1a_64 (bs : list byte) : Z :=
  fold_left fnv1a_step bs 14695981039346656037.

End Fnv.

(** ** hashtable.cpp, the [migrate_pos] variant

    [Node] is the type of [HNode*] pointers.  The hash code cached in a node
    is read through [hcode]; the table never writes it.  [eq] is the
    intrusive equality callback [h_eq_fn].  An operation returns [None] where
    the C++ code fails an [assert] or reads outside a slot array. *)

Module HashTable.

Section Code.
Context {Node : Type}.
Variable hcode : Node -> Z.
Variable eq : Node -> Node -> bool.

Record HTab := mkHTab {
  tab : option (list (list Node));  (* slot array; [None] is [nullptr] *)
  mask : Z;                         (* size = mask+1; power of 2 *)
  size : Z                          (* number of nodes *)
}.

Record HMap := mkHMap {
  newer : HTab;        (* active table *)
  older : HTab;        (* migrating-from table *)
  migrate_pos : Z      (* next slot to migrate *)
}.

(** [HTab{}] *)
Definition HTab_zero : HTab := mkHTab None 0 0.

(** The indirect cursor [HNode**]: the slot, and how many nodes of the chain
    precede the pointer it addresses. *)
Definition cursor : Type := nat * nat.

Definition is_pow2 (n : Z) : bool :=
  negb (n =? 0) && (Z.land n (n - 1) =? 0).

Definition h_init (n : Z) : option HTab :=
  if is_pow2 n
  then Some (mkHTab (Some (replicate (Z.to_nat n) [])) (n - 1) 0)
  else None.

Definition slot_of (ht : HTab) (node : Node) : nat :=
  Z.to_nat (Z.land (hcode node) (mask ht)).

Definition h_insert (ht : HTab) (node : Node) : option HTab :=
  t ← tab ht;
  let pos := slot_of ht node in
  chain ← t !! pos;
  Some (mkHTab (Some (<[pos := node :: chain]> t)) (mask ht) (size ht + 1)).

(** The chain walk of [h_lookup]; [i] counts the nodes already passed. *)
Fixpoint chain_find (chain : list Node) (key : Node) (i : nat) : option nat :=
  match chain with
  | [] => None
  | cur :: rest =>
      if (hcode cur =? hcode key) && eq cur key then Some i
      else chain_find rest key (S i)
  end.

Definition h_lookup (ht : HTab) (key : Node) : option (option cursor) :=
  match tab ht with
  | None => Some None
  | Some t =>
      let pos := slot_of ht key in
      chain ← t !! pos;
      Some (i ← chain_find chain key 0; Some (pos, i))
  end.

(** [*from] *)
Definition deref (ht : HTab) (from : cursor) : option Node :=
  t ← tab ht; chain ← t !! from.1; chain !! from.2.

Definition h_detach (ht : HTab) (from : cursor) : option (HTab * Node) :=
  t ← tab ht;
  chain ← t !! from.1;
  node ← chain !! from.2;
  Some (mkHTab (Some (<[from.1 := delete from.2 chain]> t)) (mask ht) (size ht - 1),
        node).

Definition k_max_load_factor : Z := 8.
Definition k_rehashing_work : Z := 128.

(** The [while] loop of [hm_help_rehashing].  Every iteration either moves a
    node or advances [migrate_pos]; [fuel] bounds the iterations. *)
Fixpoint help_loop (fuel : nat) (hmap : HMap) (moved : Z) : option (HMap * Z) :=
  if (moved <? k_rehashing_work) && (0 <? size (older hmap)) then
    match fuel with
    | O => None
    | S fuel' =>
        if mask (older hmap) <? migrate_pos hmap then Some (hmap, moved)
        else
          let slot : cursor := (Z.to_nat (migrate_pos hmap), O) in
          t ← tab (older hmap);
          chain ← t !! slot.1;
          match chain with
          | [] =>
              help_loop fuel'
                (mkHMap (newer hmap) (older hmap) (migrate_pos hmap + 1)) moved
          | _ :: _ =>
              '(older', node) ← h_detach (older hmap) slot;
              newer' ← h_insert (newer hmap) node;
              help_loop fuel' (mkHMap newer' older' (migrate_pos hmap)) (moved + 1)
          end
    end
  else Some (hmap, moved).

Definition help_fuel (hmap : HMap) : nat :=
  S (Z.to_nat k_rehashing_work + Z.to_nat (mask (older hmap) + 1 - migrate_pos hmap)).

Definition hm_help_rehashing (hmap : HMap) : option HMap :=
  match tab (older hmap) with
  | None => Some hmap
  | Some _ =>
      '(hmap1, _) ← help_loop (help_fuel hmap) hmap 0;
      if size (older hmap1) =? 0
      then Some (mkHMap (newer hmap1) HTab_zero (migrate_pos hmap1))
      else Some hmap1
  end.

Definition hm_trigger_rehashing (hmap : HMap) : option HMap :=
  let older' := newer hmap in
  newer' ← h_init ((mask older' + 1) * 2);
  Some (mkHMap newer' older' 0).

Definition hm_init : option HMap :=
  newer' ← h_init 4;
  Some (mkHMap newer' HTab_zero 0).

Definition hm_lookup (hmap : HMap) (key : Node) : option (HMap * option Node) :=
  hmap ← hm_help_rehashing hmap;
  from ← h_lookup (newer hmap) key;
  match from with
  | Some from => n ← deref (newer hmap) from; Some (hmap, Some n)
  | None =>
      from ← h_lookup (older hmap) key;
      match from with
      | Some from => n ← deref (older hmap) from; Some (hmap, Some n)
      | None => Some (hmap, None)
      end
  end.

Definition hm_insert (hmap : HMap) (node : Node) : option HMap :=
  newer0 ← (match tab (newer hmap) with
            | None => h_init 4
            | Some _ => Some (newer hmap)
            end);
  newer1 ← h_insert newer0 node;
  let hmap1 := mkHMap newer1 (older hmap) (migrate_pos hmap) in
  hmap2 ← (match tab (older hmap1) with
           | None =>
               let capacity := mask (newer hmap1) + 1 in
               if capacity * k_max_load_factor <=? size (newer hmap1)
               then hm_trigger_rehashing hmap1
               else Some hmap1
           | Some _ => Some hmap1
           end);
  hm_help_rehashing hmap2.

Definition hm_delete (hmap : HMap) (key : Node) : option (HMap * option Node) :=
  hmap ← hm_help_rehashing hmap;
  from ← h_lookup (newer hmap) key;
  match from with
  | Some from =>
      '(newer', n) ← h_detach (newer hmap) from;
      Some (mkHMap newer' (older hmap) (migrate_pos hmap), Some n)
  | None =>
      from ← h_lookup (older hmap) key;
      match from with
      | Some from =>
          '(older', n) ← h_detach (older hmap) from;
          Some (mkHMap (newer hmap) older' (migrate_pos hmap), Some n)
      | None => Some (hmap, None)
      end
  end.

End Code.

Arguments HTab : clear implicits.
Arguments HMap : clear implicits.

End HashTable.

(** ** hashtable.cpp, the [resizing_pos] variant

    The earlier variant of the map, the one that declares [hm_destroy] and
    that zset.cpp is written against.  Its [h_init], [h_insert], [h_lookup]
    and [h_detach] are the functions of the [migrate_pos] variant up to the
    names of locals, and are shared with it.  Here [older] is the table
    being filled and [newer] the one being drained, slot by slot. *)

Module HashTableResizing.

Import HashTable.

Section Code.
Context {Node : Type}.
Variable hcode : Node -> Z.
Variable eq : Node -> Node -> bool.

Record HMap := mkHMap {
  newer : HTab Node;
  older : HTab Node;
  resizing_pos : Z
}.

Definition h_destroy (ht : HTab Node) : HTab Node := mkHTab None 0 0.

Definition is_some {A} (o : option A) : bool :=
  match o with Some _ => true | None => false end.

Definition hm_start_resizing (hmap : HMap) : option HMap :=
  if is_some (tab (newer hmap)) && negb (is_some (tab (older hmap))) then
    let n := (mask (newer hmap) + 1) * 2 in
    let n := if n <? 4 then 4 else n in
    older' ← h_init n;
    Some (mkHMap (newer hmap) older' 0)
  else None.   (* assert *)

(** The inner loop [while (node) { next = node->next; h_insert(older, node);
    node = next; }] over the chain that was unhooked from the slot. *)
Fixpoint move_chain (chain : list Node) (ht : HTab Node) : option (HTab Node) :=
  match chain with
  | [] => Some ht
  | node :: next =>
      ht' ← h_insert hcode ht node;
      move_chain next ht'
  end.

(** The outer loop, [todo] bounding the iterations left before
    [nmove] reaches 64. *)
Fixpoint help_loop (todo : nat) (hmap : HMap) : option HMap :=
  match todo with
  | O => Some hmap
  | S todo' =>
      if resizing_pos hmap <=? mask (newer hmap) then
        t ← tab (newer hmap);
        let pos := Z.to_nat (resizing_pos hmap) in
        node ← t !! pos;
        let newer' := mkHTab (Some (<[pos := []]> t)) (mask (newer hmap)) (size (newer hmap)) in
        older' ← move_chain node (older hmap);
        help_loop todo' (mkHMap newer' older' (resizing_pos hmap + 1))
      else Some hmap
  end.

Definition hm_help_rehashing (hmap : HMap) : option HMap :=
  match tab (older hmap) with
  | None => Some hmap    (* not resizing *)
  | Some _ =>
      hmap1 ← help_loop 64 hmap;
      if mask (newer hmap1) <? resizing_pos hmap1 then
        (* done *)
        Some (mkHMap (older hmap1) (mkHTab None 0 0) 0)
      else Some hmap1
  end.

Definition hm_init : option HMap :=
  newer' ← h_init 4;
  Some (mkHMap newer' (mkHTab None 0 0) 0).

Definition hm_destroy (hmap : HMap) : HMap :=
  mkHMap (h_destroy (newer hmap)) (h_destroy (older hmap)) 0.

Definition hm_primary (hmap : HMap) : HTab Node := newer hmap.

Definition hm_maybe_start_resizing (hmap : HMap) : option HMap :=
  let ht := hm_primary hmap in
  if (mask ht + 1) * 2 <=? size ht   (* load factor 2.0 *)
  then hm_start_resizing hmap
  else Some hmap.

Definition hm_insert (hmap : HMap) (node : Node) : option HMap :=
  hmap ← hm_help_rehashing hmap;
  newer' ← h_insert hcode (hm_primary hmap) node;
  hm_maybe_start_resizing (mkHMap newer' (older hmap) (resizing_pos hmap)).

Definition hm_lookup (hmap : HMap) (key : Node) : option (HMap * option Node) :=
  hmap ← hm_help_rehashing hmap;
  from ← h_lookup hcode eq (newer hmap) key;
  match from with
  | Some from => n ← deref (newer hmap) from; Some (hmap, Some n)
  | None =>
      match tab (older hmap) with
      | Some _ =>
          from ← h_lookup hcode eq (older hmap) key;
          match from with
          | Some from => n ← deref (older hmap) from; Some (hmap, Some n)
          | None => Some (hmap, None)
          end
      | None => Some (hmap, None)
      end
  end.

Definition hm_delete (hmap : HMap) (key : Node) : option (HMap * option Node) :=
  hmap ← hm_help_rehashing hmap;
  from ← h_lookup hcode eq (newer hmap) key;
  match from with
  | Some from =>
      '(newer', n) ← h_detach (newer hmap) from;
      Some (mkHMap newer' (older hmap) (resizing_pos hmap), Some n)
  | None =>
      match tab (older hmap) with
      | Some _ =>
          from ← h_lookup hcode eq (older hmap) key;
          match from with
          | Some from =>
              '(older', n) ← h_detach (older hmap) from;
              Some (mkHMap (newer hmap) older' (resizing_pos hmap), Some n)
          | None => Some (hmap, None)
          end
      | None => Some (hmap, None)
      end
  end.

End Code.

Arguments HMap : clear implicits.

End HashTableResizing.

(** ** server.cpp: the TLV key-value server

    The database [g_data.db] is an [HMap] of [HNode*] pointers.  A pointer
    either addresses the [node] member of a heap-allocated [Entry]
    ([EntryNode]), or the [node] member of a [LookupKey] on the caller's
    stack ([KeyNode]).  [container_of] on the wrong kind of pointer is
    undefined behaviour and makes the command return [None]. *)

Module Server.

Import HashTable.

Definition Buffer : Type := list byte.

Definition k_max_msg : Z := Z.shiftl 32 20.       (* 32 MB *)
Definition k_max_args : Z := 200 * 1000.          (* safety *)

Record Conn := mkConn {
  fd : Z;
  want_read : bool;
  want_write : bool;
  want_close : bool;
  incoming : Buffer;   (* bytes to parse *)
  outgoing : Buffer    (* framed TLV responses *)
}.

(** *** Little-endian scalars *)

Definition byte_of_Z (z : Z) : byte :=
  match Byte.of_N (Z.to_N (z mod 256)) with
  | Some b => b
  | None => x00
  end.

(** The [n] low bytes of the two's complement representation of [v]. *)
Fixpoint le_bytes (n : nat) (v : Z) : list byte :=
  match n with
  | O => []
  | S n' => byte_of_Z v :: le_bytes n' (v / 256)
  end.

Fixpoint le_value (bs : list byte) : Z :=
  match bs with
  | [] => 0
  | b :: bs' => Z.of_N (Byte.to_N b) + 256 * le_value bs'
  end.

Definition buf_append (b : Buffer) (p : list byte) : Buffer := b ++ p.
Definition buf_consume (b : Buffer) (n : Z) : Buffer := drop (Z.to_nat n) b.

(** *** Protocol parse *)

(** The cursor [cur] and the fixed [end] are kept as the list of the bytes
    between them. *)
Definition read_u32 (cur : list byte) : option (Z * list byte) :=
  if (length cur <? 4)%nat then None
  else Some (le_value (take 4 cur), drop 4 cur).

Definition read_str (cur : list byte) (n : Z) : option (string * list byte) :=
  if Z.of_nat (length cur) <? n then None
  else Some (string_of_list_byte (take (Z.to_nat n) cur), drop (Z.to_nat n) cur).

(** [while (out.size() < nstr)], with [todo = nstr - out.size()]. *)
Fixpoint parse_strs (todo : nat) (cur : list byte) (out : list string)
  : option (list string * list byte) :=
  match todo with
  | O => Some (out, cur)
  | S todo' =>
      '(len, cur1) ← read_u32 cur;
      '(s, cur2) ← read_str cur1 len;
      parse_strs todo' cur2 (out ++ [s])
  end.

(** [None] is the return value [-1]. *)
Definition parse_req (data : list byte) : option (list string) :=
  '(nstr, cur) ← read_u32 data;
  if k_max_args <? nstr then None
  else
    '(out, cur') ← parse_strs (Z.to_nat nstr) cur [];
    match cur' with
    | [] => Some out
    | _ :: _ => None    (* trailing bytes *)
    end.

(** *** TLV serialization *)

Definition TAG_NIL : Z := 0.
Definition TAG_ERR : Z := 1.
Definition TAG_STR : Z := 2.
Definition TAG_INT : Z := 3.
Definition TAG_DBL : Z := 4.
Definition TAG_ARR : Z := 5.

Definition buf_append_u8 (buf : Buffer) (v : Z) : Buffer := buf ++ [byte_of_Z v].
Definition buf_append_u32 (buf : Buffer) (v : Z) : Buffer := buf_append buf (le_bytes 4 v).
Definition buf_append_i64 (buf : Buffer) (v : Z) : Buffer := buf_append buf (le_bytes 8 v).

Definition out_nil (out : Buffer) : Buffer := buf_append_u8 out TAG_NIL.

Definition out_str (out : Buffer) (s : string) : Buffer :=
  let n := Z.of_nat (String.length s) in
  let out := buf_append_u8 out TAG_STR in
  let out := buf_append_u32 out n in
  if n =? 0 then out else buf_append out (list_byte_of_string s).

Definition out_int (out : Buffer) (v : Z) : Buffer :=
  buf_append_i64 (buf_append_u8 out TAG_INT) v.

Definition out_arr (out : Buffer) (n_items : Z) : Buffer :=
  buf_append_u32 (buf_append_u8 out TAG_ARR) n_items.

Definition out_err_msg (out : Buffer) (m : string) : Buffer :=
  let out := buf_append_u8 out TAG_ERR in
  let mlen := Z.of_nat (String.length m) mod 2 ^ 32 in
  let out := buf_append_u32 out mlen in
  if mlen =? 0 then out else buf_append out (take (Z.to_nat mlen) (list_byte_of_string m)).

(** Outer 4-byte length prefix; [response_begin] returns the buffer and
    [header_pos]. *)
Definition response_begin (out : Buffer) : Buffer * Z :=
  (buf_append_u32 out 0, Z.of_nat (length out)).

Definition response_size (out : Buffer) (header_pos : Z) : Z :=
  Z.of_nat (length out) - header_pos - 4.

(** [memcpy(&out[header_pos], &len_le, 4)] *)
Definition patch_u32 (out : Buffer) (pos : Z) (v : Z) : Buffer :=
  take (Z.to_nat pos) out ++ le_bytes 4 v ++ drop (Z.to_nat pos + 4) out.

Definition response_end (out : Buffer) (header_pos : Z) : Buffer :=
  let body := response_size out header_pos in
  if k_max_msg <? body then
    let out := take (Z.to_nat (header_pos + 4)) out in
    let out := out_err_msg out "response too big" in
    patch_u32 out header_pos (response_size out header_pos)
  else patch_u32 out header_pos body.

(** *** Intrusive HT-backed database *)

Record Entry := mkEntry {
  e_hcode : Z;      (* node.hcode *)
  key : string;
  val : string
}.

Record LookupKey := mkLookupKey {
  lk_hcode : Z;     (* node.hcode *)
  lk_key : string
}.

Inductive HNodePtr :=
| EntryNode (a : positive)      (* &e->node for the Entry at address a *)
| KeyNode (lk : LookupKey).     (* &lk.node *)

(** [g_data], with the heap of the entries that [new Entry()] allocated. *)
Record Data := mkData {
  db : HMap HNodePtr;
  entries : gmap positive Entry
}.

Definition node_hcode (es : gmap positive Entry) (p : HNodePtr) : Z :=
  match p with
  | EntryNode a => match es !! a with Some e => e_hcode e | None => 0 end
  | KeyNode lk => lk_hcode lk
  end.

Definition key_eq (es : gmap positive Entry) (lhs rhs : HNodePtr) : bool :=
  match lhs, rhs with
  | EntryNode a, KeyNode rk =>
      match es !! a with
      | Some le => String.eqb (key le) (lk_key rk)
      | None => false
      end
  | _, _ => false
  end.

(** [container_of(n, Entry, node)] followed by a read of the entry. *)
Definition entry_of (es : gmap positive Entry) (n : HNodePtr) : option (positive * Entry) :=
  match n with
  | EntryNode a => e ← es !! a; Some (a, e)
  | KeyNode _ => None
  end.

Definition str_hash (s : string) : Z := Fnv.str_hash (list_byte_of_string s).

Definition for_each_htab_slot (t : HTab HNodePtr)
    (cb : HNodePtr -> Buffer -> option Buffer) (arg : Buffer) : option Buffer :=
  match tab t with
  | None => Some arg
  | Some slots =>
      let cap := Z.to_nat (mask t + 1) in
      foldl (fun acc chain =>
               foldl (fun acc n => b ← acc; cb n b) acc chain)
            (Some arg) (take cap slots)
  end.

Definition ht_total_size (m : HMap HNodePtr) : Z :=
  size (newer m) + (match tab (older m) with Some _ => size (older m) | None => 0 end).

(** *** Command logic

    Each command takes [g_data] and the output buffer and returns both. *)

Definition nth_str (cmd : list string) (i : nat) : string := nth i cmd EmptyString.

Definition do_get (g : Data) (cmd : list string) (out : Buffer) : option (Data * Buffer) :=
  if negb (length cmd =? 2)%nat then Some (g, out_nil out)
  else
    let k := nth_str cmd 1 in
    let lk := mkLookupKey (str_hash k) k in
    '(db', r) ← hm_lookup (node_hcode (entries g)) (key_eq (entries g)) (db g) (KeyNode lk);
    let g' := mkData db' (entries g) in
    match r with
    | Some n =>
        '(_, e) ← entry_of (entries g) n;
        Some (g', out_str out (val e))
    | None => Some (g', out_nil out)
    end.

Definition do_set (g : Data) (cmd : list string) (out : Buffer) : option (Data * Buffer) :=
  if negb (length cmd =? 3)%nat then Some (g, out_nil out)
  else
    let k := nth_str cmd 1 in
    let lk := mkLookupKey (str_hash k) k in
    '(db', r) ← hm_lookup (node_hcode (entries g)) (key_eq (entries g)) (db g) (KeyNode lk);
    match r with
    | Some n =>
        '(a, e) ← entry_of (entries g) n;
        let e' := mkEntry (e_hcode e) (key e) (nth_str cmd 2) in
        Some (mkData db' (<[a := e']> (entries g)), out_nil out)
    | None =>
        let a := fresh (dom (entries g)) in
        let e := mkEntry (str_hash k) k (nth_str cmd 2) in
        let es' := <[a := e]> (entries g) in
        db'' ← hm_insert (node_hcode es') db' (EntryNode a);
        Some (mkData db'' es', out_nil out)
    end.

Definition do_del (g : Data) (cmd : list string) (out : Buffer) : option (Data * Buffer) :=
  if negb (length cmd =? 2)%nat then Some (g, out_int out 0)
  else
    let k := nth_str cmd 1 in
    let lk := mkLookupKey (str_hash k) k in
    '(db', r) ← hm_delete (node_hcode (entries g)) (key_eq (entries g)) (db g) (KeyNode lk);
    match r with
    | Some n =>
        '(a, _) ← entry_of (entries g) n;
        Some (mkData db' (delete a (entries g)), out_int out 1)
    | None => Some (mkData db' (entries g), out_int out 0)
    end.

Definition emit_key_cb (es : gmap positive Entry) (node : HNodePtr) (bout : Buffer)
  : option Buffer :=
  '(_, e) ← entry_of es node;
  Some (out_str bout (key e)).

Definition do_keys (g : Data) (cmd : list string) (out : Buffer) : option (Data * Buffer) :=
  let n := ht_total_size (db g) mod 2 ^ 32 in
  let out := out_arr out n in
  out ← for_each_htab_slot (newer (db g)) (emit_key_cb (entries g)) out;
  out ← for_each_htab_slot (older (db g)) (emit_key_cb (entries g)) out;
  Some (g, out).

Definition do_request (g : Data) (cmd : list string) (out : Buffer) : option (Data * Buffer) :=
  match cmd with
  | [] => Some (g, out_nil out)
  | op :: _ =>
      if String.eqb op "get" then do_get g cmd out
      else if String.eqb op "set" then do_set g cmd out
      else if String.eqb op "del" then do_del g cmd out
      else if String.eqb op "keys" then do_keys g cmd out
      else Some (g, out_err_msg out "ERR bad command")
  end.

(** *** Per-connection request handling

    The result is the flag [try_one_request] returns, the connection and
    [g_data]. *)
Definition try_one_request (conn : Conn) (g : Data) : option (bool * Conn * Data) :=
  if (length (incoming conn) <? 4)%nat then Some (false, conn, g)
  else
    let len := le_value (take 4 (incoming conn)) in
    let closing := mkConn (fd conn) (want_read conn) (want_write conn) true
                          (incoming conn) (outgoing conn) in
    if k_max_msg <? len then Some (false, closing, g)
    else if Z.of_nat (length (incoming conn)) <? 4 + len then Some (false, conn, g)
    else
      let body := take (Z.to_nat len) (drop 4 (incoming conn)) in
      match parse_req body with
      | None => Some (false, closing, g)
      | Some cmd =>
          let '(out, header_pos) := response_begin (outgoing conn) in
          '(g', out) ← do_request g cmd out;
          let out := response_end out header_pos in
          Some (true,
                mkConn (fd conn) (want_read conn) (want_write conn) (want_close conn)
                       (buf_consume (incoming conn) (4 + len)) out,
                g')
      end.

(** [hm_init(&g_data.db)] in [main]. *)
Definition init_data : option Data :=
  m ← hm_init; Some (mkData m ∅).

End Server.

(** ** avl.h, avl.cpp: the order-statistic AVL tree

    Nodes live in a heap indexed by address; [AVLNode*] is [option positive]
    with [None] for [nullptr].  Every function takes the heap and returns
    the new heap with its result; [None] is a null or dangling dereference.
    The comparator [less] reads the payload around a node (through
    [container_of]), which the tree code never writes, so it is a function
    of the two addresses. *)

Module Avl.

Abbreviation ptr := (option positive).

Record AVLNode := mkAVLNode {
  parent : ptr;
  left : ptr;
  right : ptr;
  height : Z;    (* uint32_t; 0 for null, 1 for leaf *)
  cnt : Z        (* uint32_t; subtree size (order statistic) *)
}.

Abbreviation heap := (gmap positive AVLNode).

(** Arithmetic on [uint32_t] is modulo [2^32]. *)
Definition u32 (x : Z) : Z := x mod 2 ^ 32.

Definition set_parent (v : ptr) (n : AVLNode) : AVLNode :=
  mkAVLNode v (left n) (right n) (height n) (cnt n).
Definition set_left (v : ptr) (n : AVLNode) : AVLNode :=
  mkAVLNode (parent n) v (right n) (height n) (cnt n).
Definition set_right (v : ptr) (n : AVLNode) : AVLNode :=
  mkAVLNode (parent n) (left n) v (height n) (cnt n).

(** [a->field = v] for the setter [f] of the field. *)
Definition store (h : heap) (a : positive) (f : AVLNode -> AVLNode) : option heap :=
  n ← h !! a; Some (<[a := f n]> h).

(** [if (p) p->field = v] *)
Definition store_if (h : heap) (p : ptr) (f : AVLNode -> AVLNode) : option heap :=
  match p with
  | Some a => store h a f
  | None => Some h
  end.

Definition avl_init (h : heap) (n : positive) : heap :=
  <[n := mkAVLNode None None None 1 1]> h.

Definition avl_height (h : heap) (n : ptr) : option Z :=
  match n with
  | Some a => nd ← h !! a; Some (height nd)
  | None => Some 0
  end.

Definition avl_cnt (h : heap) (n : ptr) : option Z :=
  match n with
  | Some a => nd ← h !! a; Some (cnt nd)
  | None => Some 0
  end.

Definition avl_update (h : heap) (n : positive) : option heap :=
  nd ← h !! n;
  hl ← avl_height h (left nd);
  hr ← avl_height h (right nd);
  cl ← avl_cnt h (left nd);
  cr ← avl_cnt h (right nd);
  Some (<[n := mkAVLNode (parent nd) (left nd) (right nd)
                 (u32 (1 + (if hr <? hl then hl else hr)))
                 (u32 (u32 (1 + cl) + cr))]> h).

Definition avl_rot_left (h : heap) (x : positive) : option (heap * positive) :=
  xn ← h !! x;
  let p := parent xn in
  match right xn with
  | None => Some (h, x)
  | Some y =>
      yn ← h !! y;
      let B := left yn in
      h ← store h y (set_left (Some x));
      h ← store h x (set_parent (Some y));
      h ← store h x (set_right B);
      h ← store_if h B (set_parent (Some x));
      h ← store h y (set_parent p);
      h ← avl_update h x;
      h ← avl_update h y;
      Some (h, y)
  end.

Definition avl_rot_right (h : heap) (y : positive) : option (heap * positive) :=
  yn ← h !! y;
  let p := parent yn in
  match left yn with
  | None => Some (h, y)
  | Some x =>
      xn ← h !! x;
      let B := right xn in
      h ← store h x (set_right (Some y));
      h ← store h y (set_parent (Some x));
      h ← store h y (set_left B);
      h ← store_if h B (set_parent (Some y));
      h ← store h x (set_parent p);
      h ← avl_update h y;
      h ← avl_update h x;
      Some (h, x)
  end.

Definition avl_fix_left (h : heap) (n : positive) : option (heap * positive) :=
  nd ← h !! n;
  L ← left nd;
  Ln ← h !! L;
  hll ← avl_height h (left Ln);
  hlr ← avl_height h (right Ln);
  if hll <? hlr then
    '(h, L2) ← avl_rot_left h L;
    h ← store h n (set_left (Some L2));
    h ← store h L2 (set_parent (Some n));
    avl_rot_right h n
  else avl_rot_right h n.

Definition avl_fix_right (h : heap) (n : positive) : option (heap * positive) :=
  nd ← h !! n;
  R ← right nd;
  Rn ← h !! R;
  hrr ← avl_height h (right Rn);
  hrl ← avl_height h (left Rn);
  if hrr <? hrl then
    '(h, R2) ← avl_rot_right h R;
    h ← store h n (set_right (Some R2));
    h ← store h R2 (set_parent (Some n));
    avl_rot_left h n
  else avl_rot_left h n.

(** The pointer-to-pointer [AVLNode **from]: a local variable of the caller
    (the root pointer), or the left or right field of a node. *)
Inductive from_ref :=
| FromVar
| FromLeft (p : positive)
| FromRight (p : positive).

(** [*from = v] when [from] addresses a field of a node. *)
Definition store_from (h : heap) (from : from_ref) (v : ptr) : option heap :=
  match from with
  | FromVar => Some h
  | FromLeft p => store h p (set_left v)
  | FromRight p => store h p (set_right v)
  end.

(** [parent->left == n ? &parent->left : &parent->right] *)
Definition child_ref (h : heap) (parent n : positive) : option from_ref :=
  pn ← h !! parent;
  Some (if bool_decide (left pn = Some n) then FromLeft parent else FromRight parent).

(** The loop of [avl_fix], one iteration per unit of [fuel]. *)
Fixpoint avl_fix_loop (fuel : nat) (h : heap) (n : ptr) : option (heap * ptr) :=
  match n with
  | None => Some (h, None)
  | Some n =>
      match fuel with
      | O => None
      | S fuel' =>
          nd ← h !! n;
          let parent := parent nd in
          from ← (match parent with
                  | Some p => child_ref h p n
                  | None => Some FromVar
                  end);
          h ← avl_update h n;
          nd ← h !! n;
          hl ← avl_height h (left nd);
          hr ← avl_height h (right nd);
          '(h, top) ←
            (if hl =? u32 (hr + 2) then
               '(h, r) ← avl_fix_left h n;
               h ← store_from h from (Some r);
               h ← store h r (set_parent parent);
               Some (h, r)
             else if hr =? u32 (hl + 2) then
               '(h, r) ← avl_fix_right h n;
               h ← store_from h from (Some r);
               h ← store h r (set_parent parent);
               Some (h, r)
             else Some (h, n));
          match parent with
          | None => Some (h, Some top)
          | Some p => avl_fix_loop fuel' h (Some p)
          end
      end
  end.

(** A walk from a node to the root visits every node at most once, so the
    number of allocated nodes bounds the iterations. *)
Definition avl_fix (h : heap) (n : ptr) : option (heap * ptr) :=
  avl_fix_loop (S (size h)) h n.

Definition avl_del_easy (h : heap) (node : positive) : option (heap * ptr) :=
  nd ← h !! node;
  let child := match left nd with Some l => Some l | None => right nd end in
  let parent := parent nd in
  h ← store_if h child (set_parent parent);
  match parent with
  | None =>
      h ← (match child with Some c => avl_update h c | None => Some h end);
      Some (h, child)
  | Some p =>
      from ← child_ref h p node;
      h ← store_from h from child;
      avl_fix h (Some p)
  end.

(** [while (s->left) s = s->left;] *)
Fixpoint leftmost (fuel : nat) (h : heap) (s : positive) : option positive :=
  sn ← h !! s;
  match left sn with
  | None => Some s
  | Some l =>
      match fuel with
      | O => None
      | S fuel' => leftmost fuel' h l
      end
  end.

Definition avl_del (h : heap) (node : positive) : option (heap * ptr) :=
  nd ← h !! node;
  match left nd, right nd with
  | Some _, Some r =>
      (* successor = leftmost of right subtree *)
      s ← leftmost (size h) h r;
      (* Detach successor (simple case) *)
      '(h, root_after) ← avl_del_easy h s;
      (* Move node's children/parent onto s *)
      nd ← h !! node;
      h ← store h s (set_left (left nd));
      sn ← h !! s;
      h ← store_if h (left sn) (set_parent (Some s));
      nd ← h !! node;
      h ← store h s (set_right (right nd));
      sn ← h !! s;
      h ← store_if h (right sn) (set_parent (Some s));
      nd ← h !! node;
      h ← store h s (set_parent (parent nd));
      sn ← h !! s;
      match parent sn with
      | None =>
          h ← avl_update h s;
          avl_fix h (Some s)
      | Some sp =>
          from ← child_ref h sp node;
          h ← store_from h from (Some s);
          h ← avl_update h s;
          avl_fix h (Some s)
      end
  | _, _ => avl_del_easy h node
  end.

(** The descent of [avl_search_and_insert] and of [tree_insert]: returns
    [parent] and [from] at the null link where the walk ends. *)
Fixpoint descend (fuel : nat) (h : heap) (goes_left : positive -> bool)
    (parent : ptr) (from : from_ref) (cur : ptr) : option (ptr * from_ref) :=
  match cur with
  | None => Some (parent, from)
  | Some c =>
      match fuel with
      | O => None
      | S fuel' =>
          cn ← h !! c;
          if goes_left c
          then descend fuel' h goes_left (Some c) (FromLeft c) (left cn)
          else descend fuel' h goes_left (Some c) (FromRight c) (right cn)
      end
  end.

(** Takes and returns the caller's root pointer [*root] with the heap. *)
Definition avl_search_and_insert (h : heap) (root : ptr) (new_node : positive)
    (less : positive -> positive -> bool) : option (heap * ptr) :=
  let h := avl_init h new_node in
  '(parent, from) ← descend (size h) h (less new_node) None FromVar root;
  h ← store_from h from (Some new_node);
  h ← store h new_node (set_parent parent);
  avl_fix h (Some new_node).

(** [cmp cur] is [cmp(cur, key)] for the caller's key.  Returns the heap,
    [*root] and the victim. *)
Fixpoint search_and_delete_loop (fuel : nat) (h : heap) (root : ptr)
    (cmp : positive -> Z) (cur : ptr) : option (heap * ptr * ptr) :=
  match cur with
  | None => Some (h, root, None)
  | Some c =>
      match fuel with
      | O => None
      | S fuel' =>
          let r := cmp c in
          cn ← h !! c;
          if r <? 0 then search_and_delete_loop fuel' h root cmp (right cn)
          else if 0 <? r then search_and_delete_loop fuel' h root cmp (left cn)
          else
            '(h, root') ← avl_del h c;
            Some (h, root', Some c)
      end
  end.

Definition avl_search_and_delete (h : heap) (root : ptr) (cmp : positive -> Z)
  : option (heap * ptr * ptr) :=
  search_and_delete_loop (S (size h)) h root cmp root.

(** *** Order statistic helpers *)

(** The loop of [avl_offset]; [offset] and [pos] are [int64_t], and stay
    within twice the range of [cnt], far from overflow. *)
Fixpoint avl_offset_loop (fuel : nat) (h : heap) (node : ptr) (offset pos : Z)
  : option ptr :=
  match node with
  | Some a =>
      if offset =? pos then Some node
      else
        match fuel with
        | O => None
        | S fuel' =>
            nd ← h !! a;
            cr ← avl_cnt h (right nd);
            cl ← avl_cnt h (left nd);
            if (pos <? offset) && (offset <=? pos + cr) then
              (* target is inside the right subtree *)
              r ← right nd;
              rn ← h !! r;
              crl ← avl_cnt h (left rn);
              avl_offset_loop fuel' h (Some r) offset (pos + (crl + 1))
            else if (offset <? pos) && (pos - cl <=? offset) then
              (* target is inside the left subtree *)
              l ← left nd;
              ln ← h !! l;
              clr ← avl_cnt h (right ln);
              avl_offset_loop fuel' h (Some l) offset (pos - (clr + 1))
            else
              (* go to parent *)
              match parent nd with
              | None => Some None
              | Some p =>
                  pn ← h !! p;
                  if bool_decide (right pn = Some a)
                  then avl_offset_loop fuel' h (Some p) offset (pos - (cl + 1))
                  else avl_offset_loop fuel' h (Some p) offset (pos + (cr + 1))
              end
        end
  | None => Some (if offset =? pos then node else None)
  end.

Definition avl_offset (h : heap) (node : ptr) (offset : Z) : option ptr :=
  match node with
  | None => Some None
  | Some _ => avl_offset_loop (2 * size h + 1) h node offset 0
  end.

(** The loop of [avl_rank]. *)
Fixpoint avl_rank_loop (fuel : nat) (h : heap) (node : positive) (r : Z) : option Z :=
  nd ← h !! node;
  match parent nd with
  | None => Some r
  | Some p =>
      match fuel with
      | O => None
      | S fuel' =>
          pn ← h !! p;
          if bool_decide (right pn = Some node) then
            cl ← avl_cnt h (left pn);
            avl_rank_loop fuel' h p (r + (cl + 1))
          else avl_rank_loop fuel' h p r
      end
  end.

Definition avl_rank (h : heap) (node : ptr) : option Z :=
  match node with
  | None => Some (-1)
  | Some a =>
      nd ← h !! a;
      r ← avl_cnt h (left nd);
      avl_rank_loop (size h) h a r
  end.

End Avl.

(** ** zset.cpp: the ordered set

    A [ZNode] embeds an [AVLNode] (member [tree]) and an [HNode] (member
    [hmap]).  The [tree] members live in the heap of the AVL code, at the
    address of the [ZNode]; the rest of the [ZNode] (hash code, score, name)
    is kept in a second map over the same addresses.  zset.cpp is written
    against the [resizing_pos] variant of the hash table (it calls
    [hm_destroy]).  The comparisons [!=] and [<] on [double] scores are
    taken as the functions [score_ne] and [score_lt]. *)

Module ZSet.

Import Avl.
Module HM := HashTableResizing.

Section Code.
Context {Score : Type}.
Variable score_ne : Score -> Score -> bool.
Variable score_lt : Score -> Score -> bool.

Record ZInfo := mkZInfo {
  z_hcode : Z;        (* hmap.hcode *)
  score : Score;
  name : string       (* name[0..len) *)
}.

(** [HNode*]: the [hmap] member of the [ZNode] at an address, or the [node]
    member of an [HKey] on the caller's stack. *)
Inductive HNodePtr :=
| ZNodeHmap (a : positive)
| HKeyNode (hcode : Z) (name : string).

Record ZSet := mkZSet {
  root : ptr;                  (* AVL tree root *)
  hmap : HM.HMap HNodePtr      (* hashtable index by name *)
}.

(** The memory that holds the [ZNode]s. *)
Record Mem := mkMem {
  trees : gmap positive AVLNode;
  infos : gmap positive ZInfo
}.

Definition str_hash (s : string) : Z := Fnv.str_hash (list_byte_of_string s).

(** [memcmp] over the first [n] bytes, as the sign of the first difference
    of two bytes read as [unsigned char]. *)
Fixpoint memcmp (a b : list byte) (n : nat) : Z :=
  match n, a, b with
  | S n', x :: a', y :: b' =>
      let d := Z.of_N (Byte.to_N x) - Z.of_N (Byte.to_N y) in
      if d =? 0 then memcmp a' b' n' else d
  | _, _, _ => 0
  end.

Definition znode_new (m : Mem) (nm : string) (sc : Score) : Mem * positive :=
  let node := fresh (dom (trees m) ∪ dom (infos m)) in
  (mkMem (avl_init (trees m) node)
         (<[node := mkZInfo (str_hash nm) sc nm]> (infos m)),
   node).

Definition znode_del (m : Mem) (node : positive) : Mem :=
  mkMem (delete node (trees m)) (delete node (infos m)).

Definition zset_init : option ZSet :=
  hm ← HM.hm_init; Some (mkZSet None hm).

Definition node_hcode (m : Mem) (p : HNodePtr) : Z :=
  match p with
  | ZNodeHmap a => match infos m !! a with Some z => z_hcode z | None => 0 end
  | HKeyNode hc _ => hc
  end.

Definition hcmp (m : Mem) (lhs rhs : HNodePtr) : bool :=
  match lhs, rhs with
  | ZNodeHmap a, HKeyNode _ knm =>
      match infos m !! a with
      | Some znode =>
          if negb (String.length (name znode) =? String.length knm)%nat then false
          else memcmp (list_byte_of_string (name znode)) (list_byte_of_string knm)
                      (String.length (name znode)) =? 0
      | None => false
      end
  | _, _ => false
  end.

(** [container_of(found, ZNode, hmap)] *)
Definition znode_of (p : HNodePtr) : option positive :=
  match p with
  | ZNodeHmap a => Some a
  | HKeyNode _ _ => None
  end.

Definition zset_lookup (m : Mem) (zset : ZSet) (nm : string) : option (ZSet * ptr) :=
  match root zset with
  | None => Some (zset, None)
  | Some _ =>
      let key := HKeyNode (str_hash nm) nm in
      '(hm, found) ← HM.hm_lookup (node_hcode m) (hcmp m) (hmap zset) key;
      let zset := mkZSet (root zset) hm in
      match found with
      | Some p => a ← znode_of p; Some (zset, Some a)
      | None => Some (zset, None)
      end
  end.

(** [(score, name) < (score', name')] on the two keys read from the nodes. *)
Definition zless (sc : Score) (nm : string) (sc' : Score) (nm' : string) : bool :=
  if score_ne sc sc' then score_lt sc sc'
  else
    let len := String.length nm in
    let len' := String.length nm' in
    let minlen := if (len <? len')%nat then len else len' in
    let rv := memcmp (list_byte_of_string nm) (list_byte_of_string nm') minlen in
    if negb (rv =? 0) then rv <? 0
    else (len <? len')%nat.

Definition zless_node (m : gmap positive ZInfo) (lhs rhs : positive) : bool :=
  match m !! lhs, m !! rhs with
  | Some zl, Some zr => zless (score zl) (name zl) (score zr) (name zr)
  | _, _ => false
  end.

Definition zless_key (m : gmap positive ZInfo) (node : positive)
    (sc : Score) (nm : string) : bool :=
  match m !! node with
  | Some zn => zless (score zn) (name zn) sc nm
  | None => false
  end.

Definition tree_insert (m : Mem) (zset : ZSet) (node : positive) : option (Mem * ZSet) :=
  let h := trees m in
  '(parent, from) ← descend (size h) h (zless_node (infos m) node) None FromVar (root zset);
  h ← store_from h from (Some node);
  h ← store h node (set_parent parent);
  h ← avl_update h node;
  '(h, r) ← avl_fix h (Some node);
  Some (mkMem h (infos m), mkZSet r (hmap zset)).

Definition zset_update (m : Mem) (zset : ZSet) (node : positive) (sc : Score)
  : option (Mem * ZSet) :=
  (* detach from tree *)
  '(h, r) ← avl_del (trees m) node;
  let h := avl_init h node in
  zi ← infos m !! node;
  let m := mkMem h (<[node := mkZInfo (z_hcode zi) sc (name zi)]> (infos m)) in
  (* reinsert *)
  tree_insert m (mkZSet r (hmap zset)) node.

Definition zset_insert (m : Mem) (zset : ZSet) (nm : string) (sc : Score)
  : option (Mem * ZSet * bool) :=
  '(zset, found) ← zset_lookup m zset nm;
  match found with
  | Some node =>
      '(m, zset) ← zset_update m zset node sc;
      Some (m, zset, false)   (* updated existing *)
  | None =>
      let '(m, node) := znode_new m nm sc in
      hm ← HM.hm_insert (node_hcode m) (hmap zset) (ZNodeHmap node);
      '(m, zset) ← tree_insert m (mkZSet (root zset) hm) node;
      Some (m, zset, true)    (* inserted new *)
  end.

Definition HNodePtr_eqb (p q : HNodePtr) : bool :=
  match p, q with
  | ZNodeHmap a, ZNodeHmap b => bool_decide (a = b)
  | HKeyNode h1 n1, HKeyNode h2 n2 => (h1 =? h2) && String.eqb n1 n2
  | _, _ => false
  end.

Definition zset_delete (m : Mem) (zset : ZSet) (node : positive) : option (Mem * ZSet) :=
  (* remove from hashtable *)
  zi ← infos m !! node;
  let key := HKeyNode (z_hcode zi) (name zi) in
  '(hm, found) ← HM.hm_delete (node_hcode m) (hcmp m) (hmap zset) key;
  if match found with Some p => HNodePtr_eqb p (ZNodeHmap node) | None => false end
  then
    (* remove from tree *)
    '(h, r) ← avl_del (trees m) node;
    Some (znode_del (mkMem h (infos m)) node, mkZSet r hm)
  else None.   (* assert *)

Definition zset_seekge (m : Mem) (zset : ZSet) (sc : Score) (nm : string) : option ptr :=
  (fix loop (fuel : nat) (found cur : ptr) : option ptr :=
     match cur with
     | None => Some found
     | Some c =>
         match fuel with
         | O => None
         | S fuel' =>
             cn ← trees m !! c;
             if zless_key (infos m) c sc nm
             then loop fuel' found (right cn)      (* cur < key *)
             else loop fuel' (Some c) (left cn)    (* candidate *)
         end
     end) (size (trees m)) None (root zset).

Definition znode_offset (m : Mem) (node : ptr) (offset : Z) : option ptr :=
  match node with
  | Some _ => avl_offset (trees m) node offset
  | None => Some None
  end.

Definition znode_rank (m : Mem) (node : ptr) : option Z :=
  match node with
  | None => Some (-1)
  | Some _ => avl_rank (trees m) node
  end.

End Code.

Arguments ZInfo : clear implicits.
Arguments Mem : clear implicits.

End ZSet.

(** ** tlv_client.cpp: the test client

    [send_cmd] builds the request in a vector and writes it out with two
    calls of [write]; the model gives the bytes that reach the socket when
    both calls write everything (anything else makes the client exit).  The
    host is little-endian, as the server assumes for its own scalars. *)

Module Client.

Import Server.

(** The vector [out] of [send_cmd]: [n], then [len] and the bytes of every
    argument. *)
Definition send_cmd_body (args : list string) : Buffer :=
  fold_left
    (fun out s =>
       let out := out ++ le_bytes 4 (Z.of_nat (String.length s)) in
       out ++ list_byte_of_string s)
    args (le_bytes 4 (Z.of_nat (length args))).

Definition send_cmd (args : list string) : Buffer :=
  let out := send_cmd_body args in
  le_bytes 4 (Z.of_nat (length out)) ++ out.

(** [readn] from the bytes the peer sends: the [n] next bytes and the rest
    of the stream, [None] ([die]) when the stream ends before. *)
Definition readn (stream : Buffer) (n : Z) : option (Buffer * Buffer) :=
  if Z.of_nat (length stream) <? n then None
  else Some (take (Z.to_nat n) stream, drop (Z.to_nat n) stream).

(** The reads of [roundtrip] in [main]: the length [L], then [L] bytes. *)
Definition read_reply (stream : Buffer) : option (Buffer * Buffer) :=
  '(hdr, stream) ← readn stream 4;
  let L := le_value hdr in
  readn stream L.

End Client.

(** ** avl.cpp: in-order iteration *)

Module AvlIter.

Import Avl.

Definition avl_first (h : heap) (root : ptr) : option ptr :=
  match root with
  | None => Some None
  | Some r => n ← leftmost (size h) h r; Some (Some n)
  end.

(** [while (p && p->right == n) { n = p; p = p->parent; }] *)
Fixpoint climb (fuel : nat) (h : heap) (n : positive) (p : ptr) : option ptr :=
  match p with
  | None => Some None
  | Some pa =>
      pn ← h !! pa;
      if bool_decide (right pn = Some n) then
        match fuel with
        | O => None
        | S fuel' => climb fuel' h pa (parent pn)
        end
      else Some p
  end.

Definition avl_next (h : heap) (n : ptr) : option ptr :=
  match n with
  | None => Some None
  | Some a =>
      nd ← h !! a;
      match right nd with
      | Some r => s ← leftmost (size h) h r; Some (Some s)
      | None => climb (size h) h a (parent nd)
      end
  end.

End AvlIter.

(** ** server.cpp: the read and write callbacks

    The results of [read] and [write] come from the environment: [IoAgain]
    is a negative result with [errno == EAGAIN], [IoError] any other
    negative result. *)

Module ServerIo.

Import Server.

Inductive write_result :=
| WrAgain
| WrError
| Wrote (rv : Z).

Inductive read_result :=
| RdAgain
| RdError
| RdData (buf : list byte).   (* the [rv] bytes read; none at end of file *)

Definition set_want_close (conn : Conn) : Conn :=
  mkConn (fd conn) (want_read conn) (want_write conn) true
         (incoming conn) (outgoing conn).

(** [None] is the failed [assert(!conn->outgoing.empty())]. *)
Definition handle_write (conn : Conn) (w : write_result) : option Conn :=
  match outgoing conn with
  | [] => None
  | _ :: _ =>
      match w with
      | WrAgain => Some conn
      | WrError => Some (set_want_close conn)
      | Wrote rv =>
          let out := buf_consume (outgoing conn) rv in
          match out with
          | [] => Some (mkConn (fd conn) true false (want_close conn) (incoming conn) out)
          | _ :: _ =>
              Some (mkConn (fd conn) (want_read conn) (want_write conn) (want_close conn)
                           (incoming conn) out)
          end
      end
  end.

(** [while (try_one_request(conn)) {}]: every turn but the last takes at
    least four bytes off [incoming]. *)
Fixpoint request_loop (fuel : nat) (conn : Conn) (g : Data) : option (Conn * Data) :=
  match fuel with
  | O => None
  | S fuel' =>
      '(again, conn', g') ← try_one_request conn g;
      if again : bool then request_loop fuel' conn' g' else Some (conn', g')
  end.

(** [w] is the result of the optimistic [write], if one is made. *)
Definition handle_read (conn : Conn) (g : Data) (r : read_result) (w : write_result)
  : option (Conn * Data) :=
  match r with
  | RdAgain => Some (conn, g)
  | RdError => Some (set_want_close conn, g)
  | RdData [] => Some (set_want_close conn, g)
  | RdData buf =>
      let conn := mkConn (fd conn) (want_read conn) (want_write conn) (want_close conn)
                         (buf_append (incoming conn) buf) (outgoing conn) in
      '(conn, g) ← request_loop (S (length (incoming conn))) conn g;
      match outgoing conn with
      | [] => Some (conn, g)
      | _ :: _ =>
          let conn := mkConn (fd conn) false true (want_close conn)
                             (incoming conn) (outgoing conn) in
          conn ← handle_write conn w;
          Some (conn, g)
      end
  end.

(** [handle_accept] after a successful [accept]: a fresh [Conn] that wants
    to read. *)
Definition handle_accept (cfd : Z) : Conn := mkConn cfd true false false [] [].

(** The bits of [pollfd::revents] that the loop of [main] looks at;
    [pollother] stands for any further bit, such as [POLLHUP]. *)
Record Ready := mkReady {
  pollin : bool;
  pollout : bool;
  pollerr : bool;
  pollother : bool
}.

(** The body of the loop over [pfds] in [main], for one connection.  [r],
    [w1] and [w2] are what [read], the optimistic [write] and the [write] of
    [handle_write] return if they are called.  The outer [None] is a failed
    assertion; the inner one is the connection closed and deleted. *)
Definition serve_ready (conn : Conn) (g : Data) (ready : Ready)
    (r : read_result) (w1 w2 : write_result) : option (option Conn * Data) :=
  if negb (pollin ready || pollout ready || pollerr ready || pollother ready)
  then Some (Some conn, g)
  else
    '(conn, g) ← (if pollin ready
                  then if want_read conn then handle_read conn g r w1 else None
                  else Some (conn, g));
    conn ← (if pollout ready
            then if want_write conn then handle_write conn w2 else None
            else Some conn);
    if pollerr ready || want_close conn then Some (None, g) else Some (Some conn, g).

End ServerIo.

(** * Part II: properties *)

(** ** [str_hash] and FNV-1a *)

Module FnvFacts.

Import Fnv.

Lemma str_hash_loop_fold (p : list byte) (pre : list byte) (h : Z) :
  str_hash_loop (pre ++ p) (length pre) (length p) h
  = fold_left (fun acc b => u64 (Z.lxor acc (Z.of_N (Byte.to_N b)) * FNV_PRIME)) p h.
Proof.
  revert pre h. induction p as [|b p IH]; intros pre h; [reflexivity|].
  cbn [str_hash_loop length fold_left]. unfold byte_at.
  rewrite app_nth2 by lia. rewrite Nat.sub_diag. cbn [nth].
  replace (pre ++ b :: p) with ((pre ++ [b]) ++ p) by (rewrite <- app_assoc; reflexivity).
  replace (S (length pre)) with (length (pre ++ [b])) by (rewrite length_app; simpl; lia).
  apply IH.
Qed.

(** The loop of [str_hash] is the FNV-1a iteration, started from the
    constant the code names [FNV_OFFSET]. *)
Lemma str_hash_is_fold (p : list byte) :
  str_hash p = fold_left fnv1a_step p FNV_OFFSET.
Proof.
  unfold str_hash. rewrite (str_hash_loop_fold p []). reflexivity.
Qed.

(** C4: [str_hash] starts from [1469598103934665603 = 0x14650FB0739D0383],
    which is the FNV offset basis [14695981039346656037 = 0xCBF29CE484222325]
    with its last decimal digit missing; already on the empty span it differs
    from the reference FNV-1a hash. *)
Theorem str_hash_not_fnv1a_on_empty :
  str_hash [] = 1469598103934665603 /\
  fnv1a_64 [] = 14695981039346656037 /\
  14695981039346656037 = 0xCBF29CE484222325 /\
  str_hash [] <> fnv1a_64 [].
Proof.
  repeat split; try reflexivity. vm_compute. discriminate.
Qed.

(** The reference vectors of FNV-1a 64 for [""], ["a"] and ["foobar"], and
    what [str_hash] returns on them. *)
Example fnv1a_64_vectors :
  fnv1a_64 [] = 0xcbf29ce484222325 /\
  fnv1a_64 [x61] = 0xaf63dc4c8601ec8c /\
  fnv1a_64 [x66; x6f; x6f; x62; x61; x72] = 0x85944171f73967e8.
Proof. repeat split; vm_compute; reflexivity. Qed.

Example str_hash_vectors :
  str_hash [x61] <> fnv1a_64 [x61] /\
  str_hash [x66; x6f; x6f; x62; x61; x72] <> fnv1a_64 [x66; x6f; x6f; x62; x61; x72].
Proof. split; vm_compute; discriminate. Qed.

End FnvFacts.

(** ** The hash table, [migrate_pos] variant *)

Module HashTableFacts.

Import HashTable.

Lemma land_range (a b : Z) : 0 <= b -> 0 <= Z.land a b <= b.
Proof.
  intros Hb. split; [apply Z.land_nonneg; auto|].
  assert (D : Z.land (Z.land a b) (Z.land (Z.lnot a) b) = 0).
  { rewrite (Z.land_comm a b), <- Z.land_assoc, (Z.land_assoc a).
    rewrite Z.land_lnot_diag. rewrite Z.land_0_l, Z.land_0_r. reflexivity. }
  assert (H : Z.land a b + Z.land (Z.lnot a) b = b).
  { rewrite (Z.add_nocarry_lxor _ _ D), (Z.lxor_lor _ _ D).
    rewrite <- Z.land_lor_distr_l, Z.lor_lnot_diag. apply Z.land_m1_l. }
  assert (0 <= Z.land (Z.lnot a) b) by (apply Z.land_nonneg; auto).
  lia.
Qed.

Lemma is_pow2_double (n : Z) : is_pow2 n = true -> is_pow2 (n * 2) = true.
Proof.
  unfold is_pow2. intros H. apply andb_true_iff in H as [Hn H].
  apply negb_true_iff, Z.eqb_neq in Hn. apply Z.eqb_eq in H.
  apply andb_true_iff. split; [apply negb_true_iff, Z.eqb_neq; lia|].
  apply Z.eqb_eq.
  replace (n * 2) with (2 * n) by lia.
  replace (2 * n - 1) with (2 * (n - 1) + 1) by lia.
  apply Z.bits_inj'. intros i Hi. rewrite Z.land_spec, Z.bits_0.
  destruct (Z.eq_dec i 0) as [->|Hne].
  - rewrite Z.testbit_even_0. reflexivity.
  - replace i with (Z.succ (i - 1)) by lia.
    rewrite Z.testbit_even_succ, Z.testbit_odd_succ by lia.
    rewrite <- Z.land_spec, H. apply Z.bits_0.
Qed.

(** Lists of chains. *)

Lemma concat_insert_perm {A} (t : list (list A)) (i : nat) (c c' : list A) :
  t !! i = Some c ->
  exists rest, concat t ≡ₚ c ++ rest /\ concat (<[i := c']> t) ≡ₚ c' ++ rest.
Proof.
  intros Hi. exists (concat (take i t) ++ concat (drop (S i) t)).
  assert (Hlt : (i < length t)%nat) by (eapply lookup_lt_Some; eauto).
  split.
  - rewrite <- (take_drop_middle t i c Hi) at 1.
    rewrite concat_app. simpl. rewrite Permutation_app_swap_app. reflexivity.
  - rewrite insert_take_drop by assumption.
    rewrite concat_app. simpl. rewrite Permutation_app_swap_app. reflexivity.
Qed.

Lemma elem_of_concat {A} (x : A) (t : list (list A)) :
  x ∈ concat t <-> exists c, x ∈ c /\ c ∈ t.
Proof.
  induction t as [|c t IH]; simpl.
  - split; [intros H; inversion H | intros (c & _ & H); inversion H].
  - rewrite elem_of_app, IH. split.
    + intros [H|(c' & H1 & H2)]; [exists c | exists c']; split; auto;
        apply elem_of_cons; auto.
    + intros (c' & H1 & H2). apply elem_of_cons in H2 as [->|H2]; eauto.
Qed.

Section Facts.
Context {Node : Type}.
Variable hcode : Node -> Z.
Variable eq : Node -> Node -> bool.

(** A probe [key] matches the node [n]: the test of the chain walk. *)
Definition matches (key n : Node) : bool := (hcode n =? hcode key) && eq n key.

Definition chains (ht : HTab Node) : list (list Node) := default [] (tab ht).

(** The nodes chained in a table, and in the map. *)
Definition nodes (ht : HTab Node) : list Node := concat (chains ht).
Definition stored (hm : HMap Node) : list Node := nodes (newer hm) ++ nodes (older hm).

(** A table is well formed: the slot array has [mask+1] slots, a power of
    two; [size] counts the chained nodes; every node is chained in the slot
    [hcode & mask]. *)
Definition htab_wf (ht : HTab Node) : Prop :=
  match tab ht with
  | None => size ht = 0
  | Some t =>
      0 <= mask ht /\
      length t = Z.to_nat (mask ht + 1) /\
      is_pow2 (mask ht + 1) = true /\
      size ht = Z.of_nat (length (concat t)) /\
      forall i chain n, t !! i = Some chain -> n ∈ chain -> slot_of hcode ht n = i
  end.

(** The map is well formed: both tables are; a node is chained once, in one
    table; while [older] is allocated so is [newer]. *)
Definition hm_wf (hm : HMap Node) : Prop :=
  htab_wf (newer hm) /\ htab_wf (older hm) /\
  NoDup (stored hm) /\
  0 <= migrate_pos hm /\
  (tab (older hm) <> None -> tab (newer hm) <> None).

(** No probe matches two of the nodes: the keys of the nodes are distinct. *)
Definition keys_distinct (l : list Node) : Prop :=
  forall key n1 n2, n1 ∈ l -> n2 ∈ l ->
    matches key n1 = true -> matches key n2 = true -> n1 = n2.

(** The key of [x] is the key of none of the nodes: no probe matches both. *)
Definition key_fresh (l : list Node) (x : Node) : Prop :=
  forall key n, n ∈ l -> matches key x = true -> matches key n = false.

Lemma slot_of_lt (ht : HTab Node) (t : list (list Node)) (n : Node) :
  tab ht = Some t -> htab_wf ht -> (slot_of hcode ht n < length t)%nat.
Proof.
  unfold htab_wf. intros -> (Hm & Hlen & _).
  unfold slot_of. pose proof (land_range (hcode n) (mask ht) Hm). lia.
Qed.

Lemma slot_of_hcode (ht : HTab Node) (a b : Node) :
  hcode a = hcode b -> slot_of hcode ht a = slot_of hcode ht b.
Proof. unfold slot_of. intros ->. reflexivity. Qed.

Lemma htab_wf_zero : htab_wf HTab_zero.
Proof. reflexivity. Qed.

Lemma nodes_zero : nodes HTab_zero = [].
Proof. reflexivity. Qed.

Lemma h_init_spec (n : Z) :
  is_pow2 n = true -> 0 < n ->
  exists ht, h_init n = Some ht /\ htab_wf ht /\ nodes ht = [] /\
             tab ht <> None /\ mask ht = n - 1 /\ size ht = 0.
Proof.
  intros Hp Hn. unfold h_init. rewrite Hp. eexists. split; [reflexivity|].
  assert (Hc : forall k, concat (replicate k (@nil Node)) = []).
  { induction k; simpl; auto. }
  split_and!; simpl; try congruence.
  - unfold htab_wf. simpl. split_and!.
    + lia.
    + rewrite length_replicate. f_equal. lia.
    + replace (n - 1 + 1) with n by lia. assumption.
    + rewrite Hc. reflexivity.
    + intros i chain x Hi Hx. apply lookup_replicate in Hi as [-> _].
      inversion Hx.
  - unfold nodes, chains. simpl. apply Hc.
Qed.

Lemma h_insert_spec (ht : HTab Node) (x : Node) :
  htab_wf ht -> tab ht <> None ->
  exists ht', h_insert hcode ht x = Some ht' /\ htab_wf ht' /\
              nodes ht' ≡ₚ x :: nodes ht /\ tab ht' <> None /\
              mask ht' = mask ht /\ size ht' = size ht + 1.
Proof.
  intros Hwf Hnn. unfold h_insert.
  destruct (tab ht) as [t|] eqn:Ht; [|congruence]. simpl.
  pose proof (slot_of_lt ht t x Ht Hwf) as Hlt.
  destruct (lookup_lt_is_Some_2 t _ Hlt) as [chain Hc]. rewrite Hc. simpl.
  eexists. split; [reflexivity|].
  destruct (concat_insert_perm t _ chain (x :: chain) Hc) as (rest & P1 & P2).
  unfold htab_wf in Hwf. rewrite Ht in Hwf. destruct Hwf as (Hm & Hlen & Hp & Hsz & Hslot).
  split_and!; simpl; try congruence.
  - unfold htab_wf. simpl. split_and!; auto.
    + rewrite length_insert. assumption.
    + rewrite Hsz. rewrite P1, P2. simpl. rewrite !length_app. simpl. lia.
    + intros i c n Hi Hn. unfold slot_of. simpl.
      destruct (decide (i = slot_of hcode ht x)) as [->|Hne].
      * rewrite list_lookup_insert_eq in Hi by assumption. inversion Hi; subst c.
        apply elem_of_cons in Hn as [->|Hn]; [reflexivity|].
        apply (Hslot _ chain n Hc Hn).
      * rewrite list_lookup_insert_ne in Hi by congruence.
        apply (Hslot _ c n Hi Hn).
  - unfold nodes, chains. rewrite Ht. simpl. rewrite P1, P2. reflexivity.
Qed.

Lemma chain_find_spec (chain : list Node) (key : Node) (i : nat) :
  match chain_find hcode eq chain key i with
  | Some j => exists k n, j = (i + k)%nat /\ chain !! k = Some n /\ matches key n = true
  | None => forall n, n ∈ chain -> matches key n = false
  end.
Proof.
  revert i. induction chain as [|c chain IH]; intros i; simpl.
  - intros n Hn. inversion Hn.
  - fold (matches key c). destruct (matches key c) eqn:Hm.
    + exists 0%nat, c. split_and!; auto; lia.
    + specialize (IH (S i)). destruct (chain_find hcode eq chain key (S i)).
      * destruct IH as (k & x & -> & Hk & Hx). exists (S k), x. split_and!; auto; lia.
      * intros x Hx. apply elem_of_cons in Hx as [->|Hx]; auto.
Qed.

Lemma elem_of_nodes (ht : HTab Node) (n : Node) :
  n ∈ nodes ht <-> exists t i chain, tab ht = Some t /\ t !! i = Some chain /\ n ∈ chain.
Proof.
  unfold nodes, chains. split.
  - intros H. destruct (tab ht) as [t|]; simpl in H; [|inversion H].
    apply elem_of_concat in H as (chain & Hn & Hc).
    apply list_elem_of_lookup in Hc as [i Hi]. eauto 6.
  - intros (t & i & chain & -> & Hi & Hn). simpl.
    apply elem_of_concat. exists chain. split; auto.
    apply list_elem_of_lookup. eauto.
Qed.

(** [h_lookup] finds a node that the probe matches whenever the table
    chains one, and nothing otherwise. *)
Lemma h_lookup_spec (ht : HTab Node) (key : Node) :
  htab_wf ht ->
  exists r, h_lookup hcode eq ht key = Some r /\
    match r with
    | Some from => exists n, deref ht from = Some n /\ matches key n = true /\ n ∈ nodes ht
    | None => forall n, n ∈ nodes ht -> matches key n = false
    end.
Proof.
  intros Hwf. unfold h_lookup.
  destruct (tab ht) as [t|] eqn:Ht.
  - pose proof (slot_of_lt ht t key Ht Hwf) as Hlt.
    destruct (lookup_lt_is_Some_2 t _ Hlt) as [chain Hc]. rewrite Hc. simpl.
    eexists. split; [reflexivity|].
    pose proof (chain_find_spec chain key 0) as Hf.
    destruct (chain_find hcode eq chain key 0) as [j|]; simpl.
    + destruct Hf as (k & n & -> & Hk & Hm). exists n. split_and!; auto.
      * unfold deref. rewrite Ht. simpl. rewrite Hc. simpl. assumption.
      * apply elem_of_nodes. exists t, (slot_of hcode ht key), chain.
        split_and!; auto. eapply list_elem_of_lookup_2; eauto.
    + intros n Hn. apply elem_of_nodes in Hn as (t' & i & c & Ht' & Hi & Hn).
      rewrite Ht in Ht'. inversion Ht'; subst t'.
      destruct (matches key n) eqn:Hm; [|reflexivity].
      unfold htab_wf in Hwf. rewrite Ht in Hwf. destruct Hwf as (_ & _ & _ & _ & Hslot).
      pose proof (Hslot i c n Hi Hn) as Hs.
      pose proof Hm as Hm'.
      unfold matches in Hm'. apply andb_true_iff in Hm' as [Hh _]. apply Z.eqb_eq in Hh.
      rewrite (slot_of_hcode ht n key Hh) in Hs. subst i.
      rewrite Hc in Hi. inversion Hi; subst c.
      rewrite (Hf n Hn) in Hm. discriminate.
  - exists None. split; [reflexivity|].
    intros n Hn. unfold nodes, chains in Hn. rewrite Ht in Hn. inversion Hn.
Qed.

Lemma h_detach_spec (ht : HTab Node) (from : cursor) (n : Node) :
  htab_wf ht -> deref ht from = Some n ->
  exists ht', h_detach ht from = Some (ht', n) /\ htab_wf ht' /\
              nodes ht ≡ₚ n :: nodes ht' /\ tab ht' <> None /\
              mask ht' = mask ht /\ size ht' = size ht - 1.
Proof.
  intros Hwf Hd. unfold deref in Hd. unfold h_detach.
  destruct (tab ht) as [t|] eqn:Ht; [|discriminate]. simpl in *.
  destruct (t !! from.1) as [chain|] eqn:Hc; [|discriminate]. simpl in *.
  rewrite Hd. simpl. eexists. split; [reflexivity|].
  destruct (concat_insert_perm t _ chain (delete from.2 chain) Hc) as (rest & P1 & P2).
  assert (Pc : chain ≡ₚ n :: delete from.2 chain) by (apply delete_Permutation; assumption).
  unfold htab_wf in Hwf. rewrite Ht in Hwf. destruct Hwf as (Hm & Hlen & Hp & Hsz & Hslot).
  split_and!; simpl; try congruence.
  - unfold htab_wf. simpl. split_and!; auto.
    + rewrite length_insert. assumption.
    + rewrite Hsz. rewrite P1, P2. rewrite Pc at 1. rewrite !length_app. simpl. lia.
    + intros i c x Hi Hx. unfold slot_of. simpl.
      assert (Hlt : (from.1 < length t)%nat) by (eapply lookup_lt_Some; eauto).
      destruct (decide (i = from.1)) as [->|Hne].
      * rewrite list_lookup_insert_eq in Hi by assumption. inversion Hi; subst c.
        apply (Hslot _ chain x Hc). rewrite Pc. apply elem_of_cons. auto.
      * rewrite list_lookup_insert_ne in Hi by congruence.
        apply (Hslot _ c x Hi Hx).
  - unfold nodes, chains. rewrite Ht. simpl. rewrite P1, P2. rewrite Pc at 1. reflexivity.
Qed.


(** What one call of [hm_help_rehashing] does to the two tables: the nodes
    [mv] leave [older] and join [newer]. *)
Definition moves (hm hm' : HMap Node) (mv : list Node) : Prop :=
  nodes (newer hm') ≡ₚ mv ++ nodes (newer hm) /\
  nodes (older hm) ≡ₚ mv ++ nodes (older hm').

Lemma moves_stored (hm hm' : HMap Node) (mv : list Node) :
  moves hm hm' mv -> stored hm' ≡ₚ stored hm.
Proof.
  intros [H1 H2]. unfold stored. rewrite H1, H2.
  rewrite (Permutation_app_comm mv (nodes (newer hm))), <- app_assoc. reflexivity.
Qed.

Lemma htab_wf_tab_none_nodes (ht : HTab Node) : tab ht = None -> nodes ht = [].
Proof. unfold nodes, chains. intros ->. reflexivity. Qed.

Lemma htab_wf_size (ht : HTab Node) :
  htab_wf ht -> size ht = Z.of_nat (length (nodes ht)).
Proof.
  unfold htab_wf, nodes, chains. destruct (tab ht); simpl; [tauto|auto].
Qed.

Lemma help_loop_spec (fuel : nat) :
  forall (hm : HMap Node) (moved : Z),
    hm_wf hm -> 0 <= moved ->
    (Z.to_nat (k_rehashing_work - moved)
     + Z.to_nat (mask (older hm) + 1 - migrate_pos hm) < fuel)%nat ->
    exists hm' moved' mv,
      help_loop hcode fuel hm moved = Some (hm', moved') /\
      hm_wf hm' /\
      moved' = moved + Z.of_nat (length mv) /\
      moved' <= Z.max moved k_rehashing_work /\
      moves hm hm' mv /\
      (tab (older hm) = None -> tab (older hm') = None) /\
      (tab (newer hm) <> None -> tab (newer hm') <> None).
Proof.
  induction fuel as [|fuel IH]; intros hm moved Hwf Hmv Hfuel; [lia|].
  assert (Hret : exists hm' moved' mv,
             Some (hm, moved) = Some (hm', moved') /\ hm_wf hm' /\
             moved' = moved + Z.of_nat (length mv) /\
             moved' <= Z.max moved k_rehashing_work /\
             moves hm hm' mv /\
             (tab (older hm) = None -> tab (older hm') = None) /\
             (tab (newer hm) <> None -> tab (newer hm') <> None)).
  { exists hm, moved, []. split_and!; auto; simpl; try lia. split; reflexivity. }
  cbn [help_loop].
  destruct ((moved <? k_rehashing_work) && (0 <? size (older hm))) eqn:Hcond; [|exact Hret].
  apply andb_true_iff in Hcond as [Hlt Hsz]. apply Z.ltb_lt in Hlt, Hsz.
  destruct (mask (older hm) <? migrate_pos hm) eqn:Hpos; [exact Hret|].
  apply Z.ltb_ge in Hpos. clear Hret.
  destruct Hwf as (Hn & Ho & Hnd & Hmp & Htabs).
  destruct (tab (older hm)) as [t|] eqn:Ht.
  2:{ unfold htab_wf in Ho. rewrite Ht in Ho. lia. }
  pose proof Ho as Ho'. unfold htab_wf in Ho'. rewrite Ht in Ho'.
  destruct Ho' as (Hm & Hlen & Hp2 & Hsize & Hslot).
  assert (Hidx : (Z.to_nat (migrate_pos hm) < length t)%nat) by lia.
  destruct (lookup_lt_is_Some_2 t _ Hidx) as [chain Hc].
  cbn [mbind option_bind fst]. rewrite Hc. cbn [mbind option_bind].
  destruct chain as [|n rest].
  - (* empty slot: advance [migrate_pos] *)
    destruct (IH (mkHMap (newer hm) (older hm) (migrate_pos hm + 1)) moved)
      as (hm' & moved' & mv & Hl & Hwf' & Hm' & Hle & Hmoves & Htab' & Htabn'); simpl; auto.
    + split_and!; simpl; auto; try lia; rewrite ?Ht; auto.
    + lia.
    + exists hm', moved', mv. split_and!; auto.
      simpl in Htab'. rewrite Ht in Htab'. congruence.

  - (* move the head of the chain *)
    assert (Hd : deref (older hm) (Z.to_nat (migrate_pos hm), 0%nat) = Some n).
    { unfold deref. rewrite Ht. simpl. rewrite Hc. reflexivity. }
    destruct (h_detach_spec (older hm) _ n Ho Hd)
      as (older' & Hdet & Hwfo & Pold & Htabo & Hmasko & Hsizeo).
    rewrite Hdet. cbn [mbind option_bind].
    assert (Hnn : tab (newer hm) <> None) by (apply Htabs; congruence).
    destruct (h_insert_spec (newer hm) n Hn Hnn)
      as (newer' & Hins & Hwfn & Pnew & Htabn & Hmaskn & Hsizen).
    rewrite Hins. cbn [mbind option_bind].
    destruct (IH (mkHMap newer' older' (migrate_pos hm)) (moved + 1))
      as (hm' & moved' & mv & Hl & Hwf' & Hm' & Hle & [Hmv1 Hmv2] & Htab' & Htabn'); simpl; auto.
    + split_and!; simpl; auto.
      unfold stored. simpl. rewrite Pnew. simpl.
      rewrite Permutation_middle. rewrite <- Pold. exact Hnd.
    + lia.
    + rewrite Hmasko. lia.
    + simpl in *. exists hm', moved', (mv ++ [n]). split_and!; auto.
      * rewrite length_app. simpl. lia.
      * lia.
      * split.
        -- rewrite Hmv1, Pnew. rewrite <- app_assoc. reflexivity.
        -- rewrite Pold, Hmv2. rewrite <- app_assoc. simpl.
           rewrite Permutation_middle. reflexivity.
      * congruence.
Qed.

Lemma hm_help_rehashing_spec (hm : HMap Node) :
  hm_wf hm ->
  exists hm' mv,
    hm_help_rehashing hcode hm = Some hm' /\ hm_wf hm' /\
    Z.of_nat (length mv) <= k_rehashing_work /\
    moves hm hm' mv /\
    (tab (newer hm) <> None -> tab (newer hm') <> None).
Proof.
  intros Hwf. unfold hm_help_rehashing.
  destruct (tab (older hm)) as [t|] eqn:Ht.
  - destruct (help_loop_spec (help_fuel hm) hm 0 Hwf)
      as (hm1 & moved & mv & Hl & Hwf1 & Hm & Hle & Hmoves & _ & Hnn1); [lia| |].
    { unfold help_fuel. unfold k_rehashing_work. lia. }
    rewrite Hl. cbn [mbind option_bind].
    assert (Hlen : Z.of_nat (length mv) <= k_rehashing_work).
    { unfold k_rehashing_work in *. lia. }
    destruct (size (older hm1) =? 0) eqn:Hz.
    + apply Z.eqb_eq in Hz.
      destruct Hwf1 as (Hn1 & Ho1 & Hnd1 & Hmp1 & Htabs1).
      assert (Hnil : nodes (older hm1) = []).
      { rewrite (htab_wf_size _ Ho1) in Hz. destruct (nodes (older hm1)); [auto|simpl in Hz; lia]. }
      eexists _, mv. split; [reflexivity|]. split_and!; simpl; auto.
      * split_and!; simpl; auto.
        -- apply htab_wf_zero.
        -- unfold stored in *. simpl. rewrite nodes_zero. rewrite Hnil in Hnd1. exact Hnd1.
      * destruct Hmoves as [M1 M2]. split; simpl; auto.
        rewrite nodes_zero. rewrite Hnil in M2. exact M2.
    + exists hm1, mv. split_and!; auto.
  - exists hm, []. split_and!; auto; simpl.
    + unfold k_rehashing_work. lia.
    + split; reflexivity.
Qed.

Lemma keys_distinct_perm (l l' : list Node) :
  l ≡ₚ l' -> keys_distinct l -> keys_distinct l'.
Proof.
  intros P H key n1 n2 H1 H2. apply H; rewrite P; assumption.
Qed.

Lemma keys_distinct_cons (l : list Node) (x : Node) :
  keys_distinct l -> key_fresh l x -> keys_distinct (x :: l).
Proof.
  intros Hd Hf key n1 n2 H1 H2 M1 M2.
  apply elem_of_cons in H1 as [->|H1]; apply elem_of_cons in H2 as [->|H2]; auto.
  - rewrite (Hf key n2 H2 M1) in M2. discriminate.
  - rewrite (Hf key n1 H1 M2) in M1. discriminate.
  - eapply Hd; eauto.
Qed.

Lemma keys_distinct_tail (l : list Node) (x : Node) :
  keys_distinct (x :: l) -> keys_distinct l.
Proof.
  intros H key n1 n2 H1 H2. apply H; apply elem_of_cons; auto.
Qed.

(** The answer of a lookup, in terms of the stored nodes only. *)
Definition lookup_result (l : list Node) (key : Node) (r : option Node) : Prop :=
  match r with
  | Some n => n ∈ l /\ matches key n = true
  | None => forall n, n ∈ l -> matches key n = false
  end.

(** With distinct keys the answer is determined by the stored nodes. *)
Lemma lookup_result_unique (l : list Node) (key : Node) (r : option Node) (n : Node) :
  keys_distinct l -> lookup_result l key r ->
  n ∈ l -> matches key n = true -> r = Some n.
Proof.
  intros Hd Hr Hn Hm. destruct r as [n'|]; simpl in Hr.
  - destruct Hr as [Hn' Hm']. f_equal. eapply Hd; eauto.
  - rewrite (Hr n Hn) in Hm. discriminate.
Qed.

Lemma lookup_result_perm (l l' : list Node) (key : Node) (r : option Node) :
  l ≡ₚ l' -> lookup_result l key r -> lookup_result l' key r.
Proof.
  intros P. destruct r; simpl.
  - intros [H1 H2]. split; auto. rewrite <- P. assumption.
  - intros H n Hn. apply H. rewrite P. assumption.
Qed.

(** The two probes of [hm_lookup] and [hm_delete], after the rehashing
    step. *)
Lemma probe_spec (hm : HMap Node) (key : Node) :
  hm_wf hm ->
  exists r1, h_lookup hcode eq (newer hm) key = Some r1 /\
    match r1 with
    | Some from =>
        exists n, deref (newer hm) from = Some n /\ matches key n = true /\
                  n ∈ nodes (newer hm)
    | None =>
        (forall n, n ∈ nodes (newer hm) -> matches key n = false) /\
        exists r2, h_lookup hcode eq (older hm) key = Some r2 /\
          match r2 with
          | Some from =>
              exists n, deref (older hm) from = Some n /\ matches key n = true /\
                        n ∈ nodes (older hm)
          | None => forall n, n ∈ nodes (older hm) -> matches key n = false
          end
    end.
Proof.
  intros (Hn & Ho & _).
  destruct (h_lookup_spec (newer hm) key Hn) as (r1 & H1 & S1).
  exists r1. split; auto. destruct r1; auto. split; auto.
  apply (h_lookup_spec (older hm) key Ho).
Qed.

Lemma hm_lookup_spec (hm : HMap Node) (key : Node) :
  hm_wf hm ->
  exists hm' r mv,
    hm_lookup hcode eq hm key = Some (hm', r) /\ hm_wf hm' /\
    hm_help_rehashing hcode hm = Some hm' /\
    Z.of_nat (length mv) <= k_rehashing_work /\ moves hm hm' mv /\
    lookup_result (stored hm) key r.
Proof.
  intros Hwf. unfold hm_lookup.
  destruct (hm_help_rehashing_spec hm Hwf) as (hm1 & mv & Hh & Hwf1 & Hlen & Hmv & _).
  rewrite Hh. cbn [mbind option_bind].
  pose proof (moves_stored _ _ _ Hmv) as P.
  destruct (probe_spec hm1 key Hwf1) as (r1 & H1 & S1). rewrite H1. cbn [mbind option_bind].
  destruct r1 as [from|].
  - destruct S1 as (n & Hd & Hm & Hin). rewrite Hd. cbn [mbind option_bind].
    exists hm1, (Some n), mv. split_and!; auto.
    apply (lookup_result_perm _ _ _ _ P). split; auto.
    unfold stored. apply elem_of_app. auto.
  - destruct S1 as (Hnone & r2 & H2 & S2). rewrite H2. cbn [mbind option_bind].
    destruct r2 as [from|].
    + destruct S2 as (n & Hd & Hm & Hin). rewrite Hd. cbn [mbind option_bind].
      exists hm1, (Some n), mv. split_and!; auto.
      apply (lookup_result_perm _ _ _ _ P). split; auto.
      unfold stored. apply elem_of_app. auto.
    + exists hm1, None, mv. split_and!; auto.
      apply (lookup_result_perm _ _ _ _ P). intros n Hn.
      unfold stored in Hn. apply elem_of_app in Hn as [Hn|Hn]; auto.
Qed.

(** A node [n] was unlinked from one of the two tables. *)
Definition detached (hm hm' : HMap Node) (n : Node) : Prop :=
  (nodes (newer hm) ≡ₚ n :: nodes (newer hm') /\ nodes (older hm') = nodes (older hm)) \/
  (nodes (older hm) ≡ₚ n :: nodes (older hm') /\ nodes (newer hm') = nodes (newer hm)).

Lemma detached_stored (hm hm' : HMap Node) (n : Node) :
  detached hm hm' n -> stored hm ≡ₚ n :: stored hm'.
Proof.
  unfold stored. intros [[P E]|[P E]]; rewrite P, E.
  - reflexivity.
  - rewrite Permutation_middle. reflexivity.
Qed.

Lemma NoDup_perm_cons_tail (l l' : list Node) (n : Node) :
  l ≡ₚ n :: l' -> NoDup l -> NoDup l'.
Proof.
  intros P H. rewrite P in H. apply NoDup_cons in H. tauto.
Qed.

Lemma hm_delete_spec (hm : HMap Node) (key : Node) :
  hm_wf hm ->
  exists hm1 hm' r mv,
    hm_delete hcode eq hm key = Some (hm', r) /\ hm_wf hm' /\
    hm_help_rehashing hcode hm = Some hm1 /\
    Z.of_nat (length mv) <= k_rehashing_work /\ moves hm hm1 mv /\
    lookup_result (stored hm) key r /\
    match r with
    | Some n => detached hm1 hm' n
    | None => hm' = hm1
    end.
Proof.
  intros Hwf. unfold hm_delete.
  destruct (hm_help_rehashing_spec hm Hwf) as (hm1 & mv & Hh & Hwf1 & Hlen & Hmv & _).
  rewrite Hh. cbn [mbind option_bind].
  pose proof (moves_stored _ _ _ Hmv) as P.
  destruct (probe_spec hm1 key Hwf1) as (r1 & H1 & S1). rewrite H1. cbn [mbind option_bind].
  pose proof Hwf1 as (Hn & Ho & Hnd & Hmp & Htabs).
  destruct r1 as [from|].
  - destruct S1 as (n & Hd & Hm & Hin).
    destruct (h_detach_spec (newer hm1) from n Hn Hd)
      as (newer' & Hdet & Hwfn & Pn & Htabn & Hmaskn & Hsizen).
    rewrite Hdet. cbn [mbind option_bind].
    assert (Hdt : detached hm1 (mkHMap newer' (older hm1) (migrate_pos hm1)) n).
    { left. simpl. auto. }
    exists hm1, (mkHMap newer' (older hm1) (migrate_pos hm1)), (Some n), mv.
    split_and!; auto.
    + split_and!; simpl; auto.
      eapply NoDup_perm_cons_tail; [apply (detached_stored _ _ _ Hdt)|exact Hnd].
    + apply (lookup_result_perm _ _ _ _ P). split; auto.
      unfold stored. apply elem_of_app. auto.
  - destruct S1 as (Hnone & r2 & H2 & S2). rewrite H2. cbn [mbind option_bind].
    destruct r2 as [from|].
    + destruct S2 as (n & Hd & Hm & Hin).
      destruct (h_detach_spec (older hm1) from n Ho Hd)
        as (older' & Hdet & Hwfo & Po & Htabo & Hmasko & Hsizeo).
      rewrite Hdet. cbn [mbind option_bind].
      assert (Hdt : detached hm1 (mkHMap (newer hm1) older' (migrate_pos hm1)) n).
      { right. simpl. auto. }
      exists hm1, (mkHMap (newer hm1) older' (migrate_pos hm1)), (Some n), mv.
      split_and!; auto.
      * split_and!; simpl; auto.
        -- eapply NoDup_perm_cons_tail; [apply (detached_stored _ _ _ Hdt)|exact Hnd].
        -- intros _. apply Htabs. unfold deref in Hd.
           destruct (tab (older hm1)); [congruence|discriminate].
      * apply (lookup_result_perm _ _ _ _ P). split; auto.
        unfold stored. apply elem_of_app. auto.
    + exists hm1, hm1, None, mv. split_and!; auto.
      apply (lookup_result_perm _ _ _ _ P). intros n Hn'.
      unfold stored in Hn'. apply elem_of_app in Hn' as [Hn'|Hn']; auto.
Qed.

(** The state of [hm_insert] before its rehashing step: the node was
    chained, and the tables were swapped if the load factor was reached. *)
Definition inserted (hm hm0 : HMap Node) (x : Node) : Prop :=
  (nodes (newer hm0) ≡ₚ x :: nodes (newer hm) /\ older hm0 = older hm) \/
  (nodes (older hm) = [] /\ nodes (newer hm0) = [] /\
   nodes (older hm0) ≡ₚ x :: nodes (newer hm)).

Lemma inserted_stored (hm hm0 : HMap Node) (x : Node) :
  inserted hm hm0 x -> stored hm0 ≡ₚ x :: stored hm.
Proof.
  unfold stored. intros [[P E]|(E1 & E2 & P)].
  - rewrite P, E. reflexivity.
  - rewrite E1, E2, P. simpl. rewrite app_nil_r. reflexivity.
Qed.

Lemma hm_insert_spec (hm : HMap Node) (x : Node) :
  hm_wf hm -> x ∉ stored hm ->
  exists hm0 hm' mv,
    hm_insert hcode hm x = Some hm' /\ hm_wf hm' /\
    inserted hm hm0 x /\
    hm_help_rehashing hcode hm0 = Some hm' /\
    Z.of_nat (length mv) <= k_rehashing_work /\ moves hm0 hm' mv.
Proof.
  intros (Hn & Ho & Hnd & Hmp & Htabs) Hx. unfold hm_insert.
  assert (H0 : exists newer0,
             match tab (newer hm) with None => h_init 4 | Some _ => Some (newer hm) end
             = Some newer0 /\ htab_wf newer0 /\ tab newer0 <> None /\
             nodes newer0 = nodes (newer hm)).
  { destruct (tab (newer hm)) eqn:Ht.
    - exists (newer hm). split_and!; auto. congruence.
    - destruct (h_init_spec 4) as (ht & Hi & Hwf & Hnil & Hnn & _); [reflexivity|lia|].
      exists ht. split_and!; auto. rewrite Hnil.
      symmetry. apply htab_wf_tab_none_nodes. assumption. }
  destruct H0 as (newer0 & -> & Hwf0 & Hnn0 & Hnodes0). cbn [mbind option_bind].
  destruct (h_insert_spec newer0 x Hwf0 Hnn0)
    as (newer1 & Hins & Hwf1 & P1 & Hnn1 & Hmask1 & Hsize1).
  rewrite Hins. cbn [mbind option_bind]. cbn [older newer migrate_pos].
  rewrite Hnodes0 in P1.
  assert (Hnd1 : NoDup (nodes newer1 ++ nodes (older hm))).
  { rewrite P1. simpl. apply NoDup_cons. split; auto. }
  assert (Hstep : exists hm0,
     match tab (older hm) with
     | None =>
         if (mask newer1 + 1) * k_max_load_factor <=? size newer1
         then hm_trigger_rehashing (mkHMap newer1 (older hm) (migrate_pos hm))
         else Some (mkHMap newer1 (older hm) (migrate_pos hm))
     | Some _ => Some (mkHMap newer1 (older hm) (migrate_pos hm))
     end = Some hm0 /\ hm_wf hm0 /\ inserted hm hm0 x).
  { assert (Hplain : hm_wf (mkHMap newer1 (older hm) (migrate_pos hm)) /\
                     inserted hm (mkHMap newer1 (older hm) (migrate_pos hm)) x).
    { split; [split_and!; simpl; auto | left; simpl; auto]. }
    destruct (tab (older hm)) eqn:Hto; [eexists; split; [reflexivity|exact Hplain]|].
    destruct ((mask newer1 + 1) * k_max_load_factor <=? size newer1);
      [|eexists; split; [reflexivity|exact Hplain]].
    unfold hm_trigger_rehashing. cbn [newer].
    pose proof Hwf1 as Hwf1'. unfold htab_wf in Hwf1'.
    destruct (tab newer1) eqn:Ht1; [|congruence].
    destruct Hwf1' as (Hm & _ & Hp & _).
    destruct (h_init_spec ((mask newer1 + 1) * 2)) as (ht & Hi & Hwf & Hnil & Hnn & _);
      [apply is_pow2_double; assumption|lia|].
    rewrite Hi. cbn [mbind option_bind]. eexists. split; [reflexivity|]. split.
    - split_and!; simpl; auto; try lia.
      unfold stored. simpl. rewrite Hnil. simpl.
      rewrite (htab_wf_tab_none_nodes _ Hto), app_nil_r in Hnd1. exact Hnd1.
    - right. simpl. split_and!; auto.
      apply htab_wf_tab_none_nodes. assumption. }
  destruct Hstep as (hm0 & -> & Hwf0' & Hins0). cbn [mbind option_bind].
  destruct (hm_help_rehashing_spec hm0 Hwf0') as (hm' & mv & Hh & Hwf' & Hlen & Hmv & _).
  exists hm0, hm', mv. split_and!; auto.
Qed.


(** *** Sequences of operations *)

Inductive op :=
| OpLookup (key : Node)
| OpInsert (node : Node)
| OpDelete (key : Node).

Definition step (hm : HMap Node) (o : op) : option (HMap Node) :=
  match o with
  | OpLookup key => '(hm', _) ← hm_lookup hcode eq hm key; Some hm'
  | OpInsert node => hm_insert hcode hm node
  | OpDelete key => '(hm', _) ← hm_delete hcode eq hm key; Some hm'
  end.

Fixpoint run (hm : HMap Node) (ops : list op) : option (HMap Node) :=
  match ops with
  | [] => Some hm
  | o :: ops' => hm' ← step hm o; run hm' ops'
  end.

(** The contract of the callers, on the stored nodes [l]: a node that is
    inserted is not stored yet, and neither is its key. *)
Fixpoint admissible (l : list Node) (ops : list op) : Prop :=
  match ops with
  | [] => True
  | OpLookup _ :: ops' => admissible l ops'
  | OpInsert x :: ops' => (x ∉ l) /\ key_fresh l x /\ admissible (x :: l) ops'
  | OpDelete key :: ops' => admissible (filter (fun n => matches key n = false) l) ops'
  end.

(** No operation deletes the key of [n]. *)
Definition never_deletes (ops : list op) (n : Node) : Prop :=
  forall key, OpDelete key ∈ ops -> matches key n = false.

(** A node resides in at most one of the two tables. *)
Definition in_one_table (hm : HMap Node) : Prop :=
  forall x, ~ (x ∈ nodes (newer hm) /\ x ∈ nodes (older hm)).

Lemma hm_wf_in_one_table (hm : HMap Node) : hm_wf hm -> in_one_table hm.
Proof.
  intros (_ & _ & Hnd & _) x [H1 H2]. unfold stored in Hnd.
  apply NoDup_app in Hnd as (_ & Hdisj & _). apply (Hdisj x H1 H2).
Qed.

Lemma key_fresh_perm (l l' : list Node) (x : Node) :
  l ≡ₚ l' -> key_fresh l x -> key_fresh l' x.
Proof. intros P H key n Hn. apply H. rewrite P. assumption. Qed.

Lemma admissible_perm (ops : list op) :
  forall l l', l ≡ₚ l' -> admissible l ops -> admissible l' ops.
Proof.
  induction ops as [|[key|x|key] ops IH]; intros l l' P; simpl; auto.
  - apply IH; assumption.
  - intros (H1 & H2 & H3). split_and!.
    + rewrite <- P. assumption.
    + eapply key_fresh_perm; eauto.
    + eapply IH; [|exact H3]. constructor. assumption.
  - apply IH. apply filter_Permutation. assumption.
Qed.

Lemma filter_no_match (l : list Node) (key : Node) :
  (forall n, n ∈ l -> matches key n = false) ->
  filter (fun n => matches key n = false) l = l.
Proof.
  induction l as [|a l IH]; intros H; [reflexivity|].
  rewrite filter_cons_True by (apply H; apply elem_of_cons; auto).
  f_equal. apply IH. intros n Hn. apply H. apply elem_of_cons; auto.
Qed.

Lemma filter_unique_match (l : list Node) (key d : Node) :
  keys_distinct (d :: l) -> d ∉ l -> matches key d = true ->
  filter (fun n => matches key n = false) (d :: l) = l.
Proof.
  intros Hd Hnin Hm. rewrite filter_cons_False by congruence.
  apply filter_no_match. intros n Hn.
  destruct (matches key n) eqn:E; [|reflexivity].
  exfalso. apply Hnin.
  assert (d = n) as ->; [|assumption].
  eapply Hd; eauto; apply elem_of_cons; auto.
Qed.

(** One operation: it returns, keeps the map well formed and the keys
    distinct, and changes the stored nodes as the contract says. *)
Lemma step_spec (hm : HMap Node) (o : op) (ops : list op) :
  hm_wf hm -> keys_distinct (stored hm) -> admissible (stored hm) (o :: ops) ->
  exists hm', step hm o = Some hm' /\ hm_wf hm' /\ keys_distinct (stored hm') /\
    admissible (stored hm') ops /\
    forall n, n ∈ stored hm ->
              (forall key, o = OpDelete key -> matches key n = false) ->
              n ∈ stored hm'.
Proof.
  intros Hwf Hkd Hadm. destruct o as [key|x|key]; simpl in *.
  - destruct (hm_lookup_spec hm key Hwf) as (hm' & r & mv & Hl & Hwf' & _ & _ & Hmv & _).
    rewrite Hl. simpl. pose proof (moves_stored _ _ _ Hmv) as P.
    exists hm'. split_and!; auto.
    + eapply keys_distinct_perm; [symmetry; exact P|assumption].
    + eapply admissible_perm; [symmetry; exact P|assumption].
    + intros n Hn _. rewrite P. assumption.
  - destruct Hadm as (Hx & Hfresh & Hadm).
    destruct (hm_insert_spec hm x Hwf Hx) as (hm0 & hm' & mv & Hi & Hwf' & Hins & _ & _ & Hmv).
    pose proof (moves_stored _ _ _ Hmv) as P.
    pose proof (inserted_stored _ _ _ Hins) as P0.
    assert (P' : stored hm' ≡ₚ x :: stored hm) by (rewrite P, P0; reflexivity).
    exists hm'. split_and!; auto.
    + eapply keys_distinct_perm; [symmetry; exact P'|].
      apply keys_distinct_cons; assumption.
    + eapply admissible_perm; [symmetry; exact P'|assumption].
    + intros n Hn _. rewrite P'. apply elem_of_cons. auto.
  - destruct (hm_delete_spec hm key Hwf)
      as (hm1 & hm' & r & mv & Hd & Hwf' & _ & _ & Hmv & Hres & Hdet).
    rewrite Hd. simpl. pose proof (moves_stored _ _ _ Hmv) as P.
    exists hm'. destruct r as [d|].
    + pose proof (detached_stored _ _ _ Hdet) as Pd. rewrite P in Pd.
      destruct Hres as [Hin Hm].
      assert (Hnd : NoDup (d :: stored hm')).
      { rewrite <- Pd. destruct Hwf as (_ & _ & H & _). exact H. }
      apply NoDup_cons in Hnd as [Hnin Hnd].
      assert (Hkd' : keys_distinct (d :: stored hm')).
      { eapply keys_distinct_perm; [exact Pd|assumption]. }
      split_and!; auto.
      * eapply keys_distinct_tail; eauto.
      * rewrite <- (filter_unique_match (stored hm') key d Hkd' Hnin Hm).
        eapply admissible_perm; [|exact Hadm]. apply filter_Permutation. assumption.
      * intros n Hn Hkeep. rewrite Pd in Hn. apply elem_of_cons in Hn as [->|Hn]; auto.
        rewrite (Hkeep key eq_refl) in Hm. discriminate.
    + subst hm'. simpl in Hres. split_and!; auto.
      * eapply keys_distinct_perm; [symmetry; exact P|assumption].
      * rewrite (filter_no_match _ _ Hres) in Hadm.
        eapply admissible_perm; [symmetry; exact P|assumption].
      * intros n Hn _. rewrite P. assumption.
Qed.

Lemma run_spec (ops : list op) :
  forall hm, hm_wf hm -> keys_distinct (stored hm) -> admissible (stored hm) ops ->
  exists hm', run hm ops = Some hm' /\ hm_wf hm' /\ keys_distinct (stored hm') /\
    forall n, n ∈ stored hm -> never_deletes ops n -> n ∈ stored hm'.
Proof.
  induction ops as [|o ops IH]; intros hm Hwf Hkd Hadm.
  - exists hm. simpl. auto.
  - destruct (step_spec hm o ops Hwf Hkd Hadm) as (hm1 & Hs & Hwf1 & Hkd1 & Hadm1 & Hkeep1).
    destruct (IH hm1 Hwf1 Hkd1 Hadm1) as (hm' & Hr & Hwf' & Hkd' & Hkeep').
    exists hm'. simpl. rewrite Hs. simpl. split_and!; auto.
    intros n Hn Hnd. apply Hkeep'.
    + apply Hkeep1; auto. intros key ->. apply Hnd. apply elem_of_cons. auto.
    + intros key Hk. apply Hnd. apply elem_of_cons. auto.
Qed.

Lemma admissible_take (ops : list op) :
  forall l i, admissible l ops -> admissible l (take i ops).
Proof.
  induction ops as [|[key|x|key] ops IH]; intros l [|i]; simpl; auto.
  intros (H1 & H2 & H3). auto.
Qed.

Lemma never_deletes_take (ops : list op) (i : nat) (n : Node) :
  never_deletes ops n -> never_deletes (take i ops) n.
Proof.
  intros H key Hk. apply H.
  apply elem_of_take in Hk as (j & Hj & _). eapply list_elem_of_lookup_2; eauto.
Qed.

(** [hm_lookup] of a key that is stored returns its node. *)
Lemma hm_lookup_stored (hm : HMap Node) (key n : Node) :
  hm_wf hm -> keys_distinct (stored hm) ->
  n ∈ stored hm -> matches key n = true ->
  exists hm', hm_lookup hcode eq hm key = Some (hm', Some n) /\ hm_wf hm' /\
              stored hm' ≡ₚ stored hm.
Proof.
  intros Hwf Hkd Hn Hm.
  destruct (hm_lookup_spec hm key Hwf) as (hm' & r & mv & Hl & Hwf' & _ & _ & Hmv & Hres).
  rewrite (lookup_result_unique _ _ _ _ Hkd Hres Hn Hm) in Hl.
  exists hm'. split_and!; auto. eapply moves_stored; eauto.
Qed.

(** C5: in a well-formed map with distinct keys, run any sequence of
    lookups, inserts of fresh nodes and deletes, none of which deletes the
    key of a stored node [n].  After every prefix of the sequence, and so
    at every step of a progressive migration, the map is well formed, no
    node resides in both tables, and [hm_lookup] (which probes [newer],
    then [older]) returns [n] for its key. *)
Theorem stored_key_stays_findable
    (hm : HMap Node) (ops : list op) (key n : Node) (i : nat) :
  hm_wf hm -> keys_distinct (stored hm) -> admissible (stored hm) ops ->
  n ∈ stored hm -> matches key n = true -> never_deletes ops n ->
  exists hm_i hm',
    run hm (take i ops) = Some hm_i /\
    hm_wf hm_i /\ in_one_table hm_i /\
    (n ∈ nodes (newer hm_i) \/ n ∈ nodes (older hm_i)) /\
    hm_lookup hcode eq hm_i key = Some (hm', Some n).
Proof.
  intros Hwf Hkd Hadm Hn Hm Hnd.
  destruct (run_spec (take i ops) hm Hwf Hkd (admissible_take _ _ _ Hadm))
    as (hm_i & Hr & Hwf_i & Hkd_i & Hkeep).
  pose proof (Hkeep n Hn (never_deletes_take _ _ _ Hnd)) as Hn_i.
  destruct (hm_lookup_stored hm_i key n Hwf_i Hkd_i Hn_i Hm) as (hm' & Hl & _).
  exists hm_i, hm'. split_and!; auto.
  - apply hm_wf_in_one_table. assumption.
  - unfold stored in Hn_i. apply elem_of_app in Hn_i. assumption.
Qed.

(** C10: an insert of a node with a fresh key, and a delete of a key, leave
    the answer of [hm_lookup] for every other stored key unchanged: it is
    the same node before and after, whatever was migrated meanwhile. *)
Theorem lookup_of_other_keys_unchanged (hm : HMap Node) (key' n' : Node) :
  hm_wf hm -> keys_distinct (stored hm) ->
  n' ∈ stored hm -> matches key' n' = true ->
  (exists hm1, hm_lookup hcode eq hm key' = Some (hm1, Some n')) /\
  (forall x, x ∉ stored hm -> key_fresh (stored hm) x ->
     exists hm2 hm3,
       hm_insert hcode hm x = Some hm2 /\
       hm_lookup hcode eq hm2 key' = Some (hm3, Some n')) /\
  (forall key, matches key n' = false ->
     exists hm2 r hm3,
       hm_delete hcode eq hm key = Some (hm2, r) /\
       hm_lookup hcode eq hm2 key' = Some (hm3, Some n')).
Proof.
  intros Hwf Hkd Hn Hm. split_and!.
  - destruct (hm_lookup_stored hm key' n' Hwf Hkd Hn Hm) as (hm1 & Hl & _). eauto.
  - intros x Hx Hfresh.
    destruct (step_spec hm (OpInsert x) [] Hwf Hkd) as (hm2 & Hs & Hwf2 & Hkd2 & _ & Hkeep).
    { simpl. auto. }
    simpl in Hs.
    destruct (hm_lookup_stored hm2 key' n' Hwf2 Hkd2) as (hm3 & Hl & _); auto.
    { apply Hkeep; auto. discriminate. }
    eauto.
  - intros key Hk.
    destruct (hm_delete_spec hm key Hwf) as (hm1 & hm2 & r & mv & Hd & _).
    destruct (step_spec hm (OpDelete key) [] Hwf Hkd) as (hm2' & Hs & Hwf2 & Hkd2 & _ & Hkeep).
    { simpl. auto. }
    simpl in Hs. rewrite Hd in Hs. simpl in Hs. inversion Hs; subst hm2'.
    destruct (hm_lookup_stored hm2 key' n' Hwf2 Hkd2) as (hm3 & Hl & _); auto.
    { apply Hkeep; auto. intros k Hk'. inversion Hk'; subst. assumption. }
    eauto.
Qed.

(** The part of C6 that holds of the [migrate_pos] variant: a call of
    [hm_lookup], [hm_delete] or [hm_insert] runs [hm_help_rehashing] once,
    and that moves at most [k_rehashing_work = 128] nodes from [older] to
    [newer]. *)
Lemma bounded_migration_per_call (hm : HMap Node) :
  hm_wf hm ->
  (forall key, exists hm' r mv,
     hm_lookup hcode eq hm key = Some (hm', r) /\
     Z.of_nat (length mv) <= 128 /\ moves hm hm' mv) /\
  (forall key, exists hm1 hm' r mv,
     hm_delete hcode eq hm key = Some (hm', r) /\
     Z.of_nat (length mv) <= 128 /\ moves hm hm1 mv /\
     match r with Some n => detached hm1 hm' n | None => hm' = hm1 end) /\
  (forall x, x ∉ stored hm -> exists hm0 hm' mv,
     hm_insert hcode hm x = Some hm' /\ inserted hm hm0 x /\
     Z.of_nat (length mv) <= 128 /\ moves hm0 hm' mv).
Proof.
  intros Hwf. split_and!.
  - intros key.
    destruct (hm_lookup_spec hm key Hwf) as (hm' & r & mv & Hl & _ & _ & Hlen & Hmv & _).
    exists hm', r, mv. auto.
  - intros key.
    destruct (hm_delete_spec hm key Hwf) as (hm1 & hm' & r & mv & Hd & _ & _ & Hlen & Hmv & _ & Hdet).
    exists hm1, hm', r, mv. auto.
  - intros x Hx.
    destruct (hm_insert_spec hm x Hwf Hx) as (hm0 & hm' & mv & Hi & _ & Hins & _ & Hlen & Hmv).
    exists hm0, hm', mv. auto.
Qed.

(** *** Executable checks of the hypotheses *)

Fixpoint slots_ok (ht : HTab Node) (i : nat) (t : list (list Node)) : bool :=
  match t with
  | [] => true
  | c :: t' => forallb (fun n => Nat.eqb (slot_of hcode ht n) i) c && slots_ok ht (S i) t'
  end.

Definition htab_wfb (ht : HTab Node) : bool :=
  match tab ht with
  | None => size ht =? 0
  | Some t =>
      (0 <=? mask ht) && Nat.eqb (length t) (Z.to_nat (mask ht + 1)) &&
      is_pow2 (mask ht + 1) && (size ht =? Z.of_nat (length (concat t))) &&
      slots_ok ht 0 t
  end.

Lemma slots_ok_sound (ht : HTab Node) (t : list (list Node)) :
  forall i, slots_ok ht i t = true ->
  forall j c n, t !! j = Some c -> n ∈ c -> slot_of hcode ht n = (i + j)%nat.
Proof.
  induction t as [|c0 t IH]; intros i H j c n Hj Hn; [inversion Hj|].
  simpl in H. apply andb_true_iff in H as [H1 H2].
  destruct j as [|j]; simpl in Hj.
  - inversion Hj; subst c0. rewrite forallb_forall in H1.
    apply list_elem_of_In in Hn. specialize (H1 n Hn). apply Nat.eqb_eq in H1. lia.
  - rewrite (IH (S i) H2 j c n Hj Hn). lia.
Qed.

Lemma htab_wfb_sound (ht : HTab Node) : htab_wfb ht = true -> htab_wf ht.
Proof.
  unfold htab_wfb, htab_wf. destruct (tab ht) as [t|].
  - intros H. repeat (apply andb_true_iff in H as [H ?]).
    split_and!; try lia.
    + apply Nat.eqb_eq. assumption.
    + assumption.
    + intros i chain n Hi Hn. apply (slots_ok_sound ht t 0 ltac:(assumption) i chain n Hi Hn).
  - intros H. lia.
Qed.

End Facts.

(** Well-formedness reads the hash codes of the stored nodes only. *)
Lemma htab_wf_ext {Node : Type} (hc hc' : Node -> Z) (ht : HTab Node) :
  (forall n, n ∈ nodes ht -> hc n = hc' n) -> htab_wf hc ht -> htab_wf hc' ht.
Proof.
  unfold htab_wf. intros Hext. destruct (tab ht) as [t|] eqn:Ht; auto.
  intros (H1 & H2 & H3 & H4 & H5). split_and!; auto.
  intros i chain n Hi Hn. rewrite <- (H5 i chain n Hi Hn).
  unfold slot_of. rewrite Hext; [reflexivity|].
  apply elem_of_nodes. eauto 6.
Qed.

Lemma hm_wf_ext {Node : Type} (hc hc' : Node -> Z) (hm : HMap Node) :
  (forall n, n ∈ stored hm -> hc n = hc' n) -> hm_wf hc hm -> hm_wf hc' hm.
Proof.
  intros Hext (H1 & H2 & H3 & H4 & H5). unfold hm_wf. split_and!; auto.
  - eapply htab_wf_ext; [|exact H1]. intros n Hn. apply Hext.
    unfold stored. apply elem_of_app. auto.
  - eapply htab_wf_ext; [|exact H2]. intros n Hn. apply Hext.
    unfold stored. apply elem_of_app. auto.
Qed.

End HashTableFacts.

(** *** A map in the middle of a migration

    Nodes are integers that are their own hash code and key.  [older] has
    four slots, of which slot 0 is drained; [newer] has eight. *)

Module HashTableExample.

Import HashTable HashTableFacts.

Definition hcode (n : Z) : Z := n.
Definition eq (a b : Z) : bool := a =? b.

Definition mid : HMap Z :=
  mkHMap (mkHTab (Some [[8]; []; []; []; [4]; []; []; []]) 7 2)
         (mkHTab (Some [[]; [5; 1]; [2]; [3]]) 3 4)
         1.

Lemma matches_eq (key n : Z) : matches hcode eq key n = true <-> n = key.
Proof.
  unfold matches, hcode, eq. rewrite andb_diag. apply Z.eqb_eq.
Qed.

Lemma keys_distinct_any (l : list Z) : keys_distinct hcode eq l.
Proof.
  intros key n1 n2 _ _ H1 H2. apply matches_eq in H1, H2. congruence.
Qed.

Lemma key_fresh_any (l : list Z) (x : Z) : x ∉ l -> key_fresh hcode eq l x.
Proof.
  intros Hx key n Hn Hm. apply matches_eq in Hm. subst key.
  destruct (matches hcode eq x n) eqn:E; [|reflexivity].
  apply matches_eq in E. subst n. contradiction.
Qed.

Lemma not_elem_of_dec (x : Z) (l : list Z) : bool_decide (x ∈ l) = false -> x ∉ l.
Proof. intros H Hin. apply bool_decide_eq_false in H. contradiction. Qed.

Lemma mid_wf : hm_wf hcode mid.
Proof.
  unfold hm_wf. split_and!.
  - apply htab_wfb_sound. reflexivity.
  - apply htab_wfb_sound. reflexivity.
  - apply (bool_decide_unpack _). vm_compute. exact I.
  - simpl. lia.
  - simpl. congruence.
Qed.

Definition ops : list (@op Z) :=
  [OpInsert 9; OpLookup 7; OpDelete 2; OpInsert 12; OpDelete 8].

Lemma ops_admissible : admissible hcode eq (stored mid) ops.
Proof.
  assert (F : forall x l, bool_decide (x ∈ l) = false -> (x ∉ l) /\ key_fresh hcode eq l x).
  { intros x l H. split; [|apply key_fresh_any]; apply not_elem_of_dec; assumption. }
  cbn. split_and!; try apply F; try reflexivity; exact I.
Qed.

Lemma ops_never_delete_5 : never_deletes hcode eq ops 5.
Proof.
  intros key Hk. unfold ops in Hk.
  repeat (apply elem_of_cons in Hk as [Hk|Hk]; [try discriminate|]).
  - inversion Hk; subst key. reflexivity.
  - inversion Hk; subst key. reflexivity.
  - inversion Hk.
Qed.

Lemma stored_key_stays_findable_witness :
  hm_wf hcode mid /\ keys_distinct hcode eq (stored mid) /\
  admissible hcode eq (stored mid) ops /\
  5 ∈ stored mid /\ matches hcode eq 5 5 = true /\ never_deletes hcode eq ops 5 /\
  exists hm_i hm',
    run hcode eq mid (take 3 ops) = Some hm_i /\
    hm_wf hcode hm_i /\ in_one_table hm_i /\
    (5 ∈ nodes (newer hm_i) \/ 5 ∈ nodes (older hm_i)) /\
    hm_lookup hcode eq hm_i 5 = Some (hm', Some 5).
Proof.
  assert (H5 : 5 ∈ stored mid) by (apply (bool_decide_unpack _); vm_compute; exact I).
  split_and!;
    [ exact mid_wf | apply keys_distinct_any | exact ops_admissible | exact H5
    | reflexivity | exact ops_never_delete_5 | ].
  exact (stored_key_stays_findable hcode eq mid ops 5 5 3
           mid_wf (keys_distinct_any _) ops_admissible H5 eq_refl ops_never_delete_5).
Defined.

(** The same run, evaluated: after the five operations node 5 has moved to
    [newer] and [older] is released. *)
Example run_ops_evaluated :
  run hcode eq mid ops
  = Some (mkHMap (mkHTab (Some [[]; [1; 9]; []; [3]; [12; 4]; [5]; []; []]) 7 6)
                 HTab_zero 3).
Proof. vm_compute. reflexivity. Qed.

Lemma lookup_of_other_keys_unchanged_witness :
  hm_wf hcode mid /\ keys_distinct hcode eq (stored mid) /\
  3 ∈ stored mid /\ matches hcode eq 3 3 = true /\
  (exists hm1, hm_lookup hcode eq mid 3 = Some (hm1, Some 3)) /\
  (forall x, x ∉ stored mid -> key_fresh hcode eq (stored mid) x ->
     exists hm2 hm3,
       hm_insert hcode mid x = Some hm2 /\
       hm_lookup hcode eq hm2 3 = Some (hm3, Some 3)) /\
  (forall key, matches hcode eq key 3 = false ->
     exists hm2 r hm3,
       hm_delete hcode eq mid key = Some (hm2, r) /\
       hm_lookup hcode eq hm2 3 = Some (hm3, Some 3)).
Proof.
  assert (H3 : 3 ∈ stored mid) by (apply (bool_decide_unpack _); vm_compute; exact I).
  split; [exact mid_wf|]. split; [apply keys_distinct_any|].
  split; [exact H3|]. split; [reflexivity|].
  exact (lookup_of_other_keys_unchanged hcode eq mid 3 3
           mid_wf (keys_distinct_any _) H3 eq_refl).
Defined.

End HashTableExample.

(** ** The hash table, [resizing_pos] variant *)

Module HashTableResizingFacts.

Import HashTable HashTableFacts.
Module R := HashTableResizing.

Section Facts.
Context {Node : Type}.
Variable hcode : Node -> Z.
Variable eq : Node -> Node -> bool.

Lemma h_insert_nodes (ht ht' : HTab Node) (x : Node) :
  h_insert hcode ht x = Some ht' -> nodes ht' ≡ₚ x :: nodes ht.
Proof.
  unfold h_insert, nodes, chains. destruct (tab ht) as [t|]; [|discriminate]. simpl.
  destruct (t !! slot_of hcode ht x) as [chain|] eqn:Hc; [|discriminate]. simpl.
  intros H. inversion H; subst ht'. simpl.
  destruct (concat_insert_perm t _ chain (x :: chain) Hc) as (rest & P1 & P2).
  rewrite P1, P2. reflexivity.
Qed.

Lemma move_chain_nodes (chain : list Node) :
  forall ht ht', R.move_chain hcode chain ht = Some ht' ->
                 nodes ht' ≡ₚ chain ++ nodes ht.
Proof.
  induction chain as [|n chain IH]; intros ht ht' H; simpl in H.
  - inversion H. reflexivity.
  - destruct (h_insert hcode ht n) as [ht1|] eqn:Hi; [|discriminate]. simpl in H.
    rewrite (IH _ _ H), (h_insert_nodes _ _ _ Hi). simpl.
    rewrite Permutation_middle. reflexivity.
Qed.

(** The chains of the [k] slots of [newer] from [resizing_pos] on. *)
Definition slots_from (hm : R.HMap Node) (k : nat) : list (list Node) :=
  take k (drop (Z.to_nat (R.resizing_pos hm)) (chains (R.newer hm))).

(** The loop drains whole slots, at most [todo] of them, whatever the
    length of their chains. *)
Lemma help_loop_drains (todo : nat) :
  forall hm hm1, 0 <= R.resizing_pos hm ->
    R.help_loop hcode todo hm = Some hm1 ->
    exists k, (k <= todo)%nat /\
      R.resizing_pos hm1 = R.resizing_pos hm + Z.of_nat k /\
      nodes (R.older hm1) ≡ₚ concat (slots_from hm k) ++ nodes (R.older hm).
Proof.
  induction todo as [|todo IH]; intros hm hm1 Hpos H; simpl in H.
  - inversion H; subst hm1. exists 0%nat. split_and!; auto; try lia.
  - destruct (R.resizing_pos hm <=? mask (R.newer hm)) eqn:Hle.
    2:{ inversion H; subst hm1. exists 0%nat. split_and!; auto; lia. }
    destruct (tab (R.newer hm)) as [t|] eqn:Ht; [|discriminate]. simpl in H.
    destruct (t !! Z.to_nat (R.resizing_pos hm)) as [chain|] eqn:Hc; [|discriminate].
    simpl in H.
    destruct (R.move_chain hcode chain (R.older hm)) as [older'|] eqn:Hm; [|discriminate].
    simpl in H.
    apply IH in H; [|simpl; lia].
    destruct H as (k & Hk & Hp & Hn). simpl in Hp, Hn.
    exists (S k). split_and!; [lia|lia|].
    rewrite Hn, (move_chain_nodes _ _ _ Hm).
    unfold slots_from, chains. simpl. rewrite Ht. simpl.
    assert (Hlt : (Z.to_nat (R.resizing_pos hm) < length t)%nat)
      by (eapply lookup_lt_Some; eauto).
    rewrite (drop_S t chain _ Hc). simpl.
    replace (Z.to_nat (R.resizing_pos hm + 1)) with (S (Z.to_nat (R.resizing_pos hm))) by lia.
    rewrite drop_insert_lt by lia.
    rewrite app_assoc. apply Permutation_app_tail. apply Permutation_app_comm.
Qed.

(** One call of [hm_help_rehashing]: [filled], the table that receives the
    nodes, holds afterwards what it held plus the chains of at most 64
    slots; it is [older], or [newer] once the migration is done. *)
Lemma hm_help_rehashing_drains (hm hm' : R.HMap Node) :
  0 <= R.resizing_pos hm -> tab (R.older hm) <> None ->
  R.hm_help_rehashing hcode hm = Some hm' ->
  exists k filled, (k <= 64)%nat /\
    nodes filled ≡ₚ concat (slots_from hm k) ++ nodes (R.older hm) /\
    (R.older hm' = filled \/ R.newer hm' = filled).
Proof.
  intros Hpos Hnn H. unfold R.hm_help_rehashing in H.
  destruct (tab (R.older hm)); [|congruence].
  destruct (R.help_loop hcode 64 hm) as [hm1|] eqn:Hl; [|discriminate]. simpl in H.
  destruct (help_loop_drains 64 hm hm1 Hpos Hl) as (k & Hk & _ & Hn).
  exists k, (R.older hm1). split_and!; auto.
  destruct (mask (R.newer hm1) <? R.resizing_pos hm1); inversion H; subst hm'; auto.
Qed.

End Facts.

End HashTableResizingFacts.

(** *** The bound on the work of one call (C6) *)

Module MigrationBound.

Import HashTable HashTableFacts HashTableResizingFacts.
Module R := HashTableResizing.

(** Nodes are integers; the hash code of [n] is [128 * n], so that all
    nodes share slot 0 of a table of up to 128 slots. *)
Definition hcode (n : Z) : Z := 128 * n.
Definition eq (a b : Z) : bool := a =? b.

Definition insert_all (keys : list Z) : option (R.HMap Z) :=
  foldl (fun m n => m ← m; R.hm_insert hcode m n) R.hm_init keys.

(** 256 inserts into a fresh map: the 256th starts a resize from 128 to 256
    slots. *)
Definition loaded : option (R.HMap Z) := insert_all (map Z.of_nat (seq 0 256)).

(** C6, as stated, fails on the [resizing_pos] variant: after the 256
    inserts, one [hm_lookup] moves the whole chain of slot 0, 256 nodes,
    into the table being filled, more than the constant 128 (or 64). *)
Lemma resizing_variant_moves_whole_chains :
  (hm ← loaded;
   '(hm', _) ← R.hm_lookup hcode eq hm 1000;
   Some (length (nodes (R.older hm)), length (nodes (R.older hm')),
         R.resizing_pos hm, R.resizing_pos hm'))
  = Some (0%nat, 256%nat, 0, 64)
  /\ ~ (Z.of_nat 256 - Z.of_nat 0 <= 128).
Proof.
  split; [vm_compute; reflexivity | lia].
Qed.

(** C6, amended: a call of [hm_lookup], [hm_delete] or [hm_insert] does
    one bounded step of rehashing besides its own work.  In the
    [migrate_pos] variant the step moves at most [k_rehashing_work = 128]
    nodes from [older] to [newer]; in the [resizing_pos] variant it drains
    at most 64 slots, each with its whole chain. *)
Theorem rehash_work_per_call_is_bounded {Node : Type}
    (hc : Node -> Z) (eqf : Node -> Node -> bool) :
  (forall hm : HMap Node, hm_wf hc hm ->
     (forall key, exists hm' r mv,
        hm_lookup hc eqf hm key = Some (hm', r) /\
        Z.of_nat (length mv) <= 128 /\ moves hm hm' mv) /\
     (forall key, exists hm1 hm' r mv,
        hm_delete hc eqf hm key = Some (hm', r) /\
        Z.of_nat (length mv) <= 128 /\ moves hm hm1 mv /\
        match r with Some n => detached hm1 hm' n | None => hm' = hm1 end) /\
     (forall x, x ∉ stored hm -> exists hm0 hm' mv,
        hm_insert hc hm x = Some hm' /\ inserted hm hm0 x /\
        Z.of_nat (length mv) <= 128 /\ moves hm0 hm' mv)) /\
  (forall (hm hm' : R.HMap Node),
     0 <= R.resizing_pos hm -> tab (R.older hm) <> None ->
     R.hm_help_rehashing hc hm = Some hm' ->
     exists k filled, (k <= 64)%nat /\
       nodes filled ≡ₚ concat (slots_from hm k) ++ nodes (R.older hm) /\
       (R.older hm' = filled \/ R.newer hm' = filled)) /\
  (forall (hm : R.HMap Node) key hm' r,
     R.hm_lookup hc eqf hm key = Some (hm', r) ->
     R.hm_help_rehashing hc hm = Some hm') /\
  (forall (hm : R.HMap Node) key hm' r,
     R.hm_delete hc eqf hm key = Some (hm', r) ->
     exists hm1, R.hm_help_rehashing hc hm = Some hm1 /\
                 R.resizing_pos hm' = R.resizing_pos hm1) /\
  (forall (hm : R.HMap Node) x hm',
     R.hm_insert hc hm x = Some hm' ->
     exists hm1, R.hm_help_rehashing hc hm = Some hm1).
Proof.
  split_and!.
  - intros hm Hwf. apply bounded_migration_per_call. assumption.
  - intros hm hm'. apply hm_help_rehashing_drains.
  - intros hm key hm' r H. unfold R.hm_lookup in H.
    destruct (R.hm_help_rehashing hc hm) as [hm1|]; [|discriminate]. simpl in H.
    repeat (first [progress simplify_option_eq | case_match]); reflexivity.
  - intros hm key hm' r H. unfold R.hm_delete in H.
    destruct (R.hm_help_rehashing hc hm) as [hm1|]; [|discriminate]. simpl in H.
    exists hm1. split; [reflexivity|].
    repeat (first [progress simplify_option_eq | case_match]); reflexivity.
  - intros hm x hm' H. unfold R.hm_insert in H.
    destruct (R.hm_help_rehashing hc hm) as [hm1|]; [|discriminate]. eauto.
Qed.

(** A map of the [resizing_pos] variant that has just started to resize. *)
Definition resizing : R.HMap Z :=
  R.mkHMap (mkHTab (Some [[2; 4]; [1]]) 1 3) (mkHTab (Some [[]; []; []; []]) 3 0) 0.

Lemma rehash_work_per_call_is_bounded_witness :
  hm_wf HashTableExample.hcode HashTableExample.mid /\
  (exists hm' r mv,
     hm_lookup HashTableExample.hcode HashTableExample.eq HashTableExample.mid 5
     = Some (hm', r) /\
     Z.of_nat (length mv) <= 128 /\ moves HashTableExample.mid hm' mv) /\
  0 <= R.resizing_pos resizing /\ tab (R.older resizing) <> None /\
  (exists hm', R.hm_help_rehashing HashTableExample.hcode resizing = Some hm' /\
     exists k filled, (k <= 64)%nat /\
       nodes filled ≡ₚ concat (slots_from resizing k) ++ nodes (R.older resizing) /\
       (R.older hm' = filled \/ R.newer hm' = filled)).
Proof.
  destruct (rehash_work_per_call_is_bounded HashTableExample.hcode HashTableExample.eq)
    as (H2 & H1 & _).
  split; [exact HashTableExample.mid_wf|].
  split; [exact (proj1 (H2 _ HashTableExample.mid_wf) 5)|].
  assert (Hpos : 0 <= R.resizing_pos resizing) by (simpl; lia).
  assert (Hnn : tab (R.older resizing) <> None) by (simpl; congruence).
  split; [exact Hpos|]. split; [exact Hnn|].
  eexists. split; [reflexivity|].
  exact (H1 resizing _ Hpos Hnn eq_refl).
Defined.

End MigrationBound.

(** ** The command dispatcher *)

Module ServerFacts.

Import HashTable HashTableFacts Server.

Local Open Scope string_scope.

(** *** Requests that match none of the four command shapes *)

(** What the dispatcher appends for a request that is not [get k],
    [set k v], [del k] or [keys]: the request, and the function that
    extends the output buffer. *)
Inductive bad_shape_reply : list string -> (Buffer -> Buffer) -> Prop :=
| bad_empty :
    bad_shape_reply [] out_nil
| bad_get rest :
    length rest <> 1%nat -> bad_shape_reply ("get" :: rest) out_nil
| bad_set rest :
    length rest <> 2%nat -> bad_shape_reply ("set" :: rest) out_nil
| bad_del rest :
    length rest <> 1%nat -> bad_shape_reply ("del" :: rest) (fun out => out_int out 0)
| bad_op op rest :
    op <> "get" -> op <> "set" -> op <> "del" -> op <> "keys" ->
    bad_shape_reply (op :: rest) (fun out => out_err_msg out "ERR bad command").

Lemma eqb_neq_false (a b : string) : a <> b -> String.eqb a b = false.
Proof. intros H. apply String.eqb_neq. assumption. Qed.

Lemma length_eqb_false (n m : nat) : n <> m -> (n =? m)%nat = false.
Proof. intros H. apply Nat.eqb_neq. assumption. Qed.

Lemma do_request_bad_shape (g : Data) (cmd : list string) (f : Buffer -> Buffer)
    (out : Buffer) :
  bad_shape_reply cmd f -> do_request g cmd out = Some (g, f out).
Proof.
  intros H. destruct H as [|rest H|rest H|rest H|op rest H1 H2 H3 H4]; simpl.
  - reflexivity.
  - unfold do_get. cbn [length]. rewrite length_eqb_false by lia. reflexivity.
  - unfold do_set. cbn [length]. rewrite length_eqb_false by lia. reflexivity.
  - unfold do_del. cbn [length]. rewrite length_eqb_false by lia. reflexivity.
  - rewrite !eqb_neq_false by assumption. reflexivity.
Qed.

(** A dispatched request leaves [want_close] as it was. *)
Lemma try_one_request_keeps_open (conn conn' : Conn) (g g' : Data) :
  try_one_request conn g = Some (true, conn', g') ->
  want_close conn' = want_close conn.
Proof.
  unfold try_one_request. intros H.
  repeat (first [progress simplify_option_eq | case_match]); reflexivity.
Qed.

(** [keys] ignores its arguments. *)
Lemma keys_ignores_arguments (g : Data) (rest : list string) (out : Buffer) :
  do_request g ("keys" :: rest) out = do_request g ["keys"] out.
Proof. reflexivity. Qed.

(** C1, as stated, fails: the empty argv is answered with NIL, not with
    ERR "ERR bad command"; so are [get] and [set] of the wrong arity, and
    [del] of the wrong arity with INT 0.  On the wire: the frame for
    [nstr = 0] is answered with the one-byte body [00]. *)
Lemma empty_argv_is_answered_nil :
  let g := mkData (mkHMap (mkHTab (Some [[]; []; []; []]) 3 0) HTab_zero 0) ∅ in
  init_data = Some g /\
  do_request g [] [] = Some (g, [x00]) /\
  do_request g ["get"] [] = Some (g, [x00]) /\
  do_request g ["set"; "k"] [] = Some (g, [x00]) /\
  do_request g ["del"] [] = Some (g, [x03; x00; x00; x00; x00; x00; x00; x00; x00]) /\
  out_err_msg [] "ERR bad command"
  = [x01; x0f; x00; x00; x00; x45; x52; x52; x20; x62; x61; x64; x20;
     x63; x6f; x6d; x6d; x61; x6e; x64] /\
  try_one_request (mkConn 3 true false false [x04; x00; x00; x00; x00; x00; x00; x00] []) g
  = Some (true, mkConn 3 true false false [] [x01; x00; x00; x00; x00], g).
Proof.
  cbv zeta. split_and!; vm_compute; reflexivity.
Qed.

(** The amended statement, which also covers [keys], follows the facts
    about [keys]: [DispatchFacts.bad_shape_is_answered]. *)

(** *** The database behind [get], [set] and [del] *)

(** The probe that the three commands build for a key: [LookupKey lk]. *)
Definition probe (k : string) : HNodePtr := KeyNode (mkLookupKey (str_hash k) k).

Abbreviation hc g := (node_hcode (entries g)).
Abbreviation keq g := (key_eq (entries g)).

(** The database holds the value [v] under the key [k]. *)
Definition holds (g : Data) (k v : string) : Prop :=
  exists a e, EntryNode a ∈ stored (db g) /\ entries g !! a = Some e /\
              key e = k /\ val e = v.

(** The database is well formed: the map is; every chained node is the node
    of an allocated [Entry] whose cached hash code is the hash of its key;
    no two chained entries have the same key. *)
Definition data_wf (g : Data) : Prop :=
  hm_wf (hc g) (db g) /\
  (forall n, n ∈ stored (db g) ->
     exists a e, n = EntryNode a /\ entries g !! a = Some e /\
                 e_hcode e = str_hash (key e)) /\
  (forall a b ea eb,
     EntryNode a ∈ stored (db g) -> EntryNode b ∈ stored (db g) ->
     entries g !! a = Some ea -> entries g !! b = Some eb ->
     key ea = key eb -> a = b).

Lemma matches_probe (es : gmap positive Entry) (a : positive) (e : Entry) (k : string) :
  es !! a = Some e -> e_hcode e = str_hash (key e) ->
  (matches (node_hcode es) (key_eq es) (probe k) (EntryNode a) = true <-> key e = k).
Proof.
  intros Ha Hh. unfold matches, probe. simpl. rewrite Ha, Hh. split.
  - intros H. apply andb_true_iff in H as [_ H]. apply String.eqb_eq in H. assumption.
  - intros ->. rewrite Z.eqb_refl, String.eqb_refl. reflexivity.
Qed.

Lemma matches_entry (es : gmap positive Entry) (key0 : HNodePtr) (a : positive) (e : Entry) :
  es !! a = Some e ->
  matches (node_hcode es) (key_eq es) key0 (EntryNode a) = true ->
  exists lk, key0 = KeyNode lk /\ key e = lk_key lk.
Proof.
  intros Ha H. unfold matches in H. apply andb_true_iff in H as [_ H].
  destruct key0 as [b|lk]; simpl in H; [discriminate|].
  rewrite Ha in H. apply String.eqb_eq in H. eauto.
Qed.

Lemma data_wf_keys_distinct (g : Data) :
  data_wf g -> keys_distinct (hc g) (keq g) (stored (db g)).
Proof.
  intros (_ & Hent & Hkeys) key0 n1 n2 H1 H2 M1 M2.
  destruct (Hent n1 H1) as (a1 & e1 & -> & E1 & _).
  destruct (Hent n2 H2) as (a2 & e2 & -> & E2 & _).
  destruct (matches_entry _ _ _ _ E1 M1) as (lk & -> & K1).
  destruct (matches_entry _ _ _ _ E2 M2) as (lk' & Hlk & K2).
  inversion Hlk; subst lk'. f_equal. eapply Hkeys; eauto. congruence.
Qed.


(** Rehashing permutes the chained nodes and leaves the entries alone. *)
Lemma data_wf_perm (g : Data) (db' : HMap HNodePtr) :
  data_wf g -> hm_wf (hc g) db' -> stored db' ≡ₚ stored (db g) ->
  data_wf (mkData db' (entries g)).
Proof.
  intros (_ & Hent & Hkeys) Hwf P. unfold data_wf. simpl. split_and!; auto.
  - intros n Hn. apply Hent. rewrite <- P. assumption.
  - intros a b ea eb Ha Hb. apply Hkeys; rewrite <- P; assumption.
Qed.

Lemma holds_perm (g : Data) (db' : HMap HNodePtr) (k v : string) :
  stored db' ≡ₚ stored (db g) ->
  holds (mkData db' (entries g)) k v <-> holds g k v.
Proof.
  intros P. unfold holds. simpl. split; intros (a & e & Ha & H); exists a, e;
    (split; [|exact H]); [rewrite <- P | rewrite P]; assumption.
Qed.

(** What the probe for [k] finds is what the database holds under [k]. *)
Lemma lookup_result_holds (g : Data) (k : string) (r : option HNodePtr) :
  data_wf g -> lookup_result (hc g) (keq g) (stored (db g)) (probe k) r ->
  match r with
  | Some n => exists a e, n = EntryNode a /\ EntryNode a ∈ stored (db g) /\
                          entries g !! a = Some e /\ key e = k /\
                          e_hcode e = str_hash (key e)
  | None => forall v, ~ holds g k v
  end.
Proof.
  intros (Hwf & Hent & Hkeys) Hr. destruct r as [n|]; simpl in Hr.
  - destruct Hr as [Hn Hm]. destruct (Hent n Hn) as (a & e & -> & Ea & Hh).
    exists a, e. split_and!; auto. eapply matches_probe; eauto.
  - intros v (a & e & Ha & Ea & Ka & _).
    destruct (Hent _ Ha) as (a' & e' & Heq & Ea' & Hh). inversion Heq; subst a'.
    rewrite Ea in Ea'. inversion Ea'; subst e'.
    pose proof (proj2 (matches_probe _ _ _ k Ea Hh) Ka) as Hm.
    rewrite (Hr _ Ha) in Hm. discriminate.
Qed.

Lemma do_get_spec (g : Data) (k : string) (out : Buffer) :
  data_wf g ->
  exists g' reply,
    do_get g ["get"; k] out = Some (g', reply) /\ data_wf g' /\
    entries g' = entries g /\ stored (db g') ≡ₚ stored (db g) /\
    ((exists v, holds g k v /\ reply = out_str out v) \/
     ((forall v, ~ holds g k v) /\ reply = out_nil out)).
Proof.
  intros Hg. pose proof Hg as (Hwf & Hent & Hkeys).
  unfold do_get. cbn [length Nat.eqb negb nth_str nth].
  fold (probe k).
  destruct (hm_lookup_spec (hc g) (keq g) (db g) (probe k) Hwf)
    as (db' & r & mv & Hl & Hwf' & _ & _ & Hmv & Hres).
  rewrite Hl. cbn [mbind option_bind].
  pose proof (moves_stored _ _ _ Hmv) as P.
  pose proof (lookup_result_holds g k r Hg Hres) as Hr.
  destruct r as [n|].
  - destruct Hr as (a & e & -> & Ha & Ea & Ka & Hh).
    cbn [entry_of mbind option_bind]. rewrite Ea. cbn [mbind option_bind].
    eexists _, _. split; [reflexivity|]. split_and!; auto.
    + apply data_wf_perm; assumption.
    + left. exists (val e). split; auto. exists a, e. auto.
  - eexists _, _. split; [reflexivity|]. split_and!; auto.
    apply data_wf_perm; assumption.
Qed.

Lemma node_hcode_insert_same (es : gmap positive Entry) (a : positive) (e e' : Entry) :
  es !! a = Some e -> e_hcode e' = e_hcode e ->
  forall n, node_hcode es n = node_hcode (<[a := e']> es) n.
Proof.
  intros Ha Hh [b|lk]; simpl; [|reflexivity].
  destruct (decide (a = b)) as [->|Hne].
  - rewrite lookup_insert_eq, Ha. auto.
  - rewrite lookup_insert_ne by assumption. reflexivity.
Qed.

Lemma do_set_spec (g : Data) (k v : string) (out : Buffer) :
  data_wf g ->
  exists g',
    do_set g ["set"; k; v] out = Some (g', out_nil out) /\ data_wf g' /\
    holds g' k v /\
    (forall k' v', k' <> k -> (holds g' k' v' <-> holds g k' v')).
Proof.
  intros Hg. pose proof Hg as (Hwf & Hent & Hkeys).
  unfold do_set. cbn [length Nat.eqb negb nth_str nth].
  fold (probe k).
  destruct (hm_lookup_spec (hc g) (keq g) (db g) (probe k) Hwf)
    as (db' & r & mv & Hl & Hwf' & _ & _ & Hmv & Hres).
  rewrite Hl. cbn [mbind option_bind].
  pose proof (moves_stored _ _ _ Hmv) as P.
  pose proof (lookup_result_holds g k r Hg Hres) as Hr.
  destruct r as [n|].
  - (* the key exists: swap the value in place *)
    destruct Hr as (a & e & -> & Ha & Ea & Ka & Hh).
    cbn [entry_of mbind option_bind]. rewrite Ea. cbn [mbind option_bind].
    eexists. split; [reflexivity|].
    set (e' := mkEntry (e_hcode e) (key e) v).
    assert (Hsame : forall n, node_hcode (entries g) n = node_hcode (<[a := e']> (entries g)) n).
    { apply (node_hcode_insert_same _ a e e' Ea). reflexivity. }
    split_and!.
    + unfold data_wf. simpl. split_and!.
      * eapply hm_wf_ext; [|exact Hwf']. intros n _. apply Hsame.
      * intros n Hn. rewrite P in Hn. destruct (Hent n Hn) as (b & eb & -> & Eb & Hb).
        destruct (decide (a = b)) as [->|Hne].
        -- exists b, e'. rewrite lookup_insert_eq. split_and!; auto.
        -- exists b, eb. rewrite lookup_insert_ne by assumption. auto.
      * intros b c eb ec Hb Hc Eb Ec Hk. rewrite P in Hb, Hc.
        assert (Hkey : forall x ex, <[a := e']> (entries g) !! x = Some ex ->
                         exists ex0, entries g !! x = Some ex0 /\ key ex0 = key ex).
        { intros x ex Hx. destruct (decide (a = x)) as [->|Hne].
          - rewrite lookup_insert_eq in Hx. inversion Hx; subst ex. exists e. auto.
          - rewrite lookup_insert_ne in Hx by assumption. eauto. }
        destruct (Hkey _ _ Eb) as (eb0 & Eb0 & Kb).
        destruct (Hkey _ _ Ec) as (ec0 & Ec0 & Kc).
        eapply Hkeys; eauto. congruence.
    + exists a, e'. simpl. rewrite lookup_insert_eq, P. split_and!; auto.
    + intros k' v' Hne. unfold holds. simpl. split.
      * intros (b & eb & Hb & Eb & Kb & Vb). rewrite P in Hb.
        destruct (decide (a = b)) as [->|Hab].
        -- rewrite lookup_insert_eq in Eb. inversion Eb; subst eb. simpl in Kb. congruence.
        -- rewrite lookup_insert_ne in Eb by assumption. exists b, eb. auto.
      * intros (b & eb & Hb & Eb & Kb & Vb).
        destruct (decide (a = b)) as [->|Hab]; [congruence|].
        exists b, eb. rewrite lookup_insert_ne by assumption. rewrite P. auto.
  - (* a new entry *)
    set (a := fresh (dom (entries g))).
    set (e := mkEntry (str_hash k) k v).
    assert (Hfresh : entries g !! a = None).
    { apply not_elem_of_dom. apply is_fresh. }
    assert (Hsame : forall n, n ∈ stored db' ->
                      node_hcode (entries g) n = node_hcode (<[a := e]> (entries g)) n).
    { intros n Hn. rewrite P in Hn. destruct (Hent n Hn) as (b & eb & -> & Eb & _).
      simpl. rewrite lookup_insert_ne; [reflexivity|congruence]. }
    assert (Hwf2 : hm_wf (node_hcode (<[a := e]> (entries g))) db').
    { eapply hm_wf_ext; [exact Hsame|exact Hwf']. }
    assert (Hnew : EntryNode a ∉ stored db').
    { intros Hin. rewrite P in Hin. destruct (Hent _ Hin) as (b & eb & Heq & Eb & _).
      inversion Heq; subst b. congruence. }
    destruct (hm_insert_spec _ db' (EntryNode a) Hwf2 Hnew)
      as (db0 & db'' & mv' & Hi & Hwf'' & Hins & _ & _ & Hmv').
    rewrite Hi. cbn [mbind option_bind].
    eexists. split; [reflexivity|].
    assert (P' : stored db'' ≡ₚ EntryNode a :: stored (db g)).
    { rewrite (moves_stored _ _ _ Hmv'), (inserted_stored _ _ _ Hins), P. reflexivity. }
    split_and!.
    + unfold data_wf. simpl. split_and!; auto.
      * intros n Hn. rewrite P' in Hn. apply elem_of_cons in Hn as [->|Hn].
        -- exists a, e. rewrite lookup_insert_eq. auto.
        -- destruct (Hent n Hn) as (b & eb & -> & Eb & Hb). exists b, eb.
           rewrite lookup_insert_ne by congruence. auto.
      * assert (Hold : forall b eb, EntryNode b ∈ stored (db g) ->
                         <[a := e]> (entries g) !! b = Some eb ->
                         entries g !! b = Some eb /\ key eb <> k).
        { intros b eb Hb Eb. destruct (Hent _ Hb) as (b' & eb' & Heq & Eb' & _).
          inversion Heq; subst b'.
          rewrite lookup_insert_ne in Eb by congruence. split; auto.
          intros Hk. apply (Hr (val eb)). exists b, eb. auto. }
        intros b c eb ec Hb Hc Eb Ec Hk. rewrite P' in Hb, Hc.
        apply elem_of_cons in Hb as [Hb|Hb]; apply elem_of_cons in Hc as [Hc|Hc].
        -- congruence.
        -- inversion Hb; subst b. rewrite lookup_insert_eq in Eb. inversion Eb; subst eb.
           destruct (Hold _ _ Hc Ec) as [_ Hck]. simpl in Hk. congruence.
        -- inversion Hc; subst c. rewrite lookup_insert_eq in Ec. inversion Ec; subst ec.
           destruct (Hold _ _ Hb Eb) as [_ Hbk]. simpl in Hk. congruence.
        -- destruct (Hold _ _ Hb Eb) as [Eb0 _]. destruct (Hold _ _ Hc Ec) as [Ec0 _].
           eapply Hkeys; eauto.
    + exists a, e. simpl. rewrite lookup_insert_eq, P'. split_and!; auto.
      apply elem_of_cons. auto.
    + intros k' v' Hne. unfold holds. simpl. split.
      * intros (b & eb & Hb & Eb & Kb & Vb). rewrite P' in Hb.
        apply elem_of_cons in Hb as [Hb|Hb].
        -- inversion Hb; subst b. rewrite lookup_insert_eq in Eb. inversion Eb; subst eb.
           simpl in Kb. congruence.
        -- destruct (Hent _ Hb) as (b' & eb' & Heq & Eb' & _). inversion Heq; subst b'.
           rewrite lookup_insert_ne in Eb by congruence. exists b, eb. auto.
      * intros (b & eb & Hb & Eb & Kb & Vb). exists b, eb.
        rewrite lookup_insert_ne by congruence. rewrite P'. split_and!; auto.
        apply elem_of_cons. auto.
Qed.


Lemma do_del_spec (g : Data) (k : string) (out : Buffer) :
  data_wf g ->
  exists g' reply,
    do_del g ["del"; k] out = Some (g', reply) /\ data_wf g' /\
    (forall v, ~ holds g' k v) /\
    (forall k' v', k' <> k -> (holds g' k' v' <-> holds g k' v')) /\
    (((exists v, holds g k v) /\ reply = out_int out 1) \/
     ((forall v, ~ holds g k v) /\ reply = out_int out 0 /\
      entries g' = entries g /\ stored (db g') ≡ₚ stored (db g))).
Proof.
  intros Hg. pose proof Hg as (Hwf & Hent & Hkeys).
  unfold do_del. cbn [length Nat.eqb negb nth_str nth].
  fold (probe k).
  destruct (hm_delete_spec (hc g) (keq g) (db g) (probe k) Hwf)
    as (db1 & db' & r & mv & Hd & Hwf' & _ & _ & Hmv & Hres & Hdet).
  rewrite Hd. cbn [mbind option_bind].
  pose proof (moves_stored _ _ _ Hmv) as P.
  pose proof (lookup_result_holds g k r Hg Hres) as Hr.
  destruct r as [n|].
  - destruct Hr as (a & e & -> & Ha & Ea & Ka & Hh).
    cbn [entry_of mbind option_bind]. rewrite Ea. cbn [mbind option_bind].
    pose proof (detached_stored _ _ _ Hdet) as Pd. rewrite P in Pd.
    assert (Hnd : NoDup (EntryNode a :: stored db')).
    { rewrite <- Pd. destruct Hwf as (_ & _ & H & _). exact H. }
    apply NoDup_cons in Hnd as [Hnin _].
    assert (Hin : forall n, n ∈ stored db' -> n ∈ stored (db g) /\ n <> EntryNode a).
    { intros n Hn. split; [rewrite Pd; apply elem_of_cons; auto|congruence]. }
    eexists _, _. split; [reflexivity|]. split_and!.
    + unfold data_wf. simpl. split_and!.
      * eapply hm_wf_ext; [|exact Hwf']. intros n Hn.
        destruct (Hin n Hn) as [Hn' Hne]. destruct (Hent n Hn') as (b & eb & -> & _).
        simpl. rewrite lookup_delete_ne; [reflexivity|congruence].
      * intros n Hn. destruct (Hin n Hn) as [Hn' Hne].
        destruct (Hent n Hn') as (b & eb & -> & Eb & Hb). exists b, eb.
        rewrite lookup_delete_ne by congruence. auto.
      * intros b c eb ec Hb Hc Eb Ec. destruct (Hin _ Hb) as [Hb' Hbne].
        destruct (Hin _ Hc) as [Hc' Hcne].
        rewrite lookup_delete_ne in Eb by congruence.
        rewrite lookup_delete_ne in Ec by congruence.
        eapply Hkeys; eauto.
    + intros v (b & eb & Hb & Eb & Kb & _). simpl in *.
      destruct (Hin _ Hb) as [Hb' Hbne].
      rewrite lookup_delete_ne in Eb by congruence.
      assert (a = b) by (eapply Hkeys; eauto; congruence). congruence.
    + intros k' v' Hne. unfold holds. simpl. split.
      * intros (b & eb & Hb & Eb & Kb & Vb). destruct (Hin _ Hb) as [Hb' Hbne].
        rewrite lookup_delete_ne in Eb by congruence. exists b, eb. auto.
      * intros (b & eb & Hb & Eb & Kb & Vb).
        assert (Hab : a <> b) by congruence.
        exists b, eb. rewrite lookup_delete_ne by assumption. split_and!; auto.
        rewrite Pd in Hb. apply elem_of_cons in Hb as [Hb|Hb]; [congruence|assumption].
    + left. split; auto. exists (val e), a, e. auto.
  - subst db'. eexists _, _. split; [reflexivity|].
    assert (Hg' : data_wf (mkData db1 (entries g))) by (apply data_wf_perm; assumption).
    split; [exact Hg'|]. split.
    { intros v Hv. apply (Hr v). apply (holds_perm g db1 k v P). assumption. }
    split.
    { intros k' v' _. apply (holds_perm g db1 k' v' P). }
    right. split_and!; auto.
Qed.

Lemma foldl_option_total {A B} (f : A -> B -> option B) (l : list A) :
  (forall x b, x ∈ l -> exists b', f x b = Some b') ->
  forall b, exists b', foldl (fun acc x => b0 ← acc; f x b0) (Some b) l = Some b'.
Proof.
  induction l as [|x l IH]; intros H b; simpl; [eauto|].
  destruct (H x b) as [b' Hb]; [apply elem_of_cons; auto|]. rewrite Hb.
  apply IH. intros y c Hy. apply H. apply elem_of_cons. auto.
Qed.

Lemma for_each_htab_slot_total (es : gmap positive Entry) (t : HTab HNodePtr)
    (out : Buffer) :
  (forall n, n ∈ nodes t -> exists a e, n = EntryNode a /\ es !! a = Some e) ->
  exists out', for_each_htab_slot t (emit_key_cb es) out = Some out'.
Proof.
  intros H. unfold for_each_htab_slot. destruct (tab t) as [slots|] eqn:Ht; [|eauto].
  assert (Hs : forall c, c ∈ take (Z.to_nat (mask t + 1)) slots ->
                 forall n, n ∈ c -> exists a e, n = EntryNode a /\ es !! a = Some e).
  { intros c Hc n Hn. apply H. unfold nodes, chains. rewrite Ht. simpl.
    apply elem_of_concat. exists c. split; auto.
    apply elem_of_take in Hc as (i & Hi & _). eapply list_elem_of_lookup_2; eauto. }
  revert out. induction (take (Z.to_nat (mask t + 1)) slots) as [|c l IH]; intros out.
  - simpl. eauto.
  - simpl.
    destruct (foldl_option_total (emit_key_cb es) c) with (b := out) as [out1 H1].
    { intros n b Hn. destruct (Hs c) with (n := n) as (a & e & -> & Ea);
        [apply elem_of_cons; auto|assumption|].
      unfold emit_key_cb. simpl. rewrite Ea. simpl. eauto. }
    rewrite H1. apply IH. intros c' Hc'. apply Hs. apply elem_of_cons. auto.
Qed.

Lemma do_keys_total (g : Data) (cmd : list string) (out : Buffer) :
  data_wf g -> exists out', do_keys g cmd out = Some (g, out').
Proof.
  intros (Hwf & Hent & _). unfold do_keys.
  assert (H : forall t, (forall n, n ∈ nodes t -> n ∈ stored (db g)) ->
                forall o, exists o', for_each_htab_slot t (emit_key_cb (entries g)) o = Some o').
  { intros t Ht o. apply for_each_htab_slot_total. intros n Hn.
    destruct (Hent n (Ht n Hn)) as (a & e & -> & Ea & _). eauto. }
  destruct (H (newer (db g))) with (o := out_arr out (ht_total_size (db g) mod 2 ^ 32))
    as [o1 H1].
  { intros n Hn. unfold stored. apply elem_of_app. auto. }
  rewrite H1. cbn [mbind option_bind].
  destruct (H (older (db g))) with (o := o1) as [o2 H2].
  { intros n Hn. unfold stored. apply elem_of_app. auto. }
  rewrite H2. simpl. eauto.
Qed.

(** The command writes the key [k]: it is [set k v] or [del k]. *)
Definition touches (cmd : list string) (k : string) : Prop :=
  (exists v, cmd = ["set"; k; v]) \/ cmd = ["del"; k].

(** Any request that does not write [k] is served, and leaves what the
    database holds under [k]. *)
Lemma do_request_other (g : Data) (cmd : list string) (k : string) (out : Buffer) :
  data_wf g -> ~ touches cmd k ->
  exists g' out',
    do_request g cmd out = Some (g', out') /\ data_wf g' /\
    forall v, holds g' k v <-> holds g k v.
Proof.
  intros Hg Hnt.
  assert (Hid : forall reply : Buffer, exists g' out',
             Some (g, reply) = Some (g', out') /\ data_wf g' /\
             forall v, holds g' k v <-> holds g k v).
  { intros reply. exists g, reply. split_and!; auto. }
  destruct cmd as [|op rest]; simpl; [apply Hid|].
  destruct (String.eqb op "get") eqn:Eget.
  { apply String.eqb_eq in Eget. subst op.
    destruct rest as [|k0 [|x rest]]; try apply Hid.
    destruct (do_get_spec g k0 out Hg) as (g' & reply & Hget & Hg' & He & P & _).
    exists g', reply. split_and!; auto.
    destruct g' as [db' es']. simpl in He, P. subst es'. intros v. apply holds_perm. assumption. }
  destruct (String.eqb op "set") eqn:Eset.
  { apply String.eqb_eq in Eset. subst op.
    destruct rest as [|k0 [|v0 [|x rest]]]; try apply Hid.
    destruct (do_set_spec g k0 v0 out Hg) as (g' & Hset & Hg' & _ & Hother).
    exists g', (out_nil out). split_and!; auto.
    intros v. apply Hother. intros ->. apply Hnt. left. eauto. }
  destruct (String.eqb op "del") eqn:Edel.
  { apply String.eqb_eq in Edel. subst op.
    destruct rest as [|k0 [|x rest]]; try apply Hid.
    destruct (do_del_spec g k0 out Hg) as (g' & reply & Hdel & Hg' & _ & Hother & _).
    exists g', reply. split_and!; auto.
    intros v. apply Hother. intros ->. apply Hnt. right. reflexivity. }
  destruct (String.eqb op "keys") eqn:Ekeys.
  { destruct (do_keys_total g (op :: rest) out Hg) as [out' Hk].
    exists g, out'. split_and!; auto; reflexivity. }
  apply Hid.
Qed.







(** The database that [main] starts from. *)
Lemma init_data_wf : exists g, init_data = Some g /\ data_wf g.
Proof.
  eexists. split; [reflexivity|]. unfold data_wf. simpl. split_and!.
  - unfold hm_wf. simpl. split_and!; try (apply htab_wfb_sound; reflexivity);
      try lia; try congruence. unfold stored. simpl. constructor.
  - intros n Hn. inversion Hn.
  - intros a b ea eb Ha. inversion Ha.
Qed.

Definition g_init : Data :=
  mkData (mkHMap (mkHTab (Some [[]; []; []; []]) 3 0) HTab_zero 0) ∅.

Lemma g_init_wf : data_wf g_init.
Proof.
  destruct init_data_wf as (g & Hi & Hg). inversion Hi. subst g. exact Hg.
Qed.




(** The scenario of the specification, evaluated on the bytes: [set foo bar]
    is answered [00], [get foo] with [02 03 00 00 00 62 61 72], [del foo]
    with INT 1 and a second [del foo] with INT 0. *)
Example set_get_del_bytes :
  (g ← init_data;
   '(g, r1) ← do_request g ["set"; "foo"; "bar"] [];
   '(g, r2) ← do_request g ["get"; "foo"] [];
   '(g, r3) ← do_request g ["del"; "foo"] [];
   '(g, r4) ← do_request g ["del"; "foo"] [];
   '(g, r5) ← do_request g ["get"; "foo"] [];
   Some (r1, r2, r3, r4, r5))
  = Some ([x00],
          [x02; x03; x00; x00; x00; x62; x61; x72],
          [x03; x01; x00; x00; x00; x00; x00; x00; x00],
          [x03; x00; x00; x00; x00; x00; x00; x00; x00],
          [x00]).
Proof. vm_compute. reflexivity. Qed.

End ServerFacts.

(** ** The AVL tree *)

Module AvlFacts.

Import Avl.

(** *** The shape of a tree, apart from the heap

    A tree of node addresses.  The heap represents it when the pointers
    and the [height] and [cnt] fields of its nodes say so ([repr] below);
    the proofs about balance and order are made on the shape. *)

Inductive tree :=
| Leaf
| Node (l : tree) (a : positive) (r : tree).

Fixpoint inorder (t : tree) : list positive :=
  match t with
  | Leaf => []
  | Node l a r => inorder l ++ a :: inorder r
  end.

Fixpoint theight (t : tree) : Z :=
  match t with
  | Leaf => 0
  | Node l _ r => 1 + Z.max (theight l) (theight r)
  end.

Fixpoint tsize (t : tree) : Z :=
  match t with
  | Leaf => 0
  | Node l _ r => 1 + tsize l + tsize r
  end.

Definition root_of (t : tree) : ptr :=
  match t with
  | Leaf => None
  | Node _ a _ => Some a
  end.

Fixpoint balanced (t : tree) : Prop :=
  match t with
  | Leaf => True
  | Node l _ r =>
      Z.abs (theight l - theight r) <= 1 /\ balanced l /\ balanced r
  end.

Lemma theight_nonneg (t : tree) : 0 <= theight t.
Proof. induction t; simpl; lia. Qed.

Lemma tsize_nonneg (t : tree) : 0 <= tsize t.
Proof. induction t; simpl; lia. Qed.

Lemma theight_le_tsize (t : tree) : theight t <= tsize t.
Proof.
  induction t as [|l IHl a r IHr]; simpl; [lia|].
  pose proof (tsize_nonneg l). pose proof (tsize_nonneg r). lia.
Qed.

Lemma tsize_inorder (t : tree) : tsize t = Z.of_nat (length (inorder t)).
Proof.
  induction t as [|l IHl a r IHr]; simpl; [reflexivity|].
  rewrite length_app. simpl. lia.
Qed.

Lemma theight_pos_node (t : tree) : 0 < theight t -> exists l a r, t = Node l a r.
Proof. destruct t; simpl; [lia|eauto]. Qed.

(** *** Rotations and rebalancing on the shape *)

Definition rot_left (t : tree) : tree :=
  match t with
  | Node A x (Node B y C) => Node (Node A x B) y C
  | _ => t
  end.

Definition rot_right (t : tree) : tree :=
  match t with
  | Node (Node A x B) y C => Node A x (Node B y C)
  | _ => t
  end.

Definition fix_left (t : tree) : tree :=
  match t with
  | Node (Node LL l LR) n R =>
      if theight LL <? theight LR
      then rot_right (Node (rot_left (Node LL l LR)) n R)
      else rot_right t
  | _ => t
  end.

Definition fix_right (t : tree) : tree :=
  match t with
  | Node L n (Node RL r RR) =>
      if theight RR <? theight RL
      then rot_left (Node L n (rot_right (Node RL r RR)))
      else rot_left t
  | _ => t
  end.

(** One iteration of [avl_fix] at the root of [t]. *)
Definition rebal (t : tree) : tree :=
  match t with
  | Leaf => Leaf
  | Node l _ r =>
      if theight l =? theight r + 2 then fix_left t
      else if theight r =? theight l + 2 then fix_right t
      else t
  end.

Lemma inorder_rot_left (t : tree) : inorder (rot_left t) = inorder t.
Proof.
  destruct t as [|A x [|B y C]]; simpl; try reflexivity.
  rewrite <- !app_assoc. reflexivity.
Qed.

Lemma inorder_rot_right (t : tree) : inorder (rot_right t) = inorder t.
Proof.
  destruct t as [|[|A x B] y C]; simpl; try reflexivity.
  rewrite <- !app_assoc. reflexivity.
Qed.

Lemma inorder_fix_left (t : tree) : inorder (fix_left t) = inorder t.
Proof.
  destruct t as [|[|LL l LR] n R]; try reflexivity.
  unfold fix_left. destruct (theight LL <? theight LR).
  - rewrite inorder_rot_right. cbn [inorder]. rewrite inorder_rot_left. reflexivity.
  - apply inorder_rot_right.
Qed.

Lemma inorder_fix_right (t : tree) : inorder (fix_right t) = inorder t.
Proof.
  destruct t as [|L n [|RL r RR]]; try reflexivity.
  unfold fix_right. destruct (theight RR <? theight RL).
  - rewrite inorder_rot_left. cbn [inorder]. rewrite inorder_rot_right. reflexivity.
  - apply inorder_rot_left.
Qed.

Lemma inorder_rebal (t : tree) : inorder (rebal t) = inorder t.
Proof.
  destruct t as [|l a r]; [reflexivity|]. unfold rebal.
  destruct (theight l =? theight r + 2); [apply inorder_fix_left|].
  destruct (theight r =? theight l + 2); [apply inorder_fix_right|reflexivity].
Qed.

Lemma tsize_rebal (t : tree) : tsize (rebal t) = tsize t.
Proof. rewrite !tsize_inorder, inorder_rebal. reflexivity. Qed.

(** A node whose children are balanced and differ in height by at most two:
    the state of a node that [avl_fix] visits. *)
Definition almost (t : tree) : Prop :=
  match t with
  | Leaf => True
  | Node l _ r => Z.abs (theight l - theight r) <= 2 /\ balanced l /\ balanced r
  end.

Lemma rebal_balanced (t : tree) :
  almost t -> balanced (rebal t) /\ theight t - 1 <= theight (rebal t) <= theight t.
Proof.
  destruct t as [|l a r]; [simpl; lia|].
  intros (Habs & Hl & Hr). unfold rebal.
  destruct (theight l =? theight r + 2) eqn:E1.
  { apply Z.eqb_eq in E1.
    destruct l as [|LL x LR]; [simpl in E1; pose proof (theight_nonneg r); lia|].
    destruct Hl as (HL & HLL & HLR).
    unfold fix_left. destruct (theight LL <? theight LR) eqn:E2.
    - apply Z.ltb_lt in E2.
      destruct LR as [|B y C]; [simpl in E2; pose proof (theight_nonneg LL); lia|].
      destruct HLR as (HY & HB & HC).
      cbn [rot_left rot_right]. cbn [balanced theight] in *.
      split_and!; auto; lia.
    - apply Z.ltb_ge in E2. cbn [rot_right]. cbn [balanced theight] in *.
      split_and!; auto; lia. }
  destruct (theight r =? theight l + 2) eqn:E2.
  { apply Z.eqb_eq in E2.
    destruct r as [|RL x RR]; [simpl in E2; pose proof (theight_nonneg l); lia|].
    destruct Hr as (HR & HRL & HRR).
    unfold fix_right. destruct (theight RR <? theight RL) eqn:E3.
    - apply Z.ltb_lt in E3.
      destruct RL as [|B y C]; [simpl in E3; pose proof (theight_nonneg RR); lia|].
      destruct HRL as (HY & HB & HC).
      cbn [rot_left rot_right]. cbn [balanced theight] in *.
      split_and!; auto; lia.
    - apply Z.ltb_ge in E3. cbn [rot_left]. cbn [balanced theight] in *.
      split_and!; auto; lia. }
  apply Z.eqb_neq in E1, E2. cbn [balanced theight]. split_and!; auto; lia.
Qed.

Lemma rebal_of_balanced (t : tree) : balanced t -> rebal t = t.
Proof.
  destruct t as [|l a r]; [reflexivity|]. intros (H & _ & _). unfold rebal.
  replace (theight l =? theight r + 2) with false by (symmetry; apply Z.eqb_neq; lia).
  replace (theight r =? theight l + 2) with false by (symmetry; apply Z.eqb_neq; lia).
  reflexivity.
Qed.

(** *** Contexts: the path from a subtree to the root *)

Inductive frame :=
| InLeft (p : positive) (sib : tree)     (* the hole is the left child of p *)
| InRight (sib : tree) (p : positive).   (* the hole is the right child of p *)

Definition ctx := list frame.

Definition fill (t : tree) (f : frame) : tree :=
  match f with
  | InLeft p sib => Node t p sib
  | InRight sib p => Node sib p t
  end.

(** The tree with [t] in the hole of [c]; the innermost frame comes
    first. *)
Fixpoint plug (t : tree) (c : ctx) : tree :=
  match c with
  | [] => t
  | f :: c' => plug (fill t f) c'
  end.

(** The walk of [avl_fix] from the parent of a subtree [t] that has just
    changed: every node on the path is rebalanced in turn. *)
Fixpoint refit (t : tree) (c : ctx) : tree :=
  match c with
  | [] => t
  | f :: c' => refit (rebal (fill t f)) c'
  end.

Definition frame_addrs (f : frame) : list positive :=
  match f with
  | InLeft p sib => p :: inorder sib
  | InRight sib p => p :: inorder sib
  end.

Definition ctx_addrs (c : ctx) : list positive := concat (map frame_addrs c).

Definition frame_before (f : frame) : list positive :=
  match f with
  | InLeft _ _ => []
  | InRight sib p => inorder sib ++ [p]
  end.

Definition frame_after (f : frame) : list positive :=
  match f with
  | InLeft p sib => p :: inorder sib
  | InRight _ _ => []
  end.

(** The nodes before and after the hole, in order. *)
Fixpoint ctx_before (c : ctx) : list positive :=
  match c with
  | [] => []
  | f :: c' => ctx_before c' ++ frame_before f
  end.

Fixpoint ctx_after (c : ctx) : list positive :=
  match c with
  | [] => []
  | f :: c' => frame_after f ++ ctx_after c'
  end.

Lemma inorder_plug (c : ctx) :
  forall t, inorder (plug t c) = ctx_before c ++ inorder t ++ ctx_after c.
Proof.
  induction c as [|f c IH]; intros t; simpl.
  - rewrite app_nil_r. reflexivity.
  - rewrite IH. destruct f as [p sib|sib p]; simpl.
    + rewrite app_nil_r, <- !app_assoc. reflexivity.
    + rewrite <- !app_assoc. simpl. reflexivity.
Qed.

Lemma inorder_refit (c : ctx) :
  forall t, inorder (refit t c) = inorder (plug t c).
Proof.
  induction c as [|f c IH]; intros t; simpl; [reflexivity|].
  rewrite IH, !inorder_plug, inorder_rebal. reflexivity.
Qed.

Lemma ctx_addrs_perm (c : ctx) : ctx_addrs c ≡ₚ ctx_before c ++ ctx_after c.
Proof.
  induction c as [|f c IH]; [reflexivity|].
  unfold ctx_addrs in *. simpl. rewrite IH.
  destruct f as [p sib|sib p]; cbn [frame_addrs frame_before frame_after].
  - rewrite app_nil_r. apply Permutation_app_swap_app.
  - rewrite app_nil_l, <- (app_assoc (ctx_before c)).
    rewrite Permutation_app_swap_app.
    apply Permutation_app_head, Permutation_app_tail, Permutation_cons_append.
Qed.

(** The balance of a context, given the height of what fills its hole. *)
Fixpoint ctx_ok (c : ctx) (hh : Z) : Prop :=
  match c with
  | [] => True
  | InLeft _ sib :: c' =>
      balanced sib /\ Z.abs (hh - theight sib) <= 1 /\
      ctx_ok c' (1 + Z.max hh (theight sib))
  | InRight sib _ :: c' =>
      balanced sib /\ Z.abs (theight sib - hh) <= 1 /\
      ctx_ok c' (1 + Z.max (theight sib) hh)
  end.

Lemma balanced_plug (c : ctx) :
  forall t, balanced (plug t c) <-> balanced t /\ ctx_ok c (theight t).
Proof.
  induction c as [|[p sib|sib p] c IH]; intros t; simpl.
  - tauto.
  - rewrite IH. simpl. tauto.
  - rewrite IH. simpl. tauto.
Qed.

Lemma theight_fill_bounds (t : tree) (f : frame) (hh : Z) :
  Z.abs (theight t - hh) <= 1 ->
  match f with
  | InLeft _ sib => Z.abs (hh - theight sib) <= 1
  | InRight sib _ => Z.abs (theight sib - hh) <= 1
  end ->
  match f with
  | InLeft _ sib => balanced sib
  | InRight sib _ => balanced sib
  end ->
  balanced t ->
  almost (fill t f) /\
  Z.abs (theight (rebal (fill t f))
         - match f with
           | InLeft _ sib => 1 + Z.max hh (theight sib)
           | InRight sib _ => 1 + Z.max (theight sib) hh
           end) <= 1.
Proof.
  intros Ht Hs Hb Hbt.
  assert (Ha : almost (fill t f)).
  { destruct f; cbn [fill almost] in *; split_and!; auto; lia. }
  split; [exact Ha|].
  pose proof (rebal_balanced _ Ha) as [_ Hh].
  destruct f as [p sib|sib p]; cbn [fill] in *.
  - assert (Hu : theight (Node t p sib) = 1 + Z.max (theight t) (theight sib))
      by reflexivity.
    destruct (Z.eq_dec (Z.abs (theight t - theight sib)) 2) as [E|E]; [lia|].
    rewrite rebal_of_balanced by (cbn [balanced]; split_and!; auto; lia). lia.
  - assert (Hu : theight (Node sib p t) = 1 + Z.max (theight sib) (theight t))
      by reflexivity.
    destruct (Z.eq_dec (Z.abs (theight t - theight sib)) 2) as [E|E]; [lia|].
    rewrite rebal_of_balanced by (cbn [balanced]; split_and!; auto; lia). lia.
Qed.

(** Refitting a balanced subtree, whose height is within one of the height
    the hole had, gives a balanced tree. *)
Lemma refit_balanced (c : ctx) :
  forall t hh, ctx_ok c hh -> balanced t -> Z.abs (theight t - hh) <= 1 ->
               balanced (refit t c).
Proof.
  induction c as [|f c IH]; intros t hh Hc Ht Hh; simpl; [assumption|].
  destruct f as [p sib|sib p]; simpl in Hc; destruct Hc as (Hs & Habs & Hc).
  - destruct (theight_fill_bounds t (InLeft p sib) hh Hh Habs Hs Ht) as [Ha Hd].
    eapply IH; [exact Hc| |exact Hd]. apply rebal_balanced. assumption.
  - destruct (theight_fill_bounds t (InRight sib p) hh Hh Habs Hs Ht) as [Ha Hd].
    eapply IH; [exact Hc| |exact Hd]. apply rebal_balanced. assumption.
Qed.

(** In a balanced tree the walk changes nothing. *)
Lemma refit_of_balanced (c : ctx) :
  forall t, balanced (plug t c) -> refit t c = plug t c.
Proof.
  induction c as [|f c IH]; intros t H; simpl; [reflexivity|].
  simpl in H. pose proof H as H'. apply balanced_plug in H' as [Hf _].
  rewrite rebal_of_balanced by assumption. apply IH. assumption.
Qed.

Lemma tsize_plug (c : ctx) (t t' : tree) :
  tsize t' = tsize t -> tsize (plug t' c) = tsize (plug t c).
Proof.
  intros H. rewrite !tsize_inorder, !inorder_plug, !length_app.
  rewrite !tsize_inorder in H. lia.
Qed.


(** *** Trees in the heap *)

(** The heap lays out the tree [t] below a node (or the null pointer)
    [par]: the pointers follow the shape, every child points back to its
    parent, and [height] and [cnt] hold the height and the size of the
    subtree. *)
Fixpoint repr (h : heap) (par : ptr) (t : tree) : Prop :=
  match t with
  | Leaf => True
  | Node l a r =>
      exists nd, h !! a = Some nd /\ parent nd = par /\
        left nd = root_of l /\ right nd = root_of r /\
        height nd = theight t /\ cnt nd = tsize t /\
        repr h (Some a) l /\ repr h (Some a) r
  end.

(** The same, except that [height] and [cnt] of the root [a] may be stale:
    the state of a node before [avl_update]. *)
Definition shape (h : heap) (par : ptr) (l : tree) (a : positive) (r : tree) : Prop :=
  exists nd, h !! a = Some nd /\ parent nd = par /\
    left nd = root_of l /\ right nd = root_of r /\
    repr h (Some a) l /\ repr h (Some a) r.

(** The range of the [uint32_t] fields, with room for the comparison
    [hl == hr + 2]. *)
Definition fits (t : tree) : Prop := tsize t + 2 < 2 ^ 32.

Lemma repr_shape (h : heap) (par : ptr) (l : tree) (a : positive) (r : tree) :
  repr h par (Node l a r) -> shape h par l a r.
Proof.
  intros (nd & H1 & H2 & H3 & H4 & _ & _ & H7 & H8). exists nd. split_and!; auto.
Qed.

Lemma repr_agree (t : tree) :
  forall h h' par, (forall a, a ∈ inorder t -> h' !! a = h !! a) ->
                   repr h par t -> repr h' par t.
Proof.
  induction t as [|l IHl a r IHr]; intros h h' par Hag; simpl; [auto|].
  intros (nd & H1 & H2 & H3 & H4 & H5 & H6 & H7 & H8).
  exists nd. split_and!; auto.
  - rewrite Hag; [assumption|]. apply elem_of_app. right. apply elem_of_cons. auto.
  - eapply IHl; [|exact H7]. intros b Hb. apply Hag. apply elem_of_app. auto.
  - eapply IHr; [|exact H8]. intros b Hb. apply Hag.
    apply elem_of_app. right. apply elem_of_cons. auto.
Qed.

Lemma repr_insert_other (t : tree) (h : heap) (par : ptr) (a : positive) (v : AVLNode) :
  a ∉ inorder t -> repr h par t -> repr (<[a := v]> h) par t.
Proof.
  intros Ha. apply repr_agree. intros b Hb.
  rewrite lookup_insert_ne; [reflexivity|]. intros ->. contradiction.
Qed.

Lemma repr_dom (t : tree) :
  forall h par a, repr h par t -> a ∈ inorder t -> is_Some (h !! a).
Proof.
  induction t as [|l IHl x r IHr]; intros h par a; simpl.
  - intros _ Ha. inversion Ha.
  - intros (nd & H1 & _ & _ & _ & _ & _ & H7 & H8) Ha.
    apply elem_of_app in Ha as [Ha|Ha]; [eapply IHl; eauto|].
    apply elem_of_cons in Ha as [->|Ha]; [eauto|eapply IHr; eauto].
Qed.

Lemma avl_height_repr (h : heap) (par : ptr) (t : tree) :
  repr h par t -> avl_height h (root_of t) = Some (theight t).
Proof.
  destruct t as [|l a r]; [reflexivity|].
  intros (nd & H1 & _ & _ & _ & H5 & _). simpl. rewrite H1. simpl. rewrite H5. reflexivity.
Qed.

Lemma avl_cnt_repr (h : heap) (par : ptr) (t : tree) :
  repr h par t -> avl_cnt h (root_of t) = Some (tsize t).
Proof.
  destruct t as [|l a r]; [reflexivity|].
  intros (nd & H1 & _ & _ & _ & _ & H6 & _). simpl. rewrite H1. simpl. rewrite H6. reflexivity.
Qed.

Lemma root_not_in (t : tree) (a : positive) : a ∉ inorder t -> root_of t <> Some a.
Proof.
  destruct t as [|l x r]; simpl; [discriminate|].
  intros Hn Heq. inversion Heq; subst x. apply Hn.
  apply elem_of_app. right. apply elem_of_cons. auto.
Qed.

Lemma NoDup_node (l : tree) (a : positive) (r : tree) :
  NoDup (inorder (Node l a r)) ->
  NoDup (inorder l) /\ NoDup (inorder r) /\ (a ∉ inorder l) /\ (a ∉ inorder r) /\
  (forall x, x ∈ inorder l -> x ∉ inorder r).
Proof.
  simpl. intros H. apply NoDup_app in H as (Hl & Hd & Hr).
  apply NoDup_cons in Hr as [Har Hr]. split_and!; auto.
  - intros Hal. apply (Hd a Hal). apply elem_of_cons. auto.
  - intros x Hx Hxr. apply (Hd x Hx). apply elem_of_cons. auto.
Qed.

Lemma u32_small (x : Z) : 0 <= x < 2 ^ 32 -> u32 x = x.
Proof. intros H. unfold u32. apply Z.mod_small. assumption. Qed.

(** [avl_update] makes the fields of the root right. *)
Lemma avl_update_spec (h : heap) (par : ptr) (l : tree) (a : positive) (r : tree) :
  shape h par l a r -> a ∉ inorder l -> a ∉ inorder r -> fits (Node l a r) ->
  exists h', avl_update h a = Some h' /\ repr h' par (Node l a r) /\
             (forall b, b <> a -> h' !! b = h !! b).
Proof.
  intros (nd & H1 & H2 & H3 & H4 & H7 & H8) Hal Har Hfit.
  unfold avl_update. rewrite H1. cbn [mbind option_bind].
  rewrite H3, H4.
  rewrite (avl_height_repr _ _ _ H7), (avl_height_repr _ _ _ H8).
  rewrite (avl_cnt_repr _ _ _ H7), (avl_cnt_repr _ _ _ H8).
  cbn [mbind option_bind]. eexists. split; [reflexivity|].
  pose proof (theight_nonneg l). pose proof (theight_nonneg r).
  pose proof (tsize_nonneg l). pose proof (tsize_nonneg r).
  pose proof (theight_le_tsize l). pose proof (theight_le_tsize r).
  unfold fits in Hfit. cbn [tsize] in Hfit.
  split.
  - cbn [repr]. eexists. rewrite lookup_insert_eq. split; [reflexivity|].
    cbn [parent left right height cnt]. split_and!; auto.
    + rewrite u32_small; [|destruct (theight r <? theight l); lia].
      cbn [theight]. destruct (theight r <? theight l) eqn:E;
        [apply Z.ltb_lt in E|apply Z.ltb_ge in E]; lia.
    + rewrite (u32_small (1 + tsize l)) by lia. rewrite u32_small by lia.
      cbn [tsize]. lia.
    + apply repr_insert_other; assumption.
    + apply repr_insert_other; assumption.
  - intros b Hb. apply lookup_insert_ne. congruence.
Qed.

(** [p->parent = v] for the root of a laid-out tree, if any. *)
Lemma reparent_spec (h : heap) (par par' : ptr) (t : tree) :
  repr h par t -> NoDup (inorder t) ->
  exists h', store_if h (root_of t) (set_parent par') = Some h' /\
             repr h' par' t /\
             (forall b, root_of t <> Some b -> h' !! b = h !! b) /\
             (forall b nd, root_of t = Some b -> h !! b = Some nd ->
                           h' !! b = Some (set_parent par' nd)).
Proof.
  destruct t as [|l a r]; intros Hr Hnd.
  - exists h. simpl. split_and!; auto. intros b nd Hb. discriminate.
  - destruct (NoDup_node _ _ _ Hnd) as (_ & _ & Hal & Har & _).
    destruct Hr as (nd & H1 & H2 & H3 & H4 & H5 & H6 & H7 & H8).
    cbn [root_of store_if]. unfold store. rewrite H1. cbn [mbind option_bind].
    eexists. split; [reflexivity|]. split_and!.
    + cbn [repr]. eexists. rewrite lookup_insert_eq. split; [reflexivity|].
      cbn [set_parent parent left right height cnt]. split_and!; auto.
      * apply repr_insert_other; assumption.
      * apply repr_insert_other; assumption.
    + intros b Hb. apply lookup_insert_ne. congruence.
    + intros b nd' Hb Hnd'. inversion Hb; subst b. rewrite lookup_insert_eq. congruence.
Qed.

Lemma store_Some (h : heap) (a : positive) (f : AVLNode -> AVLNode) (nd : AVLNode) :
  h !! a = Some nd -> store h a f = Some (<[a := f nd]> h).
Proof. intros H. unfold store. rewrite H. reflexivity. Qed.


(** *** Rotations in the heap *)

Ltac heap_lookup :=
  repeat first
    [ rewrite lookup_insert_eq
    | rewrite lookup_insert_ne by congruence ].

Lemma avl_rot_left_spec (h : heap) (par : ptr) (A : tree) (x : positive)
    (B : tree) (y : positive) (C : tree) :
  shape h par A x (Node B y C) ->
  NoDup (inorder (Node A x (Node B y C))) -> fits (Node A x (Node B y C)) ->
  exists h', avl_rot_left h x = Some (h', y) /\
             repr h' par (Node (Node A x B) y C) /\
             (forall b, b ∉ inorder (Node A x (Node B y C)) -> h' !! b = h !! b).
Proof.
  intros (xn & Hx & Hxp & Hxl & Hxr & HA & HR) Hnd Hfit.
  destruct (NoDup_node _ _ _ Hnd) as (NA & NR & HxA & HxR & HAR).
  destruct (NoDup_node _ _ _ NR) as (NB & NC & HyB & HyC & HBC).
  destruct HR as (yn & Hy & Hyp & Hyl & Hyr & _ & _ & HB & HC).
  assert (Hxy : x <> y).
  { intros ->. apply HxR. simpl. apply elem_of_app. right. apply elem_of_cons. auto. }
  assert (HxB : x ∉ inorder B).
  { intros H. apply HxR. simpl. apply elem_of_app. auto. }
  assert (HxC : x ∉ inorder C).
  { intros H. apply HxR. simpl. apply elem_of_app. right. apply elem_of_cons. auto. }
  assert (HyA : y ∉ inorder A).
  { intros H. apply (HAR y H). simpl. apply elem_of_app. right. apply elem_of_cons. auto. }
  unfold avl_rot_left. rewrite Hx. cbn [mbind option_bind]. rewrite Hxr. cbn [root_of].
  rewrite Hy. cbn [mbind option_bind].
  rewrite (store_Some _ y _ yn Hy). cbn [mbind option_bind].
  rewrite (store_Some _ x _ xn) by (heap_lookup; assumption). cbn [mbind option_bind].
  rewrite (store_Some _ x _ (set_parent (Some y) xn)) by (heap_lookup; reflexivity).
  cbn [mbind option_bind].
  set (h3 := <[x := set_right (left yn) (set_parent (Some y) xn)]>
               (<[x := set_parent (Some y) xn]> (<[y := set_left (Some x) yn]> h))).
  assert (HB3 : repr h3 (Some y) B).
  { unfold h3. repeat apply repr_insert_other; assumption. }
  rewrite Hyl.
  destruct (reparent_spec h3 (Some y) (Some x) B HB3 NB) as (h4 & Hs4 & HB4 & Hoth4 & _).
  rewrite Hs4. cbn [mbind option_bind].
  assert (Hy4 : h4 !! y = Some (set_left (Some x) yn)).
  { rewrite Hoth4 by (apply root_not_in; assumption). unfold h3. heap_lookup. reflexivity. }
  assert (Hx4 : h4 !! x = Some (set_right (root_of B) (set_parent (Some y) xn))).
  { rewrite Hoth4 by (apply root_not_in; assumption). unfold h3. heap_lookup.
    rewrite Hyl. reflexivity. }
  rewrite (store_Some _ y _ _ Hy4). cbn [mbind option_bind].
  set (h5 := <[y := set_parent (parent xn) (set_left (Some x) yn)]> h4).
  assert (Hag : forall t, x ∉ inorder t -> y ∉ inorder t ->
                  (forall b, b ∈ inorder t -> b ∉ inorder B) ->
                  forall p, repr h p t -> repr h5 p t).
  { intros t Hxt Hyt Hdisj p. apply repr_agree. intros b Hb.
    unfold h5. rewrite lookup_insert_ne by (intros ->; contradiction).
    rewrite Hoth4 by (apply root_not_in; apply Hdisj; assumption).
    unfold h3. rewrite !lookup_insert_ne by (intros ->; contradiction). reflexivity. }
  assert (Hsx : shape h5 (Some y) A x B).
  { exists (set_right (root_of B) (set_parent (Some y) xn)). split_and!; auto.
    - unfold h5. heap_lookup. assumption.
    - apply Hag; auto. intros b Hb Hb'. apply (HAR b Hb). simpl. apply elem_of_app. auto.
    - unfold h5. apply repr_insert_other; assumption. }
  assert (FA : fits (Node A x B)).
  { unfold fits in *. cbn [tsize] in *. pose proof (tsize_nonneg C). lia. }
  destruct (avl_update_spec h5 (Some y) A x B Hsx HxA HxB FA) as (h6 & Hu6 & Hr6 & Hoth6).
  rewrite Hu6. cbn [mbind option_bind].
  assert (Hsy : shape h6 par (Node A x B) y C).
  { exists (set_parent (parent xn) (set_left (Some x) yn)). split_and!; auto.
    - rewrite Hoth6 by congruence. unfold h5. heap_lookup. reflexivity.
    - eapply repr_agree; [|apply (Hag C HxC HyC); [|exact HC]].
      + intros b Hb. apply Hoth6. intros ->. contradiction.
      + intros b Hb Hb'. apply (HBC b Hb' Hb). }
  assert (Hyx : y ∉ inorder (Node A x B)).
  { simpl. intros H. apply elem_of_app in H as [H|H]; [contradiction|].
    apply elem_of_cons in H as [H|H]; [congruence|contradiction]. }
  assert (FY : fits (Node (Node A x B) y C)).
  { unfold fits in *. cbn [tsize] in *. lia. }
  destruct (avl_update_spec h6 par (Node A x B) y C Hsy Hyx HyC FY) as (h7 & Hu7 & Hr7 & Hoth7).
  rewrite Hu7. cbn [mbind option_bind].
  exists h7. split_and!; auto.
  intros b Hb. simpl in Hb.
  assert (b <> x /\ b <> y /\ b ∉ inorder B) as (Hbx & Hby & HbB).
  { split_and!.
    - intros ->. apply Hb. apply elem_of_app. right. apply elem_of_cons. auto.
    - intros ->. apply Hb. apply elem_of_app. right. apply elem_of_cons. right.
      apply elem_of_app. right. apply elem_of_cons. auto.
    - intros H. apply Hb. apply elem_of_app. right. apply elem_of_cons. right.
      apply elem_of_app. auto. }
  rewrite Hoth7, Hoth6 by assumption. unfold h5. rewrite lookup_insert_ne by congruence.
  rewrite Hoth4 by (apply root_not_in; assumption).
  unfold h3. rewrite !lookup_insert_ne by congruence. reflexivity.
Qed.


Lemma avl_rot_right_spec (h : heap) (par : ptr) (A : tree) (x : positive)
    (B : tree) (y : positive) (C : tree) :
  shape h par (Node A x B) y C ->
  NoDup (inorder (Node (Node A x B) y C)) -> fits (Node (Node A x B) y C) ->
  exists h', avl_rot_right h y = Some (h', x) /\
             repr h' par (Node A x (Node B y C)) /\
             (forall b, b ∉ inorder (Node (Node A x B) y C) -> h' !! b = h !! b).
Proof.
  intros (yn & Hy & Hyp & Hyl & Hyr & HL & HC) Hnd Hfit.
  destruct (NoDup_node _ _ _ Hnd) as (NL & NC & HyL & HyC & HLC).
  destruct (NoDup_node _ _ _ NL) as (NA & NB & HxA & HxB & HAB).
  destruct HL as (xn & Hx & Hxp & Hxl & Hxr & _ & _ & HA & HB).
  assert (Hxy : x <> y).
  { intros ->. apply HyL. simpl. apply elem_of_app. right. apply elem_of_cons. auto. }
  assert (HyA : y ∉ inorder A).
  { intros H. apply HyL. simpl. apply elem_of_app. auto. }
  assert (HyB : y ∉ inorder B).
  { intros H. apply HyL. simpl. apply elem_of_app. right. apply elem_of_cons. auto. }
  assert (HxC : x ∉ inorder C).
  { apply HLC. simpl. apply elem_of_app. right. apply elem_of_cons. auto. }
  unfold avl_rot_right. rewrite Hy. cbn [mbind option_bind]. rewrite Hyl. cbn [root_of].
  rewrite Hx. cbn [mbind option_bind].
  rewrite (store_Some _ x _ xn Hx). cbn [mbind option_bind].
  rewrite (store_Some _ y _ yn) by (heap_lookup; assumption). cbn [mbind option_bind].
  rewrite (store_Some _ y _ (set_parent (Some x) yn)) by (heap_lookup; reflexivity).
  cbn [mbind option_bind].
  set (h3 := <[y := set_left (right xn) (set_parent (Some x) yn)]>
               (<[y := set_parent (Some x) yn]> (<[x := set_right (Some y) xn]> h))).
  assert (HB3 : repr h3 (Some x) B).
  { unfold h3. repeat apply repr_insert_other; assumption. }
  rewrite Hxr.
  destruct (reparent_spec h3 (Some x) (Some y) B HB3 NB) as (h4 & Hs4 & HB4 & Hoth4 & _).
  rewrite Hs4. cbn [mbind option_bind].
  assert (Hx4 : h4 !! x = Some (set_right (Some y) xn)).
  { rewrite Hoth4 by (apply root_not_in; assumption). unfold h3. heap_lookup. reflexivity. }
  assert (Hy4 : h4 !! y = Some (set_left (root_of B) (set_parent (Some x) yn))).
  { rewrite Hoth4 by (apply root_not_in; assumption). unfold h3. heap_lookup.
    rewrite Hxr. reflexivity. }
  rewrite (store_Some _ x _ _ Hx4). cbn [mbind option_bind].
  set (h5 := <[x := set_parent (parent yn) (set_right (Some y) xn)]> h4).
  assert (Hag : forall t, x ∉ inorder t -> y ∉ inorder t ->
                  (forall b, b ∈ inorder t -> b ∉ inorder B) ->
                  forall p, repr h p t -> repr h5 p t).
  { intros t Hxt Hyt Hdisj p. apply repr_agree. intros b Hb.
    unfold h5. rewrite lookup_insert_ne by (intros ->; contradiction).
    rewrite Hoth4 by (apply root_not_in; apply Hdisj; assumption).
    unfold h3. rewrite !lookup_insert_ne by (intros ->; contradiction). reflexivity. }
  assert (Hsy : shape h5 (Some x) B y C).
  { exists (set_left (root_of B) (set_parent (Some x) yn)). split_and!; auto.
    - unfold h5. heap_lookup. assumption.
    - unfold h5. apply repr_insert_other; assumption.
    - apply Hag; auto. intros b Hb Hb'. apply (HLC b); [|assumption].
      simpl. apply elem_of_app. right. apply elem_of_cons. auto. }
  assert (FB : fits (Node B y C)).
  { unfold fits in *. cbn [tsize] in *. pose proof (tsize_nonneg A). lia. }
  destruct (avl_update_spec h5 (Some x) B y C Hsy HyB HyC FB) as (h6 & Hu6 & Hr6 & Hoth6).
  rewrite Hu6. cbn [mbind option_bind].
  assert (Hsx : shape h6 par A x (Node B y C)).
  { exists (set_parent (parent yn) (set_right (Some y) xn)). split_and!; auto.
    - rewrite Hoth6 by congruence. unfold h5. heap_lookup. reflexivity.
    - eapply repr_agree; [|apply (Hag A HxA HyA); [|exact HA]].
      + intros b Hb. apply Hoth6. intros ->. contradiction.
      + intros b Hb. apply (HAB b Hb). }
  assert (Hxy' : x ∉ inorder (Node B y C)).
  { simpl. intros H. apply elem_of_app in H as [H|H]; [contradiction|].
    apply elem_of_cons in H as [H|H]; [congruence|contradiction]. }
  assert (FX : fits (Node A x (Node B y C))).
  { unfold fits in *. cbn [tsize] in *. lia. }
  destruct (avl_update_spec h6 par A x (Node B y C) Hsx HxA Hxy' FX) as (h7 & Hu7 & Hr7 & Hoth7).
  rewrite Hu7. cbn [mbind option_bind].
  exists h7. split_and!; auto.
  intros b Hb. simpl in Hb.
  assert (b <> x /\ b <> y /\ b ∉ inorder B) as (Hbx & Hby & HbB).
  { split_and!.
    - intros ->. apply Hb. apply elem_of_app. left. apply elem_of_app. right.
      apply elem_of_cons. auto.
    - intros ->. apply Hb. apply elem_of_app. right. apply elem_of_cons. auto.
    - intros H. apply Hb. apply elem_of_app. left. apply elem_of_app. right.
      apply elem_of_cons. auto. }
  rewrite Hoth7, Hoth6 by assumption. unfold h5. rewrite lookup_insert_ne by congruence.
  rewrite Hoth4 by (apply root_not_in; assumption).
  unfold h3. rewrite !lookup_insert_ne by congruence. reflexivity.
Qed.


Ltac replace_inorder H :=
  match goal with
  | |- NoDup ?l =>
      match type of H with
      | NoDup ?l' =>
          replace l with l'; [exact H|];
          simpl; repeat (rewrite <- app_assoc; simpl); reflexivity
      end
  end.

Lemma set_parent_same (nd : AVLNode) (p : ptr) : parent nd = p -> set_parent p nd = nd.
Proof. destruct nd. simpl. intros ->. reflexivity. Qed.

Lemma elem_of_inorder_node (l : tree) (a : positive) (r : tree) (b : positive) :
  b ∈ inorder (Node l a r) <-> b ∈ inorder l \/ b = a \/ b ∈ inorder r.
Proof. simpl. rewrite elem_of_app, elem_of_cons. tauto. Qed.

Lemma avl_fix_left_spec (h : heap) (par : ptr) (LL : tree) (l : positive) (LR : tree)
    (n : positive) (R : tree) :
  let t := Node (Node LL l LR) n R in
  shape h par (Node LL l LR) n R -> NoDup (inorder t) -> fits t ->
  exists h' a, avl_fix_left h n = Some (h', a) /\
               root_of (fix_left t) = Some a /\
               repr h' par (fix_left t) /\
               (forall b, b ∉ inorder t -> h' !! b = h !! b).
Proof.
  intros t Hs Hnd Hfit. subst t.
  pose proof Hs as (nd & Hn & Hnp & Hnl & Hnr & HL & HR).
  destruct (NoDup_node _ _ _ Hnd) as (NL & NR & HnL & HnR & HLR).
  pose proof HL as (ln & Hl & Hlp & Hll & Hlr & _ & _ & HLL & HLRr).
  unfold avl_fix_left. rewrite Hn. cbn [mbind option_bind]. rewrite Hnl. cbn [root_of mbind option_bind].
  rewrite Hl. cbn [mbind option_bind]. rewrite Hll, Hlr.
  rewrite (avl_height_repr _ _ _ HLL), (avl_height_repr _ _ _ HLRr). cbn [mbind option_bind].
  unfold fix_left.
  destruct (theight LL <? theight LR) eqn:E.
  - apply Z.ltb_lt in E.
    destruct LR as [|B y C]; [simpl in E; pose proof (theight_nonneg LL); lia|].
    assert (FL : fits (Node LL l (Node B y C))).
    { unfold fits in *. cbn [tsize] in *. pose proof (tsize_nonneg R). lia. }
    destruct (avl_rot_left_spec h (Some n) LL l B y C (repr_shape _ _ _ _ _ HL) NL FL)
      as (h1 & Hrot & Hr1 & Hoth1).
    rewrite Hrot. cbn [mbind option_bind].
    assert (Hn1 : h1 !! n = Some nd) by (rewrite Hoth1; assumption).
    rewrite (store_Some _ n _ nd Hn1). cbn [mbind option_bind].
    pose proof Hr1 as (yn & Hy1 & Hyp1 & _).
    assert (Hny : n <> y).
    { intros ->. apply HnL. rewrite !elem_of_inorder_node. auto. }
    rewrite (store_Some _ y _ yn) by (heap_lookup; assumption). cbn [mbind option_bind].
    rewrite (set_parent_same yn (Some n) Hyp1).
    rewrite (insert_id (<[n := set_left (Some y) nd]> h1) y yn) by (heap_lookup; assumption).
    cbn [rot_left].
    assert (Hs2 : shape (<[n := set_left (Some y) nd]> h1) par
                        (Node (Node LL l B) y C) n R).
    { exists (set_left (Some y) nd). split_and!; auto.
      - apply lookup_insert_eq.
      - apply repr_insert_other; [|assumption].
        intros H. apply HnL. rewrite !elem_of_inorder_node in *. tauto.
      - apply repr_insert_other; [assumption|].
        eapply repr_agree; [|exact HR]. intros b Hb. apply Hoth1.
        intros Hb'. apply (HLR b Hb' Hb). }
    assert (Hnd2 : NoDup (inorder (Node (Node (Node LL l B) y C) n R))).
    { replace_inorder Hnd. }
    assert (F2 : fits (Node (Node (Node LL l B) y C) n R)).
    { unfold fits in *. cbn [tsize] in *. lia. }
    destruct (avl_rot_right_spec _ par (Node LL l B) y C n R Hs2 Hnd2 F2)
      as (h' & Hrot' & Hr' & Hoth').
    rewrite Hrot'. exists h', y. cbn [rot_right root_of]. split_and!; auto.
    intros b Hb. rewrite Hoth'.
    + rewrite lookup_insert_ne.
      * apply Hoth1. intros H. apply Hb. rewrite elem_of_inorder_node. auto.
      * intros ->. apply Hb. rewrite elem_of_inorder_node. auto.
    + intros H. apply Hb. rewrite !elem_of_inorder_node in *. tauto.
  - destruct (avl_rot_right_spec h par LL l LR n R Hs Hnd Hfit) as (h' & Hrot' & Hr' & Hoth').
    rewrite Hrot'. exists h', l. cbn [rot_right root_of]. split_and!; auto.
Qed.

Lemma avl_fix_right_spec (h : heap) (par : ptr) (L : tree) (n : positive)
    (RL : tree) (r : positive) (RR : tree) :
  let t := Node L n (Node RL r RR) in
  shape h par L n (Node RL r RR) -> NoDup (inorder t) -> fits t ->
  exists h' a, avl_fix_right h n = Some (h', a) /\
               root_of (fix_right t) = Some a /\
               repr h' par (fix_right t) /\
               (forall b, b ∉ inorder t -> h' !! b = h !! b).
Proof.
  intros t Hs Hnd Hfit. subst t.
  pose proof Hs as (nd & Hn & Hnp & Hnl & Hnr & HL & HR).
  destruct (NoDup_node _ _ _ Hnd) as (NL & NR & HnL & HnR & HLR).
  pose proof HR as (rn & Hr & Hrp & Hrl & Hrr & _ & _ & HRL & HRR).
  unfold avl_fix_right. rewrite Hn. cbn [mbind option_bind]. rewrite Hnr. cbn [root_of mbind option_bind].
  rewrite Hr. cbn [mbind option_bind]. rewrite Hrl, Hrr.
  rewrite (avl_height_repr _ _ _ HRL), (avl_height_repr _ _ _ HRR). cbn [mbind option_bind].
  unfold fix_right.
  destruct (theight RR <? theight RL) eqn:E.
  - apply Z.ltb_lt in E.
    destruct RL as [|B y C]; [simpl in E; pose proof (theight_nonneg RR); lia|].
    assert (FR : fits (Node (Node B y C) r RR)).
    { unfold fits in *. cbn [tsize] in *. pose proof (tsize_nonneg L). lia. }
    destruct (avl_rot_right_spec h (Some n) B y C r RR (repr_shape _ _ _ _ _ HR) NR FR)
      as (h1 & Hrot & Hr1 & Hoth1).
    rewrite Hrot. cbn [mbind option_bind].
    assert (Hn1 : h1 !! n = Some nd) by (rewrite Hoth1; assumption).
    rewrite (store_Some _ n _ nd Hn1). cbn [mbind option_bind].
    pose proof Hr1 as (yn & Hy1 & Hyp1 & _).
    assert (Hny : n <> y).
    { intros ->. apply HnR. rewrite !elem_of_inorder_node. auto. }
    rewrite (store_Some _ y _ yn) by (heap_lookup; assumption). cbn [mbind option_bind].
    rewrite (set_parent_same yn (Some n) Hyp1).
    rewrite (insert_id (<[n := set_right (Some y) nd]> h1) y yn) by (heap_lookup; assumption).
    cbn [rot_right].
    assert (Hs2 : shape (<[n := set_right (Some y) nd]> h1) par
                        L n (Node B y (Node C r RR))).
    { exists (set_right (Some y) nd). split_and!; auto.
      - apply lookup_insert_eq.
      - apply repr_insert_other; [assumption|].
        eapply repr_agree; [|exact HL]. intros b Hb. apply Hoth1.
        apply (HLR b Hb).
      - apply repr_insert_other; [|assumption].
        intros H. apply HnR. rewrite !elem_of_inorder_node in *. tauto. }
    assert (Hnd2 : NoDup (inorder (Node L n (Node B y (Node C r RR))))).
    { replace_inorder Hnd. }
    assert (F2 : fits (Node L n (Node B y (Node C r RR)))).
    { unfold fits in *. cbn [tsize] in *. lia. }
    destruct (avl_rot_left_spec _ par L n B y (Node C r RR) Hs2 Hnd2 F2)
      as (h' & Hrot' & Hr' & Hoth').
    rewrite Hrot'. exists h', y. cbn [rot_left root_of]. split_and!; auto.
    intros b Hb. rewrite Hoth'.
    + rewrite lookup_insert_ne.
      * apply Hoth1. intros H. apply Hb. rewrite elem_of_inorder_node. auto.
      * intros ->. apply Hb. rewrite elem_of_inorder_node. auto.
    + intros H. apply Hb. rewrite !elem_of_inorder_node in *. tauto.
  - destruct (avl_rot_left_spec h par L n RL r RR Hs Hnd Hfit) as (h' & Hrot' & Hr' & Hoth').
    rewrite Hrot'. exists h', r. cbn [rot_left root_of]. split_and!; auto.
Qed.


(** *** The walk of [avl_fix] *)

(** The heap lays out the context [c] around the pointer [hole]; [par] is
    the parent of the hole.  The [height] and [cnt] fields of the nodes on
    the path are not constrained: they are stale during a fix-up. *)
Fixpoint ctx_repr (h : heap) (hole : ptr) (c : ctx) (par : ptr) : Prop :=
  match c with
  | [] => par = None
  | InLeft p sib :: c' =>
      par = Some p /\
      exists pn, h !! p = Some pn /\ left pn = hole /\ right pn = root_of sib /\
                 repr h (Some p) sib /\ ctx_repr h (Some p) c' (parent pn)
  | InRight sib p :: c' =>
      par = Some p /\
      exists pn, h !! p = Some pn /\ right pn = hole /\ left pn = root_of sib /\
                 repr h (Some p) sib /\ ctx_repr h (Some p) c' (parent pn)
  end.

Lemma ctx_repr_agree (c : ctx) :
  forall h h' hole par, (forall a, a ∈ ctx_addrs c -> h' !! a = h !! a) ->
                        ctx_repr h hole c par -> ctx_repr h' hole c par.
Proof.
  induction c as [|f c IH]; intros h h' hole par Hag; [auto|].
  assert (Hc : forall a, a ∈ ctx_addrs c -> h' !! a = h !! a).
  { intros a Ha. apply Hag. unfold ctx_addrs in *. simpl. apply elem_of_app. auto. }
  assert (Hf : forall a, a ∈ frame_addrs f -> h' !! a = h !! a).
  { intros a Ha. apply Hag. unfold ctx_addrs. simpl. apply elem_of_app. auto. }
  destruct f as [p sib|sib p]; simpl in Hf |- *;
    intros (-> & pn & H1 & H2 & H3 & H4 & H5); (split; [reflexivity|]);
    exists pn; split_and!; auto.
  - rewrite Hf; [assumption|apply elem_of_cons; auto].
  - eapply repr_agree; [|exact H4]. intros a Ha. apply Hf. apply elem_of_cons. auto.
  - eapply IH; eauto.
  - rewrite Hf; [assumption|apply elem_of_cons; auto].
  - eapply repr_agree; [|exact H4]. intros a Ha. apply Hf. apply elem_of_cons. auto.
  - eapply IH; eauto.
Qed.

Lemma tsize_plug_le (c : ctx) : forall t, tsize t <= tsize (plug t c).
Proof.
  induction c as [|f c IH]; intros t; simpl; [lia|].
  etransitivity; [|apply IH].
  destruct f; simpl; pose proof (tsize_nonneg sib); lia.
Qed.

Lemma fits_plug (c : ctx) (t : tree) : fits (plug t c) -> fits t.
Proof. unfold fits. pose proof (tsize_plug_le c t). lia. Qed.

(** The rebalancing step of one iteration, after [avl_update(n)]. *)
Definition fix_at (h : heap) (n : positive) (from : from_ref) (parent : ptr)
    (hl hr : Z) : option (heap * positive) :=
  if hl =? u32 (hr + 2) then
    '(h, r) ← avl_fix_left h n;
    h ← store_from h from (Some r);
    h ← store h r (set_parent parent);
    Some (h, r)
  else if hr =? u32 (hl + 2) then
    '(h, r) ← avl_fix_right h n;
    h ← store_from h from (Some r);
    h ← store h r (set_parent parent);
    Some (h, r)
  else Some (h, n).

Lemma avl_fix_loop_unfold (fuel : nat) (h : heap) (n : positive) :
  avl_fix_loop (S fuel) h (Some n)
  = (nd ← h !! n;
     let parent := parent nd in
     from ← (match parent with
             | Some p => child_ref h p n
             | None => Some FromVar
             end);
     h ← avl_update h n;
     nd ← h !! n;
     hl ← avl_height h (left nd);
     hr ← avl_height h (right nd);
     '(h, top) ← fix_at h n from parent hl hr;
     match parent with
     | None => Some (h, Some top)
     | Some p => avl_fix_loop fuel h (Some p)
     end).
Proof. reflexivity. Qed.

(** [from] addresses the link of the parent that holds [n]. *)
Definition from_ok (h : heap) (from : from_ref) (par : ptr) (n : positive) : Prop :=
  match par with
  | None => from = FromVar
  | Some p =>
      exists pn, h !! p = Some pn /\
        ((from = FromLeft p /\ left pn = Some n) \/
         (from = FromRight p /\ right pn = Some n))
  end.

(** The link that [from] addresses holds [a], the rest of the parent is as
    in [h0]. *)
Definition from_holds (h0 h : heap) (from : from_ref) (a : positive) : Prop :=
  match from with
  | FromVar => True
  | FromLeft p => exists pn, h0 !! p = Some pn /\ h !! p = Some (set_left (Some a) pn)
  | FromRight p => exists pn, h0 !! p = Some pn /\ h !! p = Some (set_right (Some a) pn)
  end.

Lemma set_left_same (nd : AVLNode) (p : ptr) : left nd = p -> set_left p nd = nd.
Proof. destruct nd. simpl. intros ->. reflexivity. Qed.

Lemma set_right_same (nd : AVLNode) (p : ptr) : right nd = p -> set_right p nd = nd.
Proof. destruct nd. simpl. intros ->. reflexivity. Qed.

Definition from_addr (from : from_ref) : list positive :=
  match from with
  | FromVar => []
  | FromLeft p => [p]
  | FromRight p => [p]
  end.

Lemma fix_at_spec (h : heap) (par : ptr) (l : tree) (n : positive) (r : tree)
    (from : from_ref) :
  let t := Node l n r in
  repr h par t -> NoDup (inorder t) -> fits t ->
  from_ok h from par n -> (forall p, p ∈ from_addr from -> p ∉ inorder t) ->
  exists h' a,
    fix_at h n from par (theight l) (theight r) = Some (h', a) /\
    root_of (rebal t) = Some a /\
    repr h' par (rebal t) /\
    from_holds h h' from a /\
    (forall b, b ∉ inorder t -> b ∉ from_addr from -> h' !! b = h !! b).
Proof.
  intros t Hr Hnd Hfit Hfrom Hfa. subst t.
  pose proof (theight_nonneg l). pose proof (theight_nonneg r).
  pose proof (theight_le_tsize l). pose proof (theight_le_tsize r).
  pose proof (tsize_nonneg l). pose proof (tsize_nonneg r).
  assert (Hb : fits (Node l n r)) by assumption. unfold fits in Hb. cbn [tsize] in Hb.
  (* what remains to do once the subtree is rebalanced *)
  assert (Hfin : forall h1 a t',
            root_of t' = Some a -> repr h1 par t' ->
            inorder t' = inorder (Node l n r) ->
            (forall b, b ∉ inorder (Node l n r) -> h1 !! b = h !! b) ->
            exists h' a',
              (h2 ← store_from h1 from (Some a);
               h3 ← store h2 a (set_parent par);
               Some (h3, a)) = Some (h', a') /\
              root_of t' = Some a' /\ repr h' par t' /\ from_holds h h' from a' /\
              (forall b, b ∉ inorder (Node l n r) -> b ∉ from_addr from ->
                         h' !! b = h !! b)).
  { intros h1 a t' Hroot Hr1 Hin Hoth1.
    assert (Hat : a ∈ inorder t').
    { destruct t' as [|l' a' r']; [discriminate|]. inversion Hroot; subst a'.
      rewrite elem_of_inorder_node. auto. }
    assert (Hst : exists h2, store_from h1 from (Some a) = Some h2 /\
                    from_holds h h2 from a /\
                    (forall b, b ∉ from_addr from -> h2 !! b = h1 !! b)).
    { destruct from as [|p|p]; simpl.
      - exists h1. auto.
      - assert (Hp : p ∉ inorder (Node l n r)) by (apply Hfa; simpl; apply elem_of_cons; auto).
        unfold from_ok in Hfrom. destruct par as [p'|]; [|discriminate].
        destruct Hfrom as (pn & Hpn & [[Heq _]|[Heq _]]); inversion Heq; subst p'.
        rewrite (store_Some h1 p _ pn) by (rewrite Hoth1; assumption).
        eexists. split; [reflexivity|]. split.
        + exists pn. split; [assumption|]. apply lookup_insert_eq.
        + intros b Hb'. apply lookup_insert_ne. intros ->. apply Hb'. apply elem_of_cons. auto.
      - assert (Hp : p ∉ inorder (Node l n r)) by (apply Hfa; simpl; apply elem_of_cons; auto).
        unfold from_ok in Hfrom. destruct par as [p'|]; [|discriminate].
        destruct Hfrom as (pn & Hpn & [[Heq _]|[Heq _]]); inversion Heq; subst p'.
        rewrite (store_Some h1 p _ pn) by (rewrite Hoth1; assumption).
        eexists. split; [reflexivity|]. split.
        + exists pn. split; [assumption|]. apply lookup_insert_eq.
        + intros b Hb'. apply lookup_insert_ne. intros ->. apply Hb'. apply elem_of_cons. auto. }
    destruct Hst as (h2 & Hs2 & Hh2 & Hoth2). rewrite Hs2. cbn [mbind option_bind].
    assert (Hr2 : repr h2 par t').
    { eapply repr_agree; [|exact Hr1]. intros b Hb'. apply Hoth2.
      intros Hbf. apply (Hfa b Hbf). rewrite <- Hin. assumption. }
    destruct t' as [|l' a' r']; [discriminate|]. inversion Hroot; subst a'.
    pose proof Hr2 as (an & Han & Hanp & _).
    rewrite (store_Some h2 a _ an Han). cbn [mbind option_bind].
    rewrite (set_parent_same an par Hanp), (insert_id h2 a an Han).
    exists h2, a. split_and!; auto.
    intros b Hb1 Hb2. rewrite Hoth2, Hoth1; auto. }
  unfold fix_at.
  rewrite (u32_small (theight r + 2)) by lia.
  rewrite (u32_small (theight l + 2)) by lia.
  destruct (theight l =? theight r + 2) eqn:E1.
  - apply Z.eqb_eq in E1. destruct l as [|LL x LR]; [simpl in E1; lia|].
    destruct (avl_fix_left_spec h par LL x LR n r (repr_shape _ _ _ _ _ Hr) Hnd Hfit)
      as (h1 & a & Hfl & Hroot & Hr1 & Hoth1).
    rewrite Hfl. cbn [mbind option_bind].
    unfold rebal. cbn [theight] in E1 |- *.
    replace (1 + Z.max (theight LL) (theight LR) =? theight r + 2) with true
      by (symmetry; apply Z.eqb_eq; lia).
    apply Hfin; auto. apply inorder_fix_left.
  - apply Z.eqb_neq in E1.
    destruct (theight r =? theight l + 2) eqn:E2.
    + apply Z.eqb_eq in E2. destruct r as [|RL x RR]; [simpl in E2; lia|].
      destruct (avl_fix_right_spec h par l n RL x RR (repr_shape _ _ _ _ _ Hr) Hnd Hfit)
        as (h1 & a & Hfl & Hroot & Hr1 & Hoth1).
      rewrite Hfl. cbn [mbind option_bind].
      unfold rebal. cbn [theight] in E1, E2 |- *.
      replace (theight l =? 1 + Z.max (theight RL) (theight RR) + 2) with false
        by (symmetry; apply Z.eqb_neq; lia).
      replace (1 + Z.max (theight RL) (theight RR) =? theight l + 2) with true
        by (symmetry; apply Z.eqb_eq; lia).
      apply Hfin; auto. apply inorder_fix_right.
    + apply Z.eqb_neq in E2. unfold rebal.
      replace (theight l =? theight r + 2) with false by (symmetry; apply Z.eqb_neq; lia).
      replace (theight r =? theight l + 2) with false by (symmetry; apply Z.eqb_neq; lia).
      exists h, n. split_and!; auto.
      unfold from_holds. unfold from_ok in Hfrom.
      destruct par as [p'|]; [|subst from; exact I].
      destruct Hfrom as (pn & Hpn & [[-> Hl]|[-> Hl]]); exists pn; split; auto.
      * rewrite set_left_same; assumption.
      * rewrite set_right_same; assumption.
Qed.


Lemma ctx_addrs_cons (f : frame) (c : ctx) :
  ctx_addrs (f :: c) = frame_addrs f ++ ctx_addrs c.
Proof. reflexivity. Qed.

Lemma avl_fix_loop_spec (c : ctx) :
  forall fuel h l n r par,
    shape h par l n r -> ctx_repr h (Some n) c par ->
    NoDup (inorder (Node l n r) ++ ctx_addrs c) ->
    fits (plug (Node l n r) c) -> (length c < fuel)%nat ->
    exists h' a,
      avl_fix_loop fuel h (Some n) = Some (h', Some a) /\
      root_of (refit (rebal (Node l n r)) c) = Some a /\
      repr h' None (refit (rebal (Node l n r)) c) /\
      (forall b, b ∉ inorder (Node l n r) ++ ctx_addrs c -> h' !! b = h !! b).
Proof.
  induction c as [|f c IH]; intros fuel h l n r par Hs Hc Hnd Hfit Hfuel;
    (destruct fuel as [|fuel]; [simpl in Hfuel; lia|]);
    rewrite avl_fix_loop_unfold;
    pose proof Hs as (nd & Hn & Hnp & Hnl & Hnr & Hl & Hr);
    rewrite Hn; cbn [mbind option_bind]; rewrite Hnp;
    apply NoDup_app in Hnd as (Nt & Hdisj & Nc);
    destruct (NoDup_node _ _ _ Nt) as (Nl & Nr & Hnl' & Hnr' & Hlr);
    pose proof (fits_plug _ _ Hfit) as Ft.
  - (* the root *)
    simpl in Hc. subst par. cbn [mbind option_bind].
    destruct (avl_update_spec h None l n r Hs Hnl' Hnr' Ft) as (h1 & Hu & Hr1 & Hoth1).
    rewrite Hu. cbn [mbind option_bind].
    pose proof Hr1 as (nd1 & Hn1 & _ & Hl1 & Hr1' & _ & _ & Hrl1 & Hrr1).
    rewrite Hn1. cbn [mbind option_bind]. rewrite Hl1, Hr1'.
    rewrite (avl_height_repr _ _ _ Hrl1), (avl_height_repr _ _ _ Hrr1).
    cbn [mbind option_bind].
    destruct (fix_at_spec h1 None l n r FromVar Hr1 Nt Ft) as (h2 & a & Hf & Hroot & Hr2 & _ & Hoth2).
    { reflexivity. }
    { intros p Hp. inversion Hp. }
    rewrite Hf. cbn [mbind option_bind].
    exists h2, a. cbn [refit]. split_and!; auto.
    intros b Hb. rewrite app_nil_r in Hb. rewrite Hoth2.
    + apply Hoth1. intros ->. apply Hb. rewrite elem_of_inorder_node. auto.
    + assumption.
    + intros H. inversion H.
  - (* an inner node: go on from the parent *)
    assert (Hp : exists p sib pn,
               par = Some p /\ h !! p = Some pn /\ repr h (Some p) sib /\
               ctx_repr h (Some p) c (parent pn) /\
               frame_addrs f = p :: inorder sib /\
               ((f = InLeft p sib /\ left pn = Some n /\ right pn = root_of sib) \/
                (f = InRight sib p /\ right pn = Some n /\ left pn = root_of sib))).
    { destruct f as [p sib|sib p]; simpl in Hc;
        destruct Hc as (-> & pn & H1 & H2 & H3 & H4 & H5); exists p, sib, pn;
        split_and!; auto. }
    destruct Hp as (p & sib & pn & -> & Hpn & Hsib & Hc' & Hfa & Hside).
    rewrite ctx_addrs_cons, Hfa in Hdisj, Nc.
    apply NoDup_app in Nc as (Nf & Hdisj2 & Nc').
    apply NoDup_cons in Nf as [Hps Nsib].
    assert (Hpt : p ∉ inorder (Node l n r)).
    { intros H. apply (Hdisj p H). apply elem_of_app. left. apply elem_of_cons. auto. }
    assert (Hpn' : p <> n).
    { intros ->. apply Hpt. rewrite elem_of_inorder_node. auto. }
    assert (Hns : n ∉ inorder sib).
    { intros H. apply (Hdisj n); [rewrite elem_of_inorder_node; auto|].
      apply elem_of_app. left. apply elem_of_cons. auto. }
    assert (Hts : forall b, b ∈ inorder sib -> b ∉ inorder (Node l n r)).
    { intros b Hb H. apply (Hdisj b H). apply elem_of_app. left. apply elem_of_cons. auto. }
    assert (Htc : forall b, b ∈ ctx_addrs c -> (b ∉ inorder (Node l n r)) /\ b <> p /\ (b ∉ inorder sib)).
    { intros b Hb. split_and!.
      - intros H. apply (Hdisj b H). apply elem_of_app. auto.
      - intros ->. apply (Hdisj2 p); [apply elem_of_cons; auto|assumption].
      - intros H. apply (Hdisj2 b); [apply elem_of_cons; auto|assumption]. }
    cbn [mbind option_bind].
    (* which link of the parent holds [n] *)
    set (from := match f with InLeft _ _ => FromLeft p | InRight _ _ => FromRight p end).
    assert (Hcr : child_ref h p n = Some from).
    { unfold child_ref. rewrite Hpn. cbn [mbind option_bind]. unfold from.
      destruct Hside as [(-> & Hl' & _)|(-> & _ & Hl')].
      - rewrite bool_decide_eq_true_2 by assumption. reflexivity.
      - rewrite bool_decide_eq_false_2; [reflexivity|].
        rewrite Hl'. apply root_not_in. assumption. }
    rewrite Hcr. cbn [mbind option_bind].
    destruct (avl_update_spec h (Some p) l n r Hs Hnl' Hnr' Ft) as (h1 & Hu & Hr1 & Hoth1).
    rewrite Hu. cbn [mbind option_bind].
    pose proof Hr1 as (nd1 & Hn1 & _ & Hl1 & Hr1' & _ & _ & Hrl1 & Hrr1).
    rewrite Hn1. cbn [mbind option_bind]. rewrite Hl1, Hr1'.
    rewrite (avl_height_repr _ _ _ Hrl1), (avl_height_repr _ _ _ Hrr1).
    cbn [mbind option_bind].
    assert (Hpn1 : h1 !! p = Some pn) by (rewrite Hoth1; assumption).
    destruct (fix_at_spec h1 (Some p) l n r from Hr1 Nt Ft)
      as (h2 & a & Hf & Hroot & Hr2 & Hholds & Hoth2).
    { exists pn. split; [assumption|]. unfold from.
      destruct Hside as [(-> & Hl' & _)|(-> & Hl' & _)]; auto. }
    { intros q Hq. unfold from in Hq.
      destruct f; apply elem_of_cons in Hq as [->|Hq]; try assumption; inversion Hq. }
    rewrite Hf. cbn [mbind option_bind].
    assert (Hoth : forall b, b ∉ inorder (Node l n r) -> b <> p -> h2 !! b = h !! b).
    { intros b Hb1 Hb2. rewrite Hoth2.
      - apply Hoth1. intros ->. apply Hb1. rewrite elem_of_inorder_node. auto.
      - assumption.
      - unfold from. destruct f; intros H; apply elem_of_cons in H as [H|H];
          try congruence; inversion H. }
    assert (Hsib2 : repr h2 (Some p) sib).
    { eapply repr_agree; [|exact Hsib]. intros b Hb. apply Hoth; [apply Hts; assumption|].
      intros ->. contradiction. }
    assert (Hc2 : ctx_repr h2 (Some p) c (parent pn)).
    { eapply ctx_repr_agree; [|exact Hc']. intros b Hb.
      destruct (Htc b Hb) as (H1 & H2 & _). apply Hoth; assumption. }
    assert (Hin : inorder (rebal (Node l n r)) = inorder (Node l n r)) by apply inorder_rebal.
    assert (Hsz : tsize (rebal (Node l n r)) = tsize (Node l n r)) by apply tsize_rebal.
    destruct Hside as [(-> & Hl' & Hr')|(-> & Hr' & Hl')]; unfold from in Hholds;
      destruct Hholds as (pn' & Hpn'' & Hp2); rewrite Hpn1 in Hpn''; inversion Hpn''; subst pn'.
    + (* [n] was the left child *)
      destruct (IH fuel h2 (rebal (Node l n r)) p sib (parent pn)) as (h' & a' & Hloop & Hroot' & Hr'' & Hoth').
      * exists (set_left (Some a) pn). split_and!; auto.
      * assumption.
      * apply NoDup_app. split_and!.
        -- cbn [inorder]. rewrite Hin. apply NoDup_app. split_and!; auto.
           ++ intros b Hb Hb'. apply elem_of_cons in Hb' as [->|Hb']; [contradiction|].
              apply (Hts b Hb' Hb).
           ++ apply NoDup_cons. auto.
        -- intros b Hb Hb'. destruct (Htc b Hb') as (H1 & H2 & H3).
           rewrite elem_of_inorder_node, Hin in Hb. destruct Hb as [Hb|[Hb|Hb]]; auto.
        -- assumption.
      * unfold fits in *. cbn [plug fill] in Hfit.
        erewrite (tsize_plug c _ (Node (rebal (Node l n r)) p sib)); [exact Hfit|].
        cbn [tsize]. rewrite Hsz. reflexivity.
      * simpl in Hfuel. lia.
      * rewrite Hloop. exists h', a'. cbn [refit fill]. split_and!; auto.
        intros b Hb. rewrite Hoth'.
        -- apply Hoth.
           ++ intros H. apply Hb. apply elem_of_app. auto.
           ++ intros ->. apply Hb. apply elem_of_app. right. rewrite ctx_addrs_cons.
              apply elem_of_app. left. apply elem_of_cons. auto.
        -- intros H. apply Hb. apply elem_of_app in H as [H|H].
           ++ rewrite elem_of_inorder_node, Hin in H. destruct H as [H|[->|H]].
              ** apply elem_of_app. auto.
              ** apply elem_of_app. right. rewrite ctx_addrs_cons.
                 apply elem_of_app. left. apply elem_of_cons. auto.
              ** apply elem_of_app. right. rewrite ctx_addrs_cons.
                 apply elem_of_app. left. simpl. apply elem_of_cons. auto.
           ++ apply elem_of_app. right. rewrite ctx_addrs_cons. apply elem_of_app. auto.
    + (* [n] was the right child *)
      destruct (IH fuel h2 sib p (rebal (Node l n r)) (parent pn)) as (h' & a' & Hloop & Hroot' & Hr'' & Hoth').
      * exists (set_right (Some a) pn). split_and!; auto.
      * assumption.
      * apply NoDup_app. split_and!.
        -- cbn [inorder]. rewrite Hin. apply NoDup_app. split_and!; auto.
           ++ intros b Hb Hb'. apply elem_of_cons in Hb' as [->|Hb']; [contradiction|].
              apply (Hts b Hb Hb').
           ++ apply NoDup_cons. auto.
        -- intros b Hb Hb'. destruct (Htc b Hb') as (H1 & H2 & H3).
           rewrite elem_of_inorder_node, Hin in Hb. destruct Hb as [Hb|[Hb|Hb]]; auto.
        -- assumption.
      * unfold fits in *. cbn [plug fill] in Hfit.
        erewrite (tsize_plug c _ (Node sib p (rebal (Node l n r)))); [exact Hfit|].
        cbn [tsize]. rewrite Hsz. reflexivity.
      * simpl in Hfuel. lia.
      * rewrite Hloop. exists h', a'. cbn [refit fill]. split_and!; auto.
        intros b Hb. rewrite Hoth'.
        -- apply Hoth.
           ++ intros H. apply Hb. apply elem_of_app. auto.
           ++ intros ->. apply Hb. apply elem_of_app. right. rewrite ctx_addrs_cons.
              apply elem_of_app. left. apply elem_of_cons. auto.
        -- intros H. apply Hb. apply elem_of_app in H as [H|H].
           ++ rewrite elem_of_inorder_node, Hin in H. destruct H as [H|[->|H]].
              ** apply elem_of_app. right. rewrite ctx_addrs_cons.
                 apply elem_of_app. left. simpl. apply elem_of_cons. auto.
              ** apply elem_of_app. right. rewrite ctx_addrs_cons.
                 apply elem_of_app. left. apply elem_of_cons. auto.
              ** apply elem_of_app. auto.
           ++ apply elem_of_app. right. rewrite ctx_addrs_cons. apply elem_of_app. auto.
Qed.


(** *** Fuel: a path visits distinct allocated nodes *)

Lemma NoDup_length_le_size (h : heap) (l : list positive) :
  NoDup l -> (forall a, a ∈ l -> is_Some (h !! a)) -> (length l <= size h)%nat.
Proof.
  intros Hnd Hin.
  rewrite <- (size_dom (D := gset positive) h).
  rewrite <- (size_list_to_set (C := gset positive) l Hnd).
  apply subseteq_size. intros a Ha. apply elem_of_list_to_set in Ha.
  apply elem_of_dom. auto.
Qed.

Lemma ctx_repr_dom (c : ctx) :
  forall h hole par a, ctx_repr h hole c par -> a ∈ ctx_addrs c -> is_Some (h !! a).
Proof.
  induction c as [|f c IH]; intros h hole par a Hc Ha; [inversion Ha|].
  rewrite ctx_addrs_cons in Ha. apply elem_of_app in Ha as [Ha|Ha].
  - destruct f as [p sib|sib p]; simpl in Hc, Ha;
      destruct Hc as (_ & pn & H1 & _ & _ & H4 & _);
      (apply elem_of_cons in Ha as [->|Ha]; [eauto|exact (repr_dom sib h (Some p) a H4 Ha)]).
  - destruct f as [p sib|sib p]; simpl in Hc;
      destruct Hc as (_ & pn & _ & _ & _ & _ & H5); eapply IH; eauto.
Qed.

Lemma length_ctx_addrs (c : ctx) : (length c <= length (ctx_addrs c))%nat.
Proof.
  induction c as [|f c IH]; [simpl; lia|].
  rewrite ctx_addrs_cons, length_app. destruct f; simpl; lia.
Qed.

(** A laid-out tree, seen from one of its subtrees. *)
Lemma repr_plug_inv (c : ctx) :
  forall h t, repr h None (plug t c) ->
              exists par, repr h par t /\ ctx_repr h (root_of t) c par.
Proof.
  induction c as [|f c IH]; intros h t H; simpl in H.
  - exists None. simpl. auto.
  - destruct (IH h (fill t f) H) as (par' & Hf & Hc).
    destruct f as [p sib|sib p]; simpl in Hf;
      destruct Hf as (pn & H1 & H2 & H3 & H4 & _ & _ & H7 & H8);
      exists (Some p); (split; [assumption|]); simpl;
      (split; [reflexivity|]); exists pn; subst par'; split_and!; auto.
Qed.

Lemma avl_fix_spec (c : ctx) (h : heap) (l : tree) (n : positive) (r : tree) (par : ptr) :
  shape h par l n r -> ctx_repr h (Some n) c par ->
  NoDup (inorder (Node l n r) ++ ctx_addrs c) ->
  fits (plug (Node l n r) c) ->
  exists h' a,
    avl_fix h (Some n) = Some (h', Some a) /\
    root_of (refit (rebal (Node l n r)) c) = Some a /\
    repr h' None (refit (rebal (Node l n r)) c) /\
    (forall b, b ∉ inorder (Node l n r) ++ ctx_addrs c -> h' !! b = h !! b).
Proof.
  intros Hs Hc Hnd Hfit. unfold avl_fix.
  apply (avl_fix_loop_spec c _ h l n r par); auto.
  apply NoDup_app in Hnd as (_ & _ & Nc).
  pose proof (NoDup_length_le_size h (ctx_addrs c) Nc) as Hle.
  pose proof (length_ctx_addrs c).
  assert (length (ctx_addrs c) <= size h)%nat; [|lia].
  apply Hle. intros a Ha. eapply ctx_repr_dom; eauto.
Qed.

(** *** Search and insert *)

Section Insert.
Variable goes_left : positive -> bool.

(** The path of the descent: the context of the null link where the walk
    ends, [c] being the context of [t]. *)
Fixpoint ins_ctx (t : tree) (c : ctx) : ctx :=
  match t with
  | Leaf => c
  | Node l a r =>
      if goes_left a then ins_ctx l (InLeft a r :: c)
      else ins_ctx r (InRight l a :: c)
  end.

Lemma plug_ins_ctx (t : tree) : forall c, plug Leaf (ins_ctx t c) = plug t c.
Proof.
  induction t as [|l IHl a r IHr]; intros c; simpl; [reflexivity|].
  destruct (goes_left a); [rewrite IHl|rewrite IHr]; reflexivity.
Qed.

(** [parent] and [from] at the hole of a context. *)
Definition hole_link (c : ctx) : ptr * from_ref :=
  match c with
  | [] => (None, FromVar)
  | InLeft p _ :: _ => (Some p, FromLeft p)
  | InRight _ p :: _ => (Some p, FromRight p)
  end.

Lemma descend_spec (t : tree) :
  forall c h par fuel, repr h par t -> (Z.to_nat (theight t) <= fuel)%nat ->
    descend fuel h goes_left (hole_link c).1 (hole_link c).2 (root_of t)
    = Some (hole_link (ins_ctx t c)).
Proof.
  induction t as [|l IHl a r IHr]; intros c h par fuel Hr Hfuel.
  - simpl. destruct fuel; simpl; destruct (hole_link c); reflexivity.
  - destruct Hr as (nd & H1 & _ & H3 & H4 & _ & _ & H7 & H8).
    pose proof (theight_nonneg l). pose proof (theight_nonneg r).
    cbn [theight] in Hfuel.
    destruct fuel as [|fuel]; [lia|]. cbn [root_of descend].
    rewrite H1. cbn [mbind option_bind ins_ctx].
    destruct (goes_left a).
    + rewrite H3. apply (IHl (InLeft a r :: c) h (Some a) fuel H7). lia.
    + rewrite H4. apply (IHr (InRight l a :: c) h (Some a) fuel H8). lia.
Qed.

End Insert.

(** The link at the hole of a context is set to [v]. *)
Lemma store_from_hole (c : ctx) (h : heap) (hole : ptr) (par : ptr) (v : ptr) :
  ctx_repr h hole c par -> NoDup (ctx_addrs c) ->
  exists h', store_from h (hole_link c).2 v = Some h' /\
             ctx_repr h' v c par /\ (hole_link c).1 = par /\
             (forall b, b ∉ ctx_addrs c -> h' !! b = h !! b) /\
             (forall b, is_Some (h' !! b) <-> is_Some (h !! b)).
Proof.
  destruct c as [|[p sib|sib p] c]; simpl; intros Hc Hnd.
  - exists h. split_and!; auto.
  - destruct Hc as (-> & pn & H1 & H2 & H3 & H4 & H5).
    rewrite ctx_addrs_cons in Hnd. simpl in Hnd.
    apply NoDup_cons in Hnd as [Hp Hnd]. apply not_elem_of_app in Hp as [Hps Hpc].
    rewrite (store_Some h p _ pn H1). eexists. split; [reflexivity|]. split_and!; auto.
    + exists (set_left v pn). rewrite lookup_insert_eq. split_and!; auto.
      * apply repr_insert_other; assumption.
      * eapply ctx_repr_agree; [|exact H5]. intros b Hb.
        apply lookup_insert_ne. intros ->. contradiction.
    + intros b Hb. apply lookup_insert_ne. intros ->. apply Hb.
      rewrite ctx_addrs_cons. simpl. apply elem_of_cons. auto.
    + intros b. destruct (decide (p = b)) as [->|Hne].
      * rewrite lookup_insert_eq, H1. split; eauto.
      * rewrite lookup_insert_ne by assumption. reflexivity.
  - destruct Hc as (-> & pn & H1 & H2 & H3 & H4 & H5).
    rewrite ctx_addrs_cons in Hnd. simpl in Hnd.
    apply NoDup_cons in Hnd as [Hp Hnd]. apply not_elem_of_app in Hp as [Hps Hpc].
    rewrite (store_Some h p _ pn H1). eexists. split; [reflexivity|]. split_and!; auto.
    + exists (set_right v pn). rewrite lookup_insert_eq. split_and!; auto.
      * apply repr_insert_other; assumption.
      * eapply ctx_repr_agree; [|exact H5]. intros b Hb.
        apply lookup_insert_ne. intros ->. contradiction.
    + intros b Hb. apply lookup_insert_ne. intros ->. apply Hb.
      rewrite ctx_addrs_cons. simpl. apply elem_of_cons. auto.
    + intros b. destruct (decide (p = b)) as [->|Hne].
      * rewrite lookup_insert_eq, H1. split; eauto.
      * rewrite lookup_insert_ne by assumption. reflexivity.
Qed.

(** The shape that [avl_search_and_insert] builds. *)
Definition insert_shape (goes_left : positive -> bool) (x : positive) (t : tree) : tree :=
  refit (Node Leaf x Leaf) (ins_ctx goes_left t []).

Lemma theight_le_size (h : heap) (par : ptr) (t : tree) :
  repr h par t -> NoDup (inorder t) -> (Z.to_nat (theight t) <= size h)%nat.
Proof.
  intros Hr Hnd.
  pose proof (NoDup_length_le_size h (inorder t) Hnd) as Hle.
  pose proof (theight_le_tsize t). rewrite tsize_inorder in *.
  assert (length (inorder t) <= size h)%nat; [|lia].
  apply Hle. intros a Ha. eapply repr_dom; eauto.
Qed.

Lemma NoDup_plug (c : ctx) (t : tree) :
  NoDup (inorder (plug t c)) <-> NoDup (inorder t ++ ctx_addrs c).
Proof.
  rewrite inorder_plug. rewrite (ctx_addrs_perm c).
  rewrite (Permutation_app_swap_app (ctx_before c)). reflexivity.
Qed.

Lemma avl_search_and_insert_spec (less : positive -> positive -> bool)
    (h : heap) (t : tree) (x : positive) :
  repr h None t -> NoDup (inorder t) -> x ∉ inorder t -> fits (Node t x Leaf) ->
  exists h' a,
    avl_search_and_insert h (root_of t) x less = Some (h', Some a) /\
    root_of (insert_shape (less x) x t) = Some a /\
    repr h' None (insert_shape (less x) x t) /\
    (forall b, b <> x -> b ∉ inorder t -> h' !! b = h !! b).
Proof.
  intros Hr Hnd Hx Hfit. unfold avl_search_and_insert, avl_init.
  set (h0 := <[x := mkAVLNode None None None 1 1]> h).
  assert (Hr0 : repr h0 None t) by (apply repr_insert_other; assumption).
  set (c := ins_ctx (less x) t []).
  pose proof (descend_spec (less x) t [] h0 None (size h0) Hr0
                (theight_le_size h0 None t Hr0 Hnd)) as Hd.
  simpl in Hd. rewrite Hd. fold c. cbn [mbind option_bind].
  assert (Hplug : plug Leaf c = t) by apply plug_ins_ctx.
  assert (Hr0' : repr h0 None (plug Leaf c)) by (rewrite Hplug; assumption).
  destruct (repr_plug_inv c h0 Leaf Hr0') as (par & _ & Hc).
  assert (Nc : NoDup (ctx_addrs c)).
  { rewrite <- Hplug in Hnd. apply NoDup_plug in Hnd. exact Hnd. }
  assert (Hxc : x ∉ ctx_addrs c).
  { intros H. apply Hx. rewrite <- Hplug, inorder_plug.
    rewrite (ctx_addrs_perm c) in H. simpl. exact H. }
  destruct (store_from_hole c h0 None par (Some x) Hc Nc) as (h1 & Hs1 & Hc1 & Hpar & Hoth1 & _).
  destruct (hole_link c) as [par' from] eqn:Hl. simpl in Hs1, Hpar. subst par'.
  rewrite Hs1. cbn [mbind option_bind].
  assert (Hx1 : h1 !! x = Some (mkAVLNode None None None 1 1)).
  { rewrite Hoth1 by assumption. unfold h0. apply lookup_insert_eq. }
  rewrite (store_Some h1 x _ _ Hx1). cbn [mbind option_bind].
  set (h2 := <[x := set_parent par (mkAVLNode None None None 1 1)]> h1).
  assert (Hs2 : shape h2 par Leaf x Leaf).
  { eexists. unfold h2. rewrite lookup_insert_eq. split; [reflexivity|].
    simpl. split_and!; auto. }
  assert (Hc2 : ctx_repr h2 (Some x) c par).
  { eapply ctx_repr_agree; [|exact Hc1]. intros b Hb. unfold h2.
    apply lookup_insert_ne. intros ->. contradiction. }
  destruct (avl_fix_spec c h2 Leaf x Leaf par Hs2 Hc2) as (h' & a & Hfix & Hroot & Hr' & Hoth').
  { simpl. apply NoDup_cons. auto. }
  { unfold fits in *. cbn [tsize] in Hfit. rewrite <- Hplug in Hfit.
    rewrite !tsize_inorder, !inorder_plug, !length_app in *. simpl in *. lia. }
  rewrite Hfix. exists h', a.
  assert (Hreb : rebal (Node Leaf x Leaf) = Node Leaf x Leaf) by reflexivity.
  rewrite Hreb in Hroot, Hr'. unfold insert_shape. fold c. split_and!; auto.
  intros b Hbx Hbt. rewrite Hoth'.
  - unfold h2. rewrite lookup_insert_ne by congruence.
    rewrite Hoth1.
    + unfold h0. apply lookup_insert_ne. congruence.
    + intros H. apply Hbt. rewrite <- Hplug, inorder_plug.
      rewrite (ctx_addrs_perm c) in H. simpl. exact H.
  - simpl. intros H. apply elem_of_cons in H as [H|H]; [congruence|].
    apply Hbt. rewrite <- Hplug, inorder_plug.
    rewrite (ctx_addrs_perm c) in H. simpl. exact H.
Qed.



(** *** Delete *)

Lemma plug_snoc (c : ctx) (u : tree) (f : frame) :
  plug u (c ++ [f]) = fill (plug u c) f.
Proof.
  revert u. induction c as [|g c IH]; intros u; simpl; [reflexivity|apply IH].
Qed.

(** Every node of a tree is the root of a subtree in a context. *)
Lemma find_node (t : tree) (x : positive) :
  x ∈ inorder t -> exists l r c, t = plug (Node l x r) c.
Proof.
  induction t as [|l IHl a r IHr]; intros Hx; [inversion Hx|].
  rewrite elem_of_inorder_node in Hx. destruct Hx as [Hx|[->|Hx]].
  - destruct (IHl Hx) as (l' & r' & c & ->).
    exists l', r', (c ++ [InLeft a r]). rewrite plug_snoc. reflexivity.
  - exists l, r, []. reflexivity.
  - destruct (IHr Hx) as (l' & r' & c & ->).
    exists l', r', (c ++ [InRight l a]). rewrite plug_snoc. reflexivity.
Qed.

(** The leftmost node of [t]: its address, its right subtree and its
    context, [c] being the context of [t]. *)
Fixpoint spine (t : tree) (c : ctx) : option (positive * tree * ctx) :=
  match t with
  | Leaf => None
  | Node l a r =>
      match l with
      | Leaf => Some (a, r, c)
      | Node _ _ _ => spine l (InLeft a r :: c)
      end
  end.

Lemma spine_spec (t : tree) :
  forall c, t <> Leaf ->
    exists s sr c', spine t c = Some (s, sr, c') /\
                    plug (Node Leaf s sr) c' = plug t c /\
                    ctx_before c' = ctx_before c.
Proof.
  induction t as [|l IHl a r _]; intros c Hne; [congruence|].
  destruct l as [|ll la lr].
  - exists a, r, c. simpl. auto.
  - destruct (IHl (InLeft a r :: c)) as (s & sr & c' & Hs & Hp & Hb); [discriminate|].
    exists s, sr, c'. split_and!; auto. rewrite Hb. simpl. apply app_nil_r.
Qed.

Lemma leftmost_spec (t : tree) :
  forall c h par fuel a s sr c',
    repr h par t -> root_of t = Some a -> spine t c = Some (s, sr, c') ->
    (Z.to_nat (theight t) <= S fuel)%nat ->
    leftmost fuel h a = Some s.
Proof.
  induction t as [|l IHl x r _]; intros c h par fuel a s sr c' Hr Ha Hs Hfuel;
    [discriminate|].
  inversion Ha; subst a.
  destruct Hr as (nd & H1 & _ & H3 & _ & _ & _ & H7 & _).
  destruct l as [|ll la lr].
  - simpl in Hs. inversion Hs; subst. destruct fuel; simpl; rewrite H1; simpl; rewrite H3; reflexivity.
  - pose proof (theight_nonneg (Node ll la lr)). pose proof (theight_nonneg r).
    change (theight (Node (Node ll la lr) x r))
      with (1 + Z.max (theight (Node ll la lr)) (theight r)) in Hfuel.
    assert (0 < theight (Node ll la lr)).
    { simpl. pose proof (theight_nonneg ll). pose proof (theight_nonneg lr). lia. }
    destruct fuel as [|fuel]; [lia|].
    cbn [leftmost]. rewrite H1. cbn [mbind option_bind]. rewrite H3. cbn [root_of].
    apply (IHl (InLeft x r :: c) h (Some x) fuel la s sr c' H7 eq_refl Hs). lia.
Qed.

(** The link of the parent that holds the hole. *)
Lemma child_ref_hole (c : ctx) (h : heap) (x p : positive) :
  ctx_repr h (Some x) c (Some p) -> x ∉ ctx_addrs c ->
  child_ref h p x = Some (hole_link c).2.
Proof.
  destruct c as [|[q sib|sib q] c]; simpl; intros Hc Hx; [discriminate| |].
  - destruct Hc as (Heq & pn & H1 & H2 & _). inversion Heq; subst q.
    unfold child_ref. rewrite H1. simpl. rewrite bool_decide_eq_true_2 by assumption.
    reflexivity.
  - destruct Hc as (Heq & pn & H1 & H2 & H3 & _). inversion Heq; subst q.
    unfold child_ref. rewrite H1. simpl. rewrite bool_decide_eq_false_2; [reflexivity|].
    rewrite H3. apply root_not_in. intros H. apply Hx. rewrite ctx_addrs_cons. simpl.
    apply elem_of_cons. right. apply elem_of_app. auto.
Qed.

Lemma hole_link_par (c : ctx) (h : heap) (hole par : ptr) :
  ctx_repr h hole c par -> (hole_link c).1 = par.
Proof.
  destruct c as [|[q sib|sib q] c]; simpl; [congruence| |]; intros (-> & _); reflexivity.
Qed.

(** The shape after [avl_del_easy] of a node with at most one child [ch],
    in the context [c]. *)
Lemma avl_del_easy_spec (c : ctx) (h : heap) (l : tree) (x : positive) (r : tree) :
  let ch := match l with Leaf => r | Node _ _ _ => l end in
  repr h None (plug (Node l x r) c) -> NoDup (inorder (plug (Node l x r) c)) ->
  fits (plug (Node l x r) c) -> (l = Leaf \/ r = Leaf) ->
  exists h',
    avl_del_easy h x = Some (h', root_of (refit ch c)) /\
    repr h' None (refit ch c) /\
    (forall b, b ∉ inorder (plug ch c) -> h' !! b = h !! b).
Proof.
  intros ch Hr Hnd Hfit Hleaf.
  destruct (repr_plug_inv c h (Node l x r) Hr) as (par & Hx & Hc).
  pose proof Hx as (nd & H1 & H2 & H3 & H4 & _ & _ & H7 & H8).
  apply NoDup_plug in Hnd.
  pose proof Hnd as Hnd'. apply NoDup_app in Hnd' as (Nt & Hdisj & Nc).
  destruct (NoDup_node _ _ _ Nt) as (Nl & Nr & Hxl & Hxr & Hlr).
  assert (Hch : repr h (Some x) ch /\ NoDup (inorder ch) /\
                match left nd with Some a => Some a | None => right nd end = root_of ch /\
                inorder (Node l x r) ≡ₚ x :: inorder ch /\ tsize ch <= tsize (Node l x r)).
  { unfold ch. destruct l as [|ll la lr].
    - rewrite H3, H4. simpl. split_and!; auto. pose proof (tsize_nonneg r). lia.
    - destruct Hleaf as [? | ->]; [discriminate|]. rewrite H3.
      split_and!; auto.
      + change (inorder (Node (Node ll la lr) x Leaf))
          with (inorder (Node ll la lr) ++ [x]).
        rewrite <- Permutation_cons_append. reflexivity.
      + change (tsize (Node (Node ll la lr) x Leaf))
          with (1 + tsize (Node ll la lr) + 0). lia. }
  destruct Hch as (Hrch & Nch & Hchild & Pch & Hsz).
  assert (Hxch : x ∉ inorder ch).
  { intros H. apply NoDup_cons_1_1 with (l := inorder ch) (x := x); [|assumption].
    rewrite <- Pch. assumption. }
  assert (Hsub : forall b, b ∈ inorder ch -> b ∈ inorder (Node l x r)).
  { intros b Hb. rewrite Pch. apply elem_of_cons. auto. }
  assert (Hxc : x ∉ ctx_addrs c).
  { intros H. apply (Hdisj x); [rewrite elem_of_inorder_node; auto|assumption]. }
  unfold avl_del_easy. rewrite H1. cbn [mbind option_bind]. rewrite Hchild.
  destruct (reparent_spec h (Some x) (parent nd) ch Hrch Nch) as (h1 & Hs1 & Hr1 & Hoth1 & _).
  rewrite Hs1. cbn [mbind option_bind].
  assert (Hag1 : forall b, b ∉ inorder ch -> h1 !! b = h !! b).
  { intros b Hb. apply Hoth1. apply root_not_in. assumption. }
  assert (Hc1 : ctx_repr h1 (Some x) c par).
  { eapply ctx_repr_agree; [|exact Hc]. intros b Hb. apply Hag1.
    intros Hb'. apply (Hdisj b (Hsub b Hb') Hb). }
  rewrite H2 in *.
  destruct c as [|f c].
  - (* the node was the root *)
    simpl in Hc. subst par. cbn [refit].
    destruct ch as [|cl ca cr].
    + cbn [root_of]. exists h1. split_and!; auto.
    + assert (Fch : fits (Node cl ca cr)).
      { unfold fits in *. cbn [plug] in Hfit. lia. }
      destruct (NoDup_node _ _ _ Nch) as (_ & _ & Hcal & Hcar & _).
      destruct (avl_update_spec h1 None cl ca cr (repr_shape _ _ _ _ _ Hr1) Hcal Hcar Fch)
        as (h2 & Hu & Hr2 & Hoth2).
      cbn [root_of]. rewrite Hu. cbn [mbind option_bind].
      exists h2. split_and!; auto. intros b Hb. cbn [plug] in Hb.
      rewrite Hoth2.
      * apply Hag1. assumption.
      * intros ->. apply Hb. rewrite elem_of_inorder_node. auto.
  - (* the node had a parent [p]: relink and fix from [p] *)
    assert (Hp : exists p, par = Some p).
    { destruct f; simpl in Hc; destruct Hc as (-> & _); eauto. }
    destruct Hp as (p & ->).
    rewrite (child_ref_hole (f :: c) h1 x p Hc1 Hxc). cbn [mbind option_bind].
    destruct (store_from_hole (f :: c) h1 (Some x) (Some p) (root_of ch) Hc1 Nc)
      as (h2 & Hs2 & Hc2 & _ & Hoth2 & _).
    rewrite Hs2. cbn [mbind option_bind].
    assert (Hr2 : repr h2 (Some p) ch).
    { eapply repr_agree; [|exact Hr1]. intros b Hb. apply Hoth2.
      intros Hb'. apply (Hdisj b (Hsub b Hb) Hb'). }
    assert (Hfits : fits (plug ch (f :: c))).
    { unfold fits in *. rewrite !tsize_inorder in Hsz.
      rewrite !tsize_inorder, !inorder_plug, !length_app in Hfit |- *. lia. }
    assert (Hnd2 : NoDup (inorder ch ++ ctx_addrs (f :: c))).
    { apply NoDup_app. split_and!; auto. }
    (* the parent is the node to fix from *)
    destruct f as [q sib|sib q]; simpl in Hc2; destruct Hc2 as (Heq & pn & Hpn & Hpl & Hpr & Hsib & Hc');
      inversion Heq; subst q; rewrite ctx_addrs_cons in Hnd2; cbn [frame_addrs] in Hnd2.
    + destruct (avl_fix_spec c h2 ch p sib (parent pn)) as (h' & a & Hfix & Hroot & Hr' & Hoth').
      * exists pn. split_and!; auto.
      * assumption.
      * cbn [inorder]. rewrite <- app_assoc. exact Hnd2.
      * exact Hfits.
      * rewrite Hfix. cbn [refit fill]. rewrite Hroot. exists h'. split_and!; auto.
        intros b Hb. rewrite Hoth'.
        -- rewrite Hoth2.
           ++ apply Hag1. intros H. apply Hb. rewrite inorder_plug.
              apply elem_of_app. right. apply elem_of_app. auto.
           ++ intros H. apply Hb. rewrite inorder_plug.
              rewrite (ctx_addrs_perm (InLeft p sib :: c)) in H.
              apply elem_of_app in H as [H|H]; apply elem_of_app; auto.
              right. apply elem_of_app. auto.
        -- intros H. apply Hb. rewrite inorder_plug.
           assert (H' : b ∈ inorder ch ++ ctx_addrs (InLeft p sib :: c)).
           { rewrite ctx_addrs_cons. cbn [frame_addrs]. cbn [inorder] in H.
             rewrite <- app_assoc in H. exact H. }
           rewrite (ctx_addrs_perm (InLeft p sib :: c)) in H'.
           rewrite !elem_of_app in *. tauto.
    + destruct (avl_fix_spec c h2 sib p ch (parent pn)) as (h' & a & Hfix & Hroot & Hr' & Hoth').
      * exists pn. split_and!; auto.
      * assumption.
      * assert (HP : inorder (Node sib p ch) ++ ctx_addrs c
                     ≡ₚ inorder ch ++ (p :: inorder sib) ++ ctx_addrs c).
        { change (inorder (Node sib p ch)) with (inorder sib ++ p :: inorder ch).
          rewrite (app_assoc (inorder ch)). apply Permutation_app_tail.
          rewrite (Permutation_app_comm (inorder ch)). simpl.
          symmetry. apply Permutation_middle. }
        rewrite HP. exact Hnd2.
      * exact Hfits.
      * rewrite Hfix. cbn [refit fill]. rewrite Hroot. exists h'. split_and!; auto.
        intros b Hb. rewrite Hoth'.
        -- rewrite Hoth2.
           ++ apply Hag1. intros H. apply Hb. rewrite inorder_plug.
              apply elem_of_app. right. apply elem_of_app. auto.
           ++ intros H. apply Hb. rewrite inorder_plug.
              rewrite (ctx_addrs_perm (InRight sib p :: c)) in H.
              apply elem_of_app in H as [H|H]; apply elem_of_app; auto.
              right. apply elem_of_app. auto.
        -- intros H. apply Hb. rewrite inorder_plug.
           assert (H' : b ∈ inorder ch ++ ctx_addrs (InRight sib p :: c)).
           { rewrite ctx_addrs_cons. cbn [frame_addrs].
             rewrite elem_of_app, elem_of_inorder_node in H.
             rewrite !elem_of_app, elem_of_cons. tauto. }
           rewrite (ctx_addrs_perm (InRight sib p :: c)) in H'.
           rewrite !elem_of_app in *. tauto.
Qed.


Lemma elem_of_plug (c : ctx) (t : tree) (b : positive) :
  b ∈ inorder (plug t c) <-> b ∈ inorder t \/ b ∈ ctx_addrs c.
Proof. rewrite inorder_plug, (ctx_addrs_perm c), !elem_of_app. tauto. Qed.

(** The second half of [avl_del] for a node with two children: the
    detached successor [s] takes the place of [node]. *)
Definition graft (h : heap) (node s : positive) : option (heap * ptr) :=
  nd ← h !! node;
  h ← store h s (set_left (left nd));
  sn ← h !! s;
  h ← store_if h (left sn) (set_parent (Some s));
  nd ← h !! node;
  h ← store h s (set_right (right nd));
  sn ← h !! s;
  h ← store_if h (right sn) (set_parent (Some s));
  nd ← h !! node;
  h ← store h s (set_parent (parent nd));
  sn ← h !! s;
  match parent sn with
  | None =>
      h ← avl_update h s;
      avl_fix h (Some s)
  | Some sp =>
      from ← child_ref h sp node;
      h ← store_from h from (Some s);
      h ← avl_update h s;
      avl_fix h (Some s)
  end.

Lemma avl_del_unfold (h : heap) (node : positive) :
  avl_del h node =
  (nd ← h !! node;
   match left nd, right nd with
   | Some _, Some r =>
       s ← leftmost (size h) h r;
       '(h1, _) ← avl_del_easy h s;
       graft h1 node s
   | _, _ => avl_del_easy h node
   end).
Proof. reflexivity. Qed.

Lemma graft_tail (c : ctx) (h : heap) (l : tree) (s : positive) (r : tree) (par : ptr) :
  shape h par l s r -> ctx_repr h (Some s) c par ->
  NoDup (inorder (Node l s r) ++ ctx_addrs c) ->
  fits (plug (Node l s r) c) -> balanced (plug (Node l s r) c) ->
  exists h',
    (h1 ← avl_update h s; avl_fix h1 (Some s))
      = Some (h', root_of (plug (Node l s r) c)) /\
    repr h' None (plug (Node l s r) c).
Proof.
  intros Hs Hc Hnd Hfit Hbal.
  pose proof Hnd as Hnd'. apply NoDup_app in Hnd' as (Nt & Hdisj & Nc).
  destruct (NoDup_node _ _ _ Nt) as (_ & _ & Hsl & Hsr & _).
  destruct (avl_update_spec h par l s r Hs Hsl Hsr (fits_plug _ _ Hfit))
    as (h1 & Hu & Hr1 & Hoth1).
  rewrite Hu. cbn [mbind option_bind].
  destruct (avl_fix_spec c h1 l s r par) as (h' & a & Hfix & Hroot & Hr' & _); auto.
  - apply repr_shape; assumption.
  - eapply ctx_repr_agree; [|exact Hc]. intros b Hb. apply Hoth1. intros ->.
    apply (Hdisj s); [rewrite elem_of_inorder_node; auto|assumption].
  - pose proof Hbal as Hb2. apply balanced_plug in Hb2 as [Hbn _].
    rewrite (rebal_of_balanced _ Hbn), (refit_of_balanced _ _ Hbal) in *.
    exists h'. rewrite Hfix, Hroot. auto.
Qed.

Lemma graft_spec (c : ctx) (h : heap) (l : tree) (x : positive) (r : tree) (s : positive) :
  repr h None (plug (Node l x r) c) -> NoDup (inorder (plug (Node l x r) c)) ->
  s ∉ inorder (plug (Node l x r) c) -> is_Some (h !! s) ->
  fits (plug (Node l x r) c) -> balanced (plug (Node l x r) c) ->
  exists h', graft h x s = Some (h', root_of (plug (Node l s r) c)) /\
             repr h' None (plug (Node l s r) c).
Proof.
  intros Hr Hnd Hs [sn Hsn] Hfit Hbal.
  destruct (repr_plug_inv c h (Node l x r) Hr) as (par & Hx & Hc).
  cbn [root_of] in Hc.
  pose proof Hx as (xn & X1 & X2 & X3 & X4 & _ & _ & X7 & X8).
  apply NoDup_plug in Hnd. rewrite elem_of_plug, elem_of_inorder_node in Hs.
  assert (Hsl : s ∉ inorder l) by tauto.
  assert (Hsx : s <> x) by tauto.
  assert (Hsr : s ∉ inorder r) by tauto.
  assert (Hsc : s ∉ ctx_addrs c) by tauto.
  pose proof Hnd as Hnd'. apply NoDup_app in Hnd' as (Nt & Hdisj & Nc).
  destruct (NoDup_node _ _ _ Nt) as (Nl & Nr & Hxl & Hxr & Hlr).
  assert (Hxc : x ∉ ctx_addrs c).
  { apply Hdisj. rewrite elem_of_inorder_node. auto. }
  unfold graft. rewrite X1. cbn [mbind option_bind].
  (* s->left = node->left *)
  rewrite (store_Some h s _ sn Hsn). cbn [mbind option_bind].
  rewrite lookup_insert_eq. cbn [mbind option_bind].
  set (sa := set_left (left xn) sn). set (ha := <[s := sa]> h).
  assert (Ea : left sa = root_of l) by (rewrite <- X3; destruct sn; reflexivity).
  rewrite Ea.
  assert (Hla : repr ha (Some x) l) by (apply repr_insert_other; assumption).
  destruct (reparent_spec ha (Some x) (Some s) l Hla Nl) as (hb & Hsb & Hlb & Hothb & _).
  rewrite Hsb. cbn [mbind option_bind].
  assert (Hxb : hb !! x = Some xn).
  { rewrite Hothb by (apply root_not_in; assumption).
    unfold ha. rewrite lookup_insert_ne by auto. assumption. }
  assert (Hsb' : hb !! s = Some sa).
  { rewrite Hothb by (apply root_not_in; assumption). apply lookup_insert_eq. }
  (* s->right = node->right *)
  rewrite Hxb. cbn [mbind option_bind].
  rewrite (store_Some hb s _ _ Hsb'). cbn [mbind option_bind].
  rewrite lookup_insert_eq. cbn [mbind option_bind].
  set (sc := set_right (right xn) sa). set (hc := <[s := sc]> hb).
  assert (Ec : right sc = root_of r) by (rewrite <- X4; destruct sn; reflexivity).
  rewrite Ec.
  assert (Hrc : repr hc (Some x) r).
  { apply repr_insert_other; [assumption|]. eapply repr_agree; [|exact X8].
    intros b Hb. rewrite Hothb.
    - unfold ha. rewrite lookup_insert_ne; [reflexivity|]. intros ->. contradiction.
    - apply root_not_in. intros Hbl. apply (Hlr b Hbl Hb). }
  destruct (reparent_spec hc (Some x) (Some s) r Hrc Nr) as (hd & Hsd & Hrd & Hothd & _).
  rewrite Hsd. cbn [mbind option_bind].
  assert (Hxd : hd !! x = Some xn).
  { rewrite Hothd by (apply root_not_in; assumption).
    unfold hc. rewrite lookup_insert_ne by auto. assumption. }
  assert (Hsd' : hd !! s = Some sc).
  { rewrite Hothd by (apply root_not_in; assumption). apply lookup_insert_eq. }
  (* s->parent = node->parent *)
  rewrite Hxd. cbn [mbind option_bind].
  rewrite (store_Some hd s _ _ Hsd'). cbn [mbind option_bind].
  rewrite lookup_insert_eq. cbn [mbind option_bind].
  set (se := set_parent (parent xn) sc). set (he := <[s := se]> hd).
  assert (Ee : parent se = par) by (rewrite <- X2; destruct sn; reflexivity).
  rewrite Ee.
  assert (Hshape : shape he par l s r).
  { exists se. split_and!.
    - apply lookup_insert_eq.
    - assumption.
    - rewrite <- X3. destruct sn; reflexivity.
    - rewrite <- X4. destruct sn; reflexivity.
    - apply repr_insert_other; [assumption|]. eapply repr_agree; [|exact Hlb].
      intros b Hb. rewrite Hothd.
      + unfold hc. rewrite lookup_insert_ne; [reflexivity|]. intros ->. contradiction.
      + apply root_not_in. intros Hbr. apply (Hlr b Hb Hbr).
    - apply repr_insert_other; assumption. }
  assert (Hag : forall b, b ∈ ctx_addrs c -> he !! b = h !! b).
  { intros b Hb.
    assert (b <> s) by (intros ->; contradiction).
    assert (b ∉ inorder l).
    { intros Hbl. apply (Hdisj b); [rewrite elem_of_inorder_node; auto|assumption]. }
    assert (b ∉ inorder r).
    { intros Hbr. apply (Hdisj b); [rewrite elem_of_inorder_node; auto|assumption]. }
    unfold he. rewrite lookup_insert_ne by auto.
    rewrite Hothd by (apply root_not_in; assumption).
    unfold hc. rewrite lookup_insert_ne by auto.
    rewrite Hothb by (apply root_not_in; assumption).
    unfold ha. rewrite lookup_insert_ne by auto. reflexivity. }
  assert (Hce : ctx_repr he (Some x) c par) by (eapply ctx_repr_agree; eauto).
  assert (Hnd2 : NoDup (inorder (Node l s r) ++ ctx_addrs c)).
  { apply NoDup_app. split_and!; [|intros b Hb Hbc|assumption].
    - cbn [inorder]. apply NoDup_app. split_and!; [assumption| |apply NoDup_cons; auto].
      intros b Hb. rewrite elem_of_cons. intros [->|Hbr]; [contradiction|].
      exact (Hlr b Hb Hbr).
    - rewrite elem_of_inorder_node in Hb. destruct Hb as [Hb|[->|Hb]]; [|contradiction|];
        (apply (Hdisj b); [rewrite elem_of_inorder_node; auto|assumption]). }
  assert (Hfit2 : fits (plug (Node l s r) c)).
  { unfold fits in *. rewrite (tsize_plug c (Node l x r) (Node l s r)); auto. }
  assert (Hbal2 : balanced (plug (Node l s r) c)).
  { apply balanced_plug in Hbal as [Hb1 Hb2]. apply balanced_plug.
    split; [exact Hb1|exact Hb2]. }
  destruct c as [|f c'].
  - simpl in Hc. subst par. apply (graft_tail [] he l s r None); auto.
  - assert (Hp : exists sp, par = Some sp).
    { destruct f; simpl in Hc; destruct Hc as (-> & _); eauto. }
    destruct Hp as (sp & ->).
    rewrite (child_ref_hole (f :: c') he x sp Hce Hxc). cbn [mbind option_bind].
    destruct (store_from_hole (f :: c') he (Some x) (Some sp) (Some s) Hce Nc)
      as (hf & Hsf & Hcf & _ & Hothf & _).
    rewrite Hsf. cbn [mbind option_bind].
    apply (graft_tail (f :: c') hf l s r (Some sp)); auto.
    destruct Hshape as (nd & S1 & S2 & S3 & S4 & S7 & S8).
    exists nd. split_and!; auto.
    + rewrite Hothf; assumption.
    + eapply repr_agree; [|exact S7]. intros b Hb. apply Hothf. intros Hbc.
      apply (Hdisj b); [rewrite elem_of_inorder_node; auto|assumption].
    + eapply repr_agree; [|exact S8]. intros b Hb. apply Hothf. intros Hbc.
      apply (Hdisj b); [rewrite elem_of_inorder_node; auto|assumption].
Qed.

Lemma balanced_relabel (c : ctx) (l : tree) (x s : positive) (r : tree) :
  balanced (plug (Node l x r) c) -> balanced (plug (Node l s r) c).
Proof.
  intros H. apply balanced_plug in H as [Hb1 Hb2]. apply balanced_plug.
  split; [exact Hb1|exact Hb2].
Qed.

Lemma NoDup_split_inj {A : Type} (x : A) (l1 : list A) :
  forall r1 l2 r2, NoDup (l1 ++ x :: r1) -> l1 ++ x :: r1 = l2 ++ x :: r2 ->
                   l1 = l2 /\ r1 = r2.
Proof.
  induction l1 as [|a l1 IH]; intros r1 [|b l2] r2 Hnd Heq; simpl in *.
  - inversion Heq. auto.
  - inversion Heq; subst. apply NoDup_cons in Hnd as [Hx _]. exfalso. apply Hx.
    apply elem_of_app. right. apply elem_of_cons. auto.
  - inversion Heq; subst. apply NoDup_cons in Hnd as [Hx _]. exfalso. apply Hx.
    apply elem_of_app. right. apply elem_of_cons. auto.
  - inversion Heq; subst. apply NoDup_cons in Hnd as [_ Hnd].
    destruct (IH _ _ _ Hnd H1) as [-> ->]. auto.
Qed.

Lemma NoDup_remove_middle {A : Type} (x : A) (l r : list A) :
  NoDup (l ++ x :: r) -> NoDup (l ++ r) /\ (x ∉ l ++ r).
Proof.
  intros H. apply NoDup_app in H as (Hl & Hd & Hr).
  apply NoDup_cons in Hr as [Hx Hr]. split.
  - apply NoDup_app. split_and!; auto. intros b Hb Hbr. apply (Hd b Hb).
    apply elem_of_cons. auto.
  - rewrite elem_of_app. intros [H|H]; [|contradiction].
    apply (Hd x H). apply elem_of_cons. auto.
Qed.

(** Removing a node with at most one child. *)
Lemma del_easy_fun (c : ctx) (l : tree) (x : positive) (r : tree) :
  let ch := match l with Leaf => r | Node _ _ _ => l end in
  (l = Leaf \/ r = Leaf) ->
  (balanced (plug (Node l x r) c) -> balanced (refit ch c)) /\
  exists A B, inorder (plug (Node l x r) c) = A ++ x :: B /\
              inorder (refit ch c) = A ++ B.
Proof.
  intros ch Hleaf. split.
  - intros H. apply balanced_plug in H as [(Hd & Hl & Hr) Hc].
    apply (refit_balanced c ch (theight (Node l x r)) Hc).
    + unfold ch. destruct l; assumption.
    + unfold ch. destruct l as [|ll la lr].
      * cbn [theight]. pose proof (theight_nonneg r). lia.
      * destruct Hleaf as [? | ->]; [discriminate|].
        change (theight (Node (Node ll la lr) x Leaf))
          with (1 + Z.max (theight (Node ll la lr)) 0).
        pose proof (theight_nonneg (Node ll la lr)). lia.
  - rewrite inorder_refit, !inorder_plug. unfold ch. destruct l as [|ll la lr].
    + exists (ctx_before c), (inorder r ++ ctx_after c). simpl. auto.
    + destruct Hleaf as [? | ->]; [discriminate|].
      exists (ctx_before c ++ inorder (Node ll la lr)), (ctx_after c).
      change (inorder (Node (Node ll la lr) x Leaf))
        with (inorder (Node ll la lr) ++ [x]).
      rewrite <- !app_assoc. simpl. auto.
Qed.

Lemma root_of_None (t : tree) : root_of t = None -> t = Leaf.
Proof. destruct t; [reflexivity|discriminate]. Qed.

(** [avl_del] detaches [x] and returns the root of a balanced tree that
    holds the other nodes in the same order. *)
Lemma avl_del_spec (c : ctx) (h : heap) (l : tree) (x : positive) (r : tree) :
  repr h None (plug (Node l x r) c) -> NoDup (inorder (plug (Node l x r) c)) ->
  fits (plug (Node l x r) c) -> balanced (plug (Node l x r) c) ->
  exists h' t',
    avl_del h x = Some (h', root_of t') /\ repr h' None t' /\ balanced t' /\
    exists A B, inorder (plug (Node l x r) c) = A ++ x :: B /\ inorder t' = A ++ B.
Proof.
  intros Hr Hnd Hfit Hbal.
  destruct (repr_plug_inv c h (Node l x r) Hr) as (par & Hx & _).
  pose proof Hx as (xn & X1 & X2 & X3 & X4 & _ & _ & X7 & X8).
  rewrite avl_del_unfold, X1. cbn [mbind option_bind]. rewrite X3, X4.
  assert (Heasy : l = Leaf \/ r = Leaf ->
    exists h' t', avl_del_easy h x = Some (h', root_of t') /\ repr h' None t' /\
      balanced t' /\
      exists A B, inorder (plug (Node l x r) c) = A ++ x :: B /\ inorder t' = A ++ B).
  { intros Hleaf.
    destruct (avl_del_easy_spec c h l x r Hr Hnd Hfit Hleaf) as (h' & Hd & Hr' & _).
    destruct (del_easy_fun c l x r Hleaf) as (Hb & HAB).
    eexists h', _. split_and!; eauto. }
  destruct l as [|ll la lr]; [apply Heasy; auto|].
  destruct r as [|rl ra rr]; [apply Heasy; auto|]. clear Heasy.
  cbn [root_of].
  (* the successor [s] is the leftmost node of the right subtree *)
  set (l := Node ll la lr) in *. set (r := Node rl ra rr) in *.
  destruct (spine_spec r (InRight l x :: c)) as (s & sr & c' & Hsp & Hplug & Hbef);
    [discriminate|].
  cbn [plug fill] in Hplug.
  assert (Hfuel : (Z.to_nat (theight r) <= S (size h))%nat).
  { apply NoDup_plug in Hnd. apply NoDup_app in Hnd as (Nt & _ & _).
    destruct (NoDup_node _ _ _ Nt) as (_ & Nr & _).
    pose proof (theight_le_size h (Some x) r X8 Nr). lia. }
  rewrite (leftmost_spec r (InRight l x :: c) h (Some x) (size h) ra s sr c' X8 eq_refl Hsp Hfuel).
  cbn [mbind option_bind].
  rewrite <- Hplug in Hr, Hnd, Hfit, Hbal.
  destruct (avl_del_easy_spec c' h Leaf s sr Hr Hnd Hfit (or_introl eq_refl))
    as (h1 & Hd1 & Hr1 & Hoth1).
  destruct (del_easy_fun c' Leaf s sr (or_introl eq_refl)) as (Hb1 & _).
  cbn zeta in Hd1, Hr1, Hoth1, Hb1. specialize (Hb1 Hbal).
  rewrite Hd1. cbn [mbind option_bind].
  set (t1 := refit sr c') in *.
  (* the lists before and after the two nodes *)
  set (A := ctx_before c ++ inorder l).
  set (B := inorder sr ++ ctx_after c').
  assert (Ht : inorder (plug (Node Leaf s sr) c') = A ++ x :: s :: B).
  { rewrite inorder_plug, Hbef. unfold A, B. simpl. rewrite <- !app_assoc. reflexivity. }
  assert (Ht1 : inorder t1 = A ++ x :: B).
  { unfold t1. rewrite inorder_refit, inorder_plug, Hbef. unfold A, B. simpl.
    rewrite <- !app_assoc. reflexivity. }
  rewrite Ht in Hnd.
  assert (Hnd1 : NoDup (inorder t1) /\ (s ∉ inorder t1)).
  { rewrite Ht1. replace (A ++ x :: s :: B) with ((A ++ [x]) ++ s :: B) in Hnd
      by (rewrite <- app_assoc; reflexivity).
    replace (A ++ x :: B) with ((A ++ [x]) ++ B) by (rewrite <- app_assoc; reflexivity).
    apply NoDup_remove_middle. assumption. }
  destruct Hnd1 as [Hnd1 Hs1].
  assert (Hx1 : x ∈ inorder t1).
  { rewrite Ht1. apply elem_of_app. right. apply elem_of_cons. auto. }
  destruct (find_node t1 x Hx1) as (l1 & r1 & c1 & Heq1).
  assert (Hfit1 : fits t1).
  { unfold fits in *. rewrite tsize_inorder in Hfit |- *. rewrite Ht1.
    rewrite inorder_plug in Hfit. rewrite <- inorder_plug, Ht in Hfit.
    rewrite !length_app in *. simpl in *. lia. }
  assert (Hs : is_Some (h1 !! s)).
  { rewrite Hoth1.
    - apply (repr_dom _ _ _ _ Hr). rewrite Ht. apply elem_of_app. right.
      apply elem_of_cons. right. apply elem_of_cons. auto.
    - rewrite <- inorder_refit. exact Hs1. }
  rewrite Heq1 in Hr1, Hnd1, Hs1, Hfit1, Hb1, Ht1.
  destruct (graft_spec c1 h1 l1 x r1 s Hr1 Hnd1 Hs1 Hs Hfit1 Hb1) as (h' & Hg & Hr').
  exists h', (plug (Node l1 s r1) c1). split_and!; auto.
  - eapply balanced_relabel; eauto.
  - exists A, (s :: B). rewrite <- Hplug. split.
    + exact Ht.
    + rewrite inorder_plug in Ht1 |- *. cbn [inorder] in Ht1 |- *.
      replace (ctx_before c1 ++ (inorder l1 ++ x :: inorder r1) ++ ctx_after c1)
        with ((ctx_before c1 ++ inorder l1) ++ x :: (inorder r1 ++ ctx_after c1)) in Ht1
        by (rewrite <- !app_assoc; reflexivity).
      rewrite inorder_plug in Hnd1. cbn [inorder] in Hnd1.
      replace (ctx_before c1 ++ (inorder l1 ++ x :: inorder r1) ++ ctx_after c1)
        with ((ctx_before c1 ++ inorder l1) ++ x :: (inorder r1 ++ ctx_after c1)) in Hnd1
        by (rewrite <- !app_assoc; reflexivity).
      destruct (NoDup_split_inj x _ _ _ _ Hnd1 Ht1) as [HA HB].
      rewrite <- HA, <- HB. rewrite <- !app_assoc. reflexivity.
Qed.

(** *** Rank and offset *)

(** The node at position [j] of a sequence, null outside of it. *)
Definition nth_ptr (l : list positive) (j : Z) : ptr :=
  if j <? 0 then None else l !! Z.to_nat j.

Lemma nth_ptr_app_l (A B : list positive) (j : Z) :
  j < Z.of_nat (length A) -> nth_ptr (A ++ B) j = nth_ptr A j.
Proof.
  intros H. unfold nth_ptr. destruct (j <? 0) eqn:E; [reflexivity|].
  apply Z.ltb_ge in E. apply lookup_app_l. lia.
Qed.

Lemma nth_ptr_app_r (A B : list positive) (j : Z) :
  Z.of_nat (length A) <= j -> nth_ptr (A ++ B) j = nth_ptr B (j - Z.of_nat (length A)).
Proof.
  intros H. unfold nth_ptr.
  replace (j <? 0) with false by (symmetry; apply Z.ltb_ge; lia).
  replace (j - Z.of_nat (length A) <? 0) with false by (symmetry; apply Z.ltb_ge; lia).
  rewrite lookup_app_r by lia. f_equal. lia.
Qed.

Lemma nth_ptr_out (A : list positive) (j : Z) :
  j < 0 \/ Z.of_nat (length A) <= j -> nth_ptr A j = None.
Proof.
  intros H. unfold nth_ptr. destruct (j <? 0) eqn:E; [reflexivity|].
  apply Z.ltb_ge in E. apply lookup_ge_None. lia.
Qed.

Lemma nth_ptr_lookup (A : list positive) (i : nat) :
  nth_ptr A (Z.of_nat i) = A !! i.
Proof.
  unfold nth_ptr. replace (Z.of_nat i <? 0) with false by (symmetry; apply Z.ltb_ge; lia).
  rewrite Nat2Z.id. reflexivity.
Qed.

(** The node in focus sits after the nodes before the hole and after its
    left subtree. *)
Lemma nth_ptr_node (l : tree) (a : positive) (r : tree) (d : Z) :
  nth_ptr (inorder (Node l a r)) (tsize l + d) =
  if d =? 0 then Some a
  else if 0 <? d then nth_ptr (inorder r) (d - 1)
  else nth_ptr (inorder l) (tsize l + d).
Proof.
  cbn [inorder]. rewrite tsize_inorder.
  destruct (Z.eqb_spec d 0) as [->|Hd].
  - rewrite nth_ptr_app_r by lia.
    replace (Z.of_nat (length (inorder l)) + 0 - Z.of_nat (length (inorder l))) with 0 by lia.
    reflexivity.
  - destruct (Z.ltb_spec 0 d).
    + rewrite nth_ptr_app_r by lia.
      replace (Z.of_nat (length (inorder l)) + d - Z.of_nat (length (inorder l)))
        with (Z.of_nat 1 + (d - 1)) by lia.
      rewrite (nth_ptr_app_r [a] (inorder r)) by (simpl; lia).
      f_equal. simpl. lia.
    + apply nth_ptr_app_l. lia.
Qed.

Lemma nth_ptr_plug (c : ctx) (t : tree) (j : Z) :
  0 <= j < tsize t ->
  nth_ptr (inorder (plug t c)) (Z.of_nat (length (ctx_before c)) + j) = nth_ptr (inorder t) j.
Proof.
  intros H. rewrite inorder_plug, nth_ptr_app_r by lia.
  replace (Z.of_nat (length (ctx_before c)) + j - Z.of_nat (length (ctx_before c)))
    with j by lia.
  apply nth_ptr_app_l. rewrite <- tsize_inorder. lia.
Qed.

Lemma theight_plug_le (c : ctx) : forall t, theight t <= theight (plug t c).
Proof.
  induction c as [|f c IH]; intros t; simpl; [lia|].
  etransitivity; [|apply IH].
  destruct f; simpl; lia.
Qed.

(** The descent of [avl_offset] inside the subtree of the current node. *)
Lemma offset_descend (u : tree) :
  forall h par fuel offset pos,
    repr h par u -> theight u <= Z.of_nat fuel + 1 ->
    match u with
    | Leaf => True
    | Node l x r =>
        - tsize l <= offset - pos <= tsize r ->
        avl_offset_loop fuel h (Some x) offset pos
        = Some (nth_ptr (inorder u) (tsize l + (offset - pos)))
    end.
Proof.
  induction u as [|l IHl x r IHr]; intros h par fuel offset pos Hr Hfuel; [exact I|].
  intros Hd. rewrite nth_ptr_node.
  pose proof Hr as (nd & H1 & H2 & H3 & H4 & H5 & H6 & H7 & H8).
  pose proof (tsize_nonneg l). pose proof (tsize_nonneg r).
  pose proof (theight_nonneg l). pose proof (theight_nonneg r).
  change (theight (Node l x r)) with (1 + Z.max (theight l) (theight r)) in Hfuel.
  destruct (Z.eqb_spec (offset - pos) 0) as [E|E].
  - assert (offset = pos) as -> by lia.
    destruct fuel; cbn [avl_offset_loop]; rewrite Z.eqb_refl; reflexivity.
  - destruct fuel as [|fuel]; cbn [avl_offset_loop].
    + (* a single node: the offset is 0 *)
      assert (theight l = 0 /\ theight r = 0) as [Hl Hr0] by lia.
      destruct l; [|simpl in Hl; pose proof (theight_nonneg l1);
                    pose proof (theight_nonneg l2); lia].
      destruct r; [|simpl in Hr0; pose proof (theight_nonneg r1);
                    pose proof (theight_nonneg r2); lia].
      simpl in Hd. lia.
    + replace (offset =? pos) with false by (symmetry; apply Z.eqb_neq; lia).
      rewrite H1. cbn [mbind option_bind]. rewrite H3, H4.
      rewrite (avl_cnt_repr _ _ _ H7), (avl_cnt_repr _ _ _ H8). cbn [mbind option_bind].
      destruct (Z.ltb_spec 0 (offset - pos)) as [Hpos|Hneg].
      * (* into the right subtree *)
        replace (pos <? offset) with true by (symmetry; apply Z.ltb_lt; lia).
        replace (offset <=? pos + tsize r) with true by (symmetry; apply Z.leb_le; lia).
        cbn [andb].
        destruct r as [|rl ra rr]; [simpl in Hd; lia|].
        cbn [root_of mbind option_bind].
        pose proof H8 as (rn & R1 & R2 & R3 & R4 & R5 & R6 & R7 & R8).
        rewrite R1. cbn [mbind option_bind]. rewrite R3.
        rewrite (avl_cnt_repr _ _ _ R7). cbn [mbind option_bind].
        assert (Hf : theight (Node rl ra rr) <= Z.of_nat fuel + 1) by lia.
        rewrite (IHr h (Some x) fuel offset (pos + (tsize rl + 1)) H8 Hf).
        -- f_equal. f_equal. lia.
        -- change (tsize (Node rl ra rr)) with (1 + tsize rl + tsize rr) in Hd. lia.
      * (* into the left subtree *)
        replace (pos <? offset) with false by (symmetry; apply Z.ltb_ge; lia).
        replace (offset <? pos) with true by (symmetry; apply Z.ltb_lt; lia).
        replace (pos - tsize l <=? offset) with true by (symmetry; apply Z.leb_le; lia).
        cbn [andb].
        destruct l as [|ll la lr]; [simpl in Hd; lia|].
        cbn [root_of mbind option_bind].
        pose proof H7 as (ln & L1 & L2 & L3 & L4 & L5 & L6 & L7 & L8).
        rewrite L1. cbn [mbind option_bind]. rewrite L4.
        rewrite (avl_cnt_repr _ _ _ L8). cbn [mbind option_bind].
        assert (Hf : theight (Node ll la lr) <= Z.of_nat fuel + 1) by lia.
        rewrite (IHl h (Some x) fuel offset (pos - (tsize lr + 1)) H7 Hf).
        -- change (tsize (Node ll la lr)) with (1 + tsize ll + tsize lr).
           f_equal. f_equal. lia.
        -- change (tsize (Node ll la lr)) with (1 + tsize ll + tsize lr) in Hd. lia.
Qed.

Lemma offset_in_range (c : ctx) (fuel : nat) (h : heap) (l : tree) (a : positive)
    (r : tree) (offset pos : Z) :
  repr h None (plug (Node l a r) c) ->
  theight (plug (Node l a r) c) <= Z.of_nat fuel ->
  - tsize l <= offset - pos <= tsize r ->
  avl_offset_loop fuel h (Some a) offset pos
  = Some (nth_ptr (inorder (plug (Node l a r) c))
            (Z.of_nat (length (ctx_before c)) + (tsize l + (offset - pos)))).
Proof.
  intros Hr Hfuel Hd.
  destruct (repr_plug_inv _ h (Node l a r) Hr) as (par & Hu & _).
  pose proof (theight_plug_le c (Node l a r)).
  assert (Hf : theight (Node l a r) <= Z.of_nat fuel + 1) by lia.
  rewrite (offset_descend (Node l a r) h par fuel offset pos Hu Hf Hd).
  f_equal. symmetry. apply nth_ptr_plug.
  change (tsize (Node l a r)) with (1 + tsize l + tsize r). lia.
Qed.

(** One step of the loop when the target is outside the subtree of the
    current node. *)
Lemma offset_out_step (fuel : nat) (h : heap) (l : tree) (a : positive) (r : tree)
    (par : ptr) (offset pos : Z) :
  repr h par (Node l a r) ->
  ~ (- tsize l <= offset - pos <= tsize r) ->
  avl_offset_loop (S fuel) h (Some a) offset pos =
  match par with
  | None => Some None
  | Some p =>
      pn ← h !! p;
      if bool_decide (right pn = Some a)
      then avl_offset_loop fuel h (Some p) offset (pos - (tsize l + 1))
      else avl_offset_loop fuel h (Some p) offset (pos + (tsize r + 1))
  end.
Proof.
  intros (nd & H1 & H2 & H3 & H4 & H5 & H6 & H7 & H8) Hd.
  pose proof (tsize_nonneg l). pose proof (tsize_nonneg r).
  cbn [avl_offset_loop].
  replace (offset =? pos) with false by (symmetry; apply Z.eqb_neq; lia).
  rewrite H1. cbn [mbind option_bind]. rewrite H2, H3, H4.
  rewrite (avl_cnt_repr _ _ _ H7), (avl_cnt_repr _ _ _ H8). cbn [mbind option_bind].
  replace ((pos <? offset) && (offset <=? pos + tsize r)) with false.
  2: { symmetry. apply andb_false_iff.
       destruct (Z.ltb_spec pos offset); [right; apply Z.leb_gt; lia|auto]. }
  replace ((offset <? pos) && (pos - tsize l <=? offset)) with false.
  2: { symmetry. apply andb_false_iff.
       destruct (Z.ltb_spec offset pos); [right; apply Z.leb_gt; lia|auto]. }
  reflexivity.
Qed.

(** The whole walk of [avl_offset]: up until the subtree of the current
    node holds the target, then down to it; null when the root is passed. *)
Lemma offset_walk (c : ctx) :
  forall fuel h l a r offset pos H,
    repr h None (plug (Node l a r) c) -> NoDup (inorder (plug (Node l a r) c)) ->
    theight (plug (Node l a r) c) <= H ->
    Z.of_nat (length c) + H <= Z.of_nat fuel ->
    avl_offset_loop fuel h (Some a) offset pos
    = Some (nth_ptr (inorder (plug (Node l a r) c))
              (Z.of_nat (length (ctx_before c)) + (tsize l + (offset - pos)))).
Proof.
  induction c as [|f c IH]; intros fuel h l a r offset pos H Hr Hnd HH Hfuel.
  - destruct (decide (- tsize l <= offset - pos <= tsize r)) as [Hd|Hd].
    { apply offset_in_range; auto. lia. }
    assert (0 < theight (Node l a r)).
    { simpl. pose proof (theight_nonneg l). pose proof (theight_nonneg r). lia. }
    destruct fuel as [|fuel]; [simpl in *; lia|].
    cbn [plug] in *.
    rewrite (offset_out_step fuel h l a r None offset pos Hr Hd).
    f_equal. symmetry. apply nth_ptr_out. cbn [ctx_before length].
    rewrite <- tsize_inorder.
    change (tsize (Node l a r)) with (1 + tsize l + tsize r). lia.
  - destruct (decide (- tsize l <= offset - pos <= tsize r)) as [Hd|Hd].
    { apply offset_in_range; auto. lia. }
    destruct (repr_plug_inv _ h (Node l a r) Hr) as (par & Hu & Hc).
    assert (0 < theight (plug (Node l a r) (f :: c))).
    { pose proof (theight_plug_le (f :: c) (Node l a r)).
      change (theight (Node l a r)) with (1 + Z.max (theight l) (theight r)) in *.
      pose proof (theight_nonneg l). pose proof (theight_nonneg r). lia. }
    destruct fuel as [|fuel]; [simpl in *; lia|].
    rewrite (offset_out_step fuel h l a r par offset pos Hu Hd).
    pose proof Hnd as Hnd'. apply NoDup_plug in Hnd'.
    apply NoDup_app in Hnd' as (Nt & Hdisj & Nc).
    assert (Hac : a ∉ ctx_addrs (f :: c)).
    { apply Hdisj. rewrite elem_of_inorder_node. auto. }
    cbn [length] in Hfuel.
    destruct f as [p sib|sib p]; cbn [ctx_repr root_of] in Hc;
      destruct Hc as (-> & pn & P1 & P2 & P3 & P4 & P5);
      rewrite P1; cbn [mbind option_bind].
    + rewrite bool_decide_eq_false_2.
      2: { rewrite P3. apply root_not_in. intros Hin. apply Hac.
           rewrite ctx_addrs_cons. cbn [frame_addrs]. apply elem_of_app. left.
           apply elem_of_cons. auto. }
      cbn [plug fill] in *.
      rewrite (IH fuel h (Node l a r) p sib offset (pos + (tsize r + 1)) H Hr Hnd HH)
        by lia.
      f_equal. f_equal. cbn [ctx_before frame_before]. rewrite app_nil_r.
      change (tsize (Node l a r)) with (1 + tsize l + tsize r). lia.
    + rewrite bool_decide_eq_true_2 by assumption.
      cbn [plug fill] in *.
      rewrite (IH fuel h sib p (Node l a r) offset (pos - (tsize l + 1)) H Hr Hnd HH)
        by lia.
      f_equal. f_equal. cbn [ctx_before frame_before]. rewrite !length_app.
      rewrite (tsize_inorder sib). simpl. lia.
Qed.

(** The focus of a zipper, by position. *)
Lemma lookup_focus (c : ctx) (l : tree) (a : positive) (r : tree) :
  inorder (plug (Node l a r) c) !! (length (ctx_before c) + length (inorder l))%nat
  = Some a.
Proof.
  rewrite inorder_plug. rewrite lookup_app_r by lia.
  replace (length (ctx_before c) + length (inorder l) - length (ctx_before c))%nat
    with (length (inorder l)) by lia.
  rewrite lookup_app_l by (cbn [inorder]; rewrite length_app; simpl; lia).
  cbn [inorder]. rewrite lookup_app_r by lia.
  replace (length (inorder l) - length (inorder l))%nat with 0%nat by lia.
  reflexivity.
Qed.

Lemma focus_index (c : ctx) (l : tree) (a : positive) (r : tree) (i : nat) :
  NoDup (inorder (plug (Node l a r) c)) ->
  inorder (plug (Node l a r) c) !! i = Some a ->
  i = (length (ctx_before c) + length (inorder l))%nat.
Proof.
  intros Hnd Hi. eapply NoDup_lookup; [exact Hnd|exact Hi|apply lookup_focus].
Qed.

Lemma plug_size_bounds (h : heap) (c : ctx) (t : tree) :
  repr h None (plug t c) -> NoDup (inorder (plug t c)) ->
  (length c <= size h)%nat /\ theight (plug t c) <= Z.of_nat (size h).
Proof.
  intros Hr Hnd. split.
  - destruct (repr_plug_inv _ h t Hr) as (par & _ & Hc).
    apply NoDup_plug in Hnd. apply NoDup_app in Hnd as (_ & _ & Nc).
    pose proof (length_ctx_addrs c).
    pose proof (NoDup_length_le_size h (ctx_addrs c) Nc) as Hle.
    assert (length (ctx_addrs c) <= size h)%nat; [|lia].
    apply Hle. intros b Hb. eapply ctx_repr_dom; eauto.
  - pose proof (theight_le_size h None _ Hr Hnd).
    pose proof (theight_nonneg (plug t c)). lia.
Qed.

(** [avl_offset] from the node at position [i]: the node at position
    [i + offset], null when there is none. *)
Lemma avl_offset_spec (h : heap) (t : tree) (i : nat) (n : positive) (offset : Z) :
  repr h None t -> NoDup (inorder t) -> inorder t !! i = Some n ->
  avl_offset h (Some n) offset = Some (nth_ptr (inorder t) (Z.of_nat i + offset)).
Proof.
  intros Hr Hnd Hi.
  destruct (find_node t n (list_elem_of_lookup_2 _ _ _ Hi)) as (l & r & c & ->).
  pose proof (focus_index c l n r i Hnd Hi) as ->.
  destruct (plug_size_bounds h c _ Hr Hnd) as [Hc Hh].
  unfold avl_offset.
  rewrite (offset_walk c _ h l n r offset 0 (Z.of_nat (size h)) Hr Hnd Hh) by lia.
  f_equal. f_equal. rewrite tsize_inorder. lia.
Qed.

(** The loop of [avl_rank]: the nodes before the hole are added. *)
Lemma avl_rank_loop_spec (c : ctx) :
  forall fuel h node nd r,
    h !! node = Some nd -> ctx_repr h (Some node) c (parent nd) ->
    NoDup (node :: ctx_addrs c) -> (length c <= fuel)%nat ->
    avl_rank_loop fuel h node r = Some (r + Z.of_nat (length (ctx_before c))).
Proof.
  induction c as [|f c IH]; intros fuel h node nd r Hn Hc Hnd Hfuel.
  - simpl in Hc. destruct fuel; cbn [avl_rank_loop]; rewrite Hn; cbn [mbind option_bind];
      rewrite Hc; f_equal; simpl; lia.
  - destruct fuel as [|fuel]; [simpl in Hfuel; lia|].
    cbn [avl_rank_loop]. rewrite Hn. cbn [mbind option_bind].
    apply NoDup_cons in Hnd as [Hnc Hnd]. rewrite ctx_addrs_cons in Hnc, Hnd.
    cbn [length] in Hfuel.
    destruct f as [p sib|sib p]; cbn [ctx_repr] in Hc;
      destruct Hc as (Hp & pn & P1 & P2 & P3 & P4 & P5);
      rewrite Hp, P1; cbn [mbind option_bind]; cbn [frame_addrs] in Hnc, Hnd.
    + rewrite bool_decide_eq_false_2.
      2: { rewrite P3. apply root_not_in. intros Hin. apply Hnc.
           apply elem_of_app. left. apply elem_of_cons. auto. }
      rewrite (IH fuel h p pn r P1 P5).
      * f_equal. cbn [ctx_before frame_before]. rewrite app_nil_r. reflexivity.
      * simpl in Hnd. apply NoDup_cons in Hnd as [Hp1 Hnd].
        apply NoDup_cons. split.
        -- intros Hin. apply Hp1. apply elem_of_app. auto.
        -- apply NoDup_app in Hnd as (_ & _ & ?). assumption.
      * lia.
    + rewrite bool_decide_eq_true_2 by assumption.
      rewrite P3, (avl_cnt_repr _ _ _ P4). cbn [mbind option_bind].
      rewrite (IH fuel h p pn (r + (tsize sib + 1)) P1 P5).
      * f_equal. cbn [ctx_before frame_before]. rewrite !length_app.
        rewrite (tsize_inorder sib). simpl. lia.
      * simpl in Hnd. apply NoDup_cons in Hnd as [Hp1 Hnd].
        apply NoDup_cons. split.
        -- intros Hin. apply Hp1. apply elem_of_app. auto.
        -- apply NoDup_app in Hnd as (_ & _ & ?). assumption.
      * lia.
Qed.

(** [avl_rank] is the position in the in-order sequence. *)
Lemma avl_rank_spec (h : heap) (t : tree) (i : nat) (n : positive) :
  repr h None t -> NoDup (inorder t) -> inorder t !! i = Some n ->
  avl_rank h (Some n) = Some (Z.of_nat i).
Proof.
  intros Hr Hnd Hi.
  destruct (find_node t n (list_elem_of_lookup_2 _ _ _ Hi)) as (l & r & c & ->).
  pose proof (focus_index c l n r i Hnd Hi) as ->.
  destruct (plug_size_bounds h c _ Hr Hnd) as [Hc Hh].
  destruct (repr_plug_inv _ h (Node l n r) Hr) as (par & Hu & Hctx).
  pose proof Hu as (nd & H1 & H2 & H3 & H4 & H5 & H6 & H7 & H8).
  unfold avl_rank. rewrite H1. cbn [mbind option_bind].
  rewrite H3, (avl_cnt_repr _ _ _ H7). cbn [mbind option_bind].
  cbn [root_of] in Hctx. rewrite <- H2 in Hctx.
  rewrite (avl_rank_loop_spec c (size h) h n nd (tsize l) H1 Hctx); [|  |assumption].
  - f_equal. rewrite tsize_inorder. lia.
  - apply NoDup_plug in Hnd. apply NoDup_app in Hnd as (Nt & Hdisj & Nc).
    apply NoDup_cons. split; [|assumption].
    apply Hdisj. rewrite elem_of_inorder_node. auto.
Qed.

(** *** Order *)

Section Order.
Variable less : positive -> positive -> bool.

Definition lt (a b : positive) : Prop := less a b = true.

Hypothesis less_trans : forall a b c, lt a b -> lt b c -> lt a c.
Hypothesis less_irrefl : forall a, ~ lt a a.

Lemma strongly_sorted_NoDup (l : list positive) : StronglySorted lt l -> NoDup l.
Proof.
  induction l as [|a l IH]; intros H; [constructor|].
  apply StronglySorted_cons in H as [Hall Hs]. apply NoDup_cons. split; auto.
  intros Hin. rewrite Forall_forall in Hall. apply (less_irrefl a). apply Hall. assumption.
Qed.

Lemma sorted_strongly (l : list positive) : Sorted lt l <-> StronglySorted lt l.
Proof.
  split.
  - apply Sorted.Sorted_StronglySorted. intros a b c. apply less_trans.
  - apply Sorted.StronglySorted_Sorted.
Qed.

(** The new key [x] is comparable with, so different from, every key of
    the tree. *)
Definition fresh_key (x : positive) (l : list positive) : Prop :=
  forall a, a ∈ l -> lt x a \/ lt a x.

Lemma ins_ctx_bounds (x : positive) (t : tree) :
  forall c, StronglySorted lt (inorder t) -> fresh_key x (inorder t) ->
    (forall b, b ∈ ctx_before c -> lt b x) -> (forall b, b ∈ ctx_after c -> lt x b) ->
    (forall b, b ∈ ctx_before (ins_ctx (less x) t c) -> lt b x) /\
    (forall b, b ∈ ctx_after (ins_ctx (less x) t c) -> lt x b).
Proof.
  induction t as [|l IHl a r IHr]; intros c Hs Hf Hb Ha; [simpl; auto|].
  cbn [inorder] in Hs. apply StronglySorted_app in Hs as (Hlr & Hsl & Hsr).
  apply StronglySorted_cons in Hsr as [Har Hsr]. rewrite Forall_forall in Har.
  assert (Hfl : fresh_key x (inorder l)).
  { intros b Hb'. apply Hf. rewrite elem_of_inorder_node. auto. }
  assert (Hfr : fresh_key x (inorder r)).
  { intros b Hb'. apply Hf. rewrite elem_of_inorder_node. auto. }
  cbn [ins_ctx]. destruct (less x a) eqn:E.
  - apply IHl; auto; cbn [ctx_before ctx_after frame_before frame_after].
    + intros b Hb'. rewrite app_nil_r in Hb'. auto.
    + intros b Hb'. apply elem_of_app in Hb' as [Hb'|Hb']; [|auto].
      apply elem_of_cons in Hb' as [->|Hb']; [exact E|].
      apply (less_trans x a b E). apply Har. assumption.
  - assert (Hax : lt a x).
    { destruct (Hf a) as [H|H]; [rewrite elem_of_inorder_node; auto| |assumption].
      unfold lt in H. congruence. }
    apply IHr; auto; cbn [ctx_before ctx_after frame_before frame_after].
    + intros b Hb'. apply elem_of_app in Hb' as [Hb'|Hb']; [auto|].
      apply elem_of_app in Hb' as [Hb'|Hb'].
      * apply (less_trans b a x); [|assumption]. apply Hlr; [assumption|].
        apply elem_of_cons. auto.
      * apply elem_of_cons in Hb' as [->|Hb']; [assumption|inversion Hb'].
Qed.

Lemma inorder_insert_shape (x : positive) (t : tree) :
  exists before after,
    inorder t = before ++ after /\
    inorder (insert_shape (less x) x t) = before ++ x :: after /\
    (StronglySorted lt (inorder t) -> fresh_key x (inorder t) ->
     StronglySorted lt (before ++ x :: after)).
Proof.
  set (c := ins_ctx (less x) t []).
  assert (Hp : inorder t = ctx_before c ++ ctx_after c).
  { transitivity (inorder (plug Leaf c)).
    - unfold c. rewrite plug_ins_ctx. reflexivity.
    - rewrite inorder_plug. reflexivity. }
  exists (ctx_before c), (ctx_after c). split_and!.
  - exact Hp.
  - unfold insert_shape. fold c. rewrite inorder_refit, inorder_plug. reflexivity.
  - intros Hs Hf.
    destruct (ins_ctx_bounds x t [] Hs Hf) as [Hb Ha];
      [intros b Hb; inversion Hb|intros b Hb; inversion Hb|]. fold c in Hb, Ha.
    rewrite Hp in Hs.
    apply StronglySorted_app in Hs as (Hba & Hsb & Hsa).
    apply StronglySorted_app. split_and!; auto.
    + intros x1 x2 H1 H2. apply elem_of_cons in H2 as [->|H2]; auto.
    + apply StronglySorted_cons. split; auto.
      rewrite Forall_forall. intros b Hb'. apply Ha. assumption.
Qed.

Lemma balanced_insert_shape (x : positive) (t : tree) :
  balanced t -> balanced (insert_shape (less x) x t).
Proof.
  intros Hb. unfold insert_shape.
  assert (Hb' : balanced (plug Leaf (ins_ctx (less x) t []))).
  { rewrite plug_ins_ctx. exact Hb. }
  apply balanced_plug in Hb' as [_ Hc]. simpl in Hc.
  eapply refit_balanced; [exact Hc| |]; simpl; auto; lia.
Qed.

(** *** The invariants of the tree, on the heap

    [avl_inv h root t]: the heap holds at [root] a tree of shape [t] whose
    nodes carry the right [height] and [cnt] and point back to their
    parents, the root to null; the tree is balanced; its in-order sequence
    is strictly increasing. *)
Definition avl_inv (h : heap) (root : ptr) (t : tree) : Prop :=
  root = root_of t /\ repr h None t /\ balanced t /\ Sorted lt (inorder t).

(** The same invariants read off the nodes, as the code sees them. *)
Definition node_inv (h : heap) (a : positive) : Prop :=
  exists nd hl hr cl cr,
    h !! a = Some nd /\
    avl_height h (left nd) = Some hl /\ avl_height h (right nd) = Some hr /\
    avl_cnt h (left nd) = Some cl /\ avl_cnt h (right nd) = Some cr /\
    Z.abs (hl - hr) <= 1 /\
    height nd = 1 + Z.max hl hr /\
    cnt nd = 1 + cl + cr /\
    (forall c, left nd = Some c -> exists cn, h !! c = Some cn /\ parent cn = Some a) /\
    (forall c, right nd = Some c -> exists cn, h !! c = Some cn /\ parent cn = Some a).

Lemma repr_root_parent (h : heap) (par : ptr) (t : tree) (c : positive) :
  repr h par t -> root_of t = Some c -> exists cn, h !! c = Some cn /\ parent cn = par.
Proof.
  destruct t as [|l a r]; [discriminate|]. intros (nd & H1 & H2 & _) Heq.
  inversion Heq; subst c. eauto.
Qed.

Lemma repr_node_inv (t : tree) :
  forall h par a, repr h par t -> balanced t -> a ∈ inorder t -> node_inv h a.
Proof.
  induction t as [|l IHl x r IHr]; intros h par a Hr Hb Ha; [inversion Ha|].
  destruct Hb as (Habs & Hbl & Hbr).
  pose proof Hr as (nd & H1 & H2 & H3 & H4 & H5 & H6 & H7 & H8).
  rewrite elem_of_inorder_node in Ha. destruct Ha as [Ha|[->|Ha]].
  - eapply IHl; eauto.
  - exists nd, (theight l), (theight r), (tsize l), (tsize r).
    rewrite H3, H4. split_and!; auto.
    + exact (avl_height_repr _ _ _ H7).
    + exact (avl_height_repr _ _ _ H8).
    + exact (avl_cnt_repr _ _ _ H7).
    + exact (avl_cnt_repr _ _ _ H8).
    + intros c Hc. exact (repr_root_parent h (Some x) l c H7 Hc).
    + intros c Hc. exact (repr_root_parent h (Some x) r c H8 Hc).
  - eapply IHr; eauto.
Qed.

Lemma avl_inv_nodes (h : heap) (root : ptr) (t : tree) :
  avl_inv h root t ->
  (forall a, a ∈ inorder t -> node_inv h a) /\
  (forall a, root = Some a -> exists nd, h !! a = Some nd /\ parent nd = None).
Proof.
  intros (-> & Hr & Hb & _). split.
  - intros a Ha. eapply repr_node_inv; eauto.
  - intros a Ha. eapply repr_root_parent; eauto.
Qed.

(** Insertion keeps the invariants. *)
Lemma insert_keeps_inv (h : heap) (root : ptr) (t : tree) (x : positive) :
  avl_inv h root t -> fresh_key x (inorder t) -> fits (Node t x Leaf) ->
  exists h' root' t',
    avl_search_and_insert h root x less = Some (h', root') /\
    avl_inv h' root' t' /\
    inorder t' ≡ₚ x :: inorder t.
Proof.
  intros (-> & Hr & Hb & Hs) Hf Hfit.
  apply sorted_strongly in Hs.
  pose proof (strongly_sorted_NoDup _ Hs) as Hnd.
  assert (Hx : x ∉ inorder t).
  { intros Hin. destruct (Hf x Hin) as [H|H]; apply (less_irrefl x H). }
  destruct (avl_search_and_insert_spec less h t x Hr Hnd Hx Hfit)
    as (h' & a & Hins & Hroot & Hr' & _).
  destruct (inorder_insert_shape x t) as (before & after & E1 & E2 & Hsorted).
  exists h', (Some a), (insert_shape (less x) x t). split_and!; auto.
  - unfold avl_inv. split_and!; auto.
    + apply balanced_insert_shape. assumption.
    + apply sorted_strongly. rewrite E2. apply Hsorted; assumption.
  - rewrite E1, E2. symmetry. apply Permutation_middle.
Qed.

Lemma sorted_remove_middle (A : list positive) (x : positive) (B : list positive) :
  Sorted lt (A ++ x :: B) -> Sorted lt (A ++ B).
Proof.
  rewrite !sorted_strongly. intros H.
  apply StronglySorted_app in H as (Hab & Ha & Hb).
  apply StronglySorted_cons in Hb as [_ Hb].
  apply StronglySorted_app. split_and!; auto.
  intros a b Ha' Hb'. apply Hab; auto. apply elem_of_cons; auto.
Qed.

(** Deletion keeps the invariants. *)
Lemma delete_keeps_inv (h : heap) (root : ptr) (t : tree) (x : positive) :
  avl_inv h root t -> x ∈ inorder t -> fits t ->
  exists h' root' t',
    avl_del h x = Some (h', root') /\ avl_inv h' root' t' /\
    (x :: inorder t' ≡ₚ inorder t).
Proof.
  intros (-> & Hr & Hb & Hs) Hx Hfit.
  pose proof Hs as Hss. apply sorted_strongly in Hss.
  pose proof (strongly_sorted_NoDup _ Hss) as Hnd.
  destruct (find_node t x Hx) as (l & r & c & ->).
  destruct (avl_del_spec c h l x r Hr Hnd Hfit Hb)
    as (h' & t' & Hd & Hr' & Hb' & A & B & EA & EB).
  exists h', (root_of t'), t'. split_and!; auto.
  - unfold avl_inv. split_and!; auto. rewrite EB.
    apply (sorted_remove_middle A x B). rewrite <- EA. assumption.
  - rewrite EA, EB. apply Permutation_middle.
Qed.

(** The invariants as the nodes show them: every node of the tree is
    balanced, has the right [height] and [cnt], and is the parent of its
    children; the root has no parent; the keys are strictly increasing in
    order. *)
Definition tree_ok (h : heap) (root : ptr) (t : tree) : Prop :=
  avl_inv h root t /\
  (forall a, a ∈ inorder t -> node_inv h a) /\
  (forall a, root = Some a -> exists nd, h !! a = Some nd /\ parent nd = None) /\
  StronglySorted lt (inorder t).

Lemma avl_inv_tree_ok (h : heap) (root : ptr) (t : tree) :
  avl_inv h root t -> tree_ok h root t.
Proof.
  intros H. destruct (avl_inv_nodes h root t H) as [Hn Hp].
  unfold tree_ok. split_and!; auto.
  apply sorted_strongly. destruct H as (_ & _ & _ & Hs). exact Hs.
Qed.

(** C7: for a tree that satisfies the AVL invariants and whose node count
    stays within the range of the 32-bit [cnt] field, [avl_search_and_insert]
    of a fresh node and [avl_del] of a node of the tree both return, and the
    resulting tree (the old nodes plus, respectively minus, that node)
    satisfies the invariants again: at every node the heights of the
    children differ by at most 1, [height] is 1 plus the larger child
    height, [cnt] is 1 plus the children's counts, every child points back
    to its parent, the root's parent is null, and the in-order sequence is
    strictly increasing under the comparator. *)
Theorem insert_and_delete_keep_avl_invariants (h : heap) (root : ptr) (t : tree) :
  avl_inv h root t ->
  (forall x, fresh_key x (inorder t) -> fits (Node t x Leaf) ->
     exists h' root' t',
       avl_search_and_insert h root x less = Some (h', root') /\
       inorder t' ≡ₚ x :: inorder t /\ tree_ok h' root' t') /\
  (forall x, x ∈ inorder t -> fits t ->
     exists h' root' t',
       avl_del h x = Some (h', root') /\
       (x :: inorder t' ≡ₚ inorder t) /\ tree_ok h' root' t').
Proof.
  intros Hinv. split.
  - intros x Hf Hfit.
    destruct (insert_keeps_inv h root t x Hinv Hf Hfit) as (h' & root' & t' & Hi & Hinv' & Hp).
    exists h', root', t'. split_and!; auto. apply avl_inv_tree_ok. assumption.
  - intros x Hx Hfit.
    destruct (delete_keeps_inv h root t x Hinv Hx Hfit) as (h' & root' & t' & Hd & Hinv' & Hp).
    exists h', root', t'. split_and!; auto. apply avl_inv_tree_ok. assumption.
Qed.

(** C8: in a tree that satisfies the AVL invariants, [avl_rank] of a node
    is its 0-based position in the in-order sequence; [avl_offset] from the
    node at position [i] by [j - i] returns the node at position [j]; and
    [avl_offset] returns null when the target position lies outside the
    tree. *)
Theorem rank_and_offset_follow_positions (h : heap) (root : ptr) (t : tree) :
  avl_inv h root t ->
  (forall i n, inorder t !! i = Some n -> avl_rank h (Some n) = Some (Z.of_nat i)) /\
  (forall i j n m, inorder t !! i = Some n -> inorder t !! j = Some m ->
     avl_offset h (Some n) (Z.of_nat j - Z.of_nat i) = Some (Some m)) /\
  (forall i n offset, inorder t !! i = Some n ->
     Z.of_nat i + offset < 0 \/ tsize t <= Z.of_nat i + offset ->
     avl_offset h (Some n) offset = Some None).
Proof.
  intros (_ & Hr & _ & Hs).
  apply sorted_strongly in Hs. pose proof (strongly_sorted_NoDup _ Hs) as Hnd.
  split_and!.
  - intros i n Hi. apply (avl_rank_spec h t i n Hr Hnd Hi).
  - intros i j n m Hi Hj. rewrite (avl_offset_spec h t i n _ Hr Hnd Hi).
    replace (Z.of_nat i + (Z.of_nat j - Z.of_nat i)) with (Z.of_nat j) by lia.
    rewrite nth_ptr_lookup, Hj. reflexivity.
  - intros i n offset Hi Hout. rewrite (avl_offset_spec h t i n _ Hr Hnd Hi).
    rewrite nth_ptr_out; [reflexivity|]. rewrite <- tsize_inorder. exact Hout.
Qed.

End Order.

End AvlFacts.

(** ** A tree of three nodes *)

Module AvlExample.
Import Avl AvlFacts.

Definition leaf_node (p : ptr) : AVLNode := mkAVLNode p None None 1 1.

(** Node 2 at the root, 1 and 3 below it; the keys are the addresses. *)
Definition h0 : heap :=
  <[1%positive := leaf_node (Some 2%positive)]>
    (<[3%positive := leaf_node (Some 2%positive)]>
       (<[2%positive := mkAVLNode None (Some 1%positive) (Some 3%positive) 2 3]> ∅)).

Definition t0 : tree :=
  Node (Node Leaf 1%positive Leaf) 2%positive (Node Leaf 3%positive Leaf).

Lemma ltb_trans (a b c : positive) : lt Pos.ltb a b -> lt Pos.ltb b c -> lt Pos.ltb a c.
Proof. unfold lt. rewrite !Pos.ltb_lt. lia. Qed.

Lemma ltb_irrefl (a : positive) : ~ lt Pos.ltb a a.
Proof. unfold lt. rewrite Pos.ltb_lt. lia. Qed.

Lemma h0_inv : avl_inv Pos.ltb h0 (Some 2%positive) t0.
Proof.
  unfold avl_inv. split_and!.
  - reflexivity.
  - simpl. eexists. split_and!; try reflexivity; eexists; split_and!; reflexivity || exact I.
  - simpl. lia.
  - repeat constructor.
Qed.

Lemma fresh_4 : fresh_key Pos.ltb 4%positive (inorder t0).
Proof.
  intros a Ha. right. apply list_elem_of_In in Ha. simpl in Ha.
  destruct Ha as [<-|[<-|[<-|[]]]]; reflexivity.
Qed.

Lemma insert_and_delete_keep_avl_invariants_witness :
  (exists h' root' t',
     avl_search_and_insert h0 (Some 2%positive) 4%positive Pos.ltb = Some (h', root') /\
     inorder t' ≡ₚ 4%positive :: inorder t0 /\ tree_ok Pos.ltb h' root' t') /\
  (exists h' root' t',
     avl_del h0 2%positive = Some (h', root') /\
     (2%positive :: inorder t' ≡ₚ inorder t0) /\ tree_ok Pos.ltb h' root' t').
Proof.
  destruct (insert_and_delete_keep_avl_invariants Pos.ltb ltb_trans ltb_irrefl
              h0 (Some 2%positive) t0 h0_inv) as [Hi Hd].
  split.
  - apply Hi; [exact fresh_4|]. unfold fits. simpl. lia.
  - apply Hd.
    + apply list_elem_of_In. simpl. auto.
    + unfold fits. simpl. lia.
Defined.

Lemma rank_and_offset_follow_positions_witness :
  avl_rank h0 (Some 3%positive) = Some 2 /\
  avl_offset h0 (Some 1%positive) 2 = Some (Some 3%positive) /\
  avl_offset h0 (Some 1%positive) 5 = Some None.
Proof.
  destruct (rank_and_offset_follow_positions Pos.ltb ltb_trans ltb_irrefl
              h0 (Some 2%positive) t0 h0_inv) as (Hr & Ho & Hn).
  split_and!.
  - apply (Hr 2%nat 3%positive). reflexivity.
  - apply (Ho 0%nat 2%nat 1%positive 3%positive); reflexivity.
  - apply (Hn 0%nat 1%positive 5); [reflexivity|]. right. simpl. lia.
Defined.

(** The two runs, evaluated. *)
Example insert_4_evaluated :
  snd <$> avl_search_and_insert h0 (Some 2%positive) 4%positive Pos.ltb
  = Some (Some 2%positive).
Proof. vm_compute. reflexivity. Qed.

Example delete_2_evaluated :
  snd <$> avl_del h0 2%positive = Some (Some 3%positive).
Proof. vm_compute. reflexivity. Qed.

End AvlExample.

(** ** zset.cpp on the [resizing_pos] table: a run that loses a node *)

Module ZSetFacts.
Import Avl ZSet.
Module R := HashTableResizing.

(** Integer scores, compared as the [double]s of the same value. *)
Definition score_ne (a b : Z) : bool := negb (a =? b).
Definition score_lt (a b : Z) : bool := a <? b.

(** Distinct names: the binary digits of a number, lowest first. *)
Fixpoint name_of (p : positive) : string :=
  match p with
  | xH => "1"
  | xO q => String "0" (name_of q)
  | xI q => String "1" (name_of q)
  end.

(** The calls of a client: an insert, a lookup, and a lookup followed by
    [zset_delete] of the node found. *)
Inductive zop :=
| Ins (nm : string) (sc : Z)
| Look (nm : string)
| Rem (nm : string).

Definition state : Type := Mem Z * ZSet.

Definition zstep (s : state) (o : zop) : option state :=
  let '(m, zs) := s in
  match o with
  | Ins nm sc =>
      '(m, zs, _) ← zset_insert score_ne score_lt m zs nm sc; Some (m, zs)
  | Look nm =>
      '(zs, _) ← zset_lookup m zs nm; Some (m, zs)
  | Rem nm =>
      '(zs, found) ← zset_lookup m zs nm;
      match found with
      | Some a => zset_delete m zs a
      | None => Some (m, zs)
      end
  end.

(** [None] when a call fails an assertion. *)
Definition zrun (ops : list zop) : option state :=
  foldl (fun s o => s ← s; zstep s o) (zs ← zset_init; Some (mkMem ∅ ∅, zs)) ops.

Definition names (lo n : nat) : list string :=
  map (fun i => name_of (Pos.of_nat i)) (seq lo n).

Definition inserts (lo n : nat) : list zop := map (fun nm => Ins nm 0) (names lo n).

(** 512 inserts start the resize of the table of 256 slots, four lookups
    finish it; 512 more inserts start the resize of the table of 512 slots.
    Two removals (of nodes in slots 421 and 315, not yet moved) bring the
    size of the table being drained below the threshold, so that the next
    insert passes [hm_maybe_start_resizing]; its node goes to slot 49 of
    the table being drained, when [resizing_pos] is 384.  Two lookups
    finish the resize, and the drained table is freed. *)
Definition lost_name : string := name_of 1028%positive.

Definition lost_run : list zop :=
  inserts 1 512 ++ map Look (names 1 4) ++ inserts 513 512 ++
  [Rem (name_of 3%positive); Rem (name_of 10%positive); Ins lost_name 0] ++
  map Look (names 1 2).

(** What a client sees of a state: [cnt] of the root, the number of nodes
    in the hash index, the result of [zset_lookup] of a name, and the name
    of the node that [zset_seekge] finds in the tree for score 0 and that
    name. *)
Definition observe (nm : string) (s : state)
  : option (Z * Z * ptr * option string) :=
  let '(m, zs) := s in
  c ← avl_cnt (trees m) (root zs);
  '(_, found) ← zset_lookup m zs nm;
  at_or_after ← zset_seekge score_ne score_lt m zs 0 nm;
  Some (c,
        HashTable.size (R.newer (hmap zs)) + HashTable.size (R.older (hmap zs)),
        found,
        a ← at_or_after; zi ← infos m !! a; Some (name zi)).

(** C9 (does not hold of the code): every call of [lost_run] returns, and
    afterwards the tree holds 1023 nodes and the hash index 1022: the node
    named [lost_name] is in the tree, where [zset_seekge] finds it, and
    [zset_lookup] of its name returns null. *)
Theorem zset_index_loses_a_node :
  (zrun lost_run ≫= observe lost_name)
  = Some (1023, 1022, None, Some lost_name).
Proof. vm_compute. reflexivity. Qed.

(** Without the removals the insert fails the assertion of
    [hm_start_resizing]: after 512 inserts, the insert of one more new
    name, the first one made while a resize is under way. *)
Example insert_during_resize_asserts :
  (s ← zrun (inserts 1 512); Some (zstep s (Ins (name_of 513%positive) 0)))
  = Some None.
Proof. vm_compute. reflexivity. Qed.

End ZSetFacts.

(** ** The wire format: requests *)

Module ProtocolFacts.

Import Server Client.

Lemma byte_of_Z_value (z : Z) : Z.of_N (Byte.to_N (byte_of_Z z)) = z mod 256.
Proof.
  unfold byte_of_Z.
  assert (Hr : 0 <= z mod 256 < 256) by (apply Z.mod_pos_bound; lia).
  destruct (Byte.of_N (Z.to_N (z mod 256))) as [b|] eqn:E.
  - apply Byte.to_of_N in E. rewrite E. lia.
  - apply Byte.of_N_None_iff in E. lia.
Qed.

Lemma byte_value_range (b : byte) : 0 <= Z.of_N (Byte.to_N b) < 256.
Proof. pose proof (Byte.to_N_bounded b). lia. Qed.

Lemma byte_of_Z_of_byte (b : byte) (k : Z) :
  byte_of_Z (Z.of_N (Byte.to_N b) + 256 * k) = b.
Proof.
  unfold byte_of_Z. pose proof (byte_value_range b).
  replace ((Z.of_N (Byte.to_N b) + 256 * k) mod 256) with (Z.of_N (Byte.to_N b)).
  - rewrite N2Z.id, Byte.of_to_N. reflexivity.
  - replace (Z.of_N (Byte.to_N b) + 256 * k) with (Z.of_N (Byte.to_N b) + k * 256) by lia.
    rewrite Z.mod_add by lia. symmetry. apply Z.mod_small. lia.
Qed.

Lemma length_le_bytes (n : nat) : forall v, length (le_bytes n v) = n.
Proof. induction n as [|n IH]; intros v; simpl; [reflexivity|]. rewrite IH. reflexivity. Qed.

(** Decoding what was encoded gives the value back, cut to [n] bytes. *)
Lemma le_value_le_bytes (n : nat) : forall v, le_value (le_bytes n v) = v mod 256 ^ Z.of_nat n.
Proof.
  induction n as [|n IH]; intros v.
  - simpl. rewrite Z.mod_1_r. reflexivity.
  - cbn [le_bytes le_value]. rewrite byte_of_Z_value, IH.
    rewrite Nat2Z.inj_succ, Z.pow_succ_r by lia.
    rewrite (Z.rem_mul_r v 256 (256 ^ Z.of_nat n)) by lia. reflexivity.
Qed.

Lemma le_value_range (bs : list byte) : 0 <= le_value bs < 256 ^ Z.of_nat (length bs).
Proof.
  induction bs as [|b bs IH]; [simpl; lia|].
  cbn [le_value length]. rewrite Nat2Z.inj_succ, Z.pow_succ_r by lia.
  pose proof (byte_value_range b). lia.
Qed.

(** Encoding what was decoded gives the bytes back. *)
Lemma le_bytes_le_value (bs : list byte) : le_bytes (length bs) (le_value bs) = bs.
Proof.
  induction bs as [|b bs IH]; [reflexivity|].
  cbn [length le_bytes le_value]. rewrite byte_of_Z_of_byte. f_equal.
  pose proof (byte_value_range b).
  replace ((Z.of_N (Byte.to_N b) + 256 * le_value bs) / 256) with (le_value bs); [exact IH|].
  replace (Z.of_N (Byte.to_N b) + 256 * le_value bs)
    with (Z.of_N (Byte.to_N b) + le_value bs * 256) by lia.
  rewrite Z.div_add by lia.
  rewrite (Z.div_small (Z.of_N (Byte.to_N b))) by lia. lia.
Qed.

Lemma le_value_le_bytes_u32 (v : Z) : 0 <= v < 2 ^ 32 -> le_value (le_bytes 4 v) = v.
Proof. intros H. rewrite le_value_le_bytes. apply Z.mod_small. simpl. lia. Qed.

Lemma length_list_byte_of_string (s : string) :
  length (list_byte_of_string s) = String.length s.
Proof. induction s as [|a s IH]; simpl; [reflexivity|]. f_equal. exact IH. Qed.

(** One argument on the wire. *)
Definition enc_str (s : string) : list byte :=
  le_bytes 4 (Z.of_nat (String.length s)) ++ list_byte_of_string s.

Lemma send_cmd_body_concat (args : list string) :
  send_cmd_body args
  = le_bytes 4 (Z.of_nat (length args)) ++ concat (map enc_str args).
Proof.
  unfold send_cmd_body. generalize (le_bytes 4 (Z.of_nat (length args))) as pre.
  induction args as [|s args IH]; intros pre; simpl.
  - rewrite app_nil_r. reflexivity.
  - rewrite IH. unfold enc_str. rewrite <- !app_assoc. reflexivity.
Qed.

Lemma read_u32_app (v : Z) (rest : list byte) :
  0 <= v < 2 ^ 32 -> read_u32 (le_bytes 4 v ++ rest) = Some (v, rest).
Proof.
  intros H. unfold read_u32. rewrite length_app, length_le_bytes.
  replace (4 + length rest <? 4)%nat with false by (symmetry; apply Nat.ltb_ge; lia).
  rewrite take_app_length' by (symmetry; apply length_le_bytes).
  rewrite drop_app_length' by (symmetry; apply length_le_bytes).
  rewrite le_value_le_bytes_u32 by assumption. reflexivity.
Qed.

Lemma read_str_app (s : string) (rest : list byte) :
  read_str (list_byte_of_string s ++ rest) (Z.of_nat (String.length s)) = Some (s, rest).
Proof.
  unfold read_str. rewrite length_app, length_list_byte_of_string.
  replace (Z.of_nat (String.length s + length rest) <? Z.of_nat (String.length s))
    with false by (symmetry; apply Z.ltb_ge; lia).
  rewrite Nat2Z.id.
  rewrite take_app_length' by (symmetry; apply length_list_byte_of_string).
  rewrite drop_app_length' by (symmetry; apply length_list_byte_of_string).
  rewrite string_of_list_byte_of_string. reflexivity.
Qed.

Definition short (s : string) : Prop := Z.of_nat (String.length s) < 2 ^ 32.

Lemma parse_strs_enc (l : list string) :
  forall rest acc, Forall short l ->
    parse_strs (length l) (concat (map enc_str l) ++ rest) acc = Some (acc ++ l, rest).
Proof.
  induction l as [|s l IH]; intros rest acc Hl.
  - simpl. rewrite app_nil_r. reflexivity.
  - apply Forall_cons in Hl as [Hs Hl]. unfold short in Hs.
    cbn [length parse_strs map concat]. unfold enc_str at 1. rewrite <- !app_assoc.
    rewrite read_u32_app by lia. cbn [mbind option_bind].
    rewrite read_str_app. cbn [mbind option_bind].
    rewrite IH by assumption. rewrite <- app_assoc. reflexivity.
Qed.

Lemma length_string_of_list_byte (bs : list byte) :
  String.length (string_of_list_byte bs) = length bs.
Proof.
  rewrite <- (list_byte_of_string_of_list_byte bs) at 2.
  symmetry. apply length_list_byte_of_string.
Qed.

Lemma read_u32_inv (cur : list byte) (v : Z) (cur1 : list byte) :
  read_u32 cur = Some (v, cur1) ->
  cur = le_bytes 4 v ++ cur1 /\ 0 <= v < 2 ^ 32.
Proof.
  unfold read_u32. destruct (Nat.ltb_spec (length cur) 4); [discriminate|].
  intros E. inversion E; subst. clear E.
  assert (Hl : length (take 4 cur) = 4%nat) by (rewrite length_take; lia).
  split.
  - rewrite <- Hl at 1. rewrite le_bytes_le_value. symmetry. apply take_drop.
  - pose proof (le_value_range (take 4 cur)) as Hr. rewrite Hl in Hr. simpl in Hr. lia.
Qed.

Lemma read_str_inv (cur : list byte) (n : Z) (s : string) (cur1 : list byte) :
  0 <= n -> read_str cur n = Some (s, cur1) ->
  cur = list_byte_of_string s ++ cur1 /\ Z.of_nat (String.length s) = n.
Proof.
  intros Hn. unfold read_str. destruct (Z.ltb_spec (Z.of_nat (length cur)) n); [discriminate|].
  intros E. inversion E; subst. clear E. split.
  - rewrite list_byte_of_string_of_list_byte. symmetry. apply take_drop.
  - rewrite length_string_of_list_byte, length_take. lia.
Qed.

Lemma parse_strs_inv (n : nat) :
  forall cur acc out cur',
    parse_strs n cur acc = Some (out, cur') ->
    exists l, out = acc ++ l /\ length l = n /\
              cur = concat (map enc_str l) ++ cur' /\ Forall short l.
Proof.
  induction n as [|n IH]; intros cur acc out cur' H.
  - simpl in H. inversion H; subst. exists []. rewrite app_nil_r. auto.
  - cbn [parse_strs] in H.
    destruct (read_u32 cur) as [[len cur1]|] eqn:E1; [|discriminate].
    cbn [mbind option_bind] in H.
    destruct (read_str cur1 len) as [[s cur2]|] eqn:E2; [|discriminate].
    cbn [mbind option_bind] in H.
    apply read_u32_inv in E1 as [-> Hlen].
    apply read_str_inv in E2 as [-> Hs]; [|lia].
    destruct (IH _ _ _ _ H) as (l & -> & Hl & -> & Hsh).
    exists (s :: l). split_and!.
    + rewrite <- app_assoc. reflexivity.
    + simpl. lia.
    + cbn [map concat]. unfold enc_str at 2. rewrite Hs, <- !app_assoc. reflexivity.
    + apply Forall_cons. split; [unfold short; lia|assumption].
Qed.

Lemma parse_req_send_cmd_body (args : list string) :
  Z.of_nat (length args) < 2 ^ 32 -> Forall short args ->
  parse_req (send_cmd_body args)
  = if k_max_args <? Z.of_nat (length args) then None else Some args.
Proof.
  intros Hn Hs. unfold parse_req. rewrite send_cmd_body_concat.
  rewrite read_u32_app by lia. cbn [mbind option_bind].
  destruct (k_max_args <? Z.of_nat (length args)); [reflexivity|].
  rewrite Nat2Z.id.
  rewrite <- (app_nil_r (concat (map enc_str args))).
  rewrite parse_strs_enc by assumption. reflexivity.
Qed.

(** X1: what [send_cmd] puts on the wire is read back by [parse_req] as
    the same list of arguments, as long as there are at most [k_max_args]
    of them; a longer list is refused.  (The lengths are sent as 32-bit
    numbers: the list and its strings are shorter than 2^32.) *)
Theorem parse_req_reads_what_send_cmd_wrote (args : list string) :
  Z.of_nat (length args) < 2 ^ 32 -> Forall short args ->
  parse_req (send_cmd_body args)
  = if k_max_args <? Z.of_nat (length args) then None else Some args.
Proof. apply parse_req_send_cmd_body. Qed.

Lemma parse_req_reads_what_send_cmd_wrote_witness :
  parse_req (send_cmd_body ["set"; "k"; "v"]%string) = Some ["set"; "k"; "v"]%string.
Proof.
  apply (parse_req_reads_what_send_cmd_wrote ["set"; "k"; "v"]%string).
  - simpl. lia.
  - repeat constructor; unfold short; simpl; lia.
Defined.

Lemma parse_req_encoding (data : list byte) (out : list string) :
  parse_req data = Some out ->
  data = send_cmd_body out /\ Z.of_nat (length out) <= k_max_args.
Proof.
  unfold parse_req. intros H.
  destruct (read_u32 data) as [[nstr cur]|] eqn:E1; [|discriminate].
  cbn [mbind option_bind] in H.
  destruct (Z.ltb_spec k_max_args nstr); [discriminate|].
  destruct (parse_strs (Z.to_nat nstr) cur []) as [[l cur']|] eqn:E2; [|discriminate].
  cbn [mbind option_bind] in H. destruct cur'; [|discriminate].
  inversion H; subst l. clear H.
  apply read_u32_inv in E1 as [-> Hn].
  destruct (parse_strs_inv _ _ _ _ _ E2) as (l & Hout & Hl & -> & _).
  simpl in Hout. subst l.
  assert (Z.of_nat (length out) = nstr) as <- by lia.
  split; [|assumption].
  rewrite send_cmd_body_concat, app_nil_r. reflexivity.
Qed.

(** X2: [parse_req] accepts nothing but the encoding of the list it
    returns: the bytes are exactly those [send_cmd] writes for that list,
    with no byte left over, and the list has at most [k_max_args]
    strings. *)
Theorem parse_req_accepts_only_encodings (data : list byte) (out : list string) :
  parse_req data = Some out ->
  data = send_cmd_body out /\ Z.of_nat (length out) <= k_max_args.
Proof. apply parse_req_encoding. Qed.

Lemma parse_req_accepts_only_encodings_witness :
  [x01; x00; x00; x00; x02; x00; x00; x00; x68; x69]
  = send_cmd_body ["hi"]%string /\ Z.of_nat (length ["hi"%string]) <= k_max_args.
Proof.
  apply (parse_req_accepts_only_encodings
           [x01; x00; x00; x00; x02; x00; x00; x00; x68; x69] ["hi"%string]).
  reflexivity.
Defined.

End ProtocolFacts.

(** ** The wire format: replies and frames *)

Module FrameFacts.

Import HashTable Server Client ProtocolFacts.

Lemma out_nil_app (out : Buffer) : out_nil out = out ++ out_nil [].
Proof. reflexivity. Qed.

Lemma out_str_app (out : Buffer) (s : string) : out_str out s = out ++ out_str [] s.
Proof.
  unfold out_str, buf_append_u32, buf_append_u8, buf_append.
  destruct (Z.of_nat (String.length s) =? 0); simpl; rewrite <- ?app_assoc; reflexivity.
Qed.

Lemma out_int_app (out : Buffer) (v : Z) : out_int out v = out ++ out_int [] v.
Proof.
  unfold out_int, buf_append_i64, buf_append_u8, buf_append.
  rewrite <- app_assoc. reflexivity.
Qed.

Lemma out_arr_app (out : Buffer) (n : Z) : out_arr out n = out ++ out_arr [] n.
Proof.
  unfold out_arr, buf_append_u32, buf_append_u8, buf_append.
  rewrite <- app_assoc. reflexivity.
Qed.

Lemma out_err_msg_app (out : Buffer) (m : string) :
  out_err_msg out m = out ++ out_err_msg [] m.
Proof.
  unfold out_err_msg, buf_append_u32, buf_append_u8, buf_append.
  destruct (Z.of_nat (String.length m) mod 2 ^ 32 =? 0); simpl;
    rewrite <- ?app_assoc; reflexivity.
Qed.

(** [out'] is [out] with at least one byte appended. *)
Definition extends (out out' : Buffer) : Prop :=
  exists body, body <> [] /\ out' = out ++ body.

Lemma extends_trans (a b c : Buffer) : extends a b -> extends b c -> extends a c.
Proof.
  intros (x & Hx & ->) (y & Hy & ->). exists (x ++ y). split.
  - destruct x; [congruence|discriminate].
  - rewrite app_assoc. reflexivity.
Qed.

Lemma extends_nil (out : Buffer) : extends out (out_nil out).
Proof. exists (out_nil []). split; [discriminate|apply out_nil_app]. Qed.

Lemma extends_str (out : Buffer) (s : string) : extends out (out_str out s).
Proof.
  exists (out_str [] s). split; [|apply out_str_app].
  unfold out_str. destruct (Z.of_nat (String.length s) =? 0); discriminate.
Qed.

Lemma extends_int (out : Buffer) (v : Z) : extends out (out_int out v).
Proof. exists (out_int [] v). split; [discriminate|apply out_int_app]. Qed.

Lemma extends_arr (out : Buffer) (n : Z) : extends out (out_arr out n).
Proof. exists (out_arr [] n). split; [discriminate|apply out_arr_app]. Qed.

Lemma extends_err (out : Buffer) (m : string) : extends out (out_err_msg out m).
Proof.
  exists (out_err_msg [] m). split; [|apply out_err_msg_app].
  unfold out_err_msg. destruct (Z.of_nat (String.length m) mod 2 ^ 32 =? 0); discriminate.
Qed.

Lemma foldl_bind_None {A B} (f : A -> B -> option B) (l : list A) :
  foldl (fun acc x => b ← acc; f x b) None l = None.
Proof. induction l as [|x l IH]; simpl; auto. Qed.

(** The two nested loops of [for_each_htab_slot] visit the nodes of the
    slots in order. *)
Lemma for_each_htab_slot_concat (t : HTab HNodePtr)
    (cb : HNodePtr -> Buffer -> option Buffer) (arg : Buffer) :
  for_each_htab_slot t cb arg
  = match tab t with
    | None => Some arg
    | Some slots =>
        foldl (fun acc n => b ← acc; cb n b) (Some arg)
              (concat (take (Z.to_nat (mask t + 1)) slots))
    end.
Proof.
  unfold for_each_htab_slot. destruct (tab t) as [slots|]; [|reflexivity].
  generalize (take (Z.to_nat (mask t + 1)) slots) as ls.
  generalize (Some arg) as acc.
  intros acc ls. revert acc. induction ls as [|c ls IH]; intros acc; simpl; [reflexivity|].
  rewrite foldl_app. apply IH.
Qed.

(** The keys that the callback of [do_keys] writes for a list of nodes. *)
Definition key_at (es : gmap positive Entry) (n : HNodePtr) (k : string) : Prop :=
  exists a e, n = EntryNode a /\ es !! a = Some e /\ key e = k.

Lemma emit_keys_spec (es : gmap positive Entry) (ns : list HNodePtr) :
  forall out out',
    foldl (fun acc n => b ← acc; emit_key_cb es n b) (Some out) ns = Some out' ->
    exists ks, Forall2 (key_at es) ns ks /\ out' = fold_left out_str ks out.
Proof.
  induction ns as [|n ns IH]; intros out out' H; simpl in H.
  - inversion H; subst. exists []. split; [constructor|reflexivity].
  - destruct (emit_key_cb es n out) as [out1|] eqn:E.
    + destruct (IH _ _ H) as (ks & Hks & ->).
      unfold emit_key_cb, entry_of in E. destruct n as [a|lk]; [|discriminate].
      destruct (es !! a) as [e|] eqn:Ea; [|discriminate]. simpl in E.
      inversion E; subst out1.
      exists (key e :: ks). split; [|reflexivity].
      constructor; [|assumption]. exists a, e. auto.
    + rewrite foldl_bind_None in H. discriminate.
Qed.

Lemma fold_out_str_app (ks : list string) :
  forall out, fold_left out_str ks out = out ++ concat (map (out_str []) ks).
Proof.
  induction ks as [|k ks IH]; intros out; simpl.
  - rewrite app_nil_r. reflexivity.
  - rewrite IH, out_str_app, <- app_assoc. reflexivity.
Qed.

(** The nodes [for_each_htab_slot] visits. *)
Definition visited (t : HTab HNodePtr) : list HNodePtr :=
  match tab t with
  | None => []
  | Some slots => concat (take (Z.to_nat (mask t + 1)) slots)
  end.

Lemma for_each_emit_spec (es : gmap positive Entry) (t : HTab HNodePtr)
    (out out' : Buffer) :
  for_each_htab_slot t (emit_key_cb es) out = Some out' ->
  exists ks, Forall2 (key_at es) (visited t) ks /\ out' = fold_left out_str ks out.
Proof.
  rewrite for_each_htab_slot_concat. unfold visited.
  destruct (tab t) as [slots|].
  - apply emit_keys_spec.
  - intros H. inversion H. exists []. split; [constructor|reflexivity].
Qed.

Lemma do_keys_spec (g : Data) (cmd : list string) (out : Buffer) (g' : Data)
    (out' : Buffer) :
  do_keys g cmd out = Some (g', out') ->
  g' = g /\
  exists ks, Forall2 (key_at (entries g)) (visited (newer (db g)) ++ visited (older (db g))) ks /\
             out' = fold_left out_str ks (out_arr out (ht_total_size (db g) mod 2 ^ 32)).
Proof.
  unfold do_keys. intros H.
  destruct (for_each_htab_slot (newer (db g)) _ _) as [o1|] eqn:E1; [|discriminate].
  cbn [mbind option_bind] in H.
  destruct (for_each_htab_slot (older (db g)) _ _) as [o2|] eqn:E2; [|discriminate].
  cbn [mbind option_bind] in H. inversion H; subst. split; [reflexivity|].
  destruct (for_each_emit_spec _ _ _ _ E1) as (ks1 & H1 & ->).
  destruct (for_each_emit_spec _ _ _ _ E2) as (ks2 & H2 & ->).
  exists (ks1 ++ ks2). split.
  - apply Forall2_app; assumption.
  - rewrite fold_left_app. reflexivity.
Qed.

Lemma do_keys_appends (g : Data) (cmd : list string) (out : Buffer) (g' : Data)
    (out' : Buffer) :
  do_keys g cmd out = Some (g', out') -> extends out out'.
Proof.
  intros H. apply do_keys_spec in H as (_ & ks & _ & ->).
  rewrite fold_out_str_app.
  destruct (extends_arr out (ht_total_size (db g) mod 2 ^ 32)) as (b & Hb & ->).
  exists (b ++ concat (map (out_str []) ks)). split.
  - destruct b; [congruence|discriminate].
  - rewrite app_assoc. reflexivity.
Qed.

(** Every command answers: it appends to the buffer, and at least one
    byte. *)
Lemma do_request_appends (g : Data) (cmd : list string) (out : Buffer) (g' : Data)
    (out' : Buffer) :
  do_request g cmd out = Some (g', out') -> extends out out'.
Proof.
  unfold do_request. destruct cmd as [|op rest].
  { intros H. inversion H. apply extends_nil. }
  destruct (String.eqb op "get").
  { unfold do_get. intros H.
    repeat (first [progress simplify_option_eq | case_match]);
      auto using extends_nil, extends_str. }
  destruct (String.eqb op "set").
  { unfold do_set. intros H.
    repeat (first [progress simplify_option_eq | case_match]);
      auto using extends_nil, extends_str. }
  destruct (String.eqb op "del").
  { unfold do_del. intros H.
    repeat (first [progress simplify_option_eq | case_match]);
      auto using extends_int. }
  destruct (String.eqb op "keys").
  { intros H. apply do_keys_appends in H. exact H. }
  intros H. inversion H. apply extends_err.
Qed.

Lemma patch_u32_spec (pre hdr body : list byte) (v : Z) :
  length hdr = 4%nat ->
  patch_u32 (pre ++ hdr ++ body) (Z.of_nat (length pre)) v = pre ++ le_bytes 4 v ++ body.
Proof.
  intros Hh. unfold patch_u32. rewrite Nat2Z.id.
  rewrite take_app_length. f_equal. f_equal.
  rewrite drop_app_ge by lia.
  replace (length pre + 4 - length pre)%nat with (length hdr) by lia.
  apply drop_app_length.
Qed.

(** The reply that goes out for what a command wrote. *)
Definition framed_body (body : list byte) : list byte :=
  if k_max_msg <? Z.of_nat (length body)
  then out_err_msg [] "response too big"
  else body.

Lemma length_framed_body (body : list byte) :
  Z.of_nat (length (framed_body body)) <= k_max_msg /\
  (body <> [] -> framed_body body <> []).
Proof.
  unfold framed_body. destruct (Z.ltb_spec k_max_msg (Z.of_nat (length body))).
  - split; [vm_compute; discriminate|intros _; vm_compute; discriminate].
  - auto.
Qed.

Lemma response_end_spec (pre body : list byte) :
  response_end ((response_begin pre).1 ++ body) (response_begin pre).2
  = pre ++ le_bytes 4 (Z.of_nat (length (framed_body body))) ++ framed_body body.
Proof.
  unfold response_begin, response_end, response_size, buf_append_u32, buf_append,
    framed_body. cbn [fst snd].
  rewrite !length_app, length_le_bytes.
  replace (Z.of_nat (length pre + 4 + length body) - Z.of_nat (length pre) - 4)
    with (Z.of_nat (length body)) by lia.
  destruct (k_max_msg <? Z.of_nat (length body)).
  - replace (Z.to_nat (Z.of_nat (length pre) + 4)) with (length (pre ++ le_bytes 4 0))
      by (rewrite length_app, length_le_bytes; lia).
    rewrite take_app_length, out_err_msg_app, <- !app_assoc.
    rewrite patch_u32_spec by apply length_le_bytes.
    rewrite !length_app, length_le_bytes.
    do 3 f_equal. lia.
  - rewrite <- app_assoc. rewrite patch_u32_spec by apply length_le_bytes. reflexivity.
Qed.

Lemma read_reply_frame (body more : list byte) :
  Z.of_nat (length body) <= k_max_msg ->
  read_reply (le_bytes 4 (Z.of_nat (length body)) ++ body ++ more) = Some (body, more).
Proof.
  intros Hb. assert (k_max_msg < 2 ^ 32) by (vm_compute; reflexivity).
  unfold read_reply, readn. rewrite !length_app, length_le_bytes.
  replace (Z.of_nat (4 + (length body + length more)) <? 4) with false
    by (symmetry; apply Z.ltb_ge; lia).
  cbn [mbind option_bind].
  change (Z.to_nat 4) with 4%nat.
  rewrite take_app_length' by (symmetry; apply length_le_bytes).
  rewrite drop_app_length' by (symmetry; apply length_le_bytes).
  rewrite le_value_le_bytes_u32 by lia.
  rewrite length_app.
  replace (Z.of_nat (length body + length more) <? Z.of_nat (length body)) with false
    by (symmetry; apply Z.ltb_ge; lia).
  rewrite Nat2Z.id, take_app_length, drop_app_length. reflexivity.
Qed.

(** X3: when [try_one_request] answers a request, it appends one frame to
    [outgoing]: a length header and a body of exactly that length, not
    empty and of at most [k_max_msg] bytes (a longer reply is replaced by
    the error [response too big]); the client's [read_reply] takes that
    frame off the stream and returns the body.  The request is taken off
    [incoming], header included. *)
Theorem try_one_request_appends_one_frame (conn : Conn) (g : Data) (conn' : Conn) (g' : Data) :
  try_one_request conn g = Some (true, conn', g') ->
  exists body,
    outgoing conn' = outgoing conn ++ le_bytes 4 (Z.of_nat (length body)) ++ body /\
    body <> [] /\ Z.of_nat (length body) <= k_max_msg /\
    (forall more,
       read_reply (le_bytes 4 (Z.of_nat (length body)) ++ body ++ more) = Some (body, more)) /\
    incoming conn'
    = drop (Z.to_nat (4 + le_value (take 4 (incoming conn)))) (incoming conn).
Proof.
  unfold try_one_request. intros H.
  destruct (length (incoming conn) <? 4)%nat; [discriminate|].
  destruct (k_max_msg <? le_value (take 4 (incoming conn))); [discriminate|].
  destruct (Z.of_nat (length (incoming conn)) <? 4 + le_value (take 4 (incoming conn)));
    [discriminate|].
  destruct (parse_req _) as [cmd|]; [|discriminate].
  pose proof (response_end_spec (outgoing conn)) as Hend.
  destruct (response_begin (outgoing conn)) as [out0 pos]. cbn [fst snd] in Hend.
  destruct (do_request g cmd out0) as [[g1 out1]|] eqn:Ed; [|discriminate].
  cbn [mbind option_bind] in H. inversion H; subst. clear H.
  destruct (do_request_appends _ _ _ _ _ Ed) as (body & Hne & ->).
  exists (framed_body body). cbn [outgoing incoming].
  destruct (length_framed_body body) as [Hle Hne'].
  split_and!; auto.
  - intros more. apply read_reply_frame. assumption.
Qed.

Lemma try_one_request_appends_one_frame_witness :
  exists body,
    [x01; x00; x00; x00; x00]
    = [] ++ le_bytes 4 (Z.of_nat (length body)) ++ body /\
    body <> [] /\ Z.of_nat (length body) <= k_max_msg /\
    (forall more,
       read_reply (le_bytes 4 (Z.of_nat (length body)) ++ body ++ more) = Some (body, more)) /\
    [] = drop (Z.to_nat (4 + le_value (take 4 [x04; x00; x00; x00; x00; x00; x00; x00])))
              [x04; x00; x00; x00; x00; x00; x00; x00].
Proof.
  apply (try_one_request_appends_one_frame
           (mkConn 3 true false false [x04; x00; x00; x00; x00; x00; x00; x00] [])
           ServerFacts.g_init
           (mkConn 3 true false false [] [x01; x00; x00; x00; x00])
           ServerFacts.g_init).
  reflexivity.
Defined.

Lemma length_concat_enc (args : list string) :
  4 * Z.of_nat (length args) <= Z.of_nat (length (concat (map enc_str args))) /\
  Forall (fun s => Z.of_nat (String.length s)
                   <= Z.of_nat (length (concat (map enc_str args)))) args.
Proof.
  induction args as [|s args [IH1 IH2]]; [simpl; split; [lia|constructor]|].
  cbn [map concat length]. unfold enc_str at 1 3.
  rewrite !length_app, length_le_bytes, length_list_byte_of_string. split; [lia|].
  constructor; [lia|].
  eapply Forall_impl; [exact IH2|]. intros x Hx. cbn beta in *. lia.
Qed.

Lemma small_body_short (args : list string) :
  Z.of_nat (length (send_cmd_body args)) <= k_max_msg ->
  Z.of_nat (length args) < 2 ^ 32 /\ Forall short args.
Proof.
  rewrite send_cmd_body_concat, length_app, length_le_bytes.
  assert (k_max_msg < 2 ^ 32) by (vm_compute; reflexivity).
  destruct (length_concat_enc args) as [H1 H2]. intros Hb. split; [lia|].
  eapply Forall_impl; [exact H2|]. intros s Hs. unfold short. cbn beta in Hs. lia.
Qed.

(** The reply to one command, framed. *)
Definition answer (g : Data) (cmd : list string) (out : Buffer) : option (Data * Buffer) :=
  let '(out0, header_pos) := response_begin out in
  '(g', out1) ← do_request g cmd out0;
  Some (g', response_end out1 header_pos).

Lemma try_one_request_sent (conn : Conn) (g : Data) (args : list string) (rest : list byte) :
  Z.of_nat (length args) <= k_max_args ->
  Z.of_nat (length (send_cmd_body args)) <= k_max_msg ->
  incoming conn = send_cmd args ++ rest ->
  try_one_request conn g
  = ('(g', out) ← answer g args (outgoing conn);
     Some (true,
           mkConn (fd conn) (want_read conn) (want_write conn) (want_close conn) rest out,
           g')).
Proof.
  intros Hn Hb Hin. destruct (small_body_short args Hb) as [Hn32 Hs].
  assert (k_max_msg < 2 ^ 32) by (vm_compute; reflexivity).
  unfold try_one_request, answer. rewrite Hin. unfold send_cmd.
  set (body := send_cmd_body args) in *.
  rewrite <- !app_assoc, !length_app, length_le_bytes.
  replace (4 + (length body + length rest) <? 4)%nat with false
    by (symmetry; apply Nat.ltb_ge; lia).
  rewrite take_app_length' by (symmetry; apply length_le_bytes).
  rewrite drop_app_length' by (symmetry; apply length_le_bytes).
  rewrite le_value_le_bytes_u32 by lia.
  replace (k_max_msg <? Z.of_nat (length body)) with false
    by (symmetry; apply Z.ltb_ge; lia).
  replace (Z.of_nat (4 + (length body + length rest)) <? 4 + Z.of_nat (length body))
    with false by (symmetry; apply Z.ltb_ge; lia).
  rewrite Nat2Z.id, take_app_length.
  unfold body. rewrite (parse_req_send_cmd_body args Hn32 Hs).
  replace (k_max_args <? Z.of_nat (length args)) with false
    by (symmetry; apply Z.ltb_ge; lia).
  destruct (response_begin (outgoing conn)) as [out0 pos].
  destruct (do_request g args out0) as [[g1 out1]|]; [|reflexivity].
  cbn [mbind option_bind]. do 4 f_equal.
  unfold buf_consume.
  replace (Z.to_nat (4 + Z.of_nat (length (send_cmd_body args))))
    with (length (le_bytes 4 (Z.of_nat (length (send_cmd_body args))) ++ send_cmd_body args))
    by (rewrite length_app, length_le_bytes; lia).
  rewrite app_assoc. apply drop_app_length.
Qed.

(** X4: a request that [send_cmd] wrote, with at most [k_max_args]
    arguments and a body of at most [k_max_msg] bytes, is served by one
    call of [try_one_request]: the command is the list of arguments that
    was sent, its framed reply is appended to [outgoing], and the bytes
    that follow the request stay in [incoming] for the next call. *)
Theorem sent_request_is_served (conn : Conn) (g : Data) (args : list string)
    (rest : list byte) :
  Z.of_nat (length args) <= k_max_args ->
  Z.of_nat (length (send_cmd_body args)) <= k_max_msg ->
  incoming conn = send_cmd args ++ rest ->
  try_one_request conn g
  = ('(g', out) ← answer g args (outgoing conn);
     Some (true,
           mkConn (fd conn) (want_read conn) (want_write conn) (want_close conn) rest out,
           g')).
Proof. apply try_one_request_sent. Qed.

Lemma sent_request_is_served_witness :
  try_one_request
    (mkConn 3 true false false (send_cmd ["get"; "k"]%string ++ [x07]) []) ServerFacts.g_init
  = ('(g', out) ← answer ServerFacts.g_init ["get"; "k"]%string [];
     Some (true, mkConn 3 true false false [x07] out, g')).
Proof.
  apply (sent_request_is_served
           (mkConn 3 true false false (send_cmd ["get"; "k"]%string ++ [x07]) [])
           ServerFacts.g_init ["get"; "k"]%string [x07]).
  - vm_compute. discriminate.
  - vm_compute. discriminate.
  - reflexivity.
Defined.

End FrameFacts.

(** ** The server on a connection *)

Module ServerLoopFacts.

Import HashTable HashTableFacts Server Client ServerIo ServerFacts ProtocolFacts FrameFacts.

Lemma do_request_total (g : Data) (cmd : list string) (out : Buffer) :
  data_wf g ->
  exists g' out', do_request g cmd out = Some (g', out') /\ data_wf g'.
Proof.
  intros Hwf.
  assert (Hother : forall k, ~ touches cmd k ->
            exists g' out', do_request g cmd out = Some (g', out') /\ data_wf g').
  { intros k Hk. destruct (do_request_other g cmd k out Hwf Hk) as (g' & out' & H & Hwf' & _).
    eauto. }
  destruct cmd as [|op [|a [|b [|c rest]]]].
  - apply (Hother ""%string). intros [[v E]|E]; discriminate.
  - apply (Hother ""%string). intros [[v E]|E]; discriminate.
  - destruct (String.eqb_spec op "del") as [->|Hop].
    + destruct (do_del_spec g a out Hwf) as (g' & reply & H & Hwf' & _). eauto.
    + apply (Hother a). intros [[v E]|E]; [discriminate|]. inversion E. contradiction.
  - destruct (String.eqb_spec op "set") as [->|Hop].
    + destruct (do_set_spec g a b out Hwf) as (g' & H & Hwf' & _). eauto.
    + apply (Hother a). intros [[v E]|E]; [|discriminate]. inversion E. contradiction.
  - apply (Hother ""%string). intros [[v E]|E]; discriminate.
Qed.

(** X5: on a well-formed database every command returns, whatever its name
    and arguments: no assertion fails and no pointer is followed that is
    null or of the wrong kind.  The database stays well formed and the
    reply is appended to the buffer, at least one byte of it. *)
Theorem every_command_is_answered (g : Data) (cmd : list string) (out : Buffer) :
  data_wf g ->
  exists g' body,
    do_request g cmd out = Some (g', out ++ body) /\ body <> [] /\ data_wf g'.
Proof.
  intros Hwf. destruct (do_request_total g cmd out Hwf) as (g' & out' & H & Hwf').
  destruct (do_request_appends _ _ _ _ _ H) as (body & Hne & ->). eauto.
Qed.

Lemma every_command_is_answered_witness :
  exists g' body,
    do_request g_init ["set"; "k"; "v"]%string [] = Some (g', [] ++ body) /\
    body <> [] /\ data_wf g'.
Proof. apply (every_command_is_answered g_init ["set"; "k"; "v"]%string []). exact g_init_wf. Defined.

Lemma answer_total (g : Data) (cmd : list string) (out : Buffer) :
  data_wf g -> exists g' out', answer g cmd out = Some (g', out') /\ data_wf g'.
Proof.
  intros Hwf. unfold answer. destruct (response_begin out) as [out0 pos].
  destruct (do_request_total g cmd out0 Hwf) as (g' & out' & H & Hwf').
  rewrite H. cbn [mbind option_bind]. eauto.
Qed.

(** The bytes at the head of [incoming] are not yet a whole request. *)
Definition waiting (partial : list byte) : Prop :=
  (length partial < 4)%nat \/
  (le_value (take 4 partial) <= k_max_msg /\
   Z.of_nat (length partial) < 4 + le_value (take 4 partial)).

Lemma try_one_request_waiting (conn : Conn) (g : Data) :
  waiting (incoming conn) -> try_one_request conn g = Some (false, conn, g).
Proof.
  unfold try_one_request. intros [H|[H1 H2]].
  - replace (length (incoming conn) <? 4)%nat with true by (symmetry; apply Nat.ltb_lt; lia).
    reflexivity.
  - destruct (length (incoming conn) <? 4)%nat; [reflexivity|].
    replace (k_max_msg <? le_value (take 4 (incoming conn))) with false
      by (symmetry; apply Z.ltb_ge; lia).
    replace (Z.of_nat (length (incoming conn)) <? 4 + le_value (take 4 (incoming conn)))
      with true by (symmetry; apply Z.ltb_lt; lia).
    reflexivity.
Qed.

Lemma prefix_waiting (args : list string) (n : nat) :
  Z.of_nat (length (send_cmd_body args)) <= k_max_msg ->
  (n < length (send_cmd args))%nat ->
  waiting (take n (send_cmd args)).
Proof.
  intros Hb Hn. assert (k_max_msg < 2 ^ 32) by (vm_compute; reflexivity).
  unfold waiting. rewrite length_take.
  destruct (Nat.lt_ge_cases n 4) as [H4|H4]; [left; lia|right].
  unfold send_cmd in *. rewrite length_app, length_le_bytes in Hn.
  rewrite take_take. replace (4 `min` n)%nat with 4%nat by lia.
  rewrite take_app_length' by (symmetry; apply length_le_bytes).
  rewrite le_value_le_bytes_u32 by lia.
  rewrite length_app, length_le_bytes. lia.
Qed.

(** X6: a request that has arrived only in part is left waiting: for every
    strict prefix of what [send_cmd] writes (for a body of at most
    [k_max_msg] bytes), [try_one_request] returns false and changes neither
    the connection, which stays open, nor the database. *)
Theorem partial_request_waits (conn : Conn) (g : Data) (args : list string) (n : nat) :
  Z.of_nat (length (send_cmd_body args)) <= k_max_msg ->
  (n < length (send_cmd args))%nat ->
  incoming conn = take n (send_cmd args) ->
  try_one_request conn g = Some (false, conn, g).
Proof.
  intros Hb Hn Hin. apply try_one_request_waiting. rewrite Hin.
  apply prefix_waiting; assumption.
Qed.

Lemma partial_request_waits_witness :
  try_one_request (mkConn 3 true false false (take 9 (send_cmd ["get"; "k"]%string)) [])
                  g_init
  = Some (false,
          mkConn 3 true false false (take 9 (send_cmd ["get"; "k"]%string)) [], g_init).
Proof.
  apply (partial_request_waits _ g_init ["get"; "k"]%string 9).
  - vm_compute. discriminate.
  - vm_compute. lia.
  - reflexivity.
Defined.

(** X7: a complete frame whose body is not the encoding of a list of at
    most [k_max_args] strings (a wrong count, a length that runs past the
    end, bytes left over) is refused: the connection is marked for closing,
    nothing is taken off [incoming], nothing is written, and the database
    is not touched. *)
Theorem malformed_request_closes (conn : Conn) (g : Data) (body rest : list byte) :
  Z.of_nat (length body) <= k_max_msg ->
  incoming conn = le_bytes 4 (Z.of_nat (length body)) ++ body ++ rest ->
  (forall args, Z.of_nat (length args) <= k_max_args -> body <> send_cmd_body args) ->
  try_one_request conn g = Some (false, set_want_close conn, g).
Proof.
  intros Hb Hin Hbad. assert (k_max_msg < 2 ^ 32) by (vm_compute; reflexivity).
  unfold try_one_request. rewrite Hin.
  rewrite !length_app, length_le_bytes.
  replace (4 + (length body + length rest) <? 4)%nat with false
    by (symmetry; apply Nat.ltb_ge; lia).
  rewrite take_app_length' by (symmetry; apply length_le_bytes).
  rewrite drop_app_length' by (symmetry; apply length_le_bytes).
  rewrite le_value_le_bytes_u32 by lia.
  replace (k_max_msg <? Z.of_nat (length body)) with false
    by (symmetry; apply Z.ltb_ge; lia).
  replace (Z.of_nat (4 + (length body + length rest)) <? 4 + Z.of_nat (length body))
    with false by (symmetry; apply Z.ltb_ge; lia).
  rewrite Nat2Z.id, take_app_length.
  destruct (parse_req body) as [args|] eqn:E.
  - exfalso. destruct (parse_req_encoding _ _ E) as [Hd Hn]. exact (Hbad args Hn Hd).
  - unfold set_want_close. rewrite Hin. reflexivity.
Qed.

Lemma malformed_request_closes_witness :
  try_one_request
    (mkConn 3 true false false (le_bytes 4 5 ++ [x00; x00; x00; x00; x2a] ++ []) []) g_init
  = Some (false,
          set_want_close
            (mkConn 3 true false false (le_bytes 4 5 ++ [x00; x00; x00; x00; x2a] ++ []) []),
          g_init).
Proof.
  apply (malformed_request_closes _ g_init [x00; x00; x00; x00; x2a] []).
  - vm_compute. discriminate.
  - reflexivity.
  - intros args _ E.
    assert (Hl : length (send_cmd_body args) = 5%nat) by (rewrite <- E; reflexivity).
    rewrite send_cmd_body_concat, length_app, length_le_bytes in Hl.
    destruct args as [|s args].
    + discriminate.
    + cbn [map concat] in Hl. unfold enc_str at 1 in Hl.
      rewrite !length_app, length_le_bytes in Hl. lia.
Defined.

(** The replies to a list of commands, framed, one after the other. *)
Fixpoint answers (g : Data) (cmds : list (list string)) (out : Buffer)
  : option (Data * Buffer) :=
  match cmds with
  | [] => Some (g, out)
  | cmd :: cmds' => '(g', out') ← answer g cmd out; answers g' cmds' out'
  end.

Lemma answers_total (cmds : list (list string)) :
  forall g out, data_wf g ->
    exists g' out', answers g cmds out = Some (g', out') /\ data_wf g'.
Proof.
  induction cmds as [|cmd cmds IH]; intros g out Hwf; simpl; [eauto|].
  destruct (answer_total g cmd out Hwf) as (g1 & out1 & H & Hwf1).
  rewrite H. cbn [mbind option_bind]. apply IH. assumption.
Qed.

(** A request that the server accepts. *)
Definition acceptable (args : list string) : Prop :=
  Z.of_nat (length args) <= k_max_args /\
  Z.of_nat (length (send_cmd_body args)) <= k_max_msg.

Lemma request_loop_pipelined (cmds : list (list string)) :
  forall fuel conn g partial,
    Forall acceptable cmds ->
    incoming conn = concat (map send_cmd cmds) ++ partial ->
    waiting partial ->
    (length cmds < fuel)%nat ->
    request_loop fuel conn g
    = ('(g', out) ← answers g cmds (outgoing conn);
       Some (mkConn (fd conn) (want_read conn) (want_write conn) (want_close conn)
                    partial out, g')).
Proof.
  induction cmds as [|cmd cmds IH]; intros fuel conn g partial Hok Hin Hw Hfuel;
    (destruct fuel as [|fuel]; [simpl in Hfuel; lia|]); cbn [request_loop].
  - simpl in Hin. rewrite try_one_request_waiting by (rewrite Hin; assumption).
    cbn [mbind option_bind answers]. rewrite <- Hin. destruct conn; reflexivity.
  - apply Forall_cons in Hok as [[Hn Hb] Hok].
    cbn [map concat] in Hin. rewrite <- app_assoc in Hin.
    rewrite (try_one_request_sent conn g cmd _ Hn Hb Hin).
    cbn [answers]. destruct (answer g cmd (outgoing conn)) as [[g1 out1]|]; [|reflexivity].
    cbn [mbind option_bind].
    rewrite (IH fuel (mkConn (fd conn) (want_read conn) (want_write conn) (want_close conn)
                             (concat (map send_cmd cmds) ++ partial) out1)
                g1 partial Hok eq_refl Hw) by (simpl in Hfuel; lia).
    reflexivity.
Qed.

Lemma length_send_cmds (cmds : list (list string)) :
  (length cmds <= length (concat (map send_cmd cmds)))%nat.
Proof.
  induction cmds as [|cmd cmds IH]; [simpl; lia|].
  cbn [map concat length]. unfold send_cmd at 1.
  rewrite !length_app, length_le_bytes. lia.
Qed.

(** X8: one [read] that brings the connection's input to a sequence of
    whole acceptable requests followed by the beginning of another is
    handled as follows: the requests are answered in the order they were
    sent, each by one frame; the unfinished request stays in [incoming];
    and if there is anything to send the connection is switched to writing
    and one [write] is tried.  On a well-formed database this always
    returns. *)
Theorem pipelined_requests_are_answered_in_order
    (conn : Conn) (g : Data) (buf : list byte) (w : write_result)
    (cmds : list (list string)) (partial : list byte) :
  data_wf g -> buf <> [] ->
  Forall acceptable cmds ->
  incoming conn ++ buf = concat (map send_cmd cmds) ++ partial ->
  waiting partial ->
  exists g' out conn',
    answers g cmds (outgoing conn) = Some (g', out) /\ data_wf g' /\
    handle_read conn g (RdData buf) w = Some (conn', g') /\
    match out with
    | [] => conn' = mkConn (fd conn) (want_read conn) (want_write conn) (want_close conn)
                           partial []
    | _ :: _ =>
        handle_write (mkConn (fd conn) false true (want_close conn) partial out) w
        = Some conn'
    end.
Proof.
  intros Hwf Hbuf Hok Hin Hw.
  destruct (answers_total cmds g (outgoing conn) Hwf) as (g' & out & Ha & Hwf').
  unfold handle_read. destruct buf as [|b buf]; [congruence|].
  unfold buf_append.
  set (conn1 := mkConn _ _ _ _ (incoming conn ++ b :: buf) _).
  rewrite (request_loop_pipelined cmds _ conn1 g partial Hok Hin Hw).
  2: { cbn [incoming conn1]. rewrite Hin, length_app.
       pose proof (length_send_cmds cmds). lia. }
  cbn [outgoing conn1 fd want_read want_write want_close]. rewrite Ha.
  cbn [mbind option_bind outgoing fd want_read want_write want_close incoming].
  destruct out as [|o out].
  - eexists g', [], _. split_and!; eauto.
  - destruct (handle_write (mkConn (fd conn) false true (want_close conn) partial (o :: out)) w)
      as [c|] eqn:E.
    + exists g', (o :: out), c. split_and!; auto.
    + exfalso. unfold handle_write in E. cbn [outgoing] in E.
      destruct w; try discriminate.
      destruct (buf_consume (o :: out) rv); discriminate.
Qed.

Lemma pipelined_requests_are_answered_in_order_witness :
  exists g' out conn',
    answers g_init [["set"; "k"; "v"]; ["get"; "k"]]%string [] = Some (g', out) /\
    data_wf g' /\
    handle_read (mkConn 3 true false false (take 5 (send_cmd ["set"; "k"; "v"]%string)) [])
                g_init
                (RdData (drop 5 (send_cmd ["set"; "k"; "v"]%string)
                         ++ send_cmd ["get"; "k"]%string ++ [x09]))
                (Wrote 3)
    = Some (conn', g') /\
    match out with
    | [] => conn' = mkConn 3 true false false [x09] []
    | _ :: _ => handle_write (mkConn 3 false true false [x09] out) (Wrote 3) = Some conn'
    end.
Proof.
  apply (pipelined_requests_are_answered_in_order
           (mkConn 3 true false false (take 5 (send_cmd ["set"; "k"; "v"]%string)) [])
           g_init _ (Wrote 3) [["set"; "k"; "v"]; ["get"; "k"]]%string [x09]).
  - exact g_init_wf.
  - discriminate.
  - repeat constructor; vm_compute; discriminate.
  - reflexivity.
  - left. simpl. lia.
Defined.

End ServerLoopFacts.

(** ** The [keys] command *)

Module KeysFacts.

Import HashTable HashTableFacts Server ServerFacts FrameFacts.

Lemma visited_nodes (hcode : HNodePtr -> Z) (t : HTab HNodePtr) :
  htab_wf hcode t -> visited t = nodes t.
Proof.
  unfold htab_wf, visited, nodes, chains. destruct (tab t) as [slots|]; [|reflexivity].
  intros (_ & Hlen & _). simpl. rewrite take_ge by lia. reflexivity.
Qed.

Lemma ht_total_size_stored (hcode : HNodePtr -> Z) (hm : HMap HNodePtr) :
  hm_wf hcode hm -> ht_total_size hm = Z.of_nat (length (stored hm)).
Proof.
  intros (Hn & Ho & _). unfold ht_total_size, stored. rewrite length_app.
  rewrite (htab_wf_size hcode _ Hn).
  destruct (tab (older hm)) eqn:E.
  - rewrite (htab_wf_size hcode _ Ho). lia.
  - rewrite (htab_wf_tab_none_nodes _ E). simpl. lia.
Qed.

Lemma Forall2_in_r {A B} (R : A -> B -> Prop) (l : list A) (k : list B) (b : B) :
  Forall2 R l k -> b ∈ k -> exists a, a ∈ l /\ R a b.
Proof.
  induction 1 as [|a b' l k Hab HF IH]; intros Hb; [inversion Hb|].
  apply elem_of_cons in Hb as [->|Hb].
  - exists a. split; [apply elem_of_cons; auto|assumption].
  - destruct (IH Hb) as (a' & Ha' & HR). exists a'. split; [apply elem_of_cons; auto|assumption].
Qed.

Lemma Forall2_in_l {A B} (R : A -> B -> Prop) (l : list A) (k : list B) (a : A) :
  Forall2 R l k -> a ∈ l -> exists b, b ∈ k /\ R a b.
Proof.
  induction 1 as [|a' b l k Hab HF IH]; intros Ha; [inversion Ha|].
  apply elem_of_cons in Ha as [->|Ha].
  - exists b. split; [apply elem_of_cons; auto|assumption].
  - destruct (IH Ha) as (b' & Hb' & HR). exists b'. split; [apply elem_of_cons; auto|assumption].
Qed.

Lemma Forall2_NoDup {A B} (R : A -> B -> Prop) (l : list A) (k : list B) :
  Forall2 R l k -> NoDup l ->
  (forall a a' b, a ∈ l -> a' ∈ l -> R a b -> R a' b -> a = a') ->
  NoDup k.
Proof.
  induction 1 as [|a b l k Hab HF IH]; intros Hnd Hinj; [constructor|].
  apply NoDup_cons in Hnd as [Ha Hnd]. apply NoDup_cons. split.
  - intros Hb. apply (Forall2_in_r R l k b HF) in Hb as (a' & Ha' & HR).
    apply Ha. rewrite (Hinj a a' b); auto; [apply elem_of_cons; auto|].
    apply elem_of_cons. auto.
  - apply IH; auto. intros x x' y Hx Hx'. apply Hinj; apply elem_of_cons; auto.
Qed.

Lemma key_at_fun (es : gmap positive Entry) (n : HNodePtr) (k k' : string) :
  key_at es n k -> key_at es n k' -> k = k'.
Proof.
  intros (a & e & -> & Ha & <-) (a' & e' & Heq & Ha' & <-).
  inversion Heq; subst a'. congruence.
Qed.

Lemma Forall2_fun {A B} (R : A -> B -> Prop) (l : list A) (k k' : list B) :
  (forall a b b', R a b -> R a b' -> b = b') ->
  Forall2 R l k -> Forall2 R l k' -> k = k'.
Proof.
  intros HR H. revert k'. induction H as [|a b l k Hab HF IH]; intros k' H'.
  - inversion H'. reflexivity.
  - inversion H' as [|a' b' l' k'' Hab' HF']; subst. f_equal; eauto.
Qed.

(** The reply of [keys]: one list of keys serves every output buffer and
    every list of arguments. *)
Lemma do_keys_lists_keys (g : Data) :
  data_wf g ->
  exists ks,
    (forall cmd out,
       do_keys g cmd out
       = Some (g, fold_left out_str ks (out_arr out (Z.of_nat (length ks) mod 2 ^ 32)))) /\
    NoDup ks /\
    (forall k, k ∈ ks <-> exists v, holds g k v).
Proof.
  intros Hwf. pose proof Hwf as (Hm & Hent & Hinj).
  pose proof Hm as (Hn & Ho & Hnd & _).
  assert (Hspec : forall cmd out, exists ks,
             Forall2 (key_at (entries g)) (stored (db g)) ks /\
             do_keys g cmd out
             = Some (g, fold_left out_str ks (out_arr out (Z.of_nat (length ks) mod 2 ^ 32)))).
  { intros cmd out. destruct (do_keys_total g cmd out Hwf) as (out' & H).
    destruct (do_keys_spec _ _ _ _ _ H) as (_ & ks & HF & ->).
    rewrite (visited_nodes _ _ Hn), (visited_nodes _ _ Ho) in HF.
    fold (stored (db g)) in HF.
    rewrite (ht_total_size_stored _ _ Hm) in H.
    rewrite (Forall2_length _ _ _ HF) in H. eauto. }
  destruct (Hspec [] []) as (ks & HF & _).
  exists ks. split_and!.
  - intros cmd out. destruct (Hspec cmd out) as (ks' & HF' & H).
    rewrite (Forall2_fun _ _ _ _ (key_at_fun (entries g)) HF HF'). exact H.
  - apply (Forall2_NoDup _ _ _ HF Hnd).
    intros n n' k Hn1 Hn2 (a & e & -> & Ha & Hk) (a' & e' & -> & Ha' & Hk').
    f_equal. apply (Hinj a a' e e'); auto. congruence.
  - intros k. split.
    + intros Hk. apply (Forall2_in_r _ _ _ _ HF) in Hk as (n & Hn' & (a & e & -> & Ha & Hk)).
      exists (val e), a, e. auto.
    + intros (v & a & e & Hin & Ha & Hk & _).
      apply (Forall2_in_l _ _ _ _ HF) in Hin as (k' & Hk' & (a' & e' & Heq & Ha' & Hke)).
      inversion Heq; subst a'. rewrite Ha in Ha'. inversion Ha'; subst e'.
      rewrite <- Hk, Hke. exact Hk'.
Qed.


(** The database after [set foo bar] and [set baz qux] on the empty one. *)
Definition g_two : Data :=
  Eval vm_compute in
    default g_init
      (g1 ← fst <$> do_request g_init ["set"; "foo"; "bar"]%string [];
       fst <$> do_request g1 ["set"; "baz"; "qux"]%string []).

Lemma g_two_wf : data_wf g_two.
Proof.
  destruct (do_set_spec g_init "foo" "bar" [] g_init_wf) as (g1 & H1 & Hwf1 & _).
  destruct (do_set_spec g1 "baz" "qux" [] Hwf1) as (g2 & H2 & Hwf2 & _).
  vm_compute in H1. injection H1 as <-.
  vm_compute in H2. injection H2 as <-.
  exact Hwf2.
Qed.


(** The same call, evaluated: an array of two strings, the two keys; and
    both keys are held. *)
Example keys_of_two_evaluated :
  do_keys g_two ["keys"]%string []
  = Some (g_two, fold_left out_str ["baz"; "foo"]%string (out_arr [] 2)) /\
  holds g_two "foo" "bar" /\ holds g_two "baz" "qux".
Proof.
  split; [vm_compute; reflexivity|].
  split.
  - exists 1%positive, (mkEntry (str_hash "foo") "foo" "bar").
    split_and!; try (vm_compute; reflexivity).
    apply list_elem_of_In. vm_compute. auto.
  - exists 2%positive, (mkEntry (str_hash "baz") "baz" "qux").
    split_and!; try (vm_compute; reflexivity).
    apply list_elem_of_In. vm_compute. auto.
Qed.

End KeysFacts.

(** ** Requests that match none of the four command shapes (C1) *)

Module DispatchFacts.

Import HashTable HashTableFacts Server ServerFacts FrameFacts KeysFacts.

Local Open Scope string_scope.

(** The request [cmd] is served with the reply [f]: [do_request] appends
    [f] to the buffer and leaves the database as it is, and a connection
    that holds the request as a complete frame takes it off [incoming],
    appends the framed reply to [outgoing] and stays open. *)
Definition served (g : Data) (cmd : list string) (f : Buffer -> Buffer) : Prop :=
  (forall out, do_request g cmd out = Some (g, f out)) /\
  (forall conn,
     let len := le_value (take 4 (incoming conn)) in
     (4 <= length (incoming conn))%nat ->
     len <= k_max_msg ->
     4 + len <= Z.of_nat (length (incoming conn)) ->
     parse_req (take (Z.to_nat len) (drop 4 (incoming conn))) = Some cmd ->
     exists conn',
       try_one_request conn g = Some (true, conn', g) /\
       want_close conn' = want_close conn /\
       incoming conn' = drop (Z.to_nat (4 + len)) (incoming conn) /\
       outgoing conn'
       = response_end (f (response_begin (outgoing conn)).1)
                      (response_begin (outgoing conn)).2).

Lemma served_of_reply (g : Data) (cmd : list string) (f : Buffer -> Buffer) :
  (forall out, do_request g cmd out = Some (g, f out)) -> served g cmd f.
Proof.
  intros Hreq. split; [exact Hreq|].
  intros conn len H4 Hmax Hfull Hparse. subst len.
  unfold try_one_request.
  replace (length (incoming conn) <? 4)%nat with false
    by (symmetry; apply Nat.ltb_ge; lia).
  replace (k_max_msg <? le_value (take 4 (incoming conn)))%Z with false
    by (symmetry; apply Z.ltb_ge; lia).
  replace (Z.of_nat (length (incoming conn)) <? 4 + le_value (take 4 (incoming conn)))%Z
    with false by (symmetry; apply Z.ltb_ge; lia).
  rewrite Hparse.
  destruct (response_begin (outgoing conn)) as [out0 header_pos] eqn:Hb.
  rewrite (Hreq out0). cbn [mbind option_bind].
  eexists. split; [reflexivity|]. simpl. auto.
Qed.

(** The reply of [keys]: an array of the strings [ks]. *)
Definition keys_reply (ks : list string) (out : Buffer) : Buffer :=
  fold_left out_str ks (out_arr out (Z.of_nat (length ks) mod 2 ^ 32)).

(** C1, amended: a request whose first string is none of [get], [set],
    [del], [keys] is answered with ERR "ERR bad command"; the empty argv
    and [get] or [set] of the wrong arity with NIL; [del] of the wrong
    arity with INT 0.  [keys] is executed whatever its arity: on a
    well-formed database it is answered with the array of the keys of the
    database, each key once.  In each case the database is untouched, and
    a connection that holds the request as a complete frame serves it and
    stays open. *)
Theorem bad_shape_is_answered (g : Data) (cmd : list string) :
  (forall f, bad_shape_reply cmd f -> served g cmd f) /\
  (forall rest, cmd = "keys" :: rest -> data_wf g ->
     exists ks,
       served g cmd (keys_reply ks) /\
       NoDup ks /\ (forall k, k ∈ ks <-> exists v, holds g k v)).
Proof.
  split.
  - intros f Hbad. apply served_of_reply. intros out.
    apply do_request_bad_shape. assumption.
  - intros rest -> Hwf.
    destruct (do_keys_lists_keys g Hwf) as (ks & Hk & Hnd & Hks).
    exists ks. split_and!; auto.
    apply served_of_reply. intros out. exact (Hk ("keys" :: rest) out).
Qed.

Lemma bad_shape_is_answered_witness :
  (bad_shape_reply ["ping"] (fun out => out_err_msg out "ERR bad command") /\
   served g_init ["ping"] (fun out => out_err_msg out "ERR bad command")) /\
  (data_wf g_two /\
   exists ks,
     served g_two ["keys"; "a"; "b"] (keys_reply ks) /\
     NoDup ks /\ (forall k, k ∈ ks <-> exists v, holds g_two k v)).
Proof.
  assert (H : bad_shape_reply ["ping"] (fun out => out_err_msg out "ERR bad command")).
  { apply bad_op; discriminate. }
  split.
  - split; [exact H|].
    exact (proj1 (bad_shape_is_answered g_init ["ping"]) _ H).
  - split; [exact g_two_wf|].
    exact (proj2 (bad_shape_is_answered g_two ["keys"; "a"; "b"]) ["a"; "b"] eq_refl g_two_wf).
Defined.

(** [keys] with two arguments, evaluated on the database that holds [foo]
    and [baz]: the reply is the array of the two keys, the reply of
    [keys] alone. *)
Example keys_with_arguments_evaluated :
  do_request g_two ["keys"; "a"; "b"] [] = Some (g_two, keys_reply ["baz"; "foo"] []) /\
  do_request g_two ["keys"] [] = Some (g_two, keys_reply ["baz"; "foo"] []) /\
  keys_reply ["baz"; "foo"] []
  = [x05; x02; x00; x00; x00;
     x02; x03; x00; x00; x00; x62; x61; x7a;
     x02; x03; x00; x00; x00; x66; x6f; x6f].
Proof. split_and!; vm_compute; reflexivity. Qed.

End DispatchFacts.

(** ** The [migrate_pos] table: deletion, and runs from the empty map *)

Module HashTableMoreFacts.

Import HashTable HashTableFacts.

Section Facts.
Context {Node : Type}.
Variable hcode : Node -> Z.
Variable eq : Node -> Node -> bool.

Lemma hm_init_wf :
  exists hm, hm_init = Some hm /\ hm_wf hcode hm /\ @stored Node hm = [] /\
             tab (older hm) = None.
Proof.
  destruct (h_init_spec (Node := Node) hcode 4) as (ht & Hi & Hwf & Hn & Ht & Hm & Hs);
    [reflexivity|lia|].
  unfold hm_init. rewrite Hi. cbn [mbind option_bind]. eexists. split; [reflexivity|].
  unfold hm_wf, stored. cbn [newer older migrate_pos]. rewrite Hn, nodes_zero.
  split_and!; auto.
  - apply htab_wf_zero.
  - constructor.
  - lia.
Qed.

Lemma hm_wf_size (hm : HMap Node) :
  hm_wf hcode hm -> size (newer hm) + size (older hm) = Z.of_nat (length (stored hm)).
Proof.
  intros (Hn & Ho & _). unfold stored. rewrite length_app.
  rewrite (htab_wf_size hcode _ Hn), (htab_wf_size hcode _ Ho). lia.
Qed.

(** X10: starting from [hm_init], every sequence of lookups, deletions and
    insertions of nodes that are not in the map and whose key is not in
    the map returns: no assertion fails, no null table or empty slot is
    dereferenced.  Afterwards the two [size] fields add up to the number
    of nodes in the chains, no node is chained twice, and no two nodes
    carry the same key. *)
Theorem runs_from_the_empty_map_are_safe (ops : list (@op Node)) :
  admissible hcode eq [] ops ->
  exists hm0 hm',
    hm_init = Some hm0 /\ run hcode eq hm0 ops = Some hm' /\
    hm_wf hcode hm' /\
    size (newer hm') + size (older hm') = Z.of_nat (length (stored hm')) /\
    NoDup (stored hm') /\ keys_distinct hcode eq (stored hm').
Proof.
  intros Hadm. destruct hm_init_wf as (hm0 & Hi & Hwf & Hst & _).
  assert (Hkd : keys_distinct hcode eq (stored hm0)).
  { rewrite Hst. intros key n1 n2 H. inversion H. }
  rewrite <- Hst in Hadm.
  destruct (run_spec hcode eq ops hm0 Hwf Hkd Hadm) as (hm' & Hr & Hwf' & Hkd' & _).
  exists hm0, hm'. split_and!; auto.
  - apply hm_wf_size. assumption.
  - destruct Hwf' as (_ & _ & Hnd & _). exact Hnd.
Qed.

(** X11: [hm_delete] on a well-formed map with distinct keys returns the
    node that carries the key, or null when no node does; the nodes left
    in the map are the others, and a lookup of the key right afterwards
    finds nothing. *)
Theorem deleted_key_is_gone (hm : HMap Node) (key : Node) :
  hm_wf hcode hm -> keys_distinct hcode eq (stored hm) ->
  exists hm' r hm'',
    hm_delete hcode eq hm key = Some (hm', r) /\ hm_wf hcode hm' /\
    match r with
    | Some n => matches hcode eq key n = true /\ stored hm ≡ₚ n :: stored hm'
    | None => (forall n, n ∈ stored hm -> matches hcode eq key n = false) /\
              stored hm ≡ₚ stored hm'
    end /\
    hm_lookup hcode eq hm' key = Some (hm'', None).
Proof.
  intros Hwf Hkd.
  destruct (hm_delete_spec hcode eq hm key Hwf)
    as (hm1 & hm' & r & mv & Hd & Hwf' & _ & _ & Hmv & Hres & Hr).
  pose proof (moves_stored _ _ _ Hmv) as Hp1.
  assert (Hperm : stored hm ≡ₚ match r with Some n => n :: stored hm' | None => stored hm' end).
  { destruct r as [n|].
    - rewrite <- Hp1. apply detached_stored. assumption.
    - subst hm'. symmetry. assumption. }
  assert (Hnone : forall n, n ∈ stored hm' -> matches hcode eq key n = false).
  { intros n Hn. destruct r as [d|].
    - destruct Hres as [Hd1 Hd2].
      destruct (matches hcode eq key n) eqn:E; [|reflexivity]. exfalso.
      assert (Hin : n ∈ stored hm) by (rewrite Hperm; apply elem_of_cons; auto).
      pose proof (Hkd key n d Hin Hd1 E Hd2). subst d.
      destruct Hwf as (_ & _ & Hnd & _). rewrite Hperm in Hnd.
      apply NoDup_cons in Hnd as [Hnd _]. contradiction.
    - apply Hres. rewrite Hperm. assumption. }
  destruct (hm_lookup_spec hcode eq hm' key Hwf')
    as (hm'' & r2 & mv2 & Hl & _ & _ & _ & _ & Hres2).
  assert (r2 = None) as ->.
  { destruct r2 as [n2|]; [|reflexivity]. destruct Hres2 as [H1 H2].
    rewrite (Hnone n2 H1) in H2. discriminate. }
  exists hm', r, hm''. split_and!; auto.
  destruct r as [n|]; [destruct Hres|]; auto.
Qed.

End Facts.

Lemma runs_from_the_empty_map_are_safe_witness :
  let ops := [OpInsert 1; OpInsert 5; OpLookup 7; OpDelete 1; OpInsert 9] in
  exists hm0 hm',
    hm_init = Some hm0 /\
    run HashTableExample.hcode HashTableExample.eq hm0 ops = Some hm' /\
    hm_wf HashTableExample.hcode hm' /\
    size (newer hm') + size (older hm') = Z.of_nat (length (stored hm')) /\
    NoDup (stored hm') /\
    keys_distinct HashTableExample.hcode HashTableExample.eq (stored hm').
Proof.
  apply (runs_from_the_empty_map_are_safe HashTableExample.hcode HashTableExample.eq).
  assert (F : forall x l, bool_decide (x ∈ l) = false ->
                (x ∉ l) /\ key_fresh HashTableExample.hcode HashTableExample.eq l x).
  { intros x l H. split; [|apply HashTableExample.key_fresh_any];
      apply HashTableExample.not_elem_of_dec; assumption. }
  cbn. split_and!; try apply F; try reflexivity; exact I.
Defined.

Lemma deleted_key_is_gone_witness :
  exists hm' r hm'',
    hm_delete HashTableExample.hcode HashTableExample.eq HashTableExample.mid 5
    = Some (hm', r) /\
    hm_wf HashTableExample.hcode hm' /\
    match r with
    | Some n => matches HashTableExample.hcode HashTableExample.eq 5 n = true /\
                stored HashTableExample.mid ≡ₚ n :: stored hm'
    | None => (forall n, n ∈ stored HashTableExample.mid ->
                         matches HashTableExample.hcode HashTableExample.eq 5 n = false) /\
              stored HashTableExample.mid ≡ₚ stored hm'
    end /\
    hm_lookup HashTableExample.hcode HashTableExample.eq hm' 5 = Some (hm'', None).
Proof.
  apply (deleted_key_is_gone HashTableExample.hcode HashTableExample.eq HashTableExample.mid 5).
  - exact HashTableExample.mid_wf.
  - apply HashTableExample.keys_distinct_any.
Defined.

End HashTableMoreFacts.

(** ** The [resizing_pos] table: an insert during a resize *)

Module HashTableResizingMoreFacts.

Import HashTable HashTableFacts.
Module R := HashTableResizing.

Section Facts.
Context {Node : Type}.
Variable hcode : Node -> Z.

Lemma h_insert_fields (ht ht' : HTab Node) (x : Node) :
  h_insert hcode ht x = Some ht' ->
  tab ht' <> None /\ mask ht' = mask ht /\ size ht' = size ht + 1.
Proof.
  unfold h_insert. destruct (tab ht) as [t|]; [|discriminate]. simpl.
  destruct (t !! slot_of hcode ht x) as [chain|]; [|discriminate]. simpl.
  intros H. inversion H; subst ht'. simpl. split_and!; auto; discriminate.
Qed.

Lemma move_chain_tab (chain : list Node) :
  forall ht ht', R.move_chain hcode chain ht = Some ht' ->
                 tab ht <> None -> tab ht' <> None.
Proof.
  induction chain as [|n chain IH]; intros ht ht' H Ht; simpl in H.
  - inversion H; subst. assumption.
  - destruct (h_insert hcode ht n) as [ht1|] eqn:Hi; [|discriminate]. simpl in H.
    apply (IH _ _ H). apply (h_insert_fields _ _ _ Hi).
Qed.

(** The loop empties slots of [newer] and leaves its [mask] and its [size]
    as they are. *)
Lemma help_loop_keeps (todo : nat) :
  forall hm hm1,
    R.help_loop hcode todo hm = Some hm1 -> tab (R.older hm) <> None ->
    tab (R.older hm1) <> None /\
    mask (R.newer hm1) = mask (R.newer hm) /\ size (R.newer hm1) = size (R.newer hm) /\
    (tab (R.newer hm) <> None -> tab (R.newer hm1) <> None) /\
    R.resizing_pos hm <= R.resizing_pos hm1 <= R.resizing_pos hm + Z.of_nat todo.
Proof.
  induction todo as [|todo IH]; intros hm hm1 H Ho; simpl in H.
  - inversion H; subst hm1. split_and!; auto; lia.
  - destruct (R.resizing_pos hm <=? mask (R.newer hm)).
    2:{ inversion H; subst hm1. split_and!; auto; lia. }
    destruct (tab (R.newer hm)) as [t|] eqn:Ht; [|discriminate]. simpl in H.
    destruct (t !! Z.to_nat (R.resizing_pos hm)) as [chain|]; [|discriminate]. simpl in H.
    destruct (R.move_chain hcode chain (R.older hm)) as [older'|] eqn:Hm; [|discriminate].
    simpl in H. apply IH in H; [|simpl; eapply move_chain_tab; eauto].
    simpl in H. destruct H as (H1 & H2 & H3 & H4 & H5).
    split_and!; auto; try lia.
Qed.

(** X12: in the [resizing_pos] variant an insert cannot be made while a
    resize is under way, unless deletions have brought the size of the
    table being drained below twice its capacity again: if the resize
    cannot finish within this call (more than 64 slots are left) and the
    size, which moving nodes does not decrease, is still at the threshold,
    [hm_insert] fails the assertion of [hm_start_resizing]. *)
Theorem insert_during_unfinished_resize_fails (hm : R.HMap Node) (x : Node) :
  tab (R.older hm) <> None ->
  0 <= R.resizing_pos hm -> R.resizing_pos hm + 64 <= mask (R.newer hm) ->
  2 * (mask (R.newer hm) + 1) <= size (R.newer hm) + 1 ->
  R.hm_insert hcode hm x = None.
Proof.
  intros Ho Hpos Hleft Hsize. unfold R.hm_insert, R.hm_help_rehashing.
  destruct (tab (R.older hm)) as [to|] eqn:Eo; [|congruence].
  destruct (R.help_loop hcode 64 hm) as [hm1|] eqn:Hl; [|reflexivity].
  cbn [mbind option_bind].
  assert (Ho' : tab (R.older hm) <> None) by (rewrite Eo; discriminate).
  destruct (help_loop_keeps 64 hm hm1 Hl Ho') as (H1 & H2 & H3 & _ & H5).
  replace (mask (R.newer hm1) <? R.resizing_pos hm1) with false
    by (symmetry; apply Z.ltb_ge; lia).
  cbn [mbind option_bind]. unfold R.hm_primary.
  destruct (h_insert hcode (R.newer hm1) x) as [newer'|] eqn:Hi; [|reflexivity].
  cbn [mbind option_bind].
  destruct (h_insert_fields _ _ _ Hi) as (Ht & Hm & Hs).
  unfold R.hm_maybe_start_resizing, R.hm_primary. cbn [R.newer R.older R.resizing_pos].
  replace ((mask newer' + 1) * 2 <=? size newer') with true
    by (symmetry; apply Z.leb_le; lia).
  unfold R.hm_start_resizing. cbn [R.newer R.older].
  destruct (tab (R.older hm1)); [|congruence].
  destruct (tab newer'); reflexivity.
Qed.

End Facts.

(** The map after the 256 inserts of [MigrationBound.loaded]: 128 slots
    and 256 nodes, and a table of 256 slots that has just been set up. *)
Definition resizing_128 : R.HMap Z :=
  default (R.mkHMap HTab_zero HTab_zero 0) MigrationBound.loaded.

Example resizing_128_fields :
  option_map (fun hm => (mask (R.newer hm), size (R.newer hm), mask (R.older hm),
                         size (R.older hm), R.resizing_pos hm))
             MigrationBound.loaded
  = Some (127, 256, 255, 0, 0).
Proof. vm_compute. reflexivity. Qed.

Lemma insert_during_unfinished_resize_fails_witness :
  R.hm_insert MigrationBound.hcode resizing_128 256 = None.
Proof.
  apply (insert_during_unfinished_resize_fails MigrationBound.hcode resizing_128 256).
  - vm_compute. discriminate.
  - vm_compute. discriminate.
  - vm_compute. discriminate.
  - vm_compute. discriminate.
Defined.

End HashTableResizingMoreFacts.

(** ** The tree: height, iteration, search and delete *)

Module AvlMoreFacts.

Import Avl AvlIter AvlFacts.

(** A balanced tree of height [h] holds at least [2 ^ (h / 2) - 1] nodes. *)
Lemma balanced_height_bound (t : tree) :
  balanced t -> 2 ^ (theight t / 2) <= tsize t + 1.
Proof.
  induction t as [|l IHl a r IHr]; [intros _; vm_compute; discriminate|].
  intros (Hd & Hl & Hr). specialize (IHl Hl). specialize (IHr Hr).
  pose proof (theight_nonneg l). pose proof (theight_nonneg r).
  change (theight (Node l a r)) with (1 + Z.max (theight l) (theight r)).
  change (tsize (Node l a r)) with (1 + tsize l + tsize r).
  set (m := Z.min (theight l) (theight r)).
  assert (Hm : 2 ^ (m / 2) <= tsize l + 1 /\ 2 ^ (m / 2) <= tsize r + 1).
  { split; (etransitivity; [|eassumption]); apply Z.pow_le_mono_r; try lia;
      apply Z.div_le_mono; lia. }
  assert (Hs : 2 ^ ((1 + Z.max (theight l) (theight r)) / 2) <= 2 ^ ((m + 1 * 2) / 2)).
  { apply Z.pow_le_mono_r; [lia|]. apply Z.div_le_mono; lia. }
  rewrite Z.div_add in Hs by lia.
  rewrite Z.pow_add_r in Hs by (try apply Z.div_pos; lia).
  change (2 ^ 1) with 2 in Hs. lia.
Qed.

Lemma repr_height_bound (t : tree) :
  forall h par a, repr h par t -> balanced t -> a ∈ inorder t ->
    exists nd, h !! a = Some nd /\ 2 ^ (height nd / 2) <= cnt nd + 1.
Proof.
  induction t as [|l IHl x r IHr]; intros h par a Hr Hb Ha; [inversion Ha|].
  pose proof Hr as (nd & H1 & H2 & H3 & H4 & H5 & H6 & H7 & H8).
  pose proof Hb as (_ & Hbl & Hbr).
  rewrite elem_of_inorder_node in Ha. destruct Ha as [Ha|[->|Ha]].
  - eapply IHl; eauto.
  - exists nd. split; [assumption|]. rewrite H5, H6. apply balanced_height_bound. assumption.
  - eapply IHr; eauto.
Qed.

(** The leftmost node of a tree comes first in order. *)
Lemma leftmost_first (h : heap) (par : ptr) (t : tree) (a : positive) (fuel : nat) :
  repr h par t -> root_of t = Some a -> (Z.to_nat (theight t) <= S fuel)%nat ->
  exists s rest, leftmost fuel h a = Some s /\ inorder t = s :: rest.
Proof.
  intros Hr Ha Hfuel.
  destruct (spine_spec t []) as (s & sr & c' & Hsp & Hplug & Hbef).
  { destruct t; discriminate. }
  exists s, (inorder sr ++ ctx_after c'). split.
  - exact (leftmost_spec t [] h par fuel a s sr c' Hr Ha Hsp Hfuel).
  - simpl in Hplug, Hbef. rewrite <- Hplug, inorder_plug, Hbef. reflexivity.
Qed.

(** The walk up of [avl_next]: the first node after the hole. *)
Lemma climb_spec (c : ctx) :
  forall fuel h n par,
    ctx_repr h (Some n) c par -> NoDup (n :: ctx_addrs c) -> (length c <= fuel)%nat ->
    climb fuel h n par = Some (head (ctx_after c)).
Proof.
  induction c as [|f c IH]; intros fuel h n par Hc Hnd Hfuel.
  - simpl in Hc. subst par. destruct fuel; reflexivity.
  - apply NoDup_cons in Hnd as [Hn Hnd]. rewrite ctx_addrs_cons in Hn, Hnd.
    cbn [length] in Hfuel.
    destruct f as [p sib|sib p]; cbn [ctx_repr] in Hc;
      destruct Hc as (-> & pn & P1 & P2 & P3 & P4 & P5); cbn [frame_addrs] in Hn, Hnd.
    + destruct fuel; cbn [climb]; rewrite P1; cbn [mbind option_bind];
        (rewrite bool_decide_eq_false_2;
         [reflexivity|
          rewrite P3; apply root_not_in; intros Hin; apply Hn;
          apply elem_of_app; left; apply elem_of_cons; auto]).
    + destruct fuel as [|fuel]; [lia|]. cbn [climb]. rewrite P1. cbn [mbind option_bind].
      rewrite bool_decide_eq_true_2 by assumption.
      rewrite (IH fuel h p (parent pn) P5); [reflexivity| |lia].
      simpl in Hnd. apply NoDup_cons in Hnd as [Hp Hnd]. apply NoDup_cons. split.
      * intros Hin. apply Hp. apply elem_of_app. auto.
      * apply NoDup_app in Hnd as (_ & _ & ?). assumption.
Qed.

Lemma avl_first_spec (h : heap) (t : tree) :
  repr h None t -> NoDup (inorder t) ->
  avl_first h (root_of t) = Some (head (inorder t)).
Proof.
  intros Hr Hnd. destruct t as [|l a r]; [reflexivity|].
  pose proof (theight_le_size h None _ Hr Hnd).
  destruct (leftmost_first h None (Node l a r) a (size h) Hr eq_refl) as (s & rest & Hl & Hi);
    [lia|].
  cbn [root_of avl_first]. rewrite Hl, Hi. reflexivity.
Qed.

Lemma avl_next_spec (h : heap) (t : tree) (i : nat) (n : positive) :
  repr h None t -> NoDup (inorder t) -> inorder t !! i = Some n ->
  avl_next h (Some n) = Some (inorder t !! S i).
Proof.
  intros Hr Hnd Hi.
  destruct (find_node t n (list_elem_of_lookup_2 _ _ _ Hi)) as (l & r & c & ->).
  pose proof (focus_index c l n r i Hnd Hi) as ->.
  destruct (plug_size_bounds h c _ Hr Hnd) as [Hc Hh].
  destruct (repr_plug_inv _ h (Node l n r) Hr) as (par & Hu & Hctx).
  pose proof Hu as (nd & H1 & H2 & H3 & H4 & H5 & H6 & H7 & H8).
  pose proof Hnd as Hnd'. apply NoDup_plug in Hnd'.
  apply NoDup_app in Hnd' as (Nt & Hdisj & Nc).
  destruct (NoDup_node _ _ _ Nt) as (_ & Nr & _).
  assert (Hidx : inorder (plug (Node l n r) c) !! S (length (ctx_before c) + length (inorder l))
                 = head (inorder r ++ ctx_after c)).
  { rewrite inorder_plug. cbn [inorder].
    replace (ctx_before c ++ (inorder l ++ n :: inorder r) ++ ctx_after c)
      with ((ctx_before c ++ inorder l ++ [n]) ++ inorder r ++ ctx_after c)
      by (rewrite <- !app_assoc; reflexivity).
    rewrite lookup_app_r by (rewrite !length_app; simpl; lia).
    replace (S (length (ctx_before c) + length (inorder l))
             - length (ctx_before c ++ inorder l ++ [n]))%nat with 0%nat
      by (rewrite !length_app; simpl; lia).
    destruct (inorder r ++ ctx_after c); reflexivity. }
  rewrite Hidx. unfold avl_next. rewrite H1. cbn [mbind option_bind]. rewrite H4.
  destruct r as [|rl ra rr].
  - cbn [root_of inorder app]. rewrite H2.
    cbn [root_of] in Hctx.
    apply (climb_spec c (size h) h n par Hctx); [|assumption].
    apply NoDup_cons. split; [|assumption].
    apply Hdisj. rewrite elem_of_inorder_node. auto.
  - cbn [root_of].
    pose proof (theight_le_size h (Some n) _ H8 Nr).
    destruct (leftmost_first h (Some n) (Node rl ra rr) ra (size h) H8 eq_refl)
      as (s & rest & Hl & Hi'); [lia|].
    rewrite Hl, Hi'. reflexivity.
Qed.

(** The search of [avl_search_and_delete] in a subtree: [Some x] when the
    loop ends at a node [x] with [cmp x = 0], [None] when it runs off the
    tree. *)
Fixpoint search (cmp : positive -> Z) (t : tree) : option positive :=
  match t with
  | Leaf => None
  | Node l a r =>
      if cmp a <? 0 then search cmp r
      else if 0 <? cmp a then search cmp l
      else Some a
  end.

Lemma search_elem (cmp : positive -> Z) (t : tree) (x : positive) :
  search cmp t = Some x -> x ∈ inorder t /\ cmp x = 0.
Proof.
  induction t as [|l IHl a r IHr]; [discriminate|]. cbn [search].
  rewrite elem_of_inorder_node.
  destruct (Z.ltb_spec (cmp a) 0); [intros H'; destruct (IHr H'); auto|].
  destruct (Z.ltb_spec 0 (cmp a)); [intros H'; destruct (IHl H'); auto|].
  intros E. inversion E; subst. split; [auto|lia].
Qed.

Lemma search_loop_spec (cmp : positive -> Z) (t : tree) :
  forall fuel h root par,
    repr h par t -> (Z.to_nat (theight t) < fuel)%nat ->
    search_and_delete_loop fuel h root cmp (root_of t)
    = match search cmp t with
      | Some x => '(h', root') ← avl_del h x; Some (h', root', Some x)
      | None => Some (h, root, None)
      end.
Proof.
  induction t as [|l IHl a r IHr]; intros fuel h root par Hr Hfuel.
  - destruct fuel; reflexivity.
  - destruct Hr as (nd & H1 & H2 & H3 & H4 & H5 & H6 & H7 & H8).
    pose proof (theight_nonneg l). pose proof (theight_nonneg r).
    change (theight (Node l a r)) with (1 + Z.max (theight l) (theight r)) in Hfuel.
    destruct fuel as [|fuel]; [lia|].
    cbn [root_of search_and_delete_loop search]. rewrite H1. cbn [mbind option_bind].
    destruct (cmp a <? 0).
    + rewrite H4. apply (IHr fuel h root (Some a) H8). lia.
    + destruct (0 <? cmp a).
      * rewrite H3. apply (IHl fuel h root (Some a) H7). lia.
      * reflexivity.
Qed.

Section Order.
Variable less : positive -> positive -> bool.
Hypothesis less_trans : forall a b c, lt less a b -> lt less b c -> lt less a c.
Hypothesis less_irrefl : forall a, ~ lt less a a.

Lemma avl_inv_NoDup (h : heap) (root : ptr) (t : tree) :
  avl_inv less h root t -> NoDup (inorder t).
Proof.
  intros (_ & _ & _ & Hs). apply (strongly_sorted_NoDup less less_irrefl).
  apply (sorted_strongly less less_trans). assumption.
Qed.

(** X13: the height of a tree that satisfies the AVL invariants is
    logarithmic in its size: at every node, the [height] and [cnt] fields
    satisfy [2 ^ (height / 2) <= cnt + 1], so that a descent from the root
    of a tree of n nodes visits at most [2 * log2 (n + 1) + 1] nodes. *)
Theorem height_is_logarithmic (h : heap) (root : ptr) (t : tree) :
  avl_inv less h root t ->
  forall a, a ∈ inorder t ->
    exists nd, h !! a = Some nd /\ 2 ^ (height nd / 2) <= cnt nd + 1.
Proof.
  intros (_ & Hr & Hb & _) a Ha. eapply repr_height_bound; eauto.
Qed.

(** X14: [avl_first] returns the first node of the in-order sequence
    (null for the empty tree), and [avl_next] of the node at position [i]
    returns the node at position [i + 1], null after the last one: the two
    walk the tree in increasing order. *)
Theorem first_and_next_walk_in_order (h : heap) (root : ptr) (t : tree) :
  avl_inv less h root t ->
  avl_first h root = Some (head (inorder t)) /\
  (forall i n, inorder t !! i = Some n -> avl_next h (Some n) = Some (inorder t !! S i)).
Proof.
  intros Hinv. pose proof (avl_inv_NoDup h root t Hinv) as Hnd.
  destruct Hinv as (-> & Hr & _ & _). split.
  - apply avl_first_spec; assumption.
  - intros i n Hi. apply (avl_next_spec h t i n Hr Hnd Hi).
Qed.

(** X15: walking by offsets composes, and agrees with ranks and with
    [avl_next]: if [avl_offset] from [n] by [a] reaches [m], then the rank
    of [m] is the rank of [n] plus [a], a further offset [b] from [m] gives
    what the offset [a + b] from [n] gives, and [avl_next] is the offset
    1. *)
Theorem offsets_compose (h : heap) (root : ptr) (t : tree)
    (n m : positive) (a : Z) :
  avl_inv less h root t -> n ∈ inorder t ->
  avl_offset h (Some n) a = Some (Some m) ->
  (exists r, avl_rank h (Some n) = Some r /\ avl_rank h (Some m) = Some (r + a)) /\
  (forall b, avl_offset h (Some m) b = avl_offset h (Some n) (a + b)) /\
  avl_next h (Some n) = avl_offset h (Some n) 1.
Proof.
  intros Hinv Hn Hoff. pose proof (avl_inv_NoDup h root t Hinv) as Hnd.
  destruct Hinv as (_ & Hr & _ & _).
  apply list_elem_of_lookup in Hn as (i & Hi).
  rewrite (avl_offset_spec h t i n a Hr Hnd Hi) in Hoff.
  assert (Hm : exists j, inorder t !! j = Some m /\ Z.of_nat j = Z.of_nat i + a).
  { unfold nth_ptr in Hoff. destruct (Z.ltb_spec (Z.of_nat i + a) 0); [discriminate|].
    exists (Z.to_nat (Z.of_nat i + a)). split; [congruence|lia]. }
  destruct Hm as (j & Hj & Hij). split_and!.
  - exists (Z.of_nat i). rewrite (avl_rank_spec h t i n Hr Hnd Hi).
    rewrite (avl_rank_spec h t j m Hr Hnd Hj). split; [reflexivity|]. f_equal. lia.
  - intros b. rewrite (avl_offset_spec h t j m b Hr Hnd Hj).
    rewrite (avl_offset_spec h t i n (a + b) Hr Hnd Hi). do 2 f_equal. lia.
  - rewrite (avl_next_spec h t i n Hr Hnd Hi), (avl_offset_spec h t i n 1 Hr Hnd Hi).
    f_equal. replace (Z.of_nat i + 1) with (Z.of_nat (S i)) by lia.
    symmetry. apply nth_ptr_lookup.
Qed.

(** The comparison [cmp] of a search key with the nodes goes along with
    the order of the tree: once it is not negative, it is positive on
    every later node. *)
Definition follows_order (cmp : positive -> Z) : Prop :=
  forall a b, lt less a b -> 0 <= cmp a -> 0 < cmp b.

Lemma search_complete (cmp : positive -> Z) (t : tree) (x : positive) :
  follows_order cmp -> StronglySorted (lt less) (inorder t) ->
  x ∈ inorder t -> cmp x = 0 -> search cmp t = Some x.
Proof.
  intros Hcmp. induction t as [|l IHl a r IHr]; intros Hs Hx Hz; [inversion Hx|].
  cbn [inorder] in Hs. apply StronglySorted_app in Hs as (Hlr & Hsl & Hsr).
  apply StronglySorted_cons in Hsr as [Har Hsr]. rewrite Forall_forall in Har.
  cbn [search]. rewrite elem_of_inorder_node in Hx.
  assert (Hla : forall b, b ∈ inorder l -> lt less b a).
  { intros b Hb. apply Hlr; [assumption|apply elem_of_cons; auto]. }
  destruct (Z.ltb_spec (cmp a) 0) as [Hneg|Hnn].
  - destruct Hx as [Hx|[->|Hx]]; [|lia|auto].
    pose proof (Hcmp x a (Hla x Hx)). lia.
  - destruct (Z.ltb_spec 0 (cmp a)) as [Hpos|Hnp].
    + destruct Hx as [Hx|[->|Hx]]; [auto|lia|].
      pose proof (Hcmp a x (Har x Hx)). lia.
    + destruct Hx as [Hx|[->|Hx]]; [|reflexivity|].
      * pose proof (Hcmp x a (Hla x Hx)). lia.
      * pose proof (Hcmp a x (Har x Hx)). lia.
Qed.

(** X16: [avl_search_and_delete] with a comparison that goes along with
    the order of the tree: if a node compares equal to the key it is
    detached and returned, and what is left is a tree that satisfies the
    invariants with the other nodes in it; if none does, null is returned
    and neither the tree nor the root pointer changes. *)
Theorem search_and_delete_removes_the_match (h : heap) (root : ptr) (t : tree)
    (cmp : positive -> Z) :
  avl_inv less h root t -> fits t -> follows_order cmp ->
  (forall x, x ∈ inorder t -> cmp x = 0 ->
     exists h' root' t',
       avl_search_and_delete h root cmp = Some (h', root', Some x) /\
       avl_inv less h' root' t' /\ (x :: inorder t' ≡ₚ inorder t)) /\
  ((forall x, x ∈ inorder t -> cmp x <> 0) ->
     avl_search_and_delete h root cmp = Some (h, root, None)).
Proof.
  intros Hinv Hfit Hcmp. pose proof (avl_inv_NoDup h root t Hinv) as Hnd.
  pose proof Hinv as (Hroot & Hr & _ & Hs).
  apply (sorted_strongly less less_trans) in Hs.
  pose proof (theight_le_size h None t Hr Hnd) as Hh.
  assert (Hloop : avl_search_and_delete h root cmp
                  = match search cmp t with
                    | Some x => '(h', root') ← avl_del h x; Some (h', root', Some x)
                    | None => Some (h, root, None)
                    end).
  { unfold avl_search_and_delete. rewrite Hroot.
    apply (search_loop_spec cmp t (S (size h)) h (root_of t) None Hr). lia. }
  split.
  - intros x Hx Hz. rewrite Hloop, (search_complete cmp t x Hcmp Hs Hx Hz).
    destruct (delete_keeps_inv less less_trans less_irrefl h root t x Hinv Hx Hfit)
      as (h' & root' & t' & Hd & Hinv' & Hp).
    rewrite Hd. cbn [mbind option_bind]. exists h', root', t'. auto.
  - intros Hno. rewrite Hloop. destruct (search cmp t) as [x|] eqn:E; [|reflexivity].
    destruct (search_elem cmp t x E) as [Hx Hz]. exfalso. exact (Hno x Hx Hz).
Qed.

End Order.

Import AvlExample.

Lemma height_is_logarithmic_witness :
  exists nd, h0 !! 2%positive = Some nd /\ 2 ^ (height nd / 2) <= cnt nd + 1.
Proof.
  apply (height_is_logarithmic Pos.ltb h0 (Some 2%positive) t0 h0_inv 2%positive).
  apply list_elem_of_In. simpl. auto.
Defined.

Lemma first_and_next_walk_in_order_witness :
  avl_first h0 (Some 2%positive) = Some (head (inorder t0)) /\
  (forall i n, inorder t0 !! i = Some n -> avl_next h0 (Some n) = Some (inorder t0 !! S i)).
Proof.
  exact (first_and_next_walk_in_order Pos.ltb ltb_trans ltb_irrefl
           h0 (Some 2%positive) t0 h0_inv).
Defined.

Lemma offsets_compose_witness :
  (exists r, avl_rank h0 (Some 1%positive) = Some r /\
             avl_rank h0 (Some 3%positive) = Some (r + 2)) /\
  (forall b, avl_offset h0 (Some 3%positive) b = avl_offset h0 (Some 1%positive) (2 + b)) /\
  avl_next h0 (Some 1%positive) = avl_offset h0 (Some 1%positive) 1.
Proof.
  apply (offsets_compose Pos.ltb ltb_trans ltb_irrefl h0 (Some 2%positive) t0
           1%positive 3%positive 2 h0_inv).
  - apply list_elem_of_In. simpl. auto.
  - reflexivity.
Defined.

(** The comparison of the nodes with the key 3. *)
Definition cmp_3 (a : positive) : Z := Z.pos a - 3.

Lemma cmp_3_follows_order : follows_order Pos.ltb cmp_3.
Proof.
  intros a b Hab Ha. unfold lt in Hab. apply Pos.ltb_lt in Hab. unfold cmp_3 in *. lia.
Qed.

Lemma search_and_delete_removes_the_match_witness :
  (forall x, x ∈ inorder t0 -> cmp_3 x = 0 ->
     exists h' root' t',
       avl_search_and_delete h0 (Some 2%positive) cmp_3 = Some (h', root', Some x) /\
       avl_inv Pos.ltb h' root' t' /\ (x :: inorder t' ≡ₚ inorder t0)) /\
  ((forall x, x ∈ inorder t0 -> cmp_3 x <> 0) ->
     avl_search_and_delete h0 (Some 2%positive) cmp_3 = Some (h0, Some 2%positive, None)).
Proof.
  apply (search_and_delete_removes_the_match Pos.ltb ltb_trans ltb_irrefl
           h0 (Some 2%positive) t0 cmp_3 h0_inv).
  - unfold fits. simpl. lia.
  - exact cmp_3_follows_order.
Defined.

Example search_and_delete_3_evaluated :
  snd <$> avl_search_and_delete h0 (Some 2%positive) cmp_3 = Some (Some 3%positive).
Proof. vm_compute. reflexivity. Qed.

End AvlMoreFacts.

(** ** The ordered set: comparisons and seek *)

Module ZSetOrderFacts.

Import Avl AvlFacts ZSet.

Definition byte_val (b : byte) : Z := Z.of_N (Byte.to_N b).

Lemma byte_val_inj (x y : byte) : byte_val x = byte_val y -> x = y.
Proof.
  unfold byte_val. intros H. apply N2Z.inj in H.
  pose proof (Byte.of_to_N x) as Hx. rewrite H, Byte.of_to_N in Hx. congruence.
Qed.

(** The order of [memcmp] followed by the comparison of the lengths:
    byte strings in lexicographic order, bytes as unsigned numbers. *)
Fixpoint lexlt (a b : list byte) : bool :=
  match a, b with
  | [], [] => false
  | [], _ :: _ => true
  | _ :: _, [] => false
  | x :: a', y :: b' =>
      if byte_val x <? byte_val y then true
      else if byte_val y <? byte_val x then false
      else lexlt a' b'
  end.

Lemma memcmp_lexlt (a : list byte) :
  forall b,
    (let minlen := if (length a <? length b)%nat then length a else length b in
     let rv := memcmp a b minlen in
     if negb (rv =? 0) then rv <? 0 else (length a <? length b)%nat)
    = lexlt a b.
Proof.
  induction a as [|x a IH]; intros [|y b]; try reflexivity.
  specialize (IH b). cbn zeta in *. cbn [length lexlt].
  change (S (length a) <? S (length b))%nat with (length a <? length b)%nat.
  fold (byte_val x) (byte_val y).
  destruct (length a <? length b)%nat; cbn [memcmp]; fold (byte_val x) (byte_val y);
    (destruct (Z.eqb_spec (byte_val x - byte_val y) 0) as [E|E];
     [ replace (byte_val x <? byte_val y) with false by (symmetry; apply Z.ltb_ge; lia);
       replace (byte_val y <? byte_val x) with false by (symmetry; apply Z.ltb_ge; lia);
       exact IH
     | replace (byte_val x - byte_val y =? 0) with false by (symmetry; apply Z.eqb_neq; lia);
       cbn [negb];
       destruct (Z.ltb_spec (byte_val x) (byte_val y));
       [ apply Z.ltb_lt; lia
       | replace (byte_val y <? byte_val x) with true by (symmetry; apply Z.ltb_lt; lia);
         apply Z.ltb_ge; lia ] ]).
Qed.

Lemma lexlt_irrefl (a : list byte) : lexlt a a = false.
Proof.
  induction a as [|x a IH]; [reflexivity|]. cbn [lexlt].
  rewrite Z.ltb_irrefl. exact IH.
Qed.

Lemma lexlt_trans (a : list byte) :
  forall b c, lexlt a b = true -> lexlt b c = true -> lexlt a c = true.
Proof.
  induction a as [|x a IH]; intros [|y b] [|z c]; cbn [lexlt]; try congruence.
  destruct (Z.ltb_spec (byte_val x) (byte_val y)) as [Hxy|Hxy];
    destruct (Z.ltb_spec (byte_val y) (byte_val z)) as [Hyz|Hyz].
  - intros _ _. replace (byte_val x <? byte_val z) with true by (symmetry; apply Z.ltb_lt; lia).
    reflexivity.
  - destruct (Z.ltb_spec (byte_val z) (byte_val y)); [discriminate|].
    intros _ _. replace (byte_val x <? byte_val z) with true by (symmetry; apply Z.ltb_lt; lia).
    reflexivity.
  - destruct (Z.ltb_spec (byte_val y) (byte_val x)); [discriminate|].
    intros _ _. replace (byte_val x <? byte_val z) with true by (symmetry; apply Z.ltb_lt; lia).
    reflexivity.
  - destruct (Z.ltb_spec (byte_val y) (byte_val x)); [discriminate|].
    destruct (Z.ltb_spec (byte_val z) (byte_val y)); [discriminate|].
    replace (byte_val x <? byte_val z) with false by (symmetry; apply Z.ltb_ge; lia).
    replace (byte_val z <? byte_val x) with false by (symmetry; apply Z.ltb_ge; lia).
    apply IH.
Qed.

Lemma lexlt_total (a : list byte) :
  forall b, a <> b -> lexlt a b = true \/ lexlt b a = true.
Proof.
  induction a as [|x a IH]; intros [|y b] Hne; cbn [lexlt]; auto; try congruence.
  destruct (Z.ltb_spec (byte_val x) (byte_val y)); [auto|].
  destruct (Z.ltb_spec (byte_val y) (byte_val x)); [auto|].
  assert (x = y) as -> by (apply byte_val_inj; lia).
  apply IH. congruence.
Qed.

Lemma memcmp_eq (a : list byte) :
  forall b, length a = length b -> (memcmp a b (length a) =? 0) = true <-> a = b.
Proof.
  induction a as [|x a IH]; intros [|y b] Hl; try discriminate.
  - simpl. tauto.
  - cbn [length memcmp]. fold (byte_val x) (byte_val y).
    destruct (Z.eqb_spec (byte_val x - byte_val y) 0) as [E|E].
    + assert (x = y) as -> by (apply byte_val_inj; lia).
      rewrite IH by (simpl in Hl; lia). split; congruence.
    + split; [intros H; apply Z.eqb_eq in H; lia|].
      intros H. inversion H; subst. lia.
Qed.

(** The first element of a list that is not below the key. *)
Fixpoint find_ge {A} (p : A -> bool) (l : list A) : option A :=
  match l with
  | [] => None
  | x :: l' => if p x then find_ge p l' else Some x
  end.

Lemma find_ge_app {A} (p : A -> bool) (l1 l2 : list A) :
  find_ge p (l1 ++ l2)
  = match find_ge p l1 with Some x => Some x | None => find_ge p l2 end.
Proof.
  induction l1 as [|x l1 IH]; [reflexivity|]. simpl. destruct (p x); auto.
Qed.

Lemma find_ge_all_below {A} (p : A -> bool) (l : list A) :
  (forall y, y ∈ l -> p y = true) -> find_ge p l = None.
Proof.
  induction l as [|x l IH]; intros H; [reflexivity|]. simpl.
  rewrite (H x) by (apply elem_of_cons; auto). apply IH.
  intros y Hy. apply H. apply elem_of_cons. auto.
Qed.

Lemma find_ge_spec {A} (p : A -> bool) (l : list A) :
  match find_ge p l with
  | Some x => exists l1 l2, l = l1 ++ x :: l2 /\ p x = false /\
                            forall y, y ∈ l1 -> p y = true
  | None => forall y, y ∈ l -> p y = true
  end.
Proof.
  induction l as [|x l IH]; simpl; [intros y Hy; inversion Hy|].
  destruct (p x) eqn:E.
  - destruct (find_ge p l) as [z|].
    + destruct IH as (l1 & l2 & -> & Hz & Hl1). exists (x :: l1), l2. split_and!; auto.
      intros y Hy. apply elem_of_cons in Hy as [->|Hy]; auto.
    + intros y Hy. apply elem_of_cons in Hy as [->|Hy]; auto.
  - exists [], l. split_and!; auto. intros y Hy. inversion Hy.
Qed.

(** The loop of [zset_seekge]. *)
Fixpoint seek_loop (h : heap) (p : positive -> bool) (fuel : nat) (found cur : ptr)
  : option ptr :=
  match cur with
  | None => Some found
  | Some c =>
      match fuel with
      | O => None
      | S fuel' =>
          cn ← h !! c;
          if p c
          then seek_loop h p fuel' found (right cn)
          else seek_loop h p fuel' (Some c) (left cn)
      end
  end.

Lemma seek_loop_spec (less : positive -> positive -> bool) (p : positive -> bool)
    (h : heap) (t : tree) :
  (forall a b, lt less a b -> p b = true -> p a = true) ->
  forall fuel found par,
    repr h par t -> StronglySorted (lt less) (inorder t) ->
    (Z.to_nat (theight t) <= fuel)%nat ->
    seek_loop h p fuel found (root_of t)
    = Some (match find_ge p (inorder t) with Some x => Some x | None => found end).
Proof.
  intros Hp. induction t as [|l IHl a r IHr]; intros fuel found par Hr Hs Hfuel.
  - destruct fuel; reflexivity.
  - destruct Hr as (nd & H1 & H2 & H3 & H4 & H5 & H6 & H7 & H8).
    pose proof (theight_nonneg l). pose proof (theight_nonneg r).
    change (theight (Node l a r)) with (1 + Z.max (theight l) (theight r)) in Hfuel.
    destruct fuel as [|fuel]; [lia|].
    cbn [inorder] in Hs. apply StronglySorted_app in Hs as (Hlr & Hsl & Hsr).
    apply StronglySorted_cons in Hsr as [Har Hsr].
    cbn [root_of seek_loop inorder]. rewrite H1. cbn [mbind option_bind].
    rewrite find_ge_app. cbn [find_ge].
    destruct (p a) eqn:E.
    + rewrite H4, (IHr fuel found (Some a) H8 Hsr) by lia.
      rewrite (find_ge_all_below p (inorder l)); [reflexivity|].
      intros y Hy. apply (Hp y a); [|assumption].
      apply Hlr; [assumption|apply elem_of_cons; auto].
    + rewrite H3, (IHl fuel (Some a) (Some a) H7 Hsl) by lia.
      destruct (find_ge p (inorder l)); reflexivity.
Qed.

Lemma list_byte_of_string_inj (s s' : string) :
  list_byte_of_string s = list_byte_of_string s' -> s = s'.
Proof.
  intros H. rewrite <- (string_of_list_byte_of_string s), H.
  apply string_of_list_byte_of_string.
Qed.

Section Scores.
Context {Score : Type}.
Variable score_ne : Score -> Score -> bool.
Variable score_lt : Score -> Score -> bool.

Lemma zless_lexlt (sc : Score) (nm : string) (sc' : Score) (nm' : string) :
  zless score_ne score_lt sc nm sc' nm'
  = if score_ne sc sc' then score_lt sc sc'
    else lexlt (list_byte_of_string nm) (list_byte_of_string nm').
Proof.
  unfold zless. destruct (score_ne sc sc'); [reflexivity|].
  rewrite <- (memcmp_lexlt (list_byte_of_string nm) (list_byte_of_string nm')).
  rewrite !ProtocolFacts.length_list_byte_of_string. reflexivity.
Qed.

(** The scores are totally ordered by [<], and [!=] is the negation of
    equality: true of numbers, not of NaN. *)
Hypothesis ne_spec : forall a b, score_ne a b = false <-> a = b.
Hypothesis lt_irrefl : forall a, score_lt a a = false.
Hypothesis lt_trans : forall a b c, score_lt a b = true -> score_lt b c = true ->
                                    score_lt a c = true.
Hypothesis lt_total : forall a b, a <> b -> score_lt a b = true \/ score_lt b a = true.

Lemma zless_irrefl (sc : Score) (nm : string) : zless score_ne score_lt sc nm sc nm = false.
Proof.
  rewrite zless_lexlt. destruct (score_ne sc sc); [apply lt_irrefl|apply lexlt_irrefl].
Qed.

Lemma zless_trans (s1 : Score) (n1 : string) (s2 : Score) (n2 : string)
    (s3 : Score) (n3 : string) :
  zless score_ne score_lt s1 n1 s2 n2 = true ->
  zless score_ne score_lt s2 n2 s3 n3 = true ->
  zless score_ne score_lt s1 n1 s3 n3 = true.
Proof.
  rewrite !zless_lexlt.
  destruct (score_ne s1 s2) eqn:E12; destruct (score_ne s2 s3) eqn:E23;
    try (apply ne_spec in E12; subst s2); try (apply ne_spec in E23; subst s3).
  - intros H1 H2. pose proof (lt_trans _ _ _ H1 H2) as H13.
    destruct (score_ne s1 s3) eqn:E13; [assumption|].
    apply ne_spec in E13. subst s3. rewrite lt_irrefl in H13. discriminate.
  - rewrite E12. auto.
  - rewrite E23. auto.
  - assert (E : score_ne s1 s1 = false) by (apply ne_spec; reflexivity).
    rewrite E. apply lexlt_trans.
Qed.

Lemma zless_total (s1 : Score) (n1 : string) (s2 : Score) (n2 : string) :
  (s1, n1) <> (s2, n2) ->
  zless score_ne score_lt s1 n1 s2 n2 = true \/ zless score_ne score_lt s2 n2 s1 n1 = true.
Proof.
  intros Hne. rewrite !zless_lexlt.
  destruct (score_ne s1 s2) eqn:E12.
  - assert (Hs : s1 <> s2).
    { intros ->. assert (E : score_ne s2 s2 = false) by (apply ne_spec; reflexivity).
      congruence. }
    assert (E21 : score_ne s2 s1 = true).
    { destruct (score_ne s2 s1) eqn:E; [reflexivity|]. apply ne_spec in E. congruence. }
    rewrite E21. apply lt_total. assumption.
  - apply ne_spec in E12. subst s2.
    assert (E : score_ne s1 s1 = false) by (apply ne_spec; reflexivity).
    rewrite E. apply lexlt_total. intros H. apply list_byte_of_string_inj in H. congruence.
Qed.

(** X17: when the scores are totally ordered, the comparison of
    [zless_node] and [zless_key] is a strict total order on the pairs of a
    score and a name: by score first, then by the bytes of the names as
    unsigned numbers, a proper prefix before its extensions.  It is
    irreflexive and transitive, and of two different pairs one is less
    than the other. *)
Theorem zless_is_a_strict_total_order :
  (forall sc nm, zless score_ne score_lt sc nm sc nm = false) /\
  (forall s1 n1 s2 n2 s3 n3,
     zless score_ne score_lt s1 n1 s2 n2 = true ->
     zless score_ne score_lt s2 n2 s3 n3 = true ->
     zless score_ne score_lt s1 n1 s3 n3 = true) /\
  (forall s1 n1 s2 n2,
     (s1, n1) <> (s2, n2) ->
     zless score_ne score_lt s1 n1 s2 n2 = true \/
     zless score_ne score_lt s2 n2 s1 n1 = true) /\
  (forall sc nm nm',
     zless score_ne score_lt sc nm sc nm'
     = lexlt (list_byte_of_string nm) (list_byte_of_string nm')).
Proof.
  split_and!.
  - apply zless_irrefl.
  - apply zless_trans.
  - apply zless_total.
  - intros sc nm nm'. rewrite zless_lexlt.
    assert (E : score_ne sc sc = false) by (apply ne_spec; reflexivity).
    rewrite E. reflexivity.
Qed.

(** X18: [hcmp], the equality that the hash index is searched with, holds
    of a node and a key exactly when the name of the node is the name in
    the key, byte for byte; the score and the hash code play no part. *)
Theorem hcmp_is_name_equality (m : Mem Score) (a : positive) (zi : ZInfo Score)
    (hc : Z) (nm : string) :
  infos m !! a = Some zi ->
  (hcmp m (ZNodeHmap a) (HKeyNode hc nm) = true <-> name zi = nm).
Proof.
  intros Ha. unfold hcmp. rewrite Ha.
  destruct (Nat.eqb_spec (String.length (name zi)) (String.length nm)) as [El|El];
    cbn [negb].
  - rewrite <- (ProtocolFacts.length_list_byte_of_string (name zi)).
    rewrite memcmp_eq by (rewrite !ProtocolFacts.length_list_byte_of_string; assumption).
    split; [apply list_byte_of_string_inj|congruence].
  - split; [discriminate|]. intros E. rewrite E in El. contradiction.
Qed.

Lemma zless_node_trans (es : gmap positive (ZInfo Score)) (a b c : positive) :
  lt (zless_node score_ne score_lt es) a b -> lt (zless_node score_ne score_lt es) b c ->
  lt (zless_node score_ne score_lt es) a c.
Proof.
  unfold lt, zless_node.
  destruct (es !! a) as [za|]; [|discriminate].
  destruct (es !! b) as [zb|]; [|discriminate].
  destruct (es !! c) as [zc|]; [|discriminate].
  apply zless_trans.
Qed.

Lemma zless_key_down (es : gmap positive (ZInfo Score)) (sc : Score) (nm : string)
    (a b : positive) :
  lt (zless_node score_ne score_lt es) a b ->
  zless_key score_ne score_lt es b sc nm = true ->
  zless_key score_ne score_lt es a sc nm = true.
Proof.
  unfold lt, zless_node, zless_key.
  destruct (es !! a) as [za|]; [|discriminate].
  destruct (es !! b) as [zb|]; [|discriminate].
  apply zless_trans.
Qed.

Lemma zset_seekge_loop (m : Mem Score) (zs : ZSet) (sc : Score) (nm : string) :
  zset_seekge score_ne score_lt m zs sc nm
  = seek_loop (trees m) (fun a => zless_key score_ne score_lt (infos m) a sc nm)
              (size (trees m)) None (root zs).
Proof.
  unfold zset_seekge.
  generalize (size (trees m)) (@None positive) (root zs).
  intros fuel. induction fuel as [|fuel IH]; intros found cur; destruct cur as [c|];
    cbn [seek_loop]; try reflexivity.
  destruct (trees m !! c) as [cn|]; cbn [mbind option_bind]; [|reflexivity].
  destruct (zless_key score_ne score_lt (infos m) c sc nm); apply IH.
Qed.

(** X19: on a set whose tree satisfies the AVL invariants under
    [zless_node], [zset_seekge] returns the first node in order that is not
    less than the pair of [score] and [name]: every node before it is less
    than the pair, and it is not; null when every node is less. *)
Theorem seekge_returns_the_first_not_less (m : Mem Score) (zs : ZSet) (t : tree)
    (sc : Score) (nm : string) :
  let below := fun a => zless_key score_ne score_lt (infos m) a sc nm in
  avl_inv (zless_node score_ne score_lt (infos m)) (trees m) (root zs) t ->
  exists r,
    zset_seekge score_ne score_lt m zs sc nm = Some r /\
    match r with
    | Some x => exists before after,
                  inorder t = before ++ x :: after /\ below x = false /\
                  forall y, y ∈ before -> below y = true
    | None => forall y, y ∈ inorder t -> below y = true
    end.
Proof.
  intros below (Hroot & Hr & Hb & Hs).
  apply (sorted_strongly _ (zless_node_trans (infos m))) in Hs.
  assert (Hnd : NoDup (inorder t)).
  { apply (strongly_sorted_NoDup (zless_node score_ne score_lt (infos m))); [|assumption].
    intros a. unfold lt, zless_node. destruct (infos m !! a); [|discriminate].
    rewrite zless_irrefl. discriminate. }
  pose proof (theight_le_size (trees m) None t Hr Hnd) as Hh.
  exists (find_ge below (inorder t)). split.
  - rewrite zset_seekge_loop. fold below. rewrite Hroot.
    rewrite (seek_loop_spec (zless_node score_ne score_lt (infos m)) below (trees m) t
               (zless_key_down (infos m) sc nm) (size (trees m)) None None Hr Hs Hh).
    destruct (find_ge below (inorder t)); reflexivity.
  - apply find_ge_spec.
Qed.

End Scores.

(** Integer scores. *)
Lemma score_ne_spec (a b : Z) : ZSetFacts.score_ne a b = false <-> a = b.
Proof. unfold ZSetFacts.score_ne. rewrite negb_false_iff. apply Z.eqb_eq. Qed.

Lemma score_lt_irrefl (a : Z) : ZSetFacts.score_lt a a = false.
Proof. apply Z.ltb_irrefl. Qed.

Lemma score_lt_trans (a b c : Z) :
  ZSetFacts.score_lt a b = true -> ZSetFacts.score_lt b c = true ->
  ZSetFacts.score_lt a c = true.
Proof. unfold ZSetFacts.score_lt. rewrite !Z.ltb_lt. lia. Qed.

Lemma score_lt_total (a b : Z) :
  a <> b -> ZSetFacts.score_lt a b = true \/ ZSetFacts.score_lt b a = true.
Proof. unfold ZSetFacts.score_lt. rewrite !Z.ltb_lt. lia. Qed.

Lemma zless_is_a_strict_total_order_witness :
  (forall sc nm, zless ZSetFacts.score_ne ZSetFacts.score_lt sc nm sc nm = false) /\
  (forall s1 n1 s2 n2 s3 n3,
     zless ZSetFacts.score_ne ZSetFacts.score_lt s1 n1 s2 n2 = true ->
     zless ZSetFacts.score_ne ZSetFacts.score_lt s2 n2 s3 n3 = true ->
     zless ZSetFacts.score_ne ZSetFacts.score_lt s1 n1 s3 n3 = true) /\
  (forall s1 n1 s2 n2,
     (s1, n1) <> (s2, n2) ->
     zless ZSetFacts.score_ne ZSetFacts.score_lt s1 n1 s2 n2 = true \/
     zless ZSetFacts.score_ne ZSetFacts.score_lt s2 n2 s1 n1 = true) /\
  (forall sc nm nm',
     zless ZSetFacts.score_ne ZSetFacts.score_lt sc nm sc nm'
     = lexlt (list_byte_of_string nm) (list_byte_of_string nm')).
Proof.
  exact (zless_is_a_strict_total_order ZSetFacts.score_ne ZSetFacts.score_lt
           score_ne_spec score_lt_irrefl score_lt_trans score_lt_total).
Defined.

(** Three nodes, on the heap of [AvlExample]: (1, "a"), (2, "b") and
    (2, "c"), the second at the root. *)
Definition m3 : Mem Z :=
  mkMem AvlExample.h0
        (<[1%positive := mkZInfo 0 1 "a"]>
           (<[2%positive := mkZInfo 0 2 "b"]>
              (<[3%positive := mkZInfo 0 2 "c"]> ∅))).

Definition zs3 : ZSet := mkZSet (Some 2%positive) (HM.mkHMap HashTable.HTab_zero HashTable.HTab_zero 0).

Lemma m3_inv :
  avl_inv (zless_node ZSetFacts.score_ne ZSetFacts.score_lt (infos m3)) (trees m3) (root zs3)
          AvlExample.t0.
Proof.
  destruct AvlExample.h0_inv as (H1 & H2 & H3 & _).
  unfold avl_inv. split_and!; auto.
  repeat constructor.
Qed.

Lemma hcmp_is_name_equality_witness :
  hcmp m3 (ZNodeHmap 3%positive) (HKeyNode 77 "c") = true
  <-> name (mkZInfo 0 2 "c") = "c"%string.
Proof.
  apply (hcmp_is_name_equality m3 3%positive (mkZInfo 0 2 "c") 77 "c"). reflexivity.
Defined.

Lemma seekge_returns_the_first_not_less_witness :
  let below := fun a => zless_key ZSetFacts.score_ne ZSetFacts.score_lt (infos m3) a 2 "bb" in
  exists r,
    zset_seekge ZSetFacts.score_ne ZSetFacts.score_lt m3 zs3 2 "bb" = Some r /\
    match r with
    | Some x => exists before after,
                  inorder AvlExample.t0 = before ++ x :: after /\ below x = false /\
                  forall y, y ∈ before -> below y = true
    | None => forall y, y ∈ inorder AvlExample.t0 -> below y = true
    end.
Proof.
  exact (seekge_returns_the_first_not_less ZSetFacts.score_ne ZSetFacts.score_lt
           score_ne_spec score_lt_irrefl score_lt_trans
           m3 zs3 AvlExample.t0 2 "bb" m3_inv).
Defined.

Example seekge_evaluated :
  zset_seekge ZSetFacts.score_ne ZSetFacts.score_lt m3 zs3 2 "bb" = Some (Some 3%positive).
Proof. vm_compute. reflexivity. Qed.

End ZSetOrderFacts.

(** ** The ordered set: the tree side of an insert and of an update *)

Module ZSetTreeFacts.

Import Avl AvlFacts ZSet ZSetOrderFacts.

Definition fresh_node : AVLNode := mkAVLNode None None None 1 1.

Section Scores.
Context {Score : Type}.
Variable score_ne : Score -> Score -> bool.
Variable score_lt : Score -> Score -> bool.

Abbreviation zless_of es := (zless_node score_ne score_lt es).

(** [tree_insert] on the heap, for a node that [avl_init] has set up. *)
Lemma tree_insert_spec (m : Mem Score) (zs : ZSet) (t : tree) (x : positive) :
  root zs = root_of t -> repr (trees m) None t -> NoDup (inorder t) ->
  x ∉ inorder t -> fits (Node t x Leaf) -> trees m !! x = Some fresh_node ->
  exists h' a,
    tree_insert score_ne score_lt m zs x
    = Some (mkMem h' (infos m), mkZSet (Some a) (hmap zs)) /\
    root_of (insert_shape (zless_of (infos m) x) x t) = Some a /\
    repr h' None (insert_shape (zless_of (infos m) x) x t).
Proof.
  intros Hroot Hr Hnd Hx Hfit Hinit. unfold tree_insert. rewrite Hroot.
  set (h0 := trees m) in *. set (less := zless_of (infos m)).
  set (c := ins_ctx (less x) t []).
  pose proof (descend_spec (less x) t [] h0 None (size h0) Hr
                (theight_le_size h0 None t Hr Hnd)) as Hd.
  simpl in Hd. rewrite Hd. fold c. cbn [mbind option_bind].
  assert (Hplug : plug Leaf c = t) by apply plug_ins_ctx.
  assert (Hr0' : repr h0 None (plug Leaf c)) by (rewrite Hplug; assumption).
  destruct (repr_plug_inv c h0 Leaf Hr0') as (par & _ & Hc).
  assert (Nc : NoDup (ctx_addrs c)).
  { rewrite <- Hplug in Hnd. apply NoDup_plug in Hnd. exact Hnd. }
  assert (Hxc : x ∉ ctx_addrs c).
  { intros H. apply Hx. rewrite <- Hplug, inorder_plug.
    rewrite (ctx_addrs_perm c) in H. simpl. exact H. }
  destruct (store_from_hole c h0 None par (Some x) Hc Nc) as (h1 & Hs1 & Hc1 & Hpar & Hoth1 & _).
  destruct (hole_link c) as [par' from] eqn:Hl. simpl in Hs1, Hpar. subst par'.
  rewrite Hs1. cbn [mbind option_bind].
  assert (Hx1 : h1 !! x = Some fresh_node) by (rewrite Hoth1 by assumption; exact Hinit).
  rewrite (store_Some h1 x _ _ Hx1). cbn [mbind option_bind].
  set (h2 := <[x := set_parent par fresh_node]> h1).
  assert (Hs2 : shape h2 par Leaf x Leaf).
  { eexists. unfold h2. rewrite lookup_insert_eq. split; [reflexivity|].
    simpl. split_and!; auto. }
  assert (Hc2 : ctx_repr h2 (Some x) c par).
  { eapply ctx_repr_agree; [|exact Hc1]. intros b Hb. unfold h2.
    apply lookup_insert_ne. intros ->. contradiction. }
  assert (Hfitc : fits (plug (Node Leaf x Leaf) c)).
  { unfold fits in *. cbn [tsize] in Hfit. rewrite <- Hplug in Hfit.
    rewrite !tsize_inorder, !inorder_plug, !length_app in *. simpl in *. lia. }
  destruct (avl_update_spec h2 par Leaf x Leaf Hs2) as (h3 & Hu & Hr3 & Hoth3).
  { intros H. inversion H. }
  { intros H. inversion H. }
  { eapply fits_plug. exact Hfitc. }
  rewrite Hu. cbn [mbind option_bind].
  assert (Hc3 : ctx_repr h3 (Some x) c par).
  { eapply ctx_repr_agree; [|exact Hc2]. intros b Hb. apply Hoth3. intros ->. contradiction. }
  destruct (avl_fix_spec c h3 Leaf x Leaf par (repr_shape _ _ _ _ _ Hr3) Hc3)
    as (h' & a & Hfix & Hroot' & Hr' & _).
  { simpl. apply NoDup_cons. auto. }
  { exact Hfitc. }
  rewrite Hfix. cbn [mbind option_bind]. exists h', a.
  assert (Hreb : rebal (Node Leaf x Leaf) = Node Leaf x Leaf) by reflexivity.
  rewrite Hreb in Hroot', Hr'. unfold insert_shape. fold c. split_and!; auto.
Qed.

(** The scores are totally ordered by [<], and [!=] is the negation of
    equality: true of numbers, not of NaN. *)
Hypothesis ne_spec : forall a b, score_ne a b = false <-> a = b.
Hypothesis lt_irrefl : forall a, score_lt a a = false.
Hypothesis lt_trans : forall a b c, score_lt a b = true -> score_lt b c = true ->
                                    score_lt a c = true.
Hypothesis lt_total : forall a b, a <> b -> score_lt a b = true \/ score_lt b a = true.

Lemma zless_of_trans (es : gmap positive (ZInfo Score)) (a b c : positive) :
  lt (zless_of es) a b -> lt (zless_of es) b c -> lt (zless_of es) a c.
Proof. apply (zless_node_trans score_ne score_lt ne_spec lt_irrefl lt_trans). Qed.

Lemma zless_of_irrefl (es : gmap positive (ZInfo Score)) (a : positive) :
  ~ lt (zless_of es) a a.
Proof.
  unfold lt, zless_node. destruct (es !! a); [|discriminate].
  rewrite (zless_irrefl score_ne score_lt lt_irrefl). discriminate.
Qed.

(** The pair a node is ordered by. *)
Definition zkey (es : gmap positive (ZInfo Score)) (a : positive) : option (Score * string) :=
  zi ← es !! a; Some (score zi, name zi).

(** [x] has a pair, and every node of the list has one that differs from
    it. *)
Definition new_pair (es : gmap positive (ZInfo Score)) (x : positive) (l : list positive)
  : Prop :=
  is_Some (zkey es x) /\
  forall a, a ∈ l -> is_Some (zkey es a) /\ zkey es a <> zkey es x.

Lemma new_pair_fresh (es : gmap positive (ZInfo Score)) (x : positive) (l : list positive) :
  new_pair es x l -> fresh_key (zless_of es) x l.
Proof.
  intros [[kx Hx] Hl] a Ha. destruct (Hl a Ha) as [[ka Hka] Hne].
  unfold zkey in *. unfold lt, zless_node.
  destruct (es !! x) as [zx|]; [|discriminate].
  destruct (es !! a) as [za|]; [|discriminate]. simpl in *.
  apply (zless_total score_ne score_lt ne_spec lt_total). congruence.
Qed.

Lemma tree_insert_inv (m : Mem Score) (zs : ZSet) (t : tree)
    (x : positive) :
  avl_inv (zless_of (infos m)) (trees m) (root zs) t ->
  trees m !! x = Some fresh_node -> new_pair (infos m) x (inorder t) ->
  fits (Node t x Leaf) ->
  exists h' root' t',
    tree_insert score_ne score_lt m zs x
    = Some (mkMem h' (infos m), mkZSet root' (hmap zs)) /\
    avl_inv (zless_of (infos m)) h' root' t' /\
    inorder t' ≡ₚ x :: inorder t.
Proof.
  intros (Hroot & Hr & Hb & Hs) Hinit Hnew Hfit.
  apply (sorted_strongly _ (zless_of_trans (infos m))) in Hs.
  pose proof (strongly_sorted_NoDup _ (zless_of_irrefl (infos m)) _ Hs) as Hnd.
  pose proof (new_pair_fresh _ _ _ Hnew) as Hfresh.
  assert (Hx : x ∉ inorder t).
  { intros Hin. destruct (Hfresh x Hin) as [H|H]; exact (zless_of_irrefl _ _ H). }
  destruct (tree_insert_spec m zs t x Hroot Hr Hnd Hx Hfit Hinit) as (h' & a & Hi & Ha & Hr').
  destruct (inorder_insert_shape _ (zless_of_trans (infos m)) x t)
    as (before & after & E1 & E2 & Hsorted).
  exists h', (Some a), (insert_shape (zless_of (infos m) x) x t). split_and!; auto.
  - unfold avl_inv. split_and!; auto.
    + apply balanced_insert_shape. assumption.
    + apply (sorted_strongly _ (zless_of_trans (infos m))). rewrite E2.
      apply Hsorted; assumption.
  - rewrite E1, E2. symmetry. apply Permutation_middle.
Qed.


(** X20: when the scores are totally ordered ([!=] is the negation of
    equality and [<] is irreflexive, transitive and total, as on the
    doubles other than NaN), [tree_insert] of a node that [avl_init] has
    set up and whose pair of score and name differs from those of the
    nodes of the tree returns; the tree holds the old nodes and the new
    one and satisfies the AVL invariants again, in the order of
    [zless_node]; the hash index and the scores and names are not
    touched. *)
Theorem tree_insert_keeps_the_tree_ordered (m : Mem Score) (zs : ZSet) (t : tree)
    (x : positive) :
  avl_inv (zless_of (infos m)) (trees m) (root zs) t ->
  trees m !! x = Some fresh_node -> new_pair (infos m) x (inorder t) ->
  fits (Node t x Leaf) ->
  exists h' root' t',
    tree_insert score_ne score_lt m zs x
    = Some (mkMem h' (infos m), mkZSet root' (hmap zs)) /\
    avl_inv (zless_of (infos m)) h' root' t' /\
    inorder t' ≡ₚ x :: inorder t.
Proof. apply tree_insert_inv. Qed.

Lemma StronglySorted_ext (R R' : positive -> positive -> Prop) (l : list positive) :
  (forall a b, a ∈ l -> b ∈ l -> R a b -> R' a b) ->
  StronglySorted R l -> StronglySorted R' l.
Proof.
  induction l as [|x l IH]; intros Hext Hs; [constructor|].
  apply StronglySorted_cons in Hs as [Hall Hs]. apply StronglySorted_cons. split.
  - rewrite Forall_forall in *. intros b Hb. apply Hext; auto.
    + apply elem_of_cons. auto.
    + apply elem_of_cons. auto.
  - apply IH; auto. intros a b Ha Hb. apply Hext; apply elem_of_cons; auto.
Qed.

(** X21: [zset_update], the path of [zset_insert] for a name that is
    already in the set: the node is taken out of the tree, given the new
    score and put back.  When the scores are totally ordered ([!=] is the
    negation of equality and [<] is irreflexive, transitive and total, as
    on the doubles other than NaN) and no other node carries the new pair
    of score and name, the call returns, the tree holds the same nodes as
    before and satisfies the AVL invariants in the order of the new
    scores; the hash index is not touched. *)
Theorem zset_update_keeps_the_tree_ordered (m : Mem Score) (zs : ZSet) (t : tree)
    (x : positive) (zi : ZInfo Score) (sc : Score) :
  let es' := <[x := mkZInfo (z_hcode zi) sc (name zi)]> (infos m) in
  avl_inv (zless_of (infos m)) (trees m) (root zs) t ->
  x ∈ inorder t -> infos m !! x = Some zi ->
  (forall a, a ∈ inorder t -> a <> x ->
     is_Some (zkey (infos m) a) /\ zkey (infos m) a <> Some (sc, name zi)) ->
  fits t ->
  exists h' root' t',
    zset_update score_ne score_lt m zs x sc = Some (mkMem h' es', mkZSet root' (hmap zs)) /\
    avl_inv (zless_of es') h' root' t' /\
    inorder t' ≡ₚ inorder t.
Proof.
  intros es' Hinv Hx Hzi Hothers Hfit.
  pose proof Hinv as (_ & _ & _ & Hs0).
  apply (sorted_strongly _ (zless_of_trans (infos m))) in Hs0.
  pose proof (strongly_sorted_NoDup _ (zless_of_irrefl (infos m)) _ Hs0) as Hnd0.
  destruct (delete_keeps_inv _ (zless_of_trans (infos m)) (zless_of_irrefl (infos m))
              (trees m) (root zs) t x Hinv Hx Hfit)
    as (h1 & root1 & t1 & Hdel & (Hroot1 & Hr1 & Hb1 & Hs1) & Hp).
  assert (Hx1 : x ∉ inorder t1).
  { rewrite <- Hp in Hnd0. apply NoDup_cons in Hnd0 as [H _]. exact H. }
  assert (Hsub : forall a, a ∈ inorder t1 -> a ∈ inorder t /\ a <> x).
  { intros a Ha. split; [rewrite <- Hp; apply elem_of_cons; auto|]. intros ->. contradiction. }
  unfold zset_update. rewrite Hdel. cbn [mbind option_bind]. rewrite Hzi.
  cbn [mbind option_bind]. fold es'.
  set (m2 := mkMem (avl_init h1 x) es').
  assert (Hinv2 : avl_inv (zless_of (infos m2)) (trees m2) (root (mkZSet root1 (hmap zs))) t1).
  { unfold avl_inv. cbn [infos trees root m2]. split_and!; auto.
    - unfold avl_init. apply repr_insert_other; assumption.
    - apply (sorted_strongly _ (zless_of_trans es')).
      apply (sorted_strongly _ (zless_of_trans (infos m))) in Hs1.
      eapply StronglySorted_ext; [|exact Hs1].
      intros a b Ha Hb. unfold lt, zless_node, es'.
      rewrite !lookup_insert_ne by (intros ->; contradiction). auto. }
  assert (Hnew : new_pair (infos m2) x (inorder t1)).
  { cbn [infos m2]. unfold new_pair, zkey, es'. rewrite lookup_insert_eq.
    cbn [mbind option_bind score name]. split; [eauto|].
    intros a Ha. destruct (Hsub a Ha) as [Hin Hne].
    rewrite lookup_insert_ne by congruence. apply (Hothers a Hin Hne). }
  assert (Hfit2 : fits (Node t1 x Leaf)).
  { unfold fits in *. cbn [tsize]. rewrite !tsize_inorder in *.
    rewrite <- Hp in Hfit. simpl in Hfit. lia. }
  destruct (tree_insert_inv m2 (mkZSet root1 (hmap zs)) t1 x Hinv2) as
    (h' & root' & t' & Hi & Hinv' & Hp'); auto.
  { cbn [trees m2]. unfold avl_init. apply lookup_insert_eq. }
  exists h', root', t'. cbn [infos hmap m2] in Hi, Hinv'. split_and!; auto.
  rewrite Hp'. exact Hp.
Qed.

End Scores.


(** The three-node set of [ZSetOrderFacts.m3], and a fourth node that
    [znode_new] has set up. *)
Definition m4 : Mem Z :=
  mkMem (<[4%positive := fresh_node]> (trees m3))
        (<[4%positive := mkZInfo 0 3 "d"]> (infos m3)).

Lemma m4_inv :
  avl_inv (zless_node ZSetFacts.score_ne ZSetFacts.score_lt (infos m4)) (trees m4) (root zs3)
          AvlExample.t0.
Proof.
  destruct m3_inv as (H1 & H2 & H3 & _).
  unfold avl_inv. split_and!; [exact H1| |exact H3|repeat constructor].
  apply repr_insert_other; [|exact H2].
  intros H. apply list_elem_of_In in H. simpl in H.
  destruct H as [H|[H|[H|[]]]]; discriminate.
Qed.

Lemma m4_new_pair : new_pair (infos m4) 4%positive (inorder AvlExample.t0).
Proof.
  split; [eexists; reflexivity|].
  intros a Ha. apply list_elem_of_In in Ha. simpl in Ha.
  destruct Ha as [<-|[<-|[<-|[]]]]; (split; [eexists; reflexivity|vm_compute; discriminate]).
Qed.

Lemma tree_insert_keeps_the_tree_ordered_witness :
  exists h' root' t',
    tree_insert ZSetFacts.score_ne ZSetFacts.score_lt m4 zs3 4%positive
    = Some (mkMem h' (infos m4), mkZSet root' (hmap zs3)) /\
    avl_inv (zless_node ZSetFacts.score_ne ZSetFacts.score_lt (infos m4)) h' root' t' /\
    inorder t' ≡ₚ 4%positive :: inorder AvlExample.t0.
Proof.
  apply (tree_insert_keeps_the_tree_ordered ZSetFacts.score_ne ZSetFacts.score_lt
           score_ne_spec score_lt_irrefl score_lt_trans score_lt_total
           m4 zs3 AvlExample.t0 4%positive m4_inv).
  - reflexivity.
  - exact m4_new_pair.
  - unfold fits. simpl. lia.
Defined.

Lemma zset_update_keeps_the_tree_ordered_witness :
  let es' := <[1%positive := mkZInfo 0 5 "a"]> (infos m3) in
  exists h' root' t',
    zset_update ZSetFacts.score_ne ZSetFacts.score_lt m3 zs3 1%positive 5
    = Some (mkMem h' es', mkZSet root' (hmap zs3)) /\
    avl_inv (zless_node ZSetFacts.score_ne ZSetFacts.score_lt es') h' root' t' /\
    inorder t' ≡ₚ inorder AvlExample.t0.
Proof.
  apply (zset_update_keeps_the_tree_ordered ZSetFacts.score_ne ZSetFacts.score_lt
           score_ne_spec score_lt_irrefl score_lt_trans score_lt_total
           m3 zs3 AvlExample.t0 1%positive (mkZInfo 0 1 "a") 5 m3_inv).
  - apply list_elem_of_In. simpl. auto.
  - reflexivity.
  - intros a Ha Hne. apply list_elem_of_In in Ha. simpl in Ha.
    destruct Ha as [<-|[<-|[<-|[]]]]; try congruence;
      (split; [eexists; reflexivity|vm_compute; discriminate]).
  - unfold fits. simpl. lia.
Defined.

(** The update, evaluated: node 1 moves behind node 3, and the tree is
    rebuilt around node 2. *)
Example zset_update_evaluated :
  (fun r => root (snd r)) <$>
    zset_update ZSetFacts.score_ne ZSetFacts.score_lt m3 zs3 1%positive 5
  = Some (Some 3%positive).
Proof. vm_compute. reflexivity. Qed.

End ZSetTreeFacts.

(** ** The loop of [main] on one connection *)

Module PollFacts.

Import HashTable HashTableFacts Server Client ServerIo ServerFacts ProtocolFacts FrameFacts
       ServerLoopFacts.

(** The flags agree with the buffer: a connection waits to write exactly
    when it has bytes to send, and to read otherwise. *)
Definition conn_inv (conn : Conn) : Prop :=
  want_read conn = negb (want_write conn) /\
  (want_write conn = true <-> outgoing conn <> []).

(** One turn of [try_one_request]: it returns, keeps the database well
    formed and the two flags as they are, and takes at least four bytes off
    [incoming] when it asks for another turn. *)
Lemma try_one_request_step (conn : Conn) (g : Data) :
  data_wf g ->
  exists again conn' g',
    try_one_request conn g = Some (again, conn', g') /\ data_wf g' /\
    want_read conn' = want_read conn /\ want_write conn' = want_write conn /\
    (again = true -> (length (incoming conn') + 4 <= length (incoming conn))%nat).
Proof.
  intros Hwf. unfold try_one_request.
  destruct (length (incoming conn) <? 4)%nat eqn:E4;
    [exists false, conn, g; split_and!; auto; discriminate|].
  destruct (k_max_msg <? le_value (take 4 (incoming conn))) eqn:Emax;
    [eexists false, _, g; split_and!; eauto; discriminate|].
  destruct (Z.of_nat (length (incoming conn)) <? 4 + le_value (take 4 (incoming conn))) eqn:El;
    [exists false, conn, g; split_and!; auto; discriminate|].
  destruct (parse_req _) as [cmd|];
    [|eexists false, _, g; split_and!; eauto; discriminate].
  destruct (response_begin (outgoing conn)) as [out0 pos].
  destruct (do_request_total g cmd out0 Hwf) as (g' & out' & H & Hwf').
  rewrite H. cbn [mbind option_bind].
  eexists true, _, g'. split_and!; eauto. intros _. cbn [incoming].
  unfold buf_consume. rewrite length_drop.
  pose proof (le_value_range (take 4 (incoming conn))).
  apply Z.ltb_ge in El. lia.
Qed.

(** The loop [while (try_one_request(conn)) {}] ends. *)
Lemma request_loop_total (fuel : nat) :
  forall conn g, data_wf g -> (length (incoming conn) < fuel)%nat ->
    exists conn' g',
      request_loop fuel conn g = Some (conn', g') /\ data_wf g' /\
      want_read conn' = want_read conn /\ want_write conn' = want_write conn.
Proof.
  induction fuel as [|fuel IH]; intros conn g Hwf Hf; [lia|].
  cbn [request_loop].
  destruct (try_one_request_step conn g Hwf) as (again & c1 & g1 & H & Hwf1 & Hr & Hw & Hlen).
  rewrite H. cbn [mbind option_bind]. destruct again; [|eauto 10].
  destruct (IH c1 g1 Hwf1) as (c2 & g2 & H2 & Hwf2 & Hr2 & Hw2); [specialize (Hlen eq_refl); lia|].
  exists c2, g2. split_and!; auto; congruence.
Qed.

Lemma handle_write_inv (conn : Conn) (w : write_result) :
  want_write conn = true -> conn_inv conn ->
  exists conn', handle_write conn w = Some conn' /\ conn_inv conn'.
Proof.
  intros Hw [Hr Hout]. unfold handle_write.
  destruct (outgoing conn) as [|b out] eqn:Eo; [exfalso; apply Hout; auto|].
  destruct w as [| |rv].
  - exists conn. split; [reflexivity|]. split; [assumption|]. rewrite Eo. assumption.
  - eexists. split; [reflexivity|]. unfold conn_inv, set_want_close. cbn. rewrite Eo.
    split; assumption.
  - destruct (buf_consume (b :: out) rv) as [|b' out'] eqn:Ec.
    + eexists. split; [reflexivity|]. unfold conn_inv. cbn. split; [reflexivity|].
      split; [discriminate|congruence].
    + eexists. split; [reflexivity|]. unfold conn_inv. cbn. split; [assumption|].
      split; [discriminate|auto].
Qed.

Lemma handle_read_inv (conn : Conn) (g : Data) (r : read_result) (w : write_result) :
  data_wf g -> want_read conn = true -> conn_inv conn ->
  exists conn' g', handle_read conn g r w = Some (conn', g') /\ conn_inv conn' /\ data_wf g'.
Proof.
  intros Hwf Hr Hinv. pose proof Hinv as [Hrw Hout].
  assert (Hclose : conn_inv (set_want_close conn)) by exact Hinv.
  unfold handle_read. destruct r as [| |[|b buf]]; [eauto..|].
  set (c0 := mkConn _ _ _ _ _ _).
  destruct (request_loop_total (S (length (incoming c0))) c0 g Hwf)
    as (c1 & g1 & H & Hwf1 & Hr1 & Hw1); [lia|].
  rewrite H. cbn [mbind option_bind]. cbn [want_read want_write c0] in Hr1, Hw1.
  destruct (outgoing c1) as [|o out] eqn:Eo.
  - exists c1, g1. split_and!; auto. split; [congruence|]. rewrite Eo.
    rewrite Hw1. rewrite Hr in Hrw. destruct (want_write conn); [discriminate|].
    split; [discriminate|congruence].
  - set (c2 := mkConn _ _ _ _ _ _).
    destruct (handle_write_inv c2 w) as (c3 & H3 & Hinv3); [reflexivity| |].
    + split; [reflexivity|]. cbn. split; [discriminate|reflexivity].
    + rewrite H3. cbn [mbind option_bind]. eauto.
Qed.

(** X22: the flags of a connection agree with its buffers, and the loop of
    [main] relies on it.  When the database is well formed, the connection
    wants to write exactly when [outgoing] is not empty and to read
    otherwise, and [poll] reports [POLLIN] and [POLLOUT] only where they
    were asked for, the body of the loop returns: neither
    [assert(c->want_read)], nor [assert(c->want_write)], nor the assertion
    of [handle_write] that [outgoing] is not empty fails, and the loop over
    [try_one_request] ends.  The connection is then closed, or it is kept
    with flags that agree with its buffers and [want_close] unset. *)
Theorem poll_loop_body_keeps_flags_and_buffers_agreed (conn : Conn) (g : Data) (ready : Ready)
    (r : read_result) (w1 w2 : write_result) :
  data_wf g -> conn_inv conn -> want_close conn = false ->
  (pollin ready = true -> want_read conn = true) ->
  (pollout ready = true -> want_write conn = true) ->
  exists c' g',
    serve_ready conn g ready r w1 w2 = Some (c', g') /\ data_wf g' /\
    match c' with
    | Some conn' => conn_inv conn' /\ want_close conn' = false
    | None => True
    end.
Proof.
  intros Hwf Hinv Hcl Hin Hout. unfold serve_ready.
  destruct (negb _); [exists (Some conn), g; auto|].
  assert (H1 : exists c1 g1,
             (if pollin ready
              then if want_read conn then handle_read conn g r w1 else None
              else Some (conn, g)) = Some (c1, g1) /\ conn_inv c1 /\ data_wf g1 /\
             (pollout ready = true -> want_write c1 = true)).
  { destruct (pollin ready) eqn:Ei.
    - rewrite (Hin eq_refl).
      destruct (handle_read_inv conn g r w1 Hwf (Hin eq_refl) Hinv) as (c1 & g1 & H & Hi & Hw).
      exists c1, g1. split_and!; auto. intros Ho. specialize (Hout Ho).
      destruct Hinv as [Hrw _]. rewrite (Hin eq_refl), Hout in Hrw. discriminate.
    - exists conn, g. auto. }
  destruct H1 as (c1 & g1 & -> & Hinv1 & Hwf1 & Hout1). cbn [mbind option_bind].
  assert (H2 : exists c2,
             (if pollout ready
              then if want_write c1 then handle_write c1 w2 else None
              else Some c1) = Some c2 /\ conn_inv c2).
  { destruct (pollout ready) eqn:Eo; [|eauto].
    rewrite (Hout1 eq_refl). apply handle_write_inv; auto. }
  destruct H2 as (c2 & -> & Hinv2). cbn [mbind option_bind].
  destruct (pollerr ready || want_close c2) eqn:E.
  - exists None, g1. auto.
  - exists (Some c2), g1. apply orb_false_iff in E as [_ E]. auto.
Qed.

(** A connection that has just been accepted, and a first [read] that
    brings a whole request, of which [write] then takes five bytes. *)
Lemma poll_loop_body_keeps_flags_and_buffers_agreed_witness :
  exists c' g',
    serve_ready (handle_accept 5) g_init (mkReady true false false false)
                (RdData (send_cmd ["set"; "k"; "v"]%string)) (Wrote 5) WrAgain
    = Some (c', g') /\ data_wf g' /\
    match c' with
    | Some conn' => conn_inv conn' /\ want_close conn' = false
    | None => True
    end.
Proof.
  apply (poll_loop_body_keeps_flags_and_buffers_agreed (handle_accept 5) g_init
           (mkReady true false false false)).
  - exact g_init_wf.
  - split; [reflexivity|]. cbn. split; [discriminate|congruence].
  - reflexivity.
  - reflexivity.
  - discriminate.
Defined.

(** A run of [handle_write] calls in which [write] accepts [rv] bytes each
    time, with the bytes that leave: [write] takes them from the front of
    [outgoing]. *)
Fixpoint write_run (conn : Conn) (rvs : list Z) : option (Conn * list byte) :=
  match rvs with
  | [] => Some (conn, [])
  | rv :: rvs' =>
      conn' ← handle_write conn (Wrote rv);
      '(c, sent) ← write_run conn' rvs';
      Some (c, take (Z.to_nat rv) (outgoing conn) ++ sent)
  end.

(** X23: partial writes lose nothing and repeat nothing.  When [write]
    accepts the reply in pieces of any positive sizes that add up to the
    length of [outgoing], the run of [handle_write] calls returns, the
    bytes that leave are those of [outgoing] in order, and at the end the
    buffer is empty and the connection is turned back to reading. *)
Theorem partial_writes_send_every_byte_once (rvs : list Z) (conn : Conn) :
  outgoing conn <> [] -> Forall (fun rv => 0 < rv) rvs ->
  foldr Z.add 0 rvs = Z.of_nat (length (outgoing conn)) ->
  write_run conn rvs
  = Some (mkConn (fd conn) true false (want_close conn) (incoming conn) [], outgoing conn).
Proof.
  revert conn. induction rvs as [|rv rvs IH]; intros conn Hne Hpos Hsum.
  - simpl in Hsum. destruct (outgoing conn); [contradiction|simpl in Hsum; lia].
  - apply Forall_cons in Hpos as [Hrv Hpos]. cbn [foldr] in Hsum.
    assert (Hrest : 0 <= foldr Z.add 0 rvs).
    { clear -Hpos. induction Hpos; simpl; lia. }
    cbn [write_run]. unfold handle_write.
    destruct (outgoing conn) as [|b out] eqn:Eo; [contradiction|].
    unfold buf_consume.
    destruct (drop (Z.to_nat rv) (b :: out)) as [|b' out'] eqn:Ed.
    + cbn [mbind option_bind].
      assert (Hlen : (length (b :: out) <= Z.to_nat rv)%nat).
      { apply (f_equal length) in Ed. rewrite length_drop in Ed. cbn [length] in *. lia. }
      destruct rvs as [|rv2 rvs].
      * cbn [write_run mbind option_bind outgoing].
        rewrite take_ge by lia. rewrite app_nil_r. reflexivity.
      * apply Forall_cons in Hpos as [Hrv2 Hpos]. cbn [foldr] in Hsum, Hrest.
        assert (0 <= foldr Z.add 0 rvs) by (clear -Hpos; induction Hpos; simpl; lia).
        lia.
    + cbn [mbind option_bind]. rewrite <- Ed.
      assert (Hlen : (Z.to_nat rv < length (b :: out))%nat).
      { apply (f_equal length) in Ed. rewrite length_drop in Ed. cbn [length] in *. lia. }
      rewrite IH; cbn [outgoing fd want_close incoming].
      * cbn [mbind option_bind]. rewrite take_drop. reflexivity.
      * rewrite Ed. discriminate.
      * assumption.
      * rewrite length_drop. lia.
Qed.

Lemma partial_writes_send_every_byte_once_witness :
  write_run (mkConn 5 false true false [] [x01; x02; x03; x04; x05]) [2; 1; 2]
  = Some (mkConn 5 true false false [] [], [x01; x02; x03; x04; x05]).
Proof.
  apply (partial_writes_send_every_byte_once [2; 1; 2]
           (mkConn 5 false true false [] [x01; x02; x03; x04; x05])).
  - discriminate.
  - repeat constructor.
  - reflexivity.
Defined.

End PollFacts.
